(** * persistent_set: a path-copying binary search tree over shared nodes

    Shallow embedding of [persistent_set<T>] (element type [T := Z]).
    Nodes live in a heap of reference-shared cells ([std::shared_ptr<node>]
    is an optional heap address, [std::shared_ptr<T>] an optional address in
    a second heap of element cells).  Every operation is a computation in a
    state-and-exception monad; element comparisons and allocations may throw,
    which is driven by a countdown kept in the state.  Reference counts
    are not tracked and the heap keeps every cell; the cells whose node is
    alive in the program are those a set object reaches, see [live]. *)

From Stdlib Require Import ZArith Lia.
From stdpp Require Import base option list numbers sorting.

Local Open Scope Z_scope.
#[local] Set Warnings "-clear-no-such-hyp".

(** ** Memory *)

Abbreviation addr := nat (only parsing).

(** [struct node { shared_ptr<T> value; shared_ptr<node> left, right; }] *)
Record node : Type := mk_node {
  value : option addr;
  left : option addr;
  right : option addr
}.

(** [node() = default] *)
Definition node_default : node := mk_node None None None.

Definition with_value (n : node) (v : option addr) : node :=
  mk_node v (left n) (right n).
Definition with_left (n : node) (p : option addr) : node :=
  mk_node (value n) p (right n).
Definition with_right (n : node) (p : option addr) : node :=
  mk_node (value n) (left n) p.

(** [struct persistent_set { node m_root; size_t m_size = 0; }] *)
Record persistent_set : Type := mk_set {
  m_root : node;
  m_size : Z
}.

(** A raw [node*]: the sentinel embedded in a set object, the stack variable
    [tmp] of [erase(iterator)], or a heap cell owned through a shared_ptr. *)
Inductive node_ptr : Type :=
| AtRoot (s : nat)
| AtTmp
| AtHeap (a : addr).

(** [struct iterator { node* node_ptr; persistent_set<T>* set_ptr; }] *)
Record iterator : Type := mk_iterator {
  it_node : node_ptr;
  set_ptr : nat
}.

Record state : Type := mk_state {
  nodes : list node;            (* heap of shared node cells *)
  vals : list Z;                (* heap of shared element cells *)
  sets : list persistent_set;   (* the set objects *)
  tmp : node;                   (* the local [tmp] of erase(iterator) *)
  budget : option nat           (* fallible steps left before one throws *)
}.

Global Instance node_eq_dec : EqDecision node.
Proof. solve_decision. Defined.
Global Instance persistent_set_eq_dec : EqDecision persistent_set.
Proof. solve_decision. Defined.
Global Instance node_ptr_eq_dec : EqDecision node_ptr.
Proof. solve_decision. Defined.
Global Instance iterator_eq_dec : EqDecision iterator.
Proof. solve_decision. Defined.

Definition size_t_mod : Z := 2 ^ 64.

(** ** The monad: state, exceptions, undefined behaviour *)

Inductive outcome (A : Type) : Type :=
| Ret (a : A)      (* normal return *)
| Throw            (* a C++ exception is in flight *)
| Undef.           (* undefined behaviour, or a loop that never ends *)
Arguments Ret {A} a.
Arguments Throw {A}.
Arguments Undef {A}.

Global Instance outcome_eq_dec {A} `{EqDecision A} : EqDecision (outcome A).
Proof. solve_decision. Defined.

Definition M (A : Type) : Type := state → outcome A * state.

Definition ret {A} (a : A) : M A := λ st, (Ret a, st).
Definition undef {A} : M A := λ st, (Undef, st).

Definition bind {A B} (m : M A) (f : A → M B) : M B :=
  λ st, match m st with
        | (Ret a, st') => f a st'
        | (Throw, st') => (Throw, st')
        | (Undef, st') => (Undef, st')
        end.

Notation "'let*' x ':=' m 'in' k" := (bind m (λ x, k))
  (at level 10, x pattern, m at level 100, k at level 200).

(** [try { body } catch (...) { handler; throw; }] *)
Definition try_catch {A} (body : M A) (handler : M unit) : M A :=
  λ st, match body st with
        | (Throw, st') =>
            match handler st' with
            | (Ret _, st'') => (Throw, st'')
            | (Throw, st'') => (Throw, st'')
            | (Undef, st'') => (Undef, st'')
            end
        | r => r
        end.

(** One fallible step: an allocation or an element comparison. *)
Definition tick : M unit :=
  λ st, match budget st with
        | None => (Ret tt, st)
        | Some O => (Throw, st)
        | Some (S k) =>
            (Ret tt, mk_state (nodes st) (vals st) (sets st) (tmp st) (Some k))
        end.

Definition get_set (this : nat) : M persistent_set :=
  λ st, match sets st !! this with
        | Some s => (Ret s, st)
        | None => (Undef, st)
        end.

Definition put_set (this : nat) (s : persistent_set) : M unit :=
  λ st, (Ret tt, mk_state (nodes st) (vals st) (<[this := s]> (sets st))
                          (tmp st) (budget st)).

(** [*p] for a raw node pointer *)
Definition load (p : node_ptr) : M node :=
  λ st, match p with
        | AtRoot s => match sets st !! s with
                      | Some o => (Ret (m_root o), st)
                      | None => (Undef, st)
                      end
        | AtTmp => (Ret (tmp st), st)
        | AtHeap a => match nodes st !! a with
                      | Some n => (Ret n, st)
                      | None => (Undef, st)
                      end
        end.

Definition store (p : node_ptr) (n : node) : M unit :=
  λ st, match p with
        | AtRoot s =>
            match sets st !! s with
            | Some o =>
                (Ret tt, mk_state (nodes st) (vals st)
                           (<[s := mk_set n (m_size o)]> (sets st))
                           (tmp st) (budget st))
            | None => (Undef, st)
            end
        | AtTmp => (Ret tt, mk_state (nodes st) (vals st) (sets st) n (budget st))
        | AtHeap a =>
            match nodes st !! a with
            | Some _ =>
                (Ret tt, mk_state (<[a := n]> (nodes st)) (vals st) (sets st)
                           (tmp st) (budget st))
            | None => (Undef, st)
            end
        end.

(** [*sp] for a [shared_ptr<node>] (or the pointer it hands out by [get()]) *)
Definition load_shared (sp : option addr) : M node :=
  match sp with
  | Some a => load (AtHeap a)
  | None => undef
  end.

(** [*vp] for a [shared_ptr<T>] *)
Definition load_value (vp : option addr) : M Z :=
  λ st, match vp with
        | Some a => match vals st !! a with
                    | Some x => (Ret x, st)
                    | None => (Undef, st)
                    end
        | None => (Undef, st)
        end.

(** [std::make_shared<T>(x)] *)
Definition make_shared_T (x : Z) : M addr :=
  let* _ := tick in
  λ st, (Ret (length (vals st)),
         mk_state (nodes st) (vals st ++ [x]) (sets st) (tmp st) (budget st)).

Definition alloc_node (n : node) : M addr :=
  λ st, (Ret (length (nodes st)),
         mk_state (nodes st ++ [n]) (vals st) (sets st) (tmp st) (budget st)).

(** [std::make_shared<node>(other)]: the copy constructor copies the three
    shared pointers. *)
Definition make_shared_copy (other : node) : M addr :=
  let* _ := tick in
  alloc_node (mk_node (value other) (left other) (right other)).

(** [std::make_shared<node>(x)] through [node(T const&)] *)
Definition make_shared_leaf (x : Z) : M addr :=
  let* _ := tick in
  let* v := make_shared_T x in
  alloc_node (mk_node (Some v) None None).

(** A bound on the length of any pointer chase that terminates. *)
Definition heap_fuel : M nat := λ st, (Ret (S (length (nodes st))), st).

(** Element comparisons *)
Definition T_eq (x y : Z) : M bool := let* _ := tick in ret (x =? y).
Definition T_ne (x y : Z) : M bool := let* _ := tick in ret (negb (x =? y)).
Definition T_lt (x y : Z) : M bool := let* _ := tick in ret (x <? y).
Definition T_gt (x y : Z) : M bool := let* _ := tick in ret (x >? y).

(** ** Nodes *)

(** [operator==(node const&, node const&)]: the three shared pointers are
    compared, that is, the addresses they hold. *)
Definition node_eq (lhs rhs : node) : bool :=
  bool_decide (left lhs = left rhs) && bool_decide (right lhs = right rhs)
  && bool_decide (value lhs = value rhs).

(** [p.get() == q] for a shared pointer [p] and a raw pointer [q] *)
Definition points_at (p : option addr) (q : node_ptr) : bool :=
  bool_decide (AtHeap <$> p = Some q).

(** ** Iterators *)

Definition iterator_eq (lhs rhs : iterator) : bool :=
  bool_decide (set_ptr lhs = set_ptr rhs)
  && bool_decide (it_node lhs = it_node rhs).

(** [iterator end() const] *)
Definition end_ (this : nat) : iterator := mk_iterator (AtRoot this) this.

(** [reference operator*() const] *)
Definition deref (it : iterator) : M Z :=
  let* n := load (it_node it) in
  load_value (value n).

(** ** Searching *)

(** [iterator lower_bound(node* ptr, T const& value)] *)
Fixpoint lower_bound_at (fuel : nat) (this : nat) (ptr : option addr) (v : Z)
  : M iterator :=
  match ptr with
  | None => ret (end_ this)
  | Some a =>
      match fuel with
      | O => undef
      | S fuel =>
          let* n := load (AtHeap a) in
          let* x := load_value (value n) in
          let* e := T_eq x v in
          if e then ret (mk_iterator (AtHeap a) this)
          else
            let* g := T_gt v x in
            if g then lower_bound_at fuel this (right n) v
            else
              let* it := lower_bound_at fuel this (left n) v in
              if iterator_eq it (end_ this)
              then ret (mk_iterator (AtHeap a) this)
              else ret it
      end
  end.

(** [iterator upper_bound(node* ptr, T const& value)] *)
Fixpoint upper_bound_at (fuel : nat) (this : nat) (ptr : option addr) (v : Z)
  : M iterator :=
  match ptr with
  | None => ret (end_ this)
  | Some a =>
      match fuel with
      | O => undef
      | S fuel =>
          let* n := load (AtHeap a) in
          let* x := load_value (value n) in
          let* l := T_lt v x in
          if l then
            let* it := upper_bound_at fuel this (left n) v in
            if iterator_eq it (end_ this)
            then ret (mk_iterator (AtHeap a) this)
            else ret it
          else upper_bound_at fuel this (right n) v
      end
  end.

(** [iterator rev_upper_bound(node* ptr, T* value)] *)
Fixpoint rev_upper_bound_at (fuel : nat) (this : nat) (ptr : option addr)
    (vp : option addr) : M iterator :=
  match ptr with
  | None => ret (end_ this)
  | Some a =>
      match fuel with
      | O => undef
      | S fuel =>
          let* n := load (AtHeap a) in
          let* v := load_value vp in
          let* x := load_value (value n) in
          let* g := T_gt v x in
          if g then
            let* it := rev_upper_bound_at fuel this (right n) vp in
            if iterator_eq it (end_ this)
            then ret (mk_iterator (AtHeap a) this)
            else ret it
          else rev_upper_bound_at fuel this (left n) vp
      end
  end.

(** [while (ptr->left) ptr = ptr->left.get();] *)
Fixpoint leftmost (fuel : nat) (ptr : node_ptr) : M node_ptr :=
  let* n := load ptr in
  match left n with
  | None => ret ptr
  | Some a =>
      match fuel with
      | O => undef
      | S fuel => leftmost fuel (AtHeap a)
      end
  end.

(** [while (ptr->right) ptr = ptr->right.get();] *)
Fixpoint rightmost (fuel : nat) (ptr : node_ptr) : M node_ptr :=
  let* n := load ptr in
  match right n with
  | None => ret ptr
  | Some a =>
      match fuel with
      | O => undef
      | S fuel => rightmost fuel (AtHeap a)
      end
  end.

(** [iterator begin() const] *)
Definition begin (this : nat) : M iterator :=
  let* fuel := heap_fuel in
  let* p := leftmost fuel (AtRoot this) in
  ret (mk_iterator p this).

(** [iterator lower_bound(T const& value)] *)
Definition lower_bound (this : nat) (v : Z) : M iterator :=
  let* s := get_set this in
  let* fuel := heap_fuel in
  lower_bound_at fuel this (left (m_root s)) v.

(** [iterator upper_bound(T const& value)] *)
Definition upper_bound (this : nat) (v : Z) : M iterator :=
  let* s := get_set this in
  let* fuel := heap_fuel in
  upper_bound_at fuel this (left (m_root s)) v.

(** [iterator rev_upper_bound(T* value)] *)
Definition rev_upper_bound (this : nat) (vp : option addr) : M iterator :=
  match vp with
  | None =>
      let* s := get_set this in
      match left (m_root s) with
      | None => undef
      | Some a =>
          let* fuel := heap_fuel in
          let* p := rightmost fuel (AtHeap a) in
          ret (mk_iterator p this)
      end
  | Some _ =>
      let* s := get_set this in
      let* fuel := heap_fuel in
      rev_upper_bound_at fuel this (left (m_root s)) vp
  end.

(** [iterator find(T const& value)] *)
Definition find (this : nat) (v : Z) : M iterator :=
  let* lb := lower_bound this v in
  if iterator_eq lb (end_ this) then ret (end_ this)
  else
    let* lb' := lower_bound this v in
    let* x := deref lb' in
    let* ne := T_ne x v in
    if ne then ret (end_ this) else lower_bound this v.

(** [iterator& operator++() &] *)
Definition incr (it : iterator) : M iterator :=
  let* n := load (it_node it) in
  let* x := load_value (value n) in
  upper_bound (set_ptr it) x.

(** [iterator& operator--() &] *)
Definition decr (it : iterator) : M iterator :=
  let* n := load (it_node it) in
  rev_upper_bound (set_ptr it) (value n).

(** ** Mutation by path copying *)

Definition non_null (p : option addr) : bool :=
  match p with Some _ => true | None => false end.

(** [p->left = q] and [p->right = q] *)
Definition set_left (p : node_ptr) (q : option addr) : M unit :=
  let* n := load p in store p (with_left n q).
Definition set_right (p : node_ptr) (q : option addr) : M unit :=
  let* n := load p in store p (with_right n q).

(** [p->left = std::make_shared<node>( *p->left )], giving the new cell *)
Definition copy_left (p : node_ptr) : M addr :=
  let* n := load p in
  let* child := load_shared (left n) in
  let* c := make_shared_copy child in
  let* _ := set_left p (Some c) in
  ret c.

(** [p->right = std::make_shared<node>( *p->right )], giving the new cell *)
Definition copy_right (p : node_ptr) : M addr :=
  let* n := load p in
  let* child := load_shared (right n) in
  let* c := make_shared_copy child in
  let* _ := set_right p (Some c) in
  ret c.

(** [void insert(node& next, T const& val)] *)
Fixpoint insert_at (fuel : nat) (next : addr) (val : Z) : M unit :=
  match fuel with
  | O => undef
  | S fuel =>
      let* n := load (AtHeap next) in
      let* x := load_value (value n) in
      let* l := T_lt val x in
      if l then
        if non_null (left n) then
          let* c := copy_left (AtHeap next) in
          insert_at fuel c val
        else
          let* c := make_shared_leaf val in
          set_left (AtHeap next) (Some c)
      else
        if non_null (right n) then
          let* c := copy_right (AtHeap next) in
          insert_at fuel c val
        else
          let* c := make_shared_leaf val in
          set_right (AtHeap next) (Some c)
  end.

(** [m_root = n] and [m_size = k] on the set object *)
Definition set_m_root (this : nat) (n : node) : M unit :=
  let* s := get_set this in put_set this (mk_set n (m_size s)).
Definition set_m_size (this : nat) (k : Z) : M unit :=
  let* s := get_set this in put_set this (mk_set (m_root s) k).

(** [std::pair<iterator, bool> insert(T const& value)] *)
Definition insert (this : nat) (v : Z) : M (iterator * bool) :=
  let* it := find this v in
  if negb (iterator_eq it (end_ this)) then
    let* it' := find this v in
    ret (it', false)
  else
    let* s := get_set this in
    let back_up := m_root s in
    let back_up_size := m_size s in
    try_catch
      (let* s := get_set this in
       let tmp := m_root s in
       let* tmp' :=
         if non_null (left tmp) then
           let* child := load_shared (left tmp) in
           let* c := make_shared_copy child in
           let* fuel := heap_fuel in
           let* _ := insert_at fuel c v in
           ret (with_left tmp (Some c))
         else
           let* c := make_shared_leaf v in
           ret (with_left tmp (Some c)) in
       let* _ := set_m_root this tmp' in
       let* s := get_set this in
       let* _ := set_m_size this ((m_size s + 1) mod size_t_mod) in
       let* it := find this v in
       ret (it, true))
      (let* _ := set_m_root this back_up in
       set_m_size this back_up_size).

(** [void erase_impl(node* parent, node* son)] *)
Definition erase_impl (parent son : node_ptr) : M unit :=
  let* s := load son in
  let* p := load parent in
  if negb (non_null (left s)) && negb (non_null (right s)) then
    if points_at (left p) son then set_left parent None
    else set_right parent None
  else if points_at (left p) son then
    if non_null (left s) then set_left parent (left s)
    else set_left parent (right s)
  else
    if non_null (left s) then set_right parent (left s)
    else set_right parent (right s).

(** [std::swap(p->value, q->value)] *)
Definition swap_value (p q : node_ptr) : M unit :=
  let* np := load p in
  let* nq := load q in
  let* _ := store p (with_value np (value nq)) in
  let* nq' := load q in
  store q (with_value nq' (value np)).

(** The inner loop of [erase]:
    [while (next->right) { tmp_prev = next; next->right = copy; next = ...}] *)
Fixpoint descend_right (fuel : nat) (tmp_prev next : node_ptr)
  : M (node_ptr * node_ptr) :=
  let* n := load next in
  if non_null (right n) then
    match fuel with
    | O => undef
    | S fuel =>
        let* c := copy_right next in
        descend_right fuel next (AtHeap c)
    end
  else ret (tmp_prev, next).

(** The [while (true)] loop of [void erase(T const& value, node* prev)] *)
Fixpoint erase_loop (fuel : nat) (v : Z) (prev next : node_ptr) : M unit :=
  match fuel with
  | O => undef
  | S fuel =>
      let* n := load next in
      let* x := load_value (value n) in
      let* e := T_eq x v in
      if e then
        if non_null (left n) && non_null (right n) then
          let prev := next in
          let* c := copy_left next in
          let* tn := descend_right fuel prev (AtHeap c) in
          let* _ := swap_value prev (snd tn) in
          erase_impl (fst tn) (snd tn)
        else erase_impl prev next
      else
        let* l := T_lt v x in
        if l then
          let* c := copy_left next in
          erase_loop fuel v next (AtHeap c)
        else
          let* c := copy_right next in
          erase_loop fuel v next (AtHeap c)
  end.

(** [void erase(T const& value, node* prev)] *)
Definition erase_at (v : Z) (prev : node_ptr) : M unit :=
  let* c := copy_left prev in
  let* fuel := heap_fuel in
  erase_loop fuel v prev (AtHeap c).

(** [iterator erase(iterator it)] *)
Definition erase (this : nat) (it : iterator) : M iterator :=
  let* s := get_set this in
  let back_up := m_root s in
  let back_up_size := m_size s in
  try_catch
    (let* n := load (it_node it) in
     let tmp_val := value n in
     let* s := get_set this in
     let* _ := store AtTmp (m_root s) in
     let* v := load_value tmp_val in
     let* _ := erase_at v AtTmp in
     let* t := load AtTmp in
     let* _ := set_m_root this t in
     let* s := get_set this in
     let* _ := set_m_size this ((m_size s - 1) mod size_t_mod) in
     let* v := load_value tmp_val in
     lower_bound this v)
    (let* _ := set_m_root this back_up in
     set_m_size this back_up_size).

(** ** Set objects *)

(** [persistent_set() = default] *)
Definition new_set : M nat :=
  λ st, (Ret (length (sets st)),
         mk_state (nodes st) (vals st) (sets st ++ [mk_set node_default 0])
                  (tmp st) (budget st)).

(** [persistent_set(persistent_set const& other)] *)
Definition copy_construct (other : nat) : M nat :=
  let* o := get_set other in
  λ st, (Ret (length (sets st)),
         mk_state (nodes st) (vals st)
                  (sets st ++ [mk_set (m_root o) (m_size o)])
                  (tmp st) (budget st)).

(** [size_t size()] *)
Definition size (this : nat) : M Z :=
  let* s := get_set this in ret (m_size s).

(** [bool empty()] *)
Definition empty (this : nat) : M bool :=
  let* k := size this in ret (k =? 0).

(** [void clear()] *)
Definition clear (this : nat) : M unit :=
  let* _ := set_m_size this 0 in
  let* s := get_set this in
  set_m_root this (with_left (m_root s) None).

(** [operator==(persistent_set const&, persistent_set const&)] *)
Definition set_eq (lhs rhs : nat) : M bool :=
  let* l := get_set lhs in
  let* r := get_set rhs in
  ret (node_eq (m_root l) (m_root r) && (m_size l =? m_size r)).

(** ** Client loops used to observe a set *)

(** [for (; it != end(); ++it) out.push_back( *it );] *)
Fixpoint collect (fuel : nat) (this : nat) (it : iterator) : M (list Z) :=
  if iterator_eq it (end_ this) then ret []
  else
    match fuel with
    | O => undef
    | S fuel =>
        let* x := deref it in
        let* it' := incr it in
        let* xs := collect fuel this it' in
        ret (x :: xs)
    end.

(** The iteration sequence from [begin()] to [end()]. *)
Definition to_list (this : nat) : M (list Z) :=
  let* it := begin this in
  let* fuel := heap_fuel in
  collect fuel this it.

(** [for (v : vs) s.insert(v);] *)
Fixpoint insert_all (this : nat) (vs : list Z) : M unit :=
  match vs with
  | [] => ret tt
  | v :: vs => let* _ := insert this v in insert_all this vs
  end.

Definition init : state := mk_state [] [] [] node_default None.

Definition run {A} (m : M A) (st : state) : outcome A := fst (m st).
Definition exec {A} (m : M A) (st : state) : state := snd (m st).

(** ** Whole-set operations: moving, swapping, assigning *)

(** [operator!=(persistent_set const&, persistent_set const&)] *)
Definition set_ne (lhs rhs : nat) : M bool :=
  let* e := set_eq lhs rhs in ret (negb e).

(** [node(node&& other)]: the three shared pointers are moved out of
    [other], which is left holding null pointers. *)
Definition node_move (other : node_ptr) : M node :=
  let* n := load other in
  let* _ := store other node_default in
  ret (mk_node (value n) (left n) (right n)).

(** [node& operator=(node&& other)] between two nodes in memory: unless
    they are the same node, [other] is moved into a temporary, whose
    pointers [swap] then exchanges with those of [this]. *)
Definition node_move_assign (this other : node_ptr) : M unit :=
  if bool_decide (this ≠ other) then
    let* tmp := node_move other in
    store this tmp
  else ret tt.

(** [std::swap] of two nodes:
    [node tmp(std::move(a)); a = std::move(b); b = std::move(tmp);] *)
Definition std_swap_node (a b : node_ptr) : M unit :=
  let* tmp := node_move a in
  let* _ := node_move_assign a b in
  store b tmp.

(** [std::swap] of the two counters [m_size] *)
Definition std_swap_size (a b : nat) : M unit :=
  let* sa := get_set a in
  let tmp := m_size sa in
  let* sb := get_set b in
  let* _ := set_m_size a (m_size sb) in
  set_m_size b tmp.

(** [void swap(persistent_set& other)] *)
Definition swap (this other : nat) : M unit :=
  let* _ := std_swap_size this other in
  std_swap_node (AtRoot this) (AtRoot other).

(** [friend void swap(persistent_set& left, persistent_set& right)] *)
Definition swap_friend (lhs rhs : nat) : M unit := swap lhs rhs.

(** [persistent_set(persistent_set&& other)] *)
Definition move_construct (other : nat) : M nat :=
  let* o := get_set other in
  let* root := node_move (AtRoot other) in
  λ st, (Ret (length (sets st)),
         mk_state (nodes st) (vals st)
                  (sets st ++ [mk_set root (m_size o)])
                  (tmp st) (budget st)).

(** The end of the lifetime of the set object constructed last, a
    temporary.  Its cells are kept. *)
Definition destroy_temporary : M unit :=
  λ st, (Ret tt, mk_state (nodes st) (vals st) (removelast (sets st))
                          (tmp st) (budget st)).

(** [persistent_set& operator=(persistent_set const& other)] *)
Definition assign (this other : nat) : M unit :=
  let* ne := set_ne this other in
  if ne then
    let* t := copy_construct other in
    let* _ := swap t this in
    destroy_temporary
  else ret tt.

(** [persistent_set& operator=(persistent_set&& other)] *)
Definition move_assign (this other : nat) : M unit :=
  let* ne := set_ne this other in
  if ne then
    let* t := move_construct other in
    let* _ := swap t this in
    destroy_temporary
  else ret tt.

(** ** Reverse iteration *)

(** [std::reverse_iterator<iterator>]: the adaptor of the standard library
    keeps the iterator [current] it was made from. *)
Record reverse_iterator : Type := mk_reverse_iterator {
  current : iterator
}.

(** [reverse_iterator rbegin() const] *)
Definition rbegin (this : nat) : M reverse_iterator :=
  ret (mk_reverse_iterator (end_ this)).

(** [reverse_iterator rend() const] *)
Definition rend (this : nat) : M reverse_iterator :=
  let* b := begin this in ret (mk_reverse_iterator b).

(** [*r] of the adaptor: [iterator tmp = current; return *--tmp;] *)
Definition reverse_deref (r : reverse_iterator) : M Z :=
  let* tmp := decr (current r) in deref tmp.

(** [++r] of the adaptor: [--current] *)
Definition reverse_incr (r : reverse_iterator) : M reverse_iterator :=
  let* c := decr (current r) in ret (mk_reverse_iterator c).

(** [r == e] of the adaptor: the two [current] iterators are compared *)
Definition reverse_iterator_eq (lhs rhs : reverse_iterator) : bool :=
  iterator_eq (current lhs) (current rhs).

(** [for (; r != s.rend(); ++r) out.push_back( *r );] *)
Fixpoint reverse_collect (fuel : nat) (this : nat) (r : reverse_iterator)
  : M (list Z) :=
  let* e := rend this in
  if reverse_iterator_eq r e then ret []
  else
    match fuel with
    | O => undef
    | S fuel =>
        let* x := reverse_deref r in
        let* r' := reverse_incr r in
        let* xs := reverse_collect fuel this r' in
        ret (x :: xs)
    end.

(** The iteration sequence from [rbegin()] to [rend()]. *)
Definition to_list_reverse (this : nat) : M (list Z) :=
  let* r := rbegin this in
  let* fuel := heap_fuel in
  reverse_collect fuel this r.

(** ** A client loop that erases *)

(** [while (it != s.end()) it = s.erase(it);] *)
Fixpoint erase_from (fuel : nat) (this : nat) (it : iterator) : M unit :=
  if iterator_eq it (end_ this) then ret tt
  else
    match fuel with
    | O => undef
    | S fuel =>
        let* it' := erase this it in
        erase_from fuel this it'
    end.

(** Emptying a set element by element, from [begin()]. *)
Definition erase_all (this : nat) : M unit :=
  let* it := begin this in
  let* fuel := heap_fuel in
  erase_from fuel this it.

(** ** The lifetime of nodes

    A node is destroyed when the last [shared_ptr] that owns it goes.
    Between two calls the owners are the roots of the set objects and the
    child pointers of nodes that are themselves alive (the locals [back_up]
    and [tmp] of [insert] and [erase] are gone when the call is over), so
    the nodes alive in the program are the cells some set object reaches;
    every other cell of the heap has been destroyed in the program. *)

(** The cell [a] lies in the tree the shared pointer [p] owns. *)
Fixpoint reaches (fuel : nat) (st : state) (p : option addr) (a : addr)
  : bool :=
  match fuel, p with
  | S fuel, Some b =>
      bool_decide (b = a)
      || match nodes st !! b with
         | Some n => reaches fuel st (left n) a || reaches fuel st (right n) a
         | None => false
         end
  | _, _ => false
  end.

(** The set object [s] owns the cell [a]. *)
Definition owns (st : state) (s : persistent_set) (a : addr) : bool :=
  reaches (S (length (nodes st))) st (left (m_root s)) a
  || reaches (S (length (nodes st))) st (right (m_root s)) a.

(** The node behind a raw [node*] is alive: the sentinel of a set object
    that exists, or a cell some set object owns. *)
Definition live (st : state) (p : node_ptr) : bool :=
  match p with
  | AtRoot s => bool_decide (s < length (sets st))%nat
  | AtTmp => false
  | AtHeap a => existsb (λ s, owns st s a) (sets st)
  end.

(** [++it] with destroyed nodes gone, as they are in the program: the step
    reads [node_ptr->value] through the raw pointer, which is a read of
    freed memory, undefined behaviour, when the node is no longer alive. *)
Definition incr_live (it : iterator) : M iterator :=
  λ st, if live st (it_node it) then incr it st else (Undef, st).

(** ** Abstract trees

    The shape of a tree of heap cells: every node carries the address of its
    cell and the element stored there. *)

Inductive tree : Type :=
| Leaf
| Node (l : tree) (a : addr) (x : Z) (r : tree).

Fixpoint cells (t : tree) : list (addr * Z) :=
  match t with
  | Leaf => []
  | Node l a x r => cells l ++ (a, x) :: cells r
  end.

Definition values (t : tree) : list Z := (cells t).*2.
Definition addrs (t : tree) : list addr := (cells t).*1.
Global Arguments values : simpl never.
Global Arguments addrs : simpl never.

Fixpoint height (t : tree) : nat :=
  match t with
  | Leaf => O
  | Node l _ _ r => S (height l `max` height r)
  end.

(** The order invariant of a binary search tree. *)
Fixpoint bst (t : tree) : Prop :=
  match t with
  | Leaf => True
  | Node l _ x r =>
      Forall (λ y, y < x) (values l) ∧ Forall (λ y, x < y) (values r)
      ∧ bst l ∧ bst r
  end.

(** The shared pointer that owns a tree. *)
Definition ptr_of (t : tree) : option addr :=
  match t with
  | Leaf => None
  | Node _ a _ _ => Some a
  end.

(** The heap holds the tree [t], rooted at [ptr_of t]. *)
Fixpoint repr (st : state) (t : tree) : Prop :=
  match t with
  | Leaf => True
  | Node l a x r =>
      ∃ vp, nodes st !! a = Some (mk_node (Some vp) (ptr_of l) (ptr_of r))
            ∧ vals st !! vp = Some x
            ∧ repr st l ∧ repr st r
  end.

(** The set object [this] is a well-formed set whose tree is [t]. *)
Definition set_ok (st : state) (this : nat) (t : tree) : Prop :=
  ∃ s, sets st !! this = Some s
       ∧ m_root s = mk_node None (ptr_of t) None
       ∧ repr st t ∧ bst t
       ∧ m_size s = Z.of_nat (length (cells t))
       ∧ Z.of_nat (length (cells t)) < size_t_mod.

(** An iterator from an optional cell: the cell, or [end()]. *)
Definition it_at (this : nat) (o : option addr) : iterator :=
  match o with
  | Some a => mk_iterator (AtHeap a) this
  | None => end_ this
  end.

(** Pure counterparts of the three searches, on the abstract tree: the cell
    found and its element, or nothing for [end()]. *)
Fixpoint lb (t : tree) (v : Z) : option (addr * Z) :=
  match t with
  | Leaf => None
  | Node l a x r =>
      if x =? v then Some (a, x)
      else if v >? x then lb r v
      else match lb l v with Some c => Some c | None => Some (a, x) end
  end.

Fixpoint ub (t : tree) (v : Z) : option (addr * Z) :=
  match t with
  | Leaf => None
  | Node l a x r =>
      if v <? x then match ub l v with Some c => Some c | None => Some (a, x) end
      else ub r v
  end.

Fixpoint rub (t : tree) (v : Z) : option (addr * Z) :=
  match t with
  | Leaf => None
  | Node l a x r =>
      if v >? x then match rub r v with Some c => Some c | None => Some (a, x) end
      else rub l v
  end.

(** [find] keeps the lower bound when its element is the one looked for. *)
Definition tfind (t : tree) (v : Z) : option (addr * Z) :=
  match lb t v with
  | Some (a, x) => if negb (x =? v) then None else Some (a, x)
  | None => None
  end.

(** ** Vocabulary of the proofs: frames, checkers, examples *)

(** The cell of the least element of a tree hanging below the cell [d]. *)
Fixpoint tmin (t : tree) (d : addr) : addr :=
  match t with
  | Leaf => d
  | Node l a _ _ => tmin l a
  end.

(** The cell of the greatest element, likewise. *)
Fixpoint tmax (t : tree) (d : addr) : addr :=
  match t with
  | Leaf => d
  | Node _ a _ r => tmax r a
  end.

(** The element stored in a heap cell. *)
Definition cell_value (st : state) (a : addr) : option Z :=
  match nodes st !! a with
  | Some n => match value n with
              | Some vp => vals st !! vp
              | None => None
              end
  | None => None
  end.

(** Every cell of [t] lies below the address [n]. *)
Definition below (n : nat) (t : tree) : Prop :=
  Forall (λ a, (a < n)%nat) (addrs t).

(** Among the cells of [st] at most the cell [a] differs in [st']; the heap
    has only grown, and the set objects, the local and the countdown are as
    before. *)
Definition changes_at (a : addr) (st st' : state) : Prop :=
  budget st' = budget st ∧ sets st' = sets st ∧ tmp st' = tmp st
  ∧ (length (nodes st) ≤ length (nodes st'))%nat
  ∧ (∀ b, (b < length (nodes st))%nat → b ≠ a →
          nodes st' !! b = nodes st !! b)
  ∧ (∀ b y, vals st !! b = Some y → vals st' !! b = Some y).

(** [st'] keeps every node cell and element cell of [st]. *)
Definition extends (st st' : state) : Prop :=
  (∀ b n, nodes st !! b = Some n → nodes st' !! b = Some n)
  ∧ (∀ b y, vals st !! b = Some y → vals st' !! b = Some y).

(** The node a raw pointer points to. *)
Definition cell (st : state) (p : node_ptr) : option node :=
  match p with
  | AtRoot s => m_root <$> sets st !! s
  | AtTmp => Some (tmp st)
  | AtHeap a => nodes st !! a
  end.

(** The state after a store through [p]. *)
Definition st_store (p : node_ptr) (n : node) (st : state) : state :=
  match p with
  | AtRoot s =>
      match sets st !! s with
      | Some o => mk_state (nodes st) (vals st)
                    (<[s := mk_set n (m_size o)]> (sets st)) (tmp st) (budget st)
      | None => st
      end
  | AtTmp => mk_state (nodes st) (vals st) (sets st) n (budget st)
  | AtHeap a => mk_state (<[a := n]> (nodes st)) (vals st) (sets st) (tmp st)
                  (budget st)
  end.

(** The state after the allocation of a cell holding [n]. *)
Definition st_alloc (n : node) (st : state) : state :=
  mk_state (nodes st ++ [n]) (vals st) (sets st) (tmp st) (budget st).

(** Only the cells in [X], and cells allocated meanwhile, differ between
    [st] and [st']. *)
Definition changes_only (X : list node_ptr) (st st' : state) : Prop :=
  budget st' = budget st ∧ sets st' = sets st
  ∧ (∀ q n, q ∉ X → cell st q = Some n → cell st' q = Some n)
  ∧ (∀ b y, vals st !! b = Some y → vals st' !! b = Some y).

(** A pointer that does not point into the heap below [n]. *)
Definition fresh (n : nat) (p : node_ptr) : Prop :=
  match p with
  | AtHeap a => (n ≤ a)%nat
  | _ => True
  end.

(** The child that takes the place of a node with at most one child. *)
Definition pick (s : node) : option addr :=
  if non_null (left s) then left s else right s.

(** Between [st] and [st']: the heap has only grown, the cells below [n0] and
    all element cells are as they were, and no set object other than [w]
    has changed. *)
Definition stable (n0 : nat) (w : option nat) (st st' : state) : Prop :=
  (length (nodes st) ≤ length (nodes st'))%nat
  ∧ (∀ b, (b < n0)%nat → nodes st' !! b = nodes st !! b)
  ∧ (∀ b y, vals st !! b = Some y → vals st' !! b = Some y)
  ∧ length (sets st') = length (sets st)
  ∧ (∀ s, w ≠ Some s → sets st' !! s = sets st !! s).

(** Started with at least [n0] cells allocated, [m] keeps [stable], and a
    value it returns satisfies [Q]. *)
Definition safe {A} (n0 : nat) (w : option nat) (m : M A) (Q : A → Prop)
  : Prop :=
  ∀ st, (n0 ≤ length (nodes st))%nat →
        stable n0 w st (exec m st)
        ∧ match run m st with Ret a => Q a | _ => True end.

(** A pointer the path-copying code may write through: the local, or a cell
    allocated by the running call. *)
Definition priv (n0 : nat) (p : node_ptr) : Prop :=
  match p with
  | AtHeap a => (n0 ≤ a)%nat
  | AtTmp => True
  | AtRoot _ => False
  end.

(** [st'] keeps the heap of [st] and every set object except [this]. *)
Definition untouched (this : nat) (st st' : state) : Prop :=
  extends st st' ∧ length (sets st') = length (sets st)
  ∧ ∀ s, s ≠ this → sets st' !! s = sets st !! s.

(** The [try] block of [insert]. *)
Definition insert_try (this : nat) (v : Z) : M (iterator * bool) :=
  let* s := get_set this in
  let tmp := m_root s in
  let* tmp' :=
    if non_null (left tmp) then
      let* child := load_shared (left tmp) in
      let* c := make_shared_copy child in
      let* fuel := heap_fuel in
      let* _ := insert_at fuel c v in
      ret (with_left tmp (Some c))
    else
      let* c := make_shared_leaf v in
      ret (with_left tmp (Some c)) in
  let* _ := set_m_root this tmp' in
  let* s := get_set this in
  let* _ := set_m_size this ((m_size s + 1) mod size_t_mod) in
  let* it := find this v in
  ret (it, true).

(** The [try] block of [erase]. *)
Definition erase_try (this : nat) (it : iterator) : M iterator :=
  let* n := load (it_node it) in
  let tmp_val := value n in
  let* s := get_set this in
  let* _ := store AtTmp (m_root s) in
  let* v := load_value tmp_val in
  let* _ := erase_at v AtTmp in
  let* t := load AtTmp in
  let* _ := set_m_root this t in
  let* s := get_set this in
  let* _ := set_m_size this ((m_size s - 1) mod size_t_mod) in
  let* v := load_value tmp_val in
  lower_bound this v.

(** Switching fault injection off, and arming it. *)
Definition arm (b : option nat) (st : state) : state :=
  mk_state (nodes st) (vals st) (sets st) (tmp st) b.
Definition disarm (st : state) : state := arm None st.

(** Boolean versions of [repr], [bst] and [set_ok], to check a concrete
    state by computation. *)
Fixpoint reprb (st : state) (t : tree) : bool :=
  match t with
  | Leaf => true
  | Node l a x r =>
      match nodes st !! a with
      | Some (mk_node (Some vp) pl pr) =>
          bool_decide (pl = ptr_of l) && bool_decide (pr = ptr_of r)
          && bool_decide (vals st !! vp = Some x)
          && reprb st l && reprb st r
      | _ => false
      end
  end.

Fixpoint bstb (t : tree) : bool :=
  match t with
  | Leaf => true
  | Node l _ x r =>
      forallb (λ y, y <? x) (values l) && forallb (λ y, x <? y) (values r)
      && bstb l && bstb r
  end.

Definition set_okb (st : state) (this : nat) (t : tree) : bool :=
  match sets st !! this with
  | Some s =>
      bool_decide (m_root s = mk_node None (ptr_of t) None)
      && reprb st t && bstb t
      && (m_size s =? Z.of_nat (length (cells t)))
      && (Z.of_nat (length (cells t)) <? size_t_mod)
  | None => false
  end.

(** The tree of cells reachable from a shared pointer. *)
Fixpoint tree_at (fuel : nat) (st : state) (p : option addr) : tree :=
  match fuel, p with
  | S fuel, Some a =>
      match nodes st !! a with
      | Some (mk_node (Some vp) pl pr) =>
          match vals st !! vp with
          | Some x => Node (tree_at fuel st pl) a x (tree_at fuel st pr)
          | None => Leaf
          end
      | _ => Leaf
      end
  | _, _ => Leaf
  end.

(** Set 0 holds 5, 3, 8, 1, 4 (inserted in that order). *)
Definition example_state : state :=
  Eval vm_compute in
    exec (let* s := new_set in insert_all s [5; 3; 8; 1; 4]) init.

(** The tree of set 0 in [example_state]. *)
Definition example_tree : tree :=
  Eval vm_compute in
    tree_at 10 example_state
      (match sets example_state !! 0%nat with
       | Some s => left (m_root s)
       | None => None
       end).

(** The greatest element of a tree hanging below a node that holds [d]. *)
Fixpoint tmaxv (t : tree) (d : Z) : Z :=
  match t with
  | Leaf => d
  | Node _ _ x r => tmaxv r x
  end.

(** Two sets built separately from the same elements. *)
Definition twin_state : state :=
  Eval vm_compute in
    exec (let* a := new_set in
          let* b := new_set in
          let* _ := insert a 1 in
          insert b 1) init.

(** The copy of set 0 of the example is set 1. *)
Definition copied_state : state :=
  Eval vm_compute in exec (copy_construct 0) example_state.

(** A mutation a client may apply to a set: an insertion or an erasure
    through any iterator whatsoever.  Each comes with the countdown armed
    for it, so it may also end with an exception. *)
Inductive op : Type :=
| OpInsert (v : Z)
| OpErase (it : iterator).

(** One mutation of the set [this], and a sequence of them; the state is
    kept whatever the outcome of each call. *)
Definition apply_op (this : nat) (o : option nat * op) (st : state) : state :=
  match o.2 with
  | OpInsert v => exec (insert this v) (arm o.1 st)
  | OpErase it => exec (erase this it) (arm o.1 st)
  end.

Definition apply_ops (this : nat) (ops : list (option nat * op)) (st : state)
  : state :=
  foldl (λ st o, apply_op this o st) st ops.

(** The copy is mutated: 7 inserted, 3 erased, an insertion of 9 cut short
    by an exception, 8 erased. *)
Definition example_ops : list (option nat * op) :=
  [(None, OpInsert 7); (None, OpErase (mk_iterator (AtHeap 9) 0));
   (Some 3%nat, OpInsert 9); (None, OpErase (mk_iterator (AtHeap 4) 0))].

(** The state with other set objects. *)
Definition with_sets (st : state) (ss : list persistent_set) : state :=
  mk_state (nodes st) (vals st) ss (tmp st) (budget st).

(** Beside set 0 of the example, set 1 holds 2 and 9. *)
Definition pair_state : state :=
  Eval vm_compute in
    exec (let* s := new_set in insert_all s [2; 9]) example_state.

(** The tree of set 1 in [pair_state]. *)
Definition pair_tree : tree :=
  Eval vm_compute in
    tree_at 10 pair_state
      (match sets pair_state !! 1%nat with
       | Some s => left (m_root s)
       | None => None
       end).

(** A computation that writes nothing: whatever its outcome, it leaves the
    heap, the set objects and the local as they were; only the countdown of
    fallible steps may have gone down, and it stays off when it was off. *)
Definition read_only {A} (m : M A) : Prop :=
  ∀ st, ∃ b, exec m st = arm b st ∧ (budget st = None → b = None).

(** A computation that allocates at most [k] node cells and [j] element
    cells, whatever its outcome. *)
Definition allocates {A} (k j : nat) (m : M A) : Prop :=
  ∀ st, (length (nodes (exec m st)) ≤ length (nodes st) + k)%nat
        ∧ (length (vals (exec m st)) ≤ length (vals st) + j)%nat.

(** The shape of a tree: its elements without the cells that hold them. *)
Inductive shape : Type :=
| SLeaf
| SNode (l : shape) (x : Z) (r : shape).

Fixpoint shape_of (t : tree) : shape :=
  match t with
  | Leaf => SLeaf
  | Node l _ x r => SNode (shape_of l) x (shape_of r)
  end.

(** Insertion into an unbalanced search tree: the new value becomes a leaf
    at the end of its search path, as in [insert(node&, T const&)]. *)
Fixpoint sinsert (s : shape) (v : Z) : shape :=
  match s with
  | SLeaf => SNode SLeaf v SLeaf
  | SNode l x r =>
      if v <? x then SNode (sinsert l v) x r else SNode l x (sinsert r v)
  end.

Fixpoint svalues (s : shape) : list Z :=
  match s with
  | SLeaf => []
  | SNode l x r => svalues l ++ x :: svalues r
  end.

Fixpoint sheight (s : shape) : nat :=
  match s with
  | SLeaf => O
  | SNode l _ r => S (sheight l `max` sheight r)
  end.

(** [insert(T const&)] on shapes: nothing happens for a value that is
    there. *)
Definition sadd (s : shape) (v : Z) : shape :=
  if bool_decide (v ∈ svalues s) then s else sinsert s v.

(** The tree in which no node has a left child. *)
Fixpoint spine (xs : list Z) : shape :=
  match xs with
  | [] => SLeaf
  | x :: xs => SNode SLeaf x (spine xs)
  end.

(** Set 0 of the example after the insertion of 7, and its tree. *)
Definition inserted_state : state :=
  Eval vm_compute in exec (insert 0 7) example_state.

Definition inserted_tree : tree :=
  Eval vm_compute in
    tree_at 10 inserted_state
      (match sets inserted_state !! 0%nat with
       | Some s => left (m_root s)
       | None => None
       end).

(** Set 0 of the example after the erasure of 3, and its tree. *)
Definition erased_state : state :=
  Eval vm_compute in exec (erase 0 (mk_iterator (AtHeap 9) 0)) example_state.

Definition erased_tree : tree :=
  Eval vm_compute in
    tree_at 10 erased_state
      (match sets erased_state !! 0%nat with
       | Some s => left (m_root s)
       | None => None
       end).

(** Two sets made by the default constructor. *)
Definition empty_pair_state : state :=
  Eval vm_compute in exec (let* _ := new_set in new_set) init.

(** A computation that meets the countdown of fallible steps uniformly.
    Run from [st] with fault injection off it takes [k] fallible steps and
    ends with the outcome [r], which is not an exception.  Armed with a
    countdown that covers the [k] steps it ends in the same way, with [k]
    steps used up; armed with less, one of its steps throws and the
    computation ends with that exception. *)
Definition metered {A} (m : M A) (st : state) : Prop :=
  ∃ (k : nat) (r : outcome A) (st1 : state),
    r ≠ Throw
    ∧ m (arm None st) = (r, arm None st1)
    ∧ (∀ b, (k ≤ b)%nat → m (arm (Some b) st) = (r, arm (Some (b - k)%nat) st1))
    ∧ (∀ b, (b < k)%nat → run m (arm (Some b) st) = Throw).

(** * Proofs *)

(** ** Running computations *)

Lemma bind_Ret {A B} (m : M A) (f : A → M B) st a st' :
  m st = (Ret a, st') → bind m f st = f a st'.
Proof. unfold bind. by intros ->. Qed.

Lemma bind_Throw {A B} (m : M A) (f : A → M B) st st' :
  m st = (Throw, st') → bind m f st = (Throw, st').
Proof. unfold bind. by intros ->. Qed.

Lemma bind_Undef {A B} (m : M A) (f : A → M B) st st' :
  m st = (Undef, st') → bind m f st = (Undef, st').
Proof. unfold bind. by intros ->. Qed.

Lemma bind_bind {A B C} (m : M A) (f : A → M B) (g : B → M C) st :
  bind (bind m f) g st = bind m (λ x, bind (f x) g) st.
Proof. unfold bind. by destruct (m st) as [[]]. Qed.

Lemma ret_run {A} (a : A) st : ret a st = (Ret a, st).
Proof. done. Qed.

Lemma tick_run st : budget st = None → tick st = (Ret tt, st).
Proof. unfold tick. by intros ->. Qed.

Lemma T_eq_run x y st : budget st = None → T_eq x y st = (Ret (x =? y), st).
Proof. intros H. unfold T_eq. by rewrite (bind_Ret _ _ _ _ _ (tick_run _ H)). Qed.

Lemma T_ne_run x y st :
  budget st = None → T_ne x y st = (Ret (negb (x =? y)), st).
Proof. intros H. unfold T_ne. by rewrite (bind_Ret _ _ _ _ _ (tick_run _ H)). Qed.

Lemma T_lt_run x y st : budget st = None → T_lt x y st = (Ret (x <? y), st).
Proof. intros H. unfold T_lt. by rewrite (bind_Ret _ _ _ _ _ (tick_run _ H)). Qed.

Lemma T_gt_run x y st : budget st = None → T_gt x y st = (Ret (x >? y), st).
Proof. intros H. unfold T_gt. by rewrite (bind_Ret _ _ _ _ _ (tick_run _ H)). Qed.

Lemma load_heap_run st a n :
  nodes st !! a = Some n → load (AtHeap a) st = (Ret n, st).
Proof. unfold load. by intros ->. Qed.

Lemma load_root_run st s o :
  sets st !! s = Some o → load (AtRoot s) st = (Ret (m_root o), st).
Proof. unfold load. by intros ->. Qed.

Lemma load_value_run st vp x :
  vals st !! vp = Some x → load_value (Some vp) st = (Ret x, st).
Proof. unfold load_value. by intros ->. Qed.

Lemma get_set_run st s o : sets st !! s = Some o → get_set s st = (Ret o, st).
Proof. unfold get_set. by intros ->. Qed.

Lemma heap_fuel_run st : heap_fuel st = (Ret (S (length (nodes st))), st).
Proof. done. Qed.

Create HintDb run discriminated.
Global Hint Resolve ret_run tick_run T_eq_run T_ne_run T_lt_run T_gt_run
  load_heap_run load_root_run load_value_run get_set_run heap_fuel_run : run.

(** Rewrite the leading [bind] of a goal once its first computation is known
    to return. *)
Ltac mstep :=
  first
    [ rewrite bind_bind
    | match goal with
      | |- context [bind ?m ?f ?st] =>
          erewrite (bind_Ret m f st) by (solve [eauto with run])
      end ].
Ltac msteps := repeat mstep.

(** ** The searches refine their pure counterparts *)

Lemma iterator_eq_it_at this o :
  iterator_eq (it_at this o) (end_ this) = negb (non_null o).
Proof.
  unfold iterator_eq. destruct o; simpl; repeat case_bool_decide; naive_solver.
Qed.

Lemma lower_bound_at_run st this t v fuel :
  budget st = None → repr st t → (height t ≤ fuel)%nat →
  lower_bound_at fuel this (ptr_of t) v st = (Ret (it_at this (fst <$> lb t v)), st).
Proof.
  intros Hb. revert fuel.
  induction t as [|l IHl a x r IHr]; intros fuel Hr Hf; simpl in *.
  { by destruct fuel. }
  destruct Hr as (vp & Ha & Hv & Hl & Hrr).
  destruct fuel as [|fuel]; [lia|]. simpl.
  msteps. simpl. destruct (x =? v); [done|].
  msteps. destruct (v >? x).
  - apply IHr; [done|lia].
  - rewrite (bind_Ret _ _ _ _ _ (IHl fuel Hl ltac:(lia))).
    rewrite iterator_eq_it_at. by destruct (lb l v).
Qed.

Lemma upper_bound_at_run st this t v fuel :
  budget st = None → repr st t → (height t ≤ fuel)%nat →
  upper_bound_at fuel this (ptr_of t) v st = (Ret (it_at this (fst <$> ub t v)), st).
Proof.
  intros Hb. revert fuel.
  induction t as [|l IHl a x r IHr]; intros fuel Hr Hf; simpl in *.
  { by destruct fuel. }
  destruct Hr as (vp & Ha & Hv & Hl & Hrr).
  destruct fuel as [|fuel]; [lia|]. simpl.
  msteps. simpl. destruct (v <? x).
  - rewrite (bind_Ret _ _ _ _ _ (IHl fuel Hl ltac:(lia))).
    rewrite iterator_eq_it_at. by destruct (ub l v).
  - apply IHr; [done|lia].
Qed.

Lemma rev_upper_bound_at_run st this t vp v fuel :
  budget st = None → vals st !! vp = Some v →
  repr st t → (height t ≤ fuel)%nat →
  rev_upper_bound_at fuel this (ptr_of t) (Some vp) st
  = (Ret (it_at this (fst <$> rub t v)), st).
Proof.
  intros Hb Hv. revert fuel.
  induction t as [|l IHl a x r IHr]; intros fuel Hr Hf; simpl in *.
  { by destruct fuel. }
  destruct Hr as (vx & Ha & Hvx & Hl & Hrr).
  destruct fuel as [|fuel]; [lia|]. simpl.
  msteps. simpl. destruct (v >? x).
  - rewrite (bind_Ret _ _ _ _ _ (IHr fuel Hrr ltac:(lia))).
    rewrite iterator_eq_it_at. by destruct (rub r v).
  - apply IHl; [done|lia].
Qed.

Lemma leftmost_run st l a x r fuel :
  repr st (Node l a x r) → (height l ≤ fuel)%nat →
  leftmost fuel (AtHeap a) st = (Ret (AtHeap (tmin l a)), st).
Proof.
  revert a x r fuel.
  induction l as [|ll IHl b y lr _]; intros a x r fuel Hr Hf.
  - destruct Hr as (vp & Ha & _). destruct fuel; simpl; by msteps.
  - destruct Hr as (vp & Ha & Hv & Hl & Hrr).
    destruct fuel as [|fuel]; simpl in Hf; [lia|]. simpl. msteps. simpl.
    eapply IHl; [done|lia].
Qed.

Lemma rightmost_run st l a x r fuel :
  repr st (Node l a x r) → (height r ≤ fuel)%nat →
  rightmost fuel (AtHeap a) st = (Ret (AtHeap (tmax r a)), st).
Proof.
  revert a x l fuel.
  induction r as [|rl _ b y rr IHr]; intros a x l fuel Hr Hf.
  - destruct Hr as (vp & Ha & _). destruct fuel; simpl; by msteps.
  - destruct Hr as (vp & Ha & Hv & Hl & Hrr).
    destruct fuel as [|fuel]; simpl in Hf; [lia|]. simpl. msteps. simpl.
    eapply IHr; [done|lia].
Qed.

(** ** Facts about abstract trees *)

Lemma repr_cell_value st t a x :
  repr st t → (a, x) ∈ cells t → cell_value st a = Some x.
Proof.
  induction t as [|l IHl b y r IHr]; simpl; [by intros _ ?%elem_of_nil|].
  intros (vp & Ha & Hv & Hl & Hr).
  rewrite elem_of_app, elem_of_cons.
  intros [?|[[= -> ->]|?]]; auto.
  unfold cell_value. by rewrite Ha.
Qed.

Lemma repr_addrs_lt st t :
  repr st t → Forall (λ a, (a < length (nodes st))%nat) (addrs t).
Proof.
  unfold addrs. induction t as [|l IHl b y r IHr]; simpl; [constructor|].
  intros (vp & Ha & Hv & Hl & Hr).
  rewrite fmap_app, fmap_cons. apply Forall_app. split; [auto|].
  constructor; [|auto]. simpl. by eapply lookup_lt_Some.
Qed.

Lemma values_Node l a x r : values (Node l a x r) = values l ++ x :: values r.
Proof. unfold values. simpl. by rewrite fmap_app. Qed.

Lemma addrs_Node l a x r : addrs (Node l a x r) = addrs l ++ a :: addrs r.
Proof. unfold addrs. simpl. by rewrite fmap_app. Qed.

Lemma length_values t : length (values t) = length (cells t).
Proof. unfold values. by rewrite length_fmap. Qed.

Lemma bst_sorted t : bst t → StronglySorted Z.lt (values t).
Proof.
  induction t as [|l IHl a x r IHr]; simpl; [constructor|].
  intros (Hl & Hr & Hbl & Hbr). rewrite values_Node.
  apply StronglySorted_app_2; [|auto|].
  - intros x1 x2 H1 [->|H2]%elem_of_cons.
    + by eapply Forall_forall in Hl.
    + eapply Forall_forall in Hl, Hr; [|done..]. simpl in *. lia.
  - apply StronglySorted_cons. auto.
Qed.

Lemma sorted_lt_NoDup (l : list Z) : StronglySorted Z.lt l → NoDup l.
Proof.
  induction 1 as [|x l _ IH Hx]; constructor; [|done].
  intros Hin. eapply Forall_forall in Hx; [|done]. lia.
Qed.

Lemma bst_NoDup t : bst t → NoDup (values t).
Proof. intros. by apply sorted_lt_NoDup, bst_sorted. Qed.

Lemma repr_addrs_NoDup st t : repr st t → bst t → NoDup (addrs t).
Proof.
  intros Hr Hb. apply (NoDup_fmap_1 (cell_value st)).
  assert (cell_value st <$> addrs t = Some <$> values t) as ->.
  { unfold addrs, values. rewrite <-!list_fmap_compose.
    apply list_fmap_ext. intros i [a x] Hin. simpl.
    eapply repr_cell_value; [done|]. by eapply list_elem_of_lookup_2. }
  apply (NoDup_fmap_2 _), bst_NoDup, Hb.
Qed.

Lemma NoDup_lt_length (l : list nat) (n : nat) :
  NoDup l → Forall (λ a, (a < n)%nat) l → (length l ≤ n)%nat.
Proof.
  intros Hnd Hlt. rewrite <-(length_seq n 0).
  apply submseteq_length, NoDup_submseteq; [done|].
  intros a Ha. eapply Forall_forall in Hlt; [|done].
  apply elem_of_seq. lia.
Qed.

(** A search tree held by the heap has at most as many nodes as the heap
    has cells: distinct elements sit in distinct cells. *)
Lemma repr_size st t :
  repr st t → bst t → (length (cells t) ≤ length (nodes st))%nat.
Proof.
  intros Hr Hb.
  replace (length (cells t)) with (length (addrs t))
    by (unfold addrs; by rewrite length_fmap).
  apply NoDup_lt_length; [by eapply repr_addrs_NoDup|by apply repr_addrs_lt].
Qed.

Lemma height_le_size t : (height t ≤ length (cells t))%nat.
Proof.
  induction t as [|l IHl a x r IHr]; simpl; [lia|].
  rewrite length_app. simpl. lia.
Qed.

Lemma repr_height st t :
  repr st t → bst t → (height t ≤ length (nodes st))%nat.
Proof.
  intros Hr Hb. etrans; [apply height_le_size|by apply repr_size].
Qed.

(** *** What the pure searches find *)

Lemma lb_elem_of t v c : lb t v = Some c → c ∈ cells t.
Proof.
  induction t as [|l IHl a x r IHr]; simpl; [done|].
  rewrite elem_of_app, elem_of_cons.
  destruct (x =? v); [naive_solver|].
  destruct (v >? x); [naive_solver|].
  destruct (lb l v); naive_solver.
Qed.

Lemma ub_elem_of t v c : ub t v = Some c → c ∈ cells t.
Proof.
  induction t as [|l IHl a x r IHr]; simpl; [done|].
  rewrite elem_of_app, elem_of_cons.
  destruct (v <? x); [|naive_solver].
  destruct (ub l v); naive_solver.
Qed.

Lemma rub_elem_of t v c : rub t v = Some c → c ∈ cells t.
Proof.
  induction t as [|l IHl a x r IHr]; simpl; [done|].
  rewrite elem_of_app, elem_of_cons.
  destruct (v >? x); [|naive_solver].
  destruct (rub r v); naive_solver.
Qed.

Lemma elem_of_values t x : x ∈ values t ↔ ∃ a, (a, x) ∈ cells t.
Proof.
  unfold values. rewrite list_elem_of_fmap. split.
  - intros ([a y] & -> & ?). eauto.
  - intros [a ?]. by exists (a, x).
Qed.

Lemma elem_of_values_Node l a x r y :
  y ∈ values (Node l a x r) ↔ y ∈ values l ∨ y = x ∨ y ∈ values r.
Proof. by rewrite values_Node, elem_of_app, elem_of_cons. Qed.

Lemma lb_elem_of_values t v a x : lb t v = Some (a, x) → x ∈ values t.
Proof. intros ?%lb_elem_of. apply elem_of_values. eauto. Qed.

Lemma ub_elem_of_values t v a x : ub t v = Some (a, x) → x ∈ values t.
Proof. intros ?%ub_elem_of. apply elem_of_values. eauto. Qed.

(** On a search tree [lb] finds the least element not below [v]. *)
Lemma lb_spec t v :
  bst t →
  match lb t v with
  | Some (a, x) => v ≤ x ∧ ∀ y, y ∈ values t → v ≤ y → x ≤ y
  | None => ∀ y, y ∈ values t → y < v
  end.
Proof.
  induction t as [|l IHl a x r IHr]; simpl.
  { intros _ y ?%elem_of_nil. done. }
  intros (Hl & Hr & Hbl & Hbr).
  specialize (IHl Hbl). specialize (IHr Hbr).
  rewrite Forall_forall in Hl, Hr.
  destruct (Z.eqb_spec x v) as [->|Hne].
  { split; [lia|]. intros y [?%Hl|[->|?%Hr]]%elem_of_values_Node; lia. }
  destruct (Z.gtb_spec v x) as [Hgt|Hle].
  - destruct (lb r v) as [[b z]|].
    + destruct IHr as [? IHr]. split; [done|].
      intros y [?%Hl|[->|?]]%elem_of_values_Node; [lia..|auto].
    + intros y [?%Hl|[->|?]]%elem_of_values_Node; [lia..|auto].
  - destruct (lb l v) as [[b z]|] eqn:Hlb.
    + destruct IHl as [? IHl]. split; [done|].
      apply lb_elem_of_values, Hl in Hlb.
      intros y [?|[->|?%Hr]]%elem_of_values_Node ?; [auto|lia..].
    + split; [lia|].
      intros y [?%IHl|[->|?%Hr]]%elem_of_values_Node; lia.
Qed.

(** On a search tree [ub] finds the least element above [v]. *)
Lemma ub_spec t v :
  bst t →
  match ub t v with
  | Some (a, x) => v < x ∧ ∀ y, y ∈ values t → v < y → x ≤ y
  | None => ∀ y, y ∈ values t → y ≤ v
  end.
Proof.
  induction t as [|l IHl a x r IHr]; simpl.
  { intros _ y ?%elem_of_nil. done. }
  intros (Hl & Hr & Hbl & Hbr).
  specialize (IHl Hbl). specialize (IHr Hbr).
  rewrite Forall_forall in Hl, Hr.
  destruct (Z.ltb_spec v x) as [Hlt|Hge].
  - destruct (ub l v) as [[b z]|] eqn:Hub.
    + destruct IHl as [? IHl]. split; [done|].
      apply ub_elem_of_values, Hl in Hub.
      intros y [?|[->|?%Hr]]%elem_of_values_Node ?; [auto|lia..].
    + split; [lia|].
      intros y [?%IHl|[->|?%Hr]]%elem_of_values_Node; lia.
  - destruct (ub r v) as [[b z]|].
    + destruct IHr as [? IHr]. split; [done|].
      intros y [?%Hl|[->|?]]%elem_of_values_Node; [lia..|auto].
    + intros y [?%Hl|[->|?]]%elem_of_values_Node; [lia..|auto].
Qed.

Lemma cells_value_inj (l : list (addr * Z)) a b x :
  NoDup (l.*2) → (a, x) ∈ l → (b, x) ∈ l → a = b.
Proof.
  induction l as [|[c y] l IH]; csimpl; [by intros _ ?%elem_of_nil|].
  rewrite NoDup_cons, !elem_of_cons. intros [Hy Hnd] [Ha|Ha] [Hb|Hb].
  - congruence.
  - simplify_eq. destruct Hy. apply list_elem_of_fmap. by exists (b, y).
  - simplify_eq. destruct Hy. apply list_elem_of_fmap. by exists (a, y).
  - auto.
Qed.

(** In a search tree the upper bound of an element is its successor in the
    in-order sequence. *)
Lemma ub_next t l1 a x l2 :
  bst t → cells t = l1 ++ (a, x) :: l2 → ub t x = head l2.
Proof.
  intros Hb Hc. pose proof (bst_sorted _ Hb) as Hs.
  pose proof (bst_NoDup _ Hb) as Hnd.
  pose proof (ub_spec t x Hb) as Hub. unfold values in *.
  rewrite Hc in *. rewrite fmap_app, fmap_cons in Hs. simpl in Hs.
  apply StronglySorted_app in Hs as (Hl1 & _ & [Hx Hl2]%StronglySorted_cons).
  rewrite Forall_forall in Hx.
  destruct (ub t x) as [[c z]|] eqn:Heq.
  - destruct Hub as [Hlt Hmin].
    pose proof (ub_elem_of _ _ _ Heq) as Hin. rewrite Hc in Hin.
    destruct l2 as [|[b y] l2]; simpl.
    + apply elem_of_app in Hin as [Hin|Hin%list_elem_of_singleton].
      * assert (z < x); [|lia]. apply Hl1; [|left].
        apply list_elem_of_fmap. by exists (c, z).
      * simplify_eq. lia.
    + assert (x < y) as Hxy by (apply Hx; simpl; left).
      assert (z ≤ y) as Hzy.
      { apply Hmin; [|done]. rewrite fmap_app, !fmap_cons. simpl.
        apply elem_of_app. right. right. left. }
      apply StronglySorted_cons in Hl2 as [Hy _].
      rewrite Forall_forall in Hy.
      apply elem_of_app in Hin as [Hin|Hin].
      { assert (z < x); [|lia]. apply Hl1; [|left].
        apply list_elem_of_fmap. by exists (c, z). }
      apply elem_of_cons in Hin as [?|Hin]; [simplify_eq; lia|].
      apply elem_of_cons in Hin as [?|Hin].
      * by simplify_eq.
      * assert (y < z); [|lia]. apply Hy.
        apply list_elem_of_fmap. by exists (c, z).
  - destruct l2 as [|[b y] l2]; [done|]. simpl.
    assert (x < y) as Hxy by (apply Hx; simpl; left).
    assert (y ≤ x); [|lia]. apply Hub.
    rewrite fmap_app, !fmap_cons. simpl.
    apply elem_of_app. right. right. left.
Qed.

Lemma head_cells_Node l a x r :
  head (cells (Node l a x r)) = Some (tmin l a, default x (snd <$> head (cells l))).
Proof.
  revert a x r. induction l as [|ll IHl b y lr _]; intros a x r; [done|].
  simpl in *. specialize (IHl b y lr).
  destruct (cells ll ++ (b, y) :: cells lr) as [|c cs] eqn:Heq; [done|].
  simpl in *. by simplify_eq.
Qed.

Lemma head_addrs_Node l a x r : head (addrs (Node l a x r)) = Some (tmin l a).
Proof.
  unfold addrs. pose proof (head_cells_Node l a x r) as H.
  destruct (cells (Node l a x r)); [done|]. simpl in *. by simplify_eq.
Qed.

Lemma last_addrs_Node l a x r : last (addrs (Node l a x r)) = Some (tmax r a).
Proof.
  revert l a x. induction r as [|rl _ b y rr IHr]; intros l a x.
  - rewrite addrs_Node. unfold addrs. simpl. apply last_snoc.
  - rewrite addrs_Node. rewrite last_app_cons, last_cons.
    by rewrite (IHr rl b y).
Qed.

(** *** The public searches on a well-formed set *)

Lemma repr_lookup st t a x :
  repr st t → (a, x) ∈ cells t →
  ∃ n vp, nodes st !! a = Some n ∧ value n = Some vp ∧ vals st !! vp = Some x.
Proof.
  intros Hr Hin. pose proof (repr_cell_value _ _ _ _ Hr Hin) as Hc.
  unfold cell_value in Hc.
  destruct (nodes st !! a) as [n|]; [|done].
  destruct (value n) as [vp|] eqn:?; [|done]. eauto.
Qed.

Lemma deref_run st this t a x :
  repr st t → (a, x) ∈ cells t →
  deref (mk_iterator (AtHeap a) this) st = (Ret x, st).
Proof.
  intros Hr Hin. destruct (repr_lookup _ _ _ _ Hr Hin) as (n & vp & ? & Hv & ?).
  unfold deref. simpl. msteps. rewrite Hv. by apply load_value_run.
Qed.

Lemma lower_bound_run st this t v :
  budget st = None → set_ok st this t →
  lower_bound this v st = (Ret (it_at this (fst <$> lb t v)), st).
Proof.
  intros Hb (s & Hs & Hroot & Hr & Hbst & _).
  unfold lower_bound. msteps. rewrite Hroot. cbn [left].
  apply lower_bound_at_run; [done..|].
  pose proof (repr_height _ _ Hr Hbst). lia.
Qed.

Lemma upper_bound_run st this t v :
  budget st = None → set_ok st this t →
  upper_bound this v st = (Ret (it_at this (fst <$> ub t v)), st).
Proof.
  intros Hb (s & Hs & Hroot & Hr & Hbst & _).
  unfold upper_bound. msteps. rewrite Hroot. cbn [left].
  apply upper_bound_at_run; [done..|].
  pose proof (repr_height _ _ Hr Hbst). lia.
Qed.

Lemma find_run st this t v :
  budget st = None → set_ok st this t →
  find this v st = (Ret (it_at this (fst <$> tfind t v)), st).
Proof.
  intros Hb Hok. unfold find, tfind.
  rewrite (bind_Ret _ _ _ _ _ (lower_bound_run _ _ _ v Hb Hok)).
  rewrite iterator_eq_it_at.
  destruct (lb t v) as [[a x]|] eqn:Hlb; simpl; [|done].
  rewrite (bind_Ret _ _ _ _ _ (lower_bound_run _ _ _ v Hb Hok)).
  rewrite Hlb. simpl.
  destruct Hok as (s & Hs & Hroot & Hr & Hbst & ?).
  erewrite bind_Ret; [|eapply deref_run; [done|by eapply lb_elem_of]].
  msteps. destruct (x =? v); simpl; [|done].
  assert (set_ok st this t) as Hok by (exists s; eauto).
  rewrite (lower_bound_run _ _ _ v Hb Hok). by rewrite Hlb.
Qed.

Lemma begin_run st this t :
  set_ok st this t →
  begin this st = (Ret (it_at this (head (addrs t))), st).
Proof.
  intros (s & Hs & Hroot & Hr & Hbst & _).
  unfold begin. msteps. simpl. msteps. rewrite Hroot. simpl.
  destruct t as [|l a x r]; simpl; [done|].
  erewrite bind_Ret; [|eapply leftmost_run; [done|]].
  - by rewrite head_addrs_Node.
  - pose proof (repr_height _ _ Hr Hbst). simpl in *. lia.
Qed.

Lemma incr_run st this t a x :
  budget st = None → set_ok st this t → (a, x) ∈ cells t →
  incr (mk_iterator (AtHeap a) this) st
  = (Ret (it_at this (fst <$> ub t x)), st).
Proof.
  intros Hb Hok Hin. pose proof Hok as (s & Hs & Hroot & Hr & Hbst & _).
  destruct (repr_lookup _ _ _ _ Hr Hin) as (n & vp & ? & Hv & ?).
  unfold incr. simpl. msteps. rewrite Hv. msteps.
  by apply upper_bound_run.
Qed.

Lemma iterator_eq_refl it : iterator_eq it it = true.
Proof. unfold iterator_eq. by rewrite !bool_decide_eq_true_2. Qed.

Lemma iterator_eq_heap_end a this :
  iterator_eq (mk_iterator (AtHeap a) this) (end_ this) = false.
Proof. apply (iterator_eq_it_at this (Some a)). Qed.

Lemma collect_end fuel this st : collect fuel this (end_ this) st = (Ret [], st).
Proof. destruct fuel; simpl; by rewrite iterator_eq_refl. Qed.

Lemma collect_cell fuel this a :
  collect (S fuel) this (mk_iterator (AtHeap a) this)
  = (let* x := deref (mk_iterator (AtHeap a) this) in
     let* it' := incr (mk_iterator (AtHeap a) this) in
     let* xs := collect fuel this it' in
     ret (x :: xs)).
Proof. simpl. by rewrite iterator_eq_heap_end. Qed.

Lemma collect_run st this t l1 l2 fuel :
  budget st = None → set_ok st this t →
  cells t = l1 ++ l2 → (length l2 ≤ fuel)%nat →
  collect fuel this (it_at this (fst <$> head l2)) st = (Ret (l2.*2), st).
Proof.
  intros Hb Hok. pose proof Hok as (s & Hs & Hroot & Hr & Hbst & _).
  revert l1 fuel. induction l2 as [|[a x] l2 IH]; intros l1 fuel Hc Hf.
  { apply collect_end. }
  destruct fuel as [|fuel]; simpl in Hf; [lia|].
  assert ((a, x) ∈ cells t) as Hin.
  { rewrite Hc. apply elem_of_app. right. left. }
  cbn [head fmap option_fmap option_map it_at fst]. rewrite collect_cell.
  erewrite bind_Ret; [|by eapply deref_run].
  erewrite bind_Ret; [|by eapply incr_run].
  rewrite (ub_next _ _ _ _ _ Hbst Hc).
  erewrite bind_Ret; [|eapply (IH (l1 ++ [(a, x)]));
                       [by rewrite <-app_assoc|lia]].
  done.
Qed.

Lemma to_list_run st this t :
  budget st = None → set_ok st this t →
  to_list this st = (Ret (values t), st).
Proof.
  intros Hb Hok. unfold to_list.
  rewrite (bind_Ret _ _ _ _ _ (begin_run _ _ _ Hok)). msteps.
  unfold addrs.
  replace (head (cells t).*1) with (fst <$> head (cells t))
    by (by destruct (cells t)).
  apply (collect_run _ _ t []); [done..|].
  destruct Hok as (s & Hs & Hroot & Hr & Hbst & _).
  pose proof (repr_size _ _ Hr Hbst). lia.
Qed.

Lemma size_run st this t :
  set_ok st this t → size this st = (Ret (Z.of_nat (length (cells t))), st).
Proof.
  intros (s & Hs & _ & _ & _ & Hsz & _). unfold size. msteps. by rewrite Hsz.
Qed.

(** ** Path copying: the functional behaviour when nothing throws *)

Lemma below_Node n l a x r :
  below n (Node l a x r) ↔ below n l ∧ (a < n)%nat ∧ below n r.
Proof. unfold below. by rewrite addrs_Node, Forall_app, Forall_cons. Qed.

Lemma below_Leaf n : below n Leaf.
Proof. constructor. Qed.

Lemma below_mono n m t : below n t → (n ≤ m)%nat → below m t.
Proof. unfold below. intros H ?. eapply Forall_impl; [done|]. simpl. lia. Qed.

Lemma repr_below st t : repr st t → below (length (nodes st)) t.
Proof. apply repr_addrs_lt. Qed.

(** A tree survives any change of the heap that keeps the cells below [n]
    and the element cells. *)
Lemma repr_preserved n st st' t :
  repr st t → below n t →
  (∀ b, (b < n)%nat → nodes st' !! b = nodes st !! b) →
  (∀ b y, vals st !! b = Some y → vals st' !! b = Some y) →
  repr st' t.
Proof.
  intros Hr Hb Hn Hv. induction t as [|l IHl a x r IHr]; simpl in *; [done|].
  destruct Hr as (vp & Ha & Hvp & Hl & Hrr).
  apply below_Node in Hb as (? & ? & ?).
  exists vp. rewrite Hn by done. auto.
Qed.

Lemma node_eta n : mk_node (value n) (left n) (right n) = n.
Proof. by destruct n. Qed.

Lemma make_shared_copy_run st n :
  budget st = None →
  make_shared_copy n st
  = (Ret (length (nodes st)),
     mk_state (nodes st ++ [n]) (vals st) (sets st) (tmp st) (budget st)).
Proof.
  intros Hb. unfold make_shared_copy. msteps. unfold alloc_node.
  by rewrite node_eta.
Qed.

Lemma make_shared_leaf_run st x :
  budget st = None →
  make_shared_leaf x st
  = (Ret (length (nodes st)),
     mk_state (nodes st ++ [mk_node (Some (length (vals st))) None None])
              (vals st ++ [x]) (sets st) (tmp st) (budget st)).
Proof.
  intros Hb. unfold make_shared_leaf, make_shared_T. by msteps.
Qed.

Lemma store_heap_run st a n n' :
  nodes st !! a = Some n →
  store (AtHeap a) n' st
  = (Ret tt, mk_state (<[a := n']> (nodes st)) (vals st) (sets st) (tmp st)
                      (budget st)).
Proof. unfold store. by intros ->. Qed.

Lemma set_left_heap_run st a n q :
  nodes st !! a = Some n →
  set_left (AtHeap a) q st
  = (Ret tt, mk_state (<[a := with_left n q]> (nodes st)) (vals st) (sets st)
                      (tmp st) (budget st)).
Proof. intros H. unfold set_left. msteps. by eapply store_heap_run. Qed.

Lemma set_right_heap_run st a n q :
  nodes st !! a = Some n →
  set_right (AtHeap a) q st
  = (Ret tt, mk_state (<[a := with_right n q]> (nodes st)) (vals st) (sets st)
                      (tmp st) (budget st)).
Proof. intros H. unfold set_right. msteps. by eapply store_heap_run. Qed.

Lemma copy_left_heap_run st a n b nb :
  budget st = None →
  nodes st !! a = Some n → left n = Some b → nodes st !! b = Some nb →
  copy_left (AtHeap a) st
  = (Ret (length (nodes st)),
     mk_state (<[a := with_left n (Some (length (nodes st)))]> (nodes st ++ [nb]))
              (vals st) (sets st) (tmp st) (budget st)).
Proof.
  intros Hb Ha Hl Hnb. unfold copy_left. msteps. rewrite Hl. simpl. msteps.
  rewrite (bind_Ret _ _ _ _ _ (make_shared_copy_run _ nb Hb)).
  erewrite bind_Ret; [done|].
  erewrite set_left_heap_run; [done|]. simpl. by apply lookup_app_l_Some.
Qed.

Lemma copy_right_heap_run st a n b nb :
  budget st = None →
  nodes st !! a = Some n → right n = Some b → nodes st !! b = Some nb →
  copy_right (AtHeap a) st
  = (Ret (length (nodes st)),
     mk_state (<[a := with_right n (Some (length (nodes st)))]> (nodes st ++ [nb]))
              (vals st) (sets st) (tmp st) (budget st)).
Proof.
  intros Hb Ha Hl Hnb. unfold copy_right. msteps. rewrite Hl. simpl. msteps.
  rewrite (bind_Ret _ _ _ _ _ (make_shared_copy_run _ nb Hb)).
  erewrite bind_Ret; [done|].
  erewrite set_right_heap_run; [done|]. simpl. by apply lookup_app_l_Some.
Qed.

Lemma repr_Node_inv st l a x r :
  repr st (Node l a x r) →
  ∃ vp, nodes st !! a = Some (mk_node (Some vp) (ptr_of l) (ptr_of r))
        ∧ vals st !! vp = Some x ∧ repr st l ∧ repr st r.
Proof. done. Qed.

Lemma bst_Node_inv l a x r :
  bst (Node l a x r) →
  Forall (λ y, y < x) (values l) ∧ Forall (λ y, x < y) (values r)
  ∧ bst l ∧ bst r.
Proof. done. Qed.

Lemma lookup_insert_app_eq {A} (l : list A) a n m :
  (a < length l)%nat → <[a := n]> (l ++ [m]) !! a = Some n.
Proof. intros. apply list_lookup_insert_eq. rewrite length_app. lia. Qed.

Lemma lookup_insert_app_new {A} (l : list A) a n m :
  (a < length l)%nat → <[a := n]> (l ++ [m]) !! length l = Some m.
Proof.
  intros. rewrite list_lookup_insert_ne by lia.
  rewrite lookup_app_r by lia. by rewrite Nat.sub_diag.
Qed.

Lemma lookup_insert_app_old {A} (l : list A) a b n m :
  (b < length l)%nat → b ≠ a → <[a := n]> (l ++ [m]) !! b = l !! b.
Proof.
  intros. rewrite list_lookup_insert_ne by done. by apply lookup_app_l.
Qed.

Lemma lookup_app_new {A} (l : list A) m : (l ++ [m]) !! length l = Some m.
Proof. rewrite lookup_app_r by lia. by rewrite Nat.sub_diag. Qed.

Lemma insert_at_run fuel : ∀ l x r st a vp n0 v,
  budget st = None → (n0 ≤ a)%nat →
  nodes st !! a = Some (mk_node (Some vp) (ptr_of l) (ptr_of r)) →
  vals st !! vp = Some x →
  repr st l → repr st r → below n0 l → below n0 r →
  bst (Node l a x r) → v ∉ values (Node l a x r) →
  (height (Node l a x r) ≤ fuel)%nat →
  ∃ st' t', insert_at fuel a v st = (Ret tt, st')
            ∧ ptr_of t' = Some a ∧ repr st' t' ∧ bst t'
            ∧ values t' ≡ₚ v :: values (Node l a x r)
            ∧ changes_at a st st'.
Proof.
  induction fuel as [|fuel IH];
    intros l x r st a vp n0 v Hb Hn0 Ha Hvp Hl Hr Hbl Hbr Hbst Hv Hf;
    [simpl in Hf; lia|].
  pose proof (lookup_lt_Some _ _ _ Ha) as Halloc.
  apply bst_Node_inv in Hbst as (Hlx & Hrx & Hbstl & Hbstr).
  rewrite elem_of_values_Node in Hv.
  cbn [insert_at]. mstep. cbn [value left right]. msteps.
  destruct (Z.ltb_spec v x) as [Hlt|Hge].
  - destruct l as [|ll b y lr]; cbn [ptr_of non_null].
    + rewrite (bind_Ret _ _ _ _ _ (make_shared_leaf_run _ v Hb)).
      erewrite set_left_heap_run
        by (cbn [nodes]; by apply lookup_app_l_Some).
      eexists _, (Node (Node Leaf (length (nodes st)) v Leaf) a x r).
      split; [done|]. split; [done|].
      assert (∀ b, (b < n0)%nat →
        <[a:=with_left (mk_node (Some vp) None (ptr_of r))
               (Some (length (nodes st)))]>
          (nodes st ++ [mk_node (Some (length (vals st))) None None]) !! b
        = nodes st !! b) as Hold.
      { intros b ?. apply lookup_insert_app_old; lia. }
      split; [|split; [|split]].
      * exists vp. cbn [nodes vals ptr_of]. split; [|split; [|split]].
        -- by apply lookup_insert_app_eq.
        -- by apply lookup_app_l_Some.
        -- exists (length (vals st)). cbn [nodes vals ptr_of repr].
           split; [by apply lookup_insert_app_new|].
           split; [apply lookup_app_new|done].
        -- eapply repr_preserved; [done..|].
           intros ???. by apply lookup_app_l_Some.
      * cbn [bst]. rewrite values_Node. repeat split; try done.
        repeat constructor. done.
      * rewrite !values_Node. done.
      * unfold changes_at. cbn [nodes vals sets tmp budget].
        rewrite length_insert, length_app. simpl.
        repeat split; try done; [lia|..].
        -- intros. by apply lookup_insert_app_old.
        -- intros ???. by apply lookup_app_l_Some.
    + apply repr_Node_inv in Hl as (vy & Hcb & Hvy & Hll & Hlr).
      apply below_Node in Hbl as (Hbll & Hbn0 & Hblr).
      erewrite (bind_Ret _ _ _ _ _
                  (copy_left_heap_run _ _ _ _ _ Hb Ha eq_refl Hcb)).
      set (st1 := mk_state _ _ _ _ _).
      assert (∀ c, (c < n0)%nat → nodes st1 !! c = nodes st !! c) as Hold.
      { intros c ?. apply lookup_insert_app_old; lia. }
      destruct (IH ll y lr st1 (length (nodes st)) vy n0 v)
        as (st' & tl' & Hrun & Hptr & Hrepr & Hbst' & Hperm & Hch);
        try done.
      * lia.
      * by apply lookup_insert_app_new.
      * by eapply repr_preserved.
      * by eapply repr_preserved.
      * intros Hin. apply Hv. left. by rewrite values_Node in *.
      * simpl in *. lia.
      * destruct Hch as (Hb' & Hs' & Ht' & Hlen & Hcells & Hvals).
        assert (length (nodes st1) = S (length (nodes st))) as Hlen1.
        { subst st1. cbn [nodes]. rewrite length_insert, length_app.
          simpl. lia. }
        exists st', (Node tl' a x r). split; [done|]. split; [done|].
        split; [|split; [|split]].
        -- exists vp. rewrite Hptr. split; [|split; [|split]].
           ++ rewrite Hcells by lia. by apply lookup_insert_app_eq.
           ++ auto.
           ++ done.
           ++ eapply (repr_preserved n0); [exact Hr|done| |done].
              intros c ?. rewrite Hcells by lia. auto.
        -- cbn [bst]. repeat split; try done.
           rewrite Hperm. constructor; [done|]. by rewrite values_Node in *.
        -- rewrite values_Node, Hperm, !values_Node. done.
        -- unfold changes_at. rewrite Hb', Hs', Ht'.
           repeat split; try done; [lia|].
           intros c ??. rewrite Hcells by lia.
           by apply lookup_insert_app_old.
  - assert (x < v) as Hgt by (assert (v ≠ x) by naive_solver; lia).
    destruct r as [|rl b y rr]; cbn [ptr_of non_null].
    + rewrite (bind_Ret _ _ _ _ _ (make_shared_leaf_run _ v Hb)).
      erewrite set_right_heap_run
        by (cbn [nodes]; by apply lookup_app_l_Some).
      eexists _, (Node l a x (Node Leaf (length (nodes st)) v Leaf)).
      split; [done|]. split; [done|].
      assert (∀ b, (b < n0)%nat →
        <[a:=with_right (mk_node (Some vp) (ptr_of l) None)
               (Some (length (nodes st)))]>
          (nodes st ++ [mk_node (Some (length (vals st))) None None]) !! b
        = nodes st !! b) as Hold.
      { intros b ?. apply lookup_insert_app_old; lia. }
      split; [|split; [|split]].
      * exists vp. cbn [nodes vals ptr_of]. split; [|split; [|split]].
        -- by apply lookup_insert_app_eq.
        -- by apply lookup_app_l_Some.
        -- eapply repr_preserved; [done..|].
           intros ???. by apply lookup_app_l_Some.
        -- exists (length (vals st)). cbn [nodes vals ptr_of repr].
           split; [by apply lookup_insert_app_new|].
           split; [apply lookup_app_new|done].
      * cbn [bst]. rewrite values_Node. repeat split; try done.
        repeat constructor. done.
      * rewrite !values_Node. simpl.
        rewrite (Permutation_swap v x). by rewrite <-Permutation_middle.
      * unfold changes_at. cbn [nodes vals sets tmp budget].
        rewrite length_insert, length_app. simpl.
        repeat split; try done; [lia|..].
        -- intros. by apply lookup_insert_app_old.
        -- intros ???. by apply lookup_app_l_Some.
    + apply repr_Node_inv in Hr as (vy & Hcb & Hvy & Hrl & Hrr).
      apply below_Node in Hbr as (Hbrl & Hbn0 & Hbrr).
      erewrite (bind_Ret _ _ _ _ _
                  (copy_right_heap_run _ _ _ _ _ Hb Ha eq_refl Hcb)).
      set (st1 := mk_state _ _ _ _ _).
      assert (∀ c, (c < n0)%nat → nodes st1 !! c = nodes st !! c) as Hold.
      { intros c ?. apply lookup_insert_app_old; lia. }
      destruct (IH rl y rr st1 (length (nodes st)) vy n0 v)
        as (st' & tr' & Hrun & Hptr & Hrepr & Hbst' & Hperm & Hch);
        try done.
      * lia.
      * by apply lookup_insert_app_new.
      * by eapply repr_preserved.
      * by eapply repr_preserved.
      * intros Hin. apply Hv. right; right. by rewrite values_Node in *.
      * simpl in *. lia.
      * destruct Hch as (Hb' & Hs' & Ht' & Hlen & Hcells & Hvals).
        assert (length (nodes st1) = S (length (nodes st))) as Hlen1.
        { subst st1. cbn [nodes]. rewrite length_insert, length_app.
          simpl. lia. }
        exists st', (Node l a x tr'). split; [done|]. split; [done|].
        split; [|split; [|split]].
        -- exists vp. rewrite Hptr. split; [|split; [|split]].
           ++ rewrite Hcells by lia. by apply lookup_insert_app_eq.
           ++ auto.
           ++ eapply (repr_preserved n0); [exact Hl|done| |done].
              intros c ?. rewrite Hcells by lia. auto.
           ++ done.
        -- cbn [bst]. repeat split; try done.
           rewrite Hperm. constructor; [done|]. by rewrite values_Node in *.
        -- rewrite values_Node, Hperm, !values_Node.
           rewrite (Permutation_swap v x). by rewrite <-Permutation_middle.
        -- unfold changes_at. rewrite Hb', Hs', Ht'.
           repeat split; try done; [lia|].
           intros c ??. rewrite Hcells by lia.
           by apply lookup_insert_app_old.
Qed.

Lemma extends_refl st : extends st st.
Proof. by split. Qed.

Lemma extends_trans st1 st2 st3 :
  extends st1 st2 → extends st2 st3 → extends st1 st3.
Proof. intros [??] [??]. split; auto. Qed.

Lemma repr_extends st st' t : repr st t → extends st st' → repr st' t.
Proof.
  intros Hr [Hn Hv]. induction t as [|l IHl a x r IHr]; simpl in *; [done|].
  destruct Hr as (vp & Ha & Hvp & Hl & Hrr). exists vp. auto.
Qed.

Lemma set_ok_extends st st' s t :
  set_ok st s t → extends st st' → sets st' !! s = sets st !! s →
  set_ok st' s t.
Proof.
  intros (o & Hs & Hroot & Hr & Hrest) Hext Heq.
  exists o. rewrite Heq. split; [done|]. split; [done|].
  split; [by eapply repr_extends|done].
Qed.

Lemma try_catch_Ret {A} (body : M A) handler st a st' :
  body st = (Ret a, st') → try_catch body handler st = (Ret a, st').
Proof. unfold try_catch. by intros ->. Qed.

Lemma set_m_root_run st this s n :
  sets st !! this = Some s →
  set_m_root this n st
  = (Ret tt, mk_state (nodes st) (vals st)
                      (<[this := mk_set n (m_size s)]> (sets st))
                      (tmp st) (budget st)).
Proof. intros H. unfold set_m_root. by msteps. Qed.

Lemma set_m_size_run st this s k :
  sets st !! this = Some s →
  set_m_size this k st
  = (Ret tt, mk_state (nodes st) (vals st)
                      (<[this := mk_set (m_root s) k]> (sets st))
                      (tmp st) (budget st)).
Proof. intros H. unfold set_m_size. by msteps. Qed.

(** *** What [find] finds in a search tree *)

Lemma tfind_elem_of t v a x : tfind t v = Some (a, x) → x = v ∧ (a, x) ∈ cells t.
Proof.
  unfold tfind. destruct (lb t v) as [[b y]|] eqn:Hlb; [|done].
  destruct (Z.eqb_spec y v); simpl; [|done].
  intros [= -> ->]. split; [done|]. by eapply lb_elem_of.
Qed.

Lemma tfind_present t v :
  bst t → v ∈ values t → ∃ a, tfind t v = Some (a, v).
Proof.
  intros Hb Hin. pose proof (lb_spec t v Hb) as Hlb. unfold tfind.
  destruct (lb t v) as [[a x]|] eqn:Heq.
  - destruct Hlb as [Hle Hmin]. specialize (Hmin v Hin).
    assert (x = v) as -> by lia. rewrite Z.eqb_refl. simpl. eauto.
  - specialize (Hlb v Hin). lia.
Qed.

Lemma tfind_absent t v : v ∉ values t → tfind t v = None.
Proof.
  intros Hin. destruct (tfind t v) as [[a x]|] eqn:Heq; [|done].
  apply tfind_elem_of in Heq as [-> ?]. destruct Hin.
  apply elem_of_values. eauto.
Qed.

(** *** [insert] of an absent and of a present element *)

Lemma insert_present_run st this t v :
  budget st = None → set_ok st this t → v ∈ values t →
  ∃ a, insert this v st = (Ret (mk_iterator (AtHeap a) this, false), st)
       ∧ (a, v) ∈ cells t.
Proof.
  intros Hb Hok Hin.
  assert (bst t) as Hbst by (destruct Hok; naive_solver).
  destruct (tfind_present _ _ Hbst Hin) as [a Hfind].
  exists a. split; [|by apply tfind_elem_of in Hfind as [_ ?]].
  unfold insert.
  rewrite (bind_Ret _ _ _ _ _ (find_run _ _ _ v Hb Hok)).
  rewrite Hfind. cbn [fmap option_fmap option_map fst it_at].
  rewrite iterator_eq_heap_end. cbn [negb].
  rewrite (bind_Ret _ _ _ _ _ (find_run _ _ _ v Hb Hok)).
  by rewrite Hfind.
Qed.

Lemma insert_absent_run st this t v :
  budget st = None → set_ok st this t → v ∉ values t →
  Z.of_nat (length (cells t)) + 1 < size_t_mod →
  ∃ st' t' a,
    insert this v st = (Ret (mk_iterator (AtHeap a) this, true), st')
    ∧ set_ok st' this t' ∧ values t' ≡ₚ v :: values t ∧ (a, v) ∈ cells t'
    ∧ extends st st' ∧ budget st' = None
    ∧ length (sets st') = length (sets st)
    ∧ ∀ s, s ≠ this → sets st' !! s = sets st !! s.
Proof.
  intros Hb Hok Hin Hsz. pose proof Hok as (s & Hs & Hroot & Hr & Hbst & Hsize & _).
  (* the state once the new path has been built, and the new tree *)
  assert (∃ st1 t',
    (let* s := get_set this in
     if non_null (left (m_root s)) then
       let* child := load_shared (left (m_root s)) in
       let* c := make_shared_copy child in
       let* fuel := heap_fuel in
       let* _ := insert_at fuel c v in
       ret (with_left (m_root s) (Some c))
     else
       let* c := make_shared_leaf v in
       ret (with_left (m_root s) (Some c))) st
    = (Ret (mk_node None (ptr_of t') None), st1)
    ∧ repr st1 t' ∧ bst t' ∧ values t' ≡ₚ v :: values t
    ∧ extends st st1 ∧ budget st1 = None ∧ sets st1 = sets st)
    as (st1 & t' & Hrun & Hr' & Hbst' & Hperm & Hext & Hb1 & Hs1).
  { mstep. rewrite Hroot. cbn [left].
    destruct t as [|l b y r]; cbn [ptr_of non_null].
    - rewrite (bind_Ret _ _ _ _ _ (make_shared_leaf_run _ v Hb)).
      eexists _, (Node Leaf (length (nodes st)) v Leaf).
      split; [done|]. split; [|split; [|split; [|split]]]; try done.
      + exists (length (vals st)). cbn [nodes vals ptr_of repr].
        split; [apply lookup_app_new|]. split; [apply lookup_app_new|done].
      + split; simpl; intros ???; by apply lookup_app_l_Some.
    - pose proof (repr_Node_inv _ _ _ _ _ Hr) as (vy & Hcb & Hvy & Hl & Hrr).
      cbn [load_shared]. mstep.
      rewrite (bind_Ret _ _ _ _ _ (make_shared_copy_run _ _ Hb)). mstep.
      set (st0 := mk_state _ _ _ _ _).
      pose proof (repr_below _ _ Hr) as (Hbl & _ & Hbr)%below_Node.
      assert (extends st st0) as Hext0.
      { split; cbn [nodes vals]; [|done].
        intros ???; by apply lookup_app_l_Some. }
      destruct (insert_at_run (S (length (nodes st0))) l y r st0
                  (length (nodes st)) vy (length (nodes st)) v)
        as (st1 & t' & Hrun & Hptr & Hr' & Hbst' & Hperm & Hch);
        try done.
      + apply lookup_app_new.
      + by eapply repr_extends.
      + by eapply repr_extends.
      + intros Hv. apply Hin. by rewrite values_Node in *.
      + pose proof (repr_height _ _ Hr Hbst). subst st0. cbn [nodes].
        rewrite length_app. simpl in *. lia.
      + destruct Hch as (Hb' & Hs' & Ht' & Hlen & Hcells & Hvals).
        cbn [nodes] in Hrun. rewrite (bind_Ret _ _ _ _ _ Hrun).
        exists st1, t'. rewrite Hptr. split; [done|]. split; [done|].
        split; [done|]. split; [by rewrite Hperm, !values_Node|].
        split; [|by rewrite Hb', Hs'].
        split; [|done].
        intros c n Hc. pose proof (lookup_lt_Some _ _ _ Hc) as Hlt.
        rewrite Hcells; [by apply Hext0| |lia].
        subst st0. cbn [nodes]. rewrite length_app. lia. }
  assert (this < length (sets st))%nat as Hthis by by eapply lookup_lt_Some.
  assert (length (cells t') = S (length (cells t))) as Hlen'.
  { rewrite <-!length_values, Hperm. done. }
  set (s' := mk_set (mk_node None (ptr_of t') None)
                    (Z.of_nat (length (cells t')))).
  set (st' := mk_state (nodes st1) (vals st1) (<[this := s']> (sets st))
                       (tmp st1) None).
  assert (set_ok st' this t') as Hok'.
  { exists s'. subst st' s'. cbn [sets m_root m_size].
    split; [by apply list_lookup_insert_eq|]. split; [done|].
    split; [eapply repr_extends; [exact Hr'|by split]|].
    split; [done|]. split; [done|]. lia. }
  assert (∃ a, tfind t' v = Some (a, v)) as [a Hfind].
  { apply tfind_present; [done|]. rewrite Hperm. left. }
  exists st', t', a. split.
  - unfold insert.
    rewrite (bind_Ret _ _ _ _ _ (find_run _ _ _ v Hb Hok)).
    rewrite (tfind_absent _ _ Hin). cbn [fmap option_fmap option_map it_at].
    rewrite iterator_eq_refl. cbn [negb]. mstep.
    apply try_catch_Ret.
    rewrite <-bind_bind. rewrite (bind_Ret _ _ _ _ _ Hrun).
    erewrite bind_Ret; [|apply set_m_root_run; by rewrite Hs1].
    erewrite bind_Ret; [|apply get_set_run; cbn [sets];
                         rewrite Hs1; by apply list_lookup_insert_eq].
    erewrite bind_Ret; [|apply set_m_size_run; cbn [sets];
                         rewrite Hs1; by apply list_lookup_insert_eq].
    cbn [m_root m_size nodes vals sets tmp budget].
    rewrite list_insert_insert_eq, Hs1, Hb1, Hsize.
    rewrite Z.mod_small by lia.
    replace (Z.of_nat (length (cells t)) + 1)
      with (Z.of_nat (length (cells t'))) by lia.
    fold s'. fold st'.
    erewrite bind_Ret; [|by apply find_run].
    by rewrite Hfind.
  - split; [done|]. split; [done|].
    split; [by apply tfind_elem_of in Hfind as [_ ?]|].
    split; [done|]. split; [done|].
    subst st'. cbn [sets]. split; [by rewrite length_insert|].
    intros s0 ?. by rewrite list_lookup_insert_ne.
Qed.

(** *** Cells behind raw pointers *)

Lemma load_cell st p n : cell st p = Some n → load p st = (Ret n, st).
Proof.
  unfold load, cell. destruct p as [s| |a]; simpl.
  - destruct (sets st !! s); [|done]. by intros [= <-].
  - by intros [= <-].
  - by intros ->.
Qed.

Lemma store_cell st p n n' :
  cell st p = Some n' → store p n st = (Ret tt, st_store p n st).
Proof.
  unfold store, cell, st_store. destruct p as [s| |a]; simpl; [|done|].
  - by destruct (sets st !! s).
  - by intros ->.
Qed.

Lemma cell_store_eq st p n n' :
  cell st p = Some n' → cell (st_store p n st) p = Some n.
Proof.
  unfold cell, st_store. destruct p as [s| |a]; simpl; [|done|].
  - destruct (sets st !! s) eqn:Hs; [|done]. intros _. simpl.
    rewrite list_lookup_insert_eq; [done|by eapply lookup_lt_Some].
  - intros H. apply list_lookup_insert_eq. by eapply lookup_lt_Some.
Qed.

Lemma cell_store_ne st p q n : p ≠ q → cell (st_store p n st) q = cell st q.
Proof.
  unfold cell, st_store. intros Hne.
  destruct p as [s| |a], q as [s'| |a']; simpl; try done.
  - destruct (sets st !! s); [|done]. simpl.
    rewrite list_lookup_insert_ne; [done|congruence].
  - by destruct (sets st !! s).
  - by destruct (sets st !! s).
  - rewrite list_lookup_insert_ne; [done|congruence].
Qed.

Lemma cell_alloc_old st q n m :
  cell st q = Some n → cell (st_alloc m st) q = Some n.
Proof.
  unfold cell, st_alloc. destruct q; simpl; try done.
  apply lookup_app_l_Some.
Qed.

Lemma cell_alloc_new st m :
  cell (st_alloc m st) (AtHeap (length (nodes st))) = Some m.
Proof. apply lookup_app_new. Qed.

Lemma cell_heap_lt st a n : cell st (AtHeap a) = Some n → (a < length (nodes st))%nat.
Proof. apply lookup_lt_Some. Qed.

Global Hint Resolve load_cell : run.

Lemma changes_only_refl X st : changes_only X st st.
Proof. by repeat split. Qed.

Lemma changes_only_trans X Y st1 st2 st3 :
  changes_only X st1 st2 → changes_only Y st2 st3 →
  (∀ q, q ∈ Y → q ∈ X ∨ cell st1 q = None) →
  changes_only X st1 st3.
Proof.
  intros (Hb1 & Hs1 & Hc1 & Hv1) (Hb2 & Hs2 & Hc2 & Hv2) HY.
  split; [congruence|]. split; [congruence|]. split; [|auto].
  intros q n Hq Hc. apply Hc2; [|auto].
  intros [?|Hnone]%HY; [done|congruence].
Qed.

Lemma changes_only_weaken X Y st st' :
  changes_only X st st' → (∀ q, q ∈ X → q ∈ Y) → changes_only Y st st'.
Proof.
  intros (Hb & Hs & Hc & Hv) HXY. repeat split; auto.
Qed.

Lemma changes_only_store st p n :
  (∀ s, p ≠ AtRoot s) → changes_only [p] st (st_store p n st).
Proof.
  intros Hp. split; [|split; [|split]].
  - destruct p; simpl; try done. by destruct (Hp s).
  - destruct p; simpl; try done. by destruct (Hp s).
  - intros q m Hq%not_elem_of_cons Hc. rewrite cell_store_ne; naive_solver.
  - destruct p; simpl; try done. by destruct (Hp s).
Qed.

Lemma changes_only_alloc st m : changes_only [] st (st_alloc m st).
Proof.
  repeat split; try done. intros q n _. apply cell_alloc_old.
Qed.

Lemma repr_changes n0 X st st' t :
  repr st t → below n0 t → changes_only X st st' → Forall (fresh n0) X →
  repr st' t.
Proof.
  intros Hr Hb (_ & _ & Hc & Hv) HX.
  induction t as [|l IHl a x r IHr]; simpl in *; [done|].
  destruct Hr as (vp & Ha & Hvp & Hl & Hrr).
  apply below_Node in Hb as (? & ? & ?).
  exists vp. split; [|auto].
  apply (Hc (AtHeap a)); [|done].
  intros Hin. rewrite Forall_forall in HX. apply HX in Hin. simpl in Hin. lia.
Qed.

Lemma set_left_cell st p n q :
  cell st p = Some n →
  set_left p q st = (Ret tt, st_store p (with_left n q) st).
Proof. intros H. unfold set_left. msteps. by eapply store_cell. Qed.

Lemma set_right_cell st p n q :
  cell st p = Some n →
  set_right p q st = (Ret tt, st_store p (with_right n q) st).
Proof. intros H. unfold set_right. msteps. by eapply store_cell. Qed.

Lemma make_shared_copy_alloc st n :
  budget st = None →
  make_shared_copy n st = (Ret (length (nodes st)), st_alloc n st).
Proof. apply make_shared_copy_run. Qed.

Lemma copy_left_cell st p n b nb :
  budget st = None →
  cell st p = Some n → left n = Some b → nodes st !! b = Some nb →
  copy_left p st
  = (Ret (length (nodes st)),
     st_store p (with_left n (Some (length (nodes st)))) (st_alloc nb st)).
Proof.
  intros Hb Hp Hl Hnb. unfold copy_left. msteps. rewrite Hl. simpl. msteps.
  rewrite (bind_Ret _ _ _ _ _ (make_shared_copy_alloc _ nb Hb)).
  erewrite bind_Ret; [done|].
  apply set_left_cell. by apply cell_alloc_old.
Qed.

Lemma copy_right_cell st p n b nb :
  budget st = None →
  cell st p = Some n → right n = Some b → nodes st !! b = Some nb →
  copy_right p st
  = (Ret (length (nodes st)),
     st_store p (with_right n (Some (length (nodes st)))) (st_alloc nb st)).
Proof.
  intros Hb Hp Hl Hnb. unfold copy_right. msteps. rewrite Hl. simpl. msteps.
  rewrite (bind_Ret _ _ _ _ _ (make_shared_copy_alloc _ nb Hb)).
  erewrite bind_Ret; [done|].
  apply set_right_cell. by apply cell_alloc_old.
Qed.

Lemma swap_value_cell st p q np nq :
  cell st p = Some np → cell st q = Some nq → p ≠ q →
  swap_value p q st
  = (Ret tt, st_store q (with_value nq (value np))
                      (st_store p (with_value np (value nq)) st)).
Proof.
  intros Hp Hq Hne. unfold swap_value. msteps.
  erewrite bind_Ret; [|by eapply store_cell].
  erewrite bind_Ret; [|apply load_cell; by rewrite cell_store_ne].
  eapply store_cell. by rewrite cell_store_ne.
Qed.

Lemma erase_impl_cell st parent son s p :
  cell st son = Some s → cell st parent = Some p →
  erase_impl parent son st
  = (Ret tt,
     st_store parent
       (if points_at (left p) son then with_left p (pick s)
        else with_right p (pick s)) st).
Proof.
  intros Hs Hp. unfold erase_impl, pick. msteps.
  destruct (left s) as [ls|] eqn:Hls, (right s) as [rs|] eqn:Hrs;
    cbn [non_null negb andb]; destruct (points_at (left p) son);
    first [by apply set_left_cell | by apply set_right_cell].
Qed.

Lemma points_at_Some a b : points_at (Some a) (AtHeap b) = bool_decide (a = b).
Proof. unfold points_at. simpl. apply bool_decide_ext. naive_solver. Qed.

Lemma points_at_None q : points_at None q = false.
Proof. done. Qed.

Lemma points_at_ptr_of st t c :
  repr st t → (length (nodes st) ≤ c)%nat → points_at (ptr_of t) (AtHeap c) = false.
Proof.
  destruct t as [|l a x r]; [done|]. intros (vp & Ha%lookup_lt_Some & _) ?.
  simpl. rewrite points_at_Some. apply bool_decide_eq_false_2. lia.
Qed.

(** Membership in an explicit list of pointers. *)
Ltac in_list :=
  intros; rewrite ?elem_of_cons, ?elem_of_nil in *; naive_solver.

Lemma changes_only_then_store X st st1 p n :
  changes_only X st st1 → (∀ s, p ≠ AtRoot s) →
  p ∈ X ∨ cell st p = None →
  changes_only X st (st_store p n st1).
Proof.
  intros H Hp Hin. eapply changes_only_trans; [exact H| |].
  - by apply changes_only_store.
  - by intros q ->%list_elem_of_singleton.
Qed.

Lemma changes_only_then_alloc X st st1 m :
  changes_only X st st1 → changes_only X st (st_alloc m st1).
Proof.
  intros H. eapply changes_only_trans; [exact H| |].
  - apply changes_only_alloc.
  - by intros q ?%elem_of_nil.
Qed.

Lemma cell_fresh st : cell st (AtHeap (length (nodes st))) = None.
Proof. simpl. by apply lookup_ge_None_2. Qed.

Lemma with_right_id n q : right n = q → with_right n q = n.
Proof. intros <-. by destruct n. Qed.

Lemma with_left_id n q : left n = q → with_left n q = n.
Proof. intros <-. by destruct n. Qed.

Lemma pick_left_only v t :
  pick (mk_node v (ptr_of t) None) = ptr_of t.
Proof. by destruct t. Qed.

(** The predecessor step of [erase]: walking down the right spine below
    [nx], moving the greatest element into [P] and unlinking its node. *)
Lemma remove_max_run sr : ∀ fuel sl z st P nP tp ntp nx vz n0,
  budget st = None →
  (n0 ≤ nx)%nat → (n0 ≤ P)%nat → (n0 ≤ tp)%nat →
  P ≠ tp → P ≠ nx → tp ≠ nx →
  nodes st !! P = Some nP → nodes st !! tp = Some ntp →
  right ntp = Some nx → points_at (left ntp) (AtHeap nx) = false →
  nodes st !! nx = Some (mk_node (Some vz) (ptr_of sl) (ptr_of sr)) →
  vals st !! vz = Some z →
  repr st sl → repr st sr → below n0 sl → below n0 sr →
  bst (Node sl nx z sr) → (height sr ≤ fuel)%nat →
  ∃ st' s' m vm,
    (let* tn := descend_right fuel (AtHeap tp) (AtHeap nx) in
     let* _ := swap_value (AtHeap P) (snd tn) in
     erase_impl (fst tn) (snd tn)) st = (Ret tt, st')
    ∧ repr st' s' ∧ bst s' ∧ values (Node sl nx z sr) = values s' ++ [m]
    ∧ nodes st' !! tp = Some (with_right ntp (ptr_of s'))
    ∧ nodes st' !! P = Some (with_value nP (Some vm))
    ∧ vals st' !! vm = Some m
    ∧ changes_only [AtHeap P; AtHeap tp; AtHeap nx] st st'.
Proof.
  induction sr as [|srl _ d w srr IH];
    intros fuel sl z st P nP tp ntp nx vz n0 Hb Hnx HP Htp HPtp HPnx Htpnx
      HcP Hctp Hright Hleft Hcnx Hvz Hsl Hsr Hbl Hbr Hbst Hf.
  - (* the node at [nx] holds the greatest element *)
    set (st1 := st_store (AtHeap P) (with_value nP (Some vz)) st).
    set (st2 := st_store (AtHeap nx)
                  (with_value (mk_node (Some vz) (ptr_of sl) None) (value nP))
                  st1).
    set (st3 := st_store (AtHeap tp) (with_right ntp (ptr_of sl)) st2).
    assert (changes_only [AtHeap P; AtHeap tp; AtHeap nx] st st3) as Hch.
    { repeat apply changes_only_then_store; try done; left; in_list. }
    exists st3, sl, z, vz. split.
    { assert (descend_right fuel (AtHeap tp) (AtHeap nx) st
              = (Ret (AtHeap tp, AtHeap nx), st)) as Hd.
      { destruct fuel; simpl; by msteps. }
      rewrite (bind_Ret _ _ _ _ _ Hd). cbn [fst snd].
      erewrite bind_Ret;
        [|eapply (swap_value_cell _ _ _ nP); [done..|congruence]].
      erewrite erase_impl_cell.
      - rewrite Hleft. cbn [value left right with_value].
        by rewrite pick_left_only.
      - eapply cell_store_eq. by rewrite cell_store_ne by congruence.
      - rewrite !cell_store_ne by congruence. done. }
    apply bst_Node_inv in Hbst as (? & ? & ? & ?).
    split; [by eapply (repr_changes n0); [| | |repeat constructor]|].
    split; [done|]. split; [by rewrite values_Node|].
    split.
    { subst st3 st2 st1. eapply (cell_store_eq _ (AtHeap tp)).
      rewrite !cell_store_ne by congruence. done. }
    split; [|done].
    change (cell st3 (AtHeap P) = Some (with_value nP (Some vz))).
    subst st3 st2 st1. rewrite !cell_store_ne by congruence.
    by eapply cell_store_eq.
  - (* one more step down the right spine *)
    destruct fuel as [|fuel]; [simpl in Hf; lia|].
    apply repr_Node_inv in Hsr as (vw & Hcd & Hvw & Hsrl & Hsrr).
    apply below_Node in Hbr as (Hbrl & Hd & Hbrr).
    apply bst_Node_inv in Hbst as (Hlz & Hrz & Hbstl & Hbstr).
    pose proof (lookup_lt_Some _ _ _ HcP).
    pose proof (lookup_lt_Some _ _ _ Hctp).
    pose proof (lookup_lt_Some _ _ _ Hcnx).
    set (c := length (nodes st)).
    set (nnx := with_right (mk_node (Some vz) (ptr_of sl) (Some d)) (Some c)).
    set (st1 := st_store (AtHeap nx) nnx
                  (st_alloc (mk_node (Some vw) (ptr_of srl) (ptr_of srr)) st)).
    assert (changes_only [AtHeap nx] st st1) as Hch1.
    { apply changes_only_then_store; [|done|left; in_list].
      apply changes_only_then_alloc, changes_only_refl. }
    assert (Forall (fresh n0) [AtHeap nx]) as Hfr by (by repeat constructor).
    destruct (IH fuel srl w st1 P nP nx nnx c vw n0)
      as (st' & sr' & m & vm & Hrun & Hrepr & Hbst' & Hvals & Hcnx' & HcP'
          & Hvm & Hch); try done; try (subst c; lia).
    { subst st1. change (cell (st_store (AtHeap nx) nnx
        (st_alloc (mk_node (Some vw) (ptr_of srl) (ptr_of srr)) st)) (AtHeap P)
        = Some nP).
      rewrite cell_store_ne by congruence. by apply cell_alloc_old. }
    { by eapply (cell_store_eq _ (AtHeap nx)), cell_alloc_old. }
    { subst nnx. cbn [with_right left]. by eapply points_at_ptr_of. }
    { subst st1. change (cell (st_store (AtHeap nx) nnx
        (st_alloc (mk_node (Some vw) (ptr_of srl) (ptr_of srr)) st)) (AtHeap c)
        = Some (mk_node (Some vw) (ptr_of srl) (ptr_of srr))).
      rewrite cell_store_ne by (subst c; intros [=]; lia).
      apply cell_alloc_new. }
    { by eapply (repr_changes n0). }
    { by eapply (repr_changes n0). }
    { simpl in Hf. lia. }
    assert (changes_only [AtHeap P; AtHeap tp; AtHeap nx] st st') as Hch'.
    { eapply changes_only_trans; [|exact Hch|].
      - eapply changes_only_weaken; [exact Hch1|]. in_list.
      - intros q Hq. rewrite !elem_of_cons in Hq.
        destruct Hq as [->|[->|[->|?%elem_of_nil]]]; [left; in_list..| |done].
        right. apply cell_fresh. }
    exists st', (Node sl nx z sr'), m, vm. split.
    { cbn [descend_right]. mstep. mstep. cbn [right non_null ptr_of]. mstep.
      erewrite bind_Ret;
        [|eapply (copy_right_cell _ (AtHeap nx)); [done..|reflexivity|done]].
      exact Hrun. }
    assert (Forall (fresh n0) [AtHeap P; AtHeap tp; AtHeap nx])
      by (by repeat constructor).
    split.
    { exists vz. split; [|split; [|split]].
      - rewrite Hcnx'. by destruct sr'.
      - destruct Hch' as (_ & _ & _ & Hv). auto.
      - by eapply (repr_changes n0).
      - done. }
    split.
    { cbn [bst]. split; [done|]. split; [|done].
      rewrite values_Node in Hrz, Hvals.
      rewrite Hvals in Hrz. by apply Forall_app in Hrz as [? _]. }
    split.
    { rewrite !values_Node. rewrite values_Node in Hvals.
      rewrite Hvals. by rewrite <-app_assoc. }
    split.
    { cbn [ptr_of]. rewrite with_right_id by done.
      destruct Hch as (_ & _ & Hc & _).
      apply (Hc (AtHeap tp)).
      - rewrite !not_elem_of_cons. repeat split; try congruence;
          [subst c; intros [=]; lia|apply not_elem_of_nil].
      - subst st1. change (cell (st_store (AtHeap nx) nnx
          (st_alloc (mk_node (Some vw) (ptr_of srl) (ptr_of srr)) st))
          (AtHeap tp) = Some ntp).
        rewrite cell_store_ne by congruence. by apply cell_alloc_old. }
    done.
Qed.

Lemma points_at_true p c : points_at p (AtHeap c) = true → p = Some c.
Proof.
  unfold points_at. intros H%bool_decide_eq_true_1.
  destruct p; simpl in *; congruence.
Qed.

Lemma sorted_snoc_lt (l : list Z) m :
  StronglySorted Z.lt (l ++ [m]) → Forall (λ y, y < m) l.
Proof.
  intros H. apply Forall_forall. intros y Hy.
  eapply StronglySorted_app_1_elem_of; [done..|left].
Qed.

(** Erasing the element of a node with two children: its predecessor takes
    its place. *)
Lemma erase_two_run fuel ll b y lr r st c vp x n0 :
  budget st = None → (n0 ≤ c)%nat →
  nodes st !! c = Some (mk_node (Some vp) (Some b) (ptr_of r)) →
  repr st (Node ll b y lr) → repr st r →
  below n0 (Node ll b y lr) → below n0 r →
  bst (Node (Node ll b y lr) c x r) →
  (height (Node ll b y lr) ≤ fuel)%nat →
  ∃ st' t',
    (let* c1 := copy_left (AtHeap c) in
     let* tn := descend_right fuel (AtHeap c) (AtHeap c1) in
     let* _ := swap_value (AtHeap c) (snd tn) in
     erase_impl (fst tn) (snd tn)) st = (Ret tt, st')
    ∧ ptr_of t' = Some c ∧ repr st' t' ∧ bst t'
    ∧ values (Node (Node ll b y lr) c x r) ≡ₚ x :: values t'
    ∧ changes_only [AtHeap c] st st'.
Proof.
  intros Hb Hn0 Hc Hl Hr Hbl Hbr Hbst Hf.
  pose proof (lookup_lt_Some _ _ _ Hc) as Hclt.
  pose proof Hl as (vy & Hcb & Hvy & Hll & Hlr).
  apply below_Node in Hbl as (Hbll & Hbb & Hblr).
  apply bst_Node_inv in Hbst as (Hlx & Hrx & Hbstl & Hbstr).
  pose proof (bst_sorted _ Hbstl) as Hsorted.
  apply bst_Node_inv in Hbstl as (Hlly & Hlry & Hbstll & Hbstlr).
  rewrite values_Node in Hlx, Hsorted.
  apply Forall_app in Hlx as [Hllx [Hyx Hlrx]%Forall_cons].
  set (c1 := length (nodes st)).
  set (nc := with_left (mk_node (Some vp) (Some b) (ptr_of r)) (Some c1)).
  set (nb := mk_node (Some vy) (ptr_of ll) (ptr_of lr)).
  set (st1 := st_store (AtHeap c) nc (st_alloc nb st)).
  assert (copy_left (AtHeap c) st = (Ret c1, st1)) as Hcopy.
  { by eapply (copy_left_cell _ (AtHeap c)). }
  rewrite (bind_Ret _ _ _ _ _ Hcopy).
  assert (changes_only [AtHeap c] st st1) as Hch1.
  { apply changes_only_then_store; [|done|left; in_list].
    apply changes_only_then_alloc, changes_only_refl. }
  assert (Forall (fresh n0) [AtHeap c]) as Hfr by (by repeat constructor).
  assert (cell st1 (AtHeap c) = Some nc) as Hc1.
  { eapply cell_store_eq, cell_alloc_old. exact Hc. }
  assert (cell st1 (AtHeap c1) = Some nb) as Hc1'.
  { subst st1. rewrite cell_store_ne by (subst c1; intros [=]; lia).
    apply cell_alloc_new. }
  assert (c ≠ c1) as Hcc1 by (subst c1; lia).
  destruct lr as [|lrl d w lrr].
  - (* the left child is the predecessor *)
    set (st2 := st_store (AtHeap c) (with_value nc (Some vy)) st1).
    set (st3 := st_store (AtHeap c1) (with_value nb (Some vp)) st2).
    set (st4 := st_store (AtHeap c) (mk_node (Some vy) (ptr_of ll) (ptr_of r))
                  st3).
    assert (changes_only [AtHeap c] st st4) as Hch.
    { subst st4 st3 st2.
      repeat apply changes_only_then_store; try done;
        first [ apply changes_only_then_alloc, changes_only_refl
              | left; in_list | right; apply cell_fresh ]. }
    exists st4, (Node ll c y r). split.
    { assert (descend_right fuel (AtHeap c) (AtHeap c1) st1
              = (Ret (AtHeap c, AtHeap c1), st1)) as Hd.
      { destruct fuel; simpl; by msteps. }
      rewrite (bind_Ret _ _ _ _ _ Hd). cbn [fst snd].
      erewrite bind_Ret;
        [|eapply (swap_value_cell _ _ _ nc nb); [done..|congruence]].
      assert (cell st3 (AtHeap c1) = Some (with_value nb (Some vp))) as Hs3.
      { subst st3 st2. eapply cell_store_eq.
        by rewrite cell_store_ne by congruence. }
      assert (cell st3 (AtHeap c) = Some (with_value nc (Some vy))) as Hp3.
      { subst st3. rewrite cell_store_ne by congruence.
        by eapply cell_store_eq. }
      etrans; [apply (erase_impl_cell _ _ _ _ _ Hs3 Hp3)|].
      subst nc nb. cbn [with_left with_value value left right].
      rewrite points_at_Some, bool_decide_eq_true_2 by done.
      unfold pick. cbn [with_left with_value value left right ptr_of].
      by destruct ll. }
    split; [done|]. split.
    { exists vy. split; [|split; [|split]].
      - eapply (cell_store_eq _ (AtHeap c)). subst st3 st2.
        rewrite cell_store_ne by congruence. by eapply cell_store_eq.
      - done.
      - by eapply (repr_changes n0).
      - by eapply (repr_changes n0). }
    split.
    { cbn [bst]. repeat split; try done.
      eapply Forall_impl; [exact Hrx|]. simpl. lia. }
    split; [|done].
    rewrite !values_Node. cbn [values cells fmap list_fmap app].
    rewrite <-app_assoc. simpl.
    rewrite (Permutation_swap x y). by rewrite <-Permutation_middle.
  - (* the predecessor is further down the right spine *)
    destruct fuel as [|fuel]; [simpl in Hf; lia|].
    pose proof Hlr as (vw & Hcd & Hvw & Hlrl & Hlrr).
    apply below_Node in Hblr as (Hblrl & Hbd & Hblrr).
    pose proof (bst_Node_inv _ _ _ _ Hbstlr) as (Hw1 & Hw2 & Hbstlrl & Hbstlrr).
    set (c2 := length (nodes st1)).
    assert (c2 = S c1) as Hc2.
    { subst c2 st1 c1. cbn [st_store st_alloc nodes].
      rewrite length_insert, length_app. simpl. lia. }
    set (nc1 := with_right nb (Some c2)).
    set (nd := mk_node (Some vw) (ptr_of lrl) (ptr_of lrr)).
    set (st2 := st_store (AtHeap c1) nc1 (st_alloc nd st1)).
    assert (changes_only [AtHeap c] st st2) as Hch2.
    { subst st2. apply changes_only_then_store;
        [|done|right; apply cell_fresh].
      by apply changes_only_then_alloc. }
    assert (copy_right (AtHeap c1) st1 = (Ret c2, st2)) as Hcopy2.
    { eapply (copy_right_cell _ (AtHeap c1)); [done|done|done|].
      destruct Hch1 as (_ & _ & Hcc & _). apply (Hcc (AtHeap d)); [|done].
      rewrite not_elem_of_cons. split; [intros [=]; lia|apply not_elem_of_nil]. }
    destruct (remove_max_run lrr fuel lrl w st2 c
                (with_left (mk_node (Some vp) (Some b) (ptr_of r)) (Some c1))
                c1 nc1 c2 vw n0)
      as (st' & s' & m & vm & Hrun & Hrepr & Hbst' & Hvals & Hcc1' & Hcc'
          & Hvm & Hch); try done; try lia.
    { change (cell st2 (AtHeap c) = Some nc). subst st2.
      rewrite cell_store_ne by congruence. by apply cell_alloc_old. }
    { eapply (cell_store_eq _ (AtHeap c1)), cell_alloc_old. exact Hc1'. }
    { subst nc1 nb. cbn [with_right left].
      eapply points_at_ptr_of; [exact Hll|]. subst c1. lia. }
    { change (cell st2 (AtHeap c2) = Some nd). subst st2.
      rewrite cell_store_ne by (intros [=]; lia). apply cell_alloc_new. }
    { by eapply (repr_changes n0). }
    { by eapply (repr_changes n0). }
    { simpl in Hf. lia. }
    assert (changes_only [AtHeap c] st st') as Hch'.
    { eapply changes_only_trans; [exact Hch2|exact Hch|].
      intros q Hq. rewrite !elem_of_cons in Hq.
      destruct Hq as [->|[->|[->|?%elem_of_nil]]]; [left; in_list| | |done].
      - right. apply cell_fresh.
      - right. simpl. apply lookup_ge_None_2. subst c1. lia. }
    exists st', (Node (Node ll c1 y s') c m r). split.
    { cbn [descend_right]. mstep. mstep. subst nb.
      cbn [right non_null ptr_of]. mstep.
      rewrite (bind_Ret _ _ _ _ _ Hcopy2). exact Hrun. }
    rewrite values_Node in Hvals, Hlry.
    rewrite Hvals in Hlry. apply Forall_app in Hlry as [Hs'y [Hym _]%Forall_cons].
    pose proof (bst_sorted _ Hbstlr) as Hsortedlr. rewrite values_Node in Hsortedlr.
    rewrite Hvals in Hsortedlr. apply sorted_snoc_lt in Hsortedlr.
    rewrite values_Node, Hvals in Hlrx.
    apply Forall_app in Hlrx as [_ [Hmx _]%Forall_cons].
    split; [done|]. split.
    { exists vm. split; [|split; [|split]].
      - rewrite Hcc'. done.
      - done.
      - exists vy. split; [|split; [|split]].
        + rewrite Hcc1'. subst nc1 nb. done.
        + destruct Hch' as (_ & _ & _ & Hv). auto.
        + by eapply (repr_changes n0).
        + done.
      - by eapply (repr_changes n0). }
    split.
    { cbn [bst]. rewrite values_Node. repeat split; try done.
      - apply Forall_app. split; [|constructor; [done|]].
        + eapply Forall_impl; [exact Hlly|]. simpl. lia.
        + done.
      - eapply Forall_impl; [exact Hrx|]. simpl. lia. }
    split; [|done].
    rewrite !values_Node, Hvals, <-!app_assoc. simpl.
    rewrite <-!Permutation_middle. rewrite !app_assoc.
    rewrite <-Permutation_middle. simpl. rewrite app_nil_r, <-!app_assoc.
    apply Permutation_swap.
Qed.

(** The loop of [erase]: the subtree at the fresh cell [c] loses [v], and
    the parent [prev] is relinked to what is left of it. *)
Lemma erase_loop_run fuel : ∀ l x r st prev c np vp n0 v,
  budget st = None →
  (n0 ≤ c)%nat → fresh n0 prev → (∀ s, prev ≠ AtRoot s) → prev ≠ AtHeap c →
  cell st prev = Some np →
  (points_at (left np) (AtHeap c) = false → right np = Some c) →
  nodes st !! c = Some (mk_node (Some vp) (ptr_of l) (ptr_of r)) →
  vals st !! vp = Some x →
  repr st l → repr st r → below n0 l → below n0 r →
  bst (Node l c x r) → v ∈ values (Node l c x r) →
  (height (Node l c x r) ≤ fuel)%nat →
  ∃ st' t',
    erase_loop fuel v prev (AtHeap c) st = (Ret tt, st')
    ∧ repr st' t' ∧ bst t' ∧ values (Node l c x r) ≡ₚ v :: values t'
    ∧ cell st' prev
      = Some (if points_at (left np) (AtHeap c)
              then with_left np (ptr_of t') else with_right np (ptr_of t'))
    ∧ changes_only [prev; AtHeap c] st st'.
Proof.
  induction fuel as [|fuel IH];
    intros l x r st prev c np vp n0 v Hb Hn0 Hfp Hroot Hpc Hprev Hside Hc Hvp
      Hl Hr Hbl Hbr Hbst Hv Hf; [simpl in Hf; lia|].
  pose proof (lookup_lt_Some _ _ _ Hc) as Hclt.
  pose proof (bst_Node_inv _ _ _ _ Hbst) as (Hlx & Hrx & Hbstl & Hbstr).
  assert (Forall (fresh n0) [prev; AtHeap c]) as Hfr by (by repeat constructor).
  assert (np = if points_at (left np) (AtHeap c)
               then with_left np (Some c) else with_right np (Some c)) as Hnp.
  { destruct (points_at (left np) (AtHeap c)) eqn:Hpt.
    - symmetry. by apply with_left_id, points_at_true.
    - symmetry. by apply with_right_id, Hside. }
  cbn [erase_loop]. mstep. cbn [value left right]. msteps.
  destruct (Z.eqb_spec x v) as [->|Hne].
  - (* the element is here *)
    destruct l as [|ll b y lr]; [|destruct r as [|rl d w rr]];
      cbn [ptr_of non_null andb].
    + (* no left child *)
      erewrite erase_impl_cell; [|exact Hc|exact Hprev].
      unfold pick. cbn [left right non_null ptr_of].
      eexists _, r. split; [done|]. split.
      { eapply (repr_changes n0 [prev]); [done..| |by repeat constructor].
        by apply changes_only_store. }
      split; [done|]. split; [by rewrite values_Node|].
      split; [by eapply cell_store_eq|].
      eapply changes_only_weaken; [by apply changes_only_store|in_list].
    + (* no right child *)
      erewrite erase_impl_cell; [|exact Hc|exact Hprev].
      unfold pick. cbn [left right non_null ptr_of].
      eexists _, (Node ll b y lr). split; [done|]. split.
      { eapply (repr_changes n0 [prev]); [done..| |by repeat constructor].
        by apply changes_only_store. }
      split; [done|]. split.
      { rewrite (values_Node _ c). cbn [values cells fmap list_fmap].
        by rewrite <-Permutation_cons_append. }
      split; [by eapply cell_store_eq|].
      eapply changes_only_weaken; [by apply changes_only_store|in_list].
    + (* two children *)
      destruct (erase_two_run fuel ll b y lr (Node rl d w rr) st c vp v n0)
        as (st' & t' & Hrun & Hptr & Hrepr & Hbst' & Hperm & Hch);
        try done.
      { simpl in Hf |- *. lia. }
      exists st', t'. split.
      { rewrite <-!bind_bind in Hrun. rewrite <-!bind_bind. exact Hrun. }
      split; [done|]. split; [done|]. split; [done|].
      split.
      * rewrite Hptr, <-Hnp. destruct Hch as (_ & _ & Hcc & _).
        apply Hcc; [|done]. in_list.
      * eapply changes_only_weaken; [done|in_list].
  - (* the element is further down *)
    rewrite elem_of_values_Node in Hv.
    pose proof Hlx as Hlx'. pose proof Hrx as Hrx'.
    rewrite Forall_forall in Hlx, Hrx.
    set (c1 := length (nodes st)).
    assert (prev ≠ AtHeap c1) as Hpc1.
    { intros ->. by rewrite cell_fresh in Hprev. }
    mstep. destruct (Z.ltb_spec v x) as [Hlt|Hge].
    + assert (v ∈ values l) as Hvl.
      { destruct Hv as [?|[?|?%Hrx]]; [done|done|lia]. }
      destruct l as [|ll b y lr]; [by apply elem_of_nil in Hvl|].
      pose proof Hl as (vy & Hcb & Hvy & Hll & Hlr).
      apply below_Node in Hbl as (Hbll & Hbb & Hblr).
      set (nc := with_left (mk_node (Some vp) (Some b) (ptr_of r)) (Some c1)).
      set (nb := mk_node (Some vy) (ptr_of ll) (ptr_of lr)).
      set (st1 := st_store (AtHeap c) nc (st_alloc nb st)).
      assert (copy_left (AtHeap c) st = (Ret c1, st1)) as Hcopy.
      { by eapply (copy_left_cell _ (AtHeap c)). }
      rewrite (bind_Ret _ _ _ _ _ Hcopy).
      assert (changes_only [AtHeap c] st st1) as Hch1.
      { apply changes_only_then_store; [|done|left; in_list].
        apply changes_only_then_alloc, changes_only_refl. }
      assert (Forall (fresh n0) [AtHeap c]) as Hfrc by (by repeat constructor).
      destruct (IH ll y lr st1 (AtHeap c) c1 nc vy n0 v)
        as (st' & tl' & Hrun & Hrepr & Hbst' & Hperm & Hcc & Hch);
        try done; try (subst c1; simpl; lia).
      { intros [=]. subst c1. lia. }
      { eapply cell_store_eq, cell_alloc_old. exact Hc. }
      { subst nc. cbn [with_left left].
        rewrite points_at_Some, bool_decide_eq_true_2; done. }
      { change (cell st1 (AtHeap c1) = Some nb). subst st1.
        rewrite cell_store_ne by (subst c1; intros [=]; lia).
        apply cell_alloc_new. }
      { by eapply (repr_changes n0). }
      { by eapply (repr_changes n0). }
      { by rewrite values_Node in *. }
      { simpl in Hf |- *. lia. }
      subst nc. cbn [with_left left value right] in Hcc.
      rewrite points_at_Some, bool_decide_eq_true_2 in Hcc by done.
      assert (changes_only [prev; AtHeap c] st st') as Hch'.
      { eapply changes_only_trans; [|exact Hch|].
        - eapply changes_only_weaken; [exact Hch1|in_list].
        - intros q Hq. rewrite !elem_of_cons in Hq.
          destruct Hq as [->|[->|?%elem_of_nil]]; [left; in_list| |done].
          right. apply cell_fresh. }
      exists st', (Node tl' c x r). split; [done|]. split.
      { exists vp. split; [done|]. split; [|split; [done|]].
        - destruct Hch' as (_ & _ & _ & Hvv). auto.
        - by eapply (repr_changes n0). }
      rewrite (values_Node _ c1) in Hperm.
      split.
      { cbn [bst]. split; [|done]. apply Forall_forall. intros z Hz.
        apply Hlx. rewrite values_Node, Hperm. by right. }
      split.
      { rewrite !(values_Node _ c), values_Node, Hperm. done. }
      split; [|done].
      cbn [ptr_of].
      assert (cell st' prev = Some np) as ->; [|by f_equal].
      destruct Hch as (_ & _ & Hcc' & _). apply Hcc'.
      { rewrite !not_elem_of_cons. split; [done|].
        split; [done|apply not_elem_of_nil]. }
      destruct Hch1 as (_ & _ & Hcc1 & _). apply Hcc1; [|done].
      rewrite !not_elem_of_cons. split; [done|apply not_elem_of_nil].
    + assert (v ∈ values r) as Hvr.
      { destruct Hv as [?%Hlx|[?|?]]; [lia|done|done]. }
      destruct r as [|rl b y rr]; [by apply elem_of_nil in Hvr|].
      pose proof Hr as (vy & Hcb & Hvy & Hrl & Hrr).
      apply below_Node in Hbr as (Hbrl & Hbb & Hbrr).
      set (nc := with_right (mk_node (Some vp) (ptr_of l) (Some b)) (Some c1)).
      set (nb := mk_node (Some vy) (ptr_of rl) (ptr_of rr)).
      set (st1 := st_store (AtHeap c) nc (st_alloc nb st)).
      assert (copy_right (AtHeap c) st = (Ret c1, st1)) as Hcopy.
      { by eapply (copy_right_cell _ (AtHeap c)). }
      rewrite (bind_Ret _ _ _ _ _ Hcopy).
      assert (changes_only [AtHeap c] st st1) as Hch1.
      { apply changes_only_then_store; [|done|left; in_list].
        apply changes_only_then_alloc, changes_only_refl. }
      assert (Forall (fresh n0) [AtHeap c]) as Hfrc by (by repeat constructor).
      assert (points_at (left nc) (AtHeap c1) = false) as Hptl.
      { subst nc. cbn [with_right left]. by eapply points_at_ptr_of. }
      destruct (IH rl y rr st1 (AtHeap c) c1 nc vy n0 v)
        as (st' & tr' & Hrun & Hrepr & Hbst' & Hperm & Hcc & Hch);
        try done; try (subst c1; simpl; lia).
      { intros [=]. subst c1. lia. }
      { eapply cell_store_eq, cell_alloc_old. exact Hc. }
      { change (cell st1 (AtHeap c1) = Some nb). subst st1.
        rewrite cell_store_ne by (subst c1; intros [=]; lia).
        apply cell_alloc_new. }
      { by eapply (repr_changes n0). }
      { by eapply (repr_changes n0). }
      { by rewrite values_Node in *. }
      { simpl in Hf |- *. lia. }
      rewrite Hptl in Hcc. subst nc. cbn [with_right left value right] in Hcc.
      assert (changes_only [prev; AtHeap c] st st') as Hch'.
      { eapply changes_only_trans; [|exact Hch|].
        - eapply changes_only_weaken; [exact Hch1|in_list].
        - intros q Hq. rewrite !elem_of_cons in Hq.
          destruct Hq as [->|[->|?%elem_of_nil]]; [left; in_list| |done].
          right. apply cell_fresh. }
      exists st', (Node l c x tr'). split; [done|]. split.
      { exists vp. split; [done|]. split; [|split; [|done]].
        - destruct Hch' as (_ & _ & _ & Hvv). auto.
        - by eapply (repr_changes n0). }
      rewrite (values_Node _ c1) in Hperm.
      split.
      { cbn [bst]. split; [done|]. split; [|done].
        apply Forall_forall. intros z Hz.
        apply Hrx. rewrite values_Node, Hperm. by right. }
      split.
      { rewrite !(values_Node _ c), values_Node, Hperm.
        by rewrite (Permutation_swap v x), <-Permutation_middle. }
      split; [|done].
      cbn [ptr_of].
      assert (cell st' prev = Some np) as ->; [|by f_equal].
      destruct Hch as (_ & _ & Hcc' & _). apply Hcc'.
      { rewrite !not_elem_of_cons. split; [done|].
        split; [done|apply not_elem_of_nil]. }
      destruct Hch1 as (_ & _ & Hcc1 & _). apply Hcc1; [|done].
      rewrite !not_elem_of_cons. split; [done|apply not_elem_of_nil].
Qed.

Lemma changes_only_extends X st st' :
  changes_only X st st' → (∀ a, AtHeap a ∈ X → nodes st !! a = None) →
  extends st st'.
Proof.
  intros (_ & _ & Hc & Hv) HX. split; [|done].
  intros b n Hb. apply (Hc (AtHeap b)); [|done].
  intros Hin%HX. congruence.
Qed.

(** *** [erase] through an iterator to an element of the set *)

Lemma erase_run st this t it n vp x :
  budget st = None → set_ok st this t →
  cell st (it_node it) = Some n → value n = Some vp →
  vals st !! vp = Some x → x ∈ values t →
  ∃ st' t',
    erase this it st = (Ret (it_at this (fst <$> lb t' x)), st')
    ∧ set_ok st' this t' ∧ values t ≡ₚ x :: values t'
    ∧ extends st st' ∧ budget st' = None
    ∧ length (sets st') = length (sets st)
    ∧ ∀ s, s ≠ this → sets st' !! s = sets st !! s.
Proof.
  intros Hb Hok Hit Hval Hvp Hx.
  pose proof Hok as (s & Hs & Hroot & Hr & Hbst & Hsize & Hsz).
  destruct t as [|l b y r]; [by apply elem_of_nil in Hx|].
  pose proof Hr as (vy & Hcb & Hvy & Hl & Hrr).
  pose proof (repr_below _ _ Hr) as (Hbl & Hbb & Hbr)%below_Node.
  set (n0 := length (nodes st)) in *.
  set (root := mk_node None (Some b) None).
  set (nb := mk_node (Some vy) (ptr_of l) (ptr_of r)).
  set (st1 := st_store AtTmp root st).
  set (st2 := st_store AtTmp (with_left root (Some n0)) (st_alloc nb st1)).
  assert (changes_only [AtTmp] st st2) as Hch2.
  { subst st2 st1. repeat apply changes_only_then_store; try done;
      first [apply changes_only_then_alloc
            |apply changes_only_refl|left; in_list].
    apply changes_only_then_store; [apply changes_only_refl|done|left; in_list]. }
  assert (Forall (fresh n0) [AtTmp]) as Hfr by (by repeat constructor).
  destruct (erase_loop_run (S (length (nodes st2))) l y r st2 AtTmp n0
              (with_left root (Some n0)) vy n0 x)
    as (st3 & t' & Hrun & Hrepr & Hbst' & Hperm & Hctmp & Hch3); try done.
  { cbn [with_left root left].
    by rewrite points_at_Some, bool_decide_eq_true_2. }
  { change (cell st2 (AtHeap n0) = Some nb). subst st2.
    rewrite cell_store_ne by done. apply cell_alloc_new. }
  { by eapply (repr_changes n0). }
  { by eapply (repr_changes n0). }
  { by rewrite values_Node in *. }
  { pose proof (repr_height _ _ Hr Hbst).
    assert (length (nodes st) ≤ length (nodes st2))%nat; [|simpl in *; lia].
    subst st2 st1. cbn [st_store st_alloc nodes]. rewrite length_app. lia. }
  cbn [with_left root left value right] in Hctmp.
  rewrite points_at_Some, bool_decide_eq_true_2 in Hctmp by done.
  cbn [with_left left value right] in Hctmp.
  rewrite (values_Node _ n0) in Hperm. rewrite <-(values_Node _ b) in Hperm.
  assert (length (cells (Node l b y r)) = S (length (cells t'))) as Hlen.
  { rewrite <-!length_values, Hperm. done. }
  assert (changes_only [AtTmp] st st3) as Hch.
  { eapply changes_only_trans; [exact Hch2|exact Hch3|].
    intros q Hq. rewrite !elem_of_cons in Hq.
    destruct Hq as [->|[->|?%elem_of_nil]]; [left; in_list| |done].
    right. apply cell_fresh. }
  assert (extends st st3) as Hext.
  { eapply changes_only_extends; [done|].
    intros a Ha. rewrite !elem_of_cons in Ha.
    by destruct Ha as [?|?%elem_of_nil]. }
  pose proof Hch as (Hb3 & Hs3 & _ & Hv3).
  set (s' := mk_set (mk_node None (ptr_of t') None) (Z.of_nat (length (cells t')))).
  set (st' := mk_state (nodes st3) (vals st3) (<[this := s']> (sets st))
                       (tmp st3) None).
  assert (this < length (sets st))%nat as Hthis by by eapply lookup_lt_Some.
  assert (set_ok st' this t') as Hok'.
  { exists s'. subst st' s'. cbn [sets m_root m_size].
    split; [by apply list_lookup_insert_eq|]. split; [done|].
    split; [eapply repr_extends; [exact Hrepr|by split]|].
    split; [done|]. split; [done|]. lia. }
  exists st', t'. split.
  - unfold erase. mstep. apply try_catch_Ret. msteps.
    rewrite Hroot, Hval. cbn [ptr_of]. fold root.
    change (mk_state _ _ _ root _) with st1.
    erewrite bind_Ret; [|by apply load_value_run].
    unfold erase_at. rewrite bind_bind.
    erewrite bind_Ret;
      [|by eapply (copy_left_cell _ AtTmp _ b nb)].
    fold root st1. fold st2. rewrite bind_bind. mstep.
    rewrite (bind_Ret _ _ _ _ _ Hrun).
    erewrite bind_Ret; [|by apply load_cell].
    erewrite bind_Ret; [|apply set_m_root_run; by rewrite Hs3].
    erewrite bind_Ret; [|apply get_set_run; cbn [sets];
                         rewrite Hs3; by apply list_lookup_insert_eq].
    erewrite bind_Ret; [|apply set_m_size_run; cbn [sets];
                         rewrite Hs3; by apply list_lookup_insert_eq].
    cbn [m_root m_size nodes vals sets tmp budget].
    rewrite list_insert_insert_eq, Hs3, Hb3, Hb, Hsize.
    replace ((Z.of_nat (length (cells (Node l b y r))) - 1) mod size_t_mod)
      with (Z.of_nat (length (cells t'))) by (rewrite Z.mod_small; lia).
    fold s'. fold st'.
    erewrite bind_Ret; [|apply load_value_run; cbn [vals]; by apply Hv3].
    by apply lower_bound_run.
  - split; [done|]. split; [done|]. split; [by destruct Hext|].
    split; [done|]. subst st'. cbn [sets].
    split; [by rewrite length_insert|].
    intros s0 ?. by rewrite list_lookup_insert_ne.
Qed.

(** ** What a call may touch, whatever its outcome

    The facts below hold for every state, every countdown and every outcome
    (normal return, exception, undefined behaviour). *)

Section safe.
Context (n0 : nat) (w : option nat).

Lemma stable_refl st : stable n0 w st st.
Proof. by repeat split. Qed.

Lemma stable_trans st1 st2 st3 :
  stable n0 w st1 st2 → stable n0 w st2 st3 → stable n0 w st1 st3.
Proof.
  intros (H1 & H2 & H3 & H4 & H5) (H1' & H2' & H3' & H4' & H5').
  split; [lia|]. split; [intros; rewrite H2', H2; auto|].
  split; [auto|]. split; [congruence|].
  intros; rewrite H5', H5; auto.
Qed.

Lemma safe_ret {A} (a : A) (Q : A → Prop) : Q a → safe n0 w (ret a) Q.
Proof. intros HQ st _. split; [apply stable_refl|done]. Qed.

Lemma safe_undef {A} (Q : A → Prop) : safe n0 w undef Q.
Proof. intros st _. split; [apply stable_refl|done]. Qed.

Lemma safe_bind {A B} (m : M A) (f : A → M B) P Q :
  safe n0 w m P → (∀ a, P a → safe n0 w (f a) Q) → safe n0 w (bind m f) Q.
Proof.
  intros Hm Hf st Hn. specialize (Hm st Hn).
  unfold exec, run, bind in *.
  destruct (m st) as [[a| |] st1]; simpl in *; try done.
  destruct Hm as [Hst HP]. specialize (Hf a HP st1).
  destruct Hst as (Hlen & ?). specialize (Hf ltac:(lia)).
  destruct Hf as [Hst' HQ]. split; [|done].
  eapply stable_trans; [|exact Hst']. by split.
Qed.

Lemma safe_conseq {A} (m : M A) (P Q : A → Prop) :
  safe n0 w m P → (∀ a, P a → Q a) → safe n0 w m Q.
Proof.
  intros Hm HPQ st Hn. destruct (Hm st Hn) as [? HP]. split; [done|].
  destruct (run m st); auto.
Qed.

(** A computation that leaves the heaps and the set objects alone. *)
Lemma safe_reader {A} (m : M A) (Q : A → Prop) :
  (∀ st, nodes (exec m st) = nodes st ∧ vals (exec m st) = vals st
         ∧ sets (exec m st) = sets st) →
  (∀ st a, run m st = Ret a → Q a) →
  safe n0 w m Q.
Proof.
  intros Hm HQ st _. destruct (Hm st) as (Hn & Hv & Hs). split.
  - unfold stable. rewrite Hn, Hv, Hs. by repeat split.
  - specialize (HQ st). destruct (run m st); auto.
Qed.

Lemma safe_tick : safe n0 w tick (λ _, True).
Proof.
  apply safe_reader; [|done]. intros st. unfold exec, tick.
  by destruct (budget st) as [[|k]|].
Qed.

Lemma safe_load p : safe n0 w (load p) (λ _, True).
Proof.
  apply safe_reader; [|done]. intros st. unfold exec, load.
  destruct p; simpl; [by destruct (sets st !! s)|done|].
  by destruct (nodes st !! a).
Qed.

Lemma safe_load_value vp : safe n0 w (load_value vp) (λ _, True).
Proof.
  apply safe_reader; [|done]. intros st. unfold exec, load_value.
  destruct vp as [a|]; [|done]. by destruct (vals st !! a).
Qed.

Lemma safe_load_shared sp : safe n0 w (load_shared sp) (λ _, True).
Proof. destruct sp; [apply safe_load|apply safe_undef]. Qed.

Lemma safe_get_set s : safe n0 w (get_set s) (λ _, True).
Proof.
  apply safe_reader; [|done]. intros st. unfold exec, get_set.
  by destruct (sets st !! s).
Qed.

Lemma safe_heap_fuel : safe n0 w heap_fuel (λ _, True).
Proof. by apply safe_reader. Qed.

Lemma safe_T_eq x y : safe n0 w (T_eq x y) (λ _, True).
Proof.
  eapply safe_bind; [apply safe_tick|]. intros. by apply safe_ret.
Qed.

Lemma safe_T_ne x y : safe n0 w (T_ne x y) (λ _, True).
Proof.
  eapply safe_bind; [apply safe_tick|]. intros. by apply safe_ret.
Qed.

Lemma safe_T_lt x y : safe n0 w (T_lt x y) (λ _, True).
Proof.
  eapply safe_bind; [apply safe_tick|]. intros. by apply safe_ret.
Qed.

Lemma safe_T_gt x y : safe n0 w (T_gt x y) (λ _, True).
Proof.
  eapply safe_bind; [apply safe_tick|]. intros. by apply safe_ret.
Qed.

Lemma safe_alloc_node n : safe n0 w (alloc_node n) (λ c, (n0 ≤ c)%nat).
Proof.
  intros st Hn. unfold exec, run, alloc_node. simpl. split; [|done].
  unfold stable. simpl. rewrite length_app. simpl.
  split; [lia|]. split; [|done].
  intros b ?. apply lookup_app_l. lia.
Qed.

Lemma safe_make_shared_T x : safe n0 w (make_shared_T x) (λ _, True).
Proof.
  eapply safe_bind; [apply safe_tick|]. intros _ _ st Hn.
  unfold exec, run. simpl. split; [|done].
  unfold stable. simpl. split; [lia|]. split; [done|]. split; [|done].
  intros ???. by apply lookup_app_l_Some.
Qed.

Lemma safe_make_shared_copy n :
  safe n0 w (make_shared_copy n) (λ c, (n0 ≤ c)%nat).
Proof.
  eapply safe_bind; [apply safe_tick|]. intros. apply safe_alloc_node.
Qed.

Lemma safe_make_shared_leaf x :
  safe n0 w (make_shared_leaf x) (λ c, (n0 ≤ c)%nat).
Proof.
  eapply safe_bind; [apply safe_tick|]. intros.
  eapply safe_bind; [apply safe_make_shared_T|]. intros.
  apply safe_alloc_node.
Qed.

Lemma safe_store p n : priv n0 p → safe n0 w (store p n) (λ _, True).
Proof.
  intros Hp st Hn. unfold exec, run, store.
  destruct p as [s| |a]; simpl in *; [done| |].
  - split; [|done]. by repeat split.
  - destruct (nodes st !! a) eqn:Ha; simpl; [|by split; [apply stable_refl|]].
    split; [|done]. unfold stable. simpl. rewrite length_insert.
    split; [lia|]. split; [|done].
    intros b ?. apply list_lookup_insert_ne. lia.
Qed.

Lemma safe_set_left p q : priv n0 p → safe n0 w (set_left p q) (λ _, True).
Proof.
  intros. eapply safe_bind; [apply safe_load|]. intros.
  by apply safe_store.
Qed.

Lemma safe_set_right p q : priv n0 p → safe n0 w (set_right p q) (λ _, True).
Proof.
  intros. eapply safe_bind; [apply safe_load|]. intros.
  by apply safe_store.
Qed.

Lemma safe_copy_left p :
  priv n0 p → safe n0 w (copy_left p) (λ c, (n0 ≤ c)%nat).
Proof.
  intros. eapply safe_bind; [apply safe_load|]. intros n _.
  eapply safe_bind; [apply safe_load_shared|]. intros child _.
  eapply safe_bind; [apply safe_make_shared_copy|]. intros c Hc.
  eapply safe_bind; [by apply safe_set_left|]. intros.
  by apply safe_ret.
Qed.

Lemma safe_copy_right p :
  priv n0 p → safe n0 w (copy_right p) (λ c, (n0 ≤ c)%nat).
Proof.
  intros. eapply safe_bind; [apply safe_load|]. intros n _.
  eapply safe_bind; [apply safe_load_shared|]. intros child _.
  eapply safe_bind; [apply safe_make_shared_copy|]. intros c Hc.
  eapply safe_bind; [by apply safe_set_right|]. intros.
  by apply safe_ret.
Qed.
End safe.

Create HintDb safe discriminated.
Global Hint Resolve safe_tick safe_load safe_load_value safe_load_shared
  safe_get_set safe_heap_fuel safe_T_eq safe_T_ne safe_T_lt safe_T_gt
  safe_make_shared_copy safe_make_shared_leaf safe_store safe_set_left
  safe_set_right safe_copy_left safe_copy_right safe_undef : safe.
Global Hint Extern 1 (priv _ _) => simpl; first [done | lia] : safe.
Global Hint Extern 1 (safe _ _ (ret _) _) => apply safe_ret; simpl; auto : safe.

(** Walk through a computation with [safe_bind]. *)
Ltac safe_go :=
  repeat first
    [ solve [eauto with safe]
    | eapply safe_bind; [solve [eauto with safe]|intros]
    | match goal with
      | |- safe _ _ (if ?b then _ else _) _ => destruct b
      | |- safe _ _ (match ?o with Some _ => _ | None => _ end) _ =>
          destruct o
      end ].

Section safe_functions.
Context (n0 : nat) (w : option nat).

Lemma safe_lower_bound_at fuel this ptr v :
  safe n0 w (lower_bound_at fuel this ptr v) (λ _, True).
Proof.
  revert ptr. induction fuel as [|fuel IH]; intros [a|]; simpl; safe_go.
Qed.

Lemma safe_upper_bound_at fuel this ptr v :
  safe n0 w (upper_bound_at fuel this ptr v) (λ _, True).
Proof.
  revert ptr. induction fuel as [|fuel IH]; intros [a|]; simpl; safe_go.
Qed.

Lemma safe_rev_upper_bound_at fuel this ptr v :
  safe n0 w (rev_upper_bound_at fuel this ptr v) (λ _, True).
Proof.
  revert ptr. induction fuel as [|fuel IH]; intros [a|]; simpl; safe_go.
Qed.

Lemma safe_lower_bound this v : safe n0 w (lower_bound this v) (λ _, True).
Proof.
  unfold lower_bound. safe_go. apply safe_lower_bound_at.
Qed.

Lemma safe_upper_bound this v : safe n0 w (upper_bound this v) (λ _, True).
Proof.
  unfold upper_bound. safe_go. apply safe_upper_bound_at.
Qed.

Lemma safe_deref it : safe n0 w (deref it) (λ _, True).
Proof. unfold deref. safe_go. Qed.

Lemma safe_find this v : safe n0 w (find this v) (λ _, True).
Proof.
  pose proof safe_lower_bound. pose proof safe_deref.
  unfold find. safe_go.
Qed.

Lemma safe_insert_at fuel a v :
  (n0 ≤ a)%nat → safe n0 w (insert_at fuel a v) (λ _, True).
Proof.
  revert a. induction fuel as [|fuel IH]; intros a Ha; simpl; safe_go.
Qed.

Lemma safe_erase_impl parent son :
  priv n0 parent → safe n0 w (erase_impl parent son) (λ _, True).
Proof. intros. unfold erase_impl. safe_go. Qed.

Lemma safe_swap_value p q :
  priv n0 p → priv n0 q → safe n0 w (swap_value p q) (λ _, True).
Proof. intros. unfold swap_value. safe_go. Qed.

Lemma safe_descend_right fuel tp nx :
  priv n0 tp → priv n0 nx →
  safe n0 w (descend_right fuel tp nx) (λ tn, priv n0 tn.1 ∧ priv n0 tn.2).
Proof.
  revert tp nx. induction fuel as [|fuel IH]; intros tp nx Htp Hnx; simpl.
  - safe_go.
  - eapply safe_bind; [apply safe_load|]. intros n _.
    destruct (non_null (right n)); [|by apply safe_ret].
    eapply safe_bind; [by apply safe_copy_right|]. intros c Hc.
    by apply IH.
Qed.

Lemma safe_erase_loop fuel v prev next :
  priv n0 prev → priv n0 next →
  safe n0 w (erase_loop fuel v prev next) (λ _, True).
Proof.
  revert prev next.
  induction fuel as [|fuel IH]; intros prev next Hp Hn; simpl; [safe_go|].
  eapply safe_bind; [apply safe_load|]. intros n _.
  eapply safe_bind; [apply safe_load_value|]. intros x _.
  eapply safe_bind; [apply safe_T_eq|]. intros e _.
  destruct e.
  - destruct (non_null (left n) && non_null (right n));
      [|by apply safe_erase_impl].
    eapply safe_bind; [by apply safe_copy_left|]. intros c Hc.
    eapply safe_bind; [by apply safe_descend_right|]. intros tn [??].
    eapply safe_bind; [by apply safe_swap_value|]. intros.
    by apply safe_erase_impl.
  - eapply safe_bind; [apply safe_T_lt|]. intros l _.
    destruct l.
    + eapply safe_bind; [by apply safe_copy_left|]. intros. by apply IH.
    + eapply safe_bind; [by apply safe_copy_right|]. intros. by apply IH.
Qed.

Lemma safe_erase_at v prev :
  priv n0 prev → safe n0 w (erase_at v prev) (λ _, True).
Proof.
  intros. unfold erase_at.
  eapply safe_bind; [by apply safe_copy_left|]. intros c Hc.
  eapply safe_bind; [apply safe_heap_fuel|]. intros.
  by apply safe_erase_loop.
Qed.
End safe_functions.

(** Writing the set object [this] itself. *)
Lemma safe_put_set n0 this s : safe n0 (Some this) (put_set this s) (λ _, True).
Proof.
  intros st Hn. unfold exec, run, put_set. simpl. split; [|done].
  unfold stable. simpl. rewrite length_insert. repeat split; try done.
  intros s0 Hs0. apply list_lookup_insert_ne. congruence.
Qed.

Lemma safe_set_m_root n0 this n :
  safe n0 (Some this) (set_m_root this n) (λ _, True).
Proof.
  eapply safe_bind; [apply safe_get_set|]. intros. apply safe_put_set.
Qed.

Lemma safe_set_m_size n0 this k :
  safe n0 (Some this) (set_m_size this k) (λ _, True).
Proof.
  eapply safe_bind; [apply safe_get_set|]. intros. apply safe_put_set.
Qed.

Lemma safe_try_catch {A} n0 w (body : M A) handler Q :
  safe n0 w body Q → safe n0 w handler (λ _, True) →
  safe n0 w (try_catch body handler) Q.
Proof.
  intros Hbody Hh st Hn. specialize (Hbody st Hn).
  unfold exec, run, try_catch in *.
  destruct (body st) as [[a| |] st1]; simpl in *; try done.
  destruct Hbody as [Hst _]. specialize (Hh st1).
  destruct Hst as (Hlen & ?). specialize (Hh ltac:(lia)).
  unfold exec, run in Hh.
  destruct (handler st1) as [[[]| |] st2]; simpl in *;
    (split; [|done]); (eapply stable_trans; [by split|by destruct Hh]).
Qed.

Lemma safe_weaken {A} n0 w (m : M A) Q : safe n0 None m Q → safe n0 w m Q.
Proof.
  intros Hm st Hn. destruct (Hm st Hn) as [(?&?&?&?&Hs) ?]. split; [|done].
  repeat split; try done. intros. by apply Hs.
Qed.

Lemma stable_None_sets n0 st st' : stable n0 None st st' → sets st' = sets st.
Proof. intros (_ & _ & _ & _ & Hs). apply list_eq. intros i. by apply Hs. Qed.

Lemma insert_unfold this v :
  insert this v
  = (let* it := find this v in
     if negb (iterator_eq it (end_ this)) then
       let* it' := find this v in ret (it', false)
     else
       let* s := get_set this in
       try_catch (insert_try this v)
         (let* _ := set_m_root this (m_root s) in
          set_m_size this (m_size s))).
Proof. done. Qed.

Lemma erase_unfold this it :
  erase this it
  = (let* s := get_set this in
     try_catch (erase_try this it)
       (let* _ := set_m_root this (m_root s) in set_m_size this (m_size s))).
Proof. done. Qed.

Lemma safe_insert_try n0 this v :
  safe n0 (Some this) (insert_try this v) (λ _, True).
Proof.
  pose proof (safe_find n0 (Some this)).
  pose proof (safe_set_m_root n0 this). pose proof (safe_set_m_size n0 this).
  unfold insert_try.
  eapply safe_bind; [apply safe_get_set|]. intros s1 _.
  eapply safe_bind with (P := λ _, True).
  { destruct (non_null (left (m_root s1))).
    - eapply safe_bind; [apply safe_load_shared|]. intros.
      eapply safe_bind; [apply safe_make_shared_copy|]. intros c Hc.
      eapply safe_bind; [apply safe_heap_fuel|]. intros.
      eapply safe_bind; [by apply safe_insert_at|]. intros.
      by apply safe_ret.
    - safe_go. }
  intros. safe_go.
Qed.

Lemma safe_erase_try n0 this it :
  safe n0 (Some this) (erase_try this it) (λ _, True).
Proof.
  pose proof (safe_lower_bound n0 (Some this)).
  pose proof (safe_set_m_root n0 this). pose proof (safe_set_m_size n0 this).
  unfold erase_try.
  eapply safe_bind; [apply safe_load|]. intros n _.
  eapply safe_bind; [apply safe_get_set|]. intros s1 _.
  eapply safe_bind; [by apply safe_store|]. intros.
  eapply safe_bind; [apply safe_load_value|]. intros x _.
  eapply safe_bind; [by apply safe_erase_at|]. intros.
  safe_go.
Qed.

Lemma safe_insert n0 this v : safe n0 (Some this) (insert this v) (λ _, True).
Proof.
  pose proof (safe_find n0 (Some this)).
  pose proof (safe_set_m_root n0 this). pose proof (safe_set_m_size n0 this).
  rewrite insert_unfold.
  eapply safe_bind; [apply safe_find|]. intros it _.
  destruct (negb (iterator_eq it (end_ this))); [safe_go|].
  eapply safe_bind; [apply safe_get_set|]. intros s _.
  apply safe_try_catch; [apply safe_insert_try|safe_go].
Qed.

Lemma safe_erase n0 this it : safe n0 (Some this) (erase this it) (λ _, True).
Proof.
  pose proof (safe_set_m_root n0 this). pose proof (safe_set_m_size n0 this).
  rewrite erase_unfold.
  eapply safe_bind; [apply safe_get_set|]. intros s _.
  apply safe_try_catch; [apply safe_erase_try|safe_go].
Qed.

Lemma untouched_refl this st : untouched this st st.
Proof. split; [apply extends_refl|done]. Qed.

Lemma untouched_trans this st1 st2 st3 :
  untouched this st1 st2 → untouched this st2 st3 → untouched this st1 st3.
Proof.
  intros (He & Hl & Hs) (He' & Hl' & Hs').
  split; [by eapply extends_trans|]. split; [congruence|].
  intros s ?. rewrite Hs', Hs; auto.
Qed.

Lemma stable_untouched this st st' :
  stable (length (nodes st)) (Some this) st st' → untouched this st st'.
Proof.
  intros (Hlen & Hc & Hv & Hl & Hs). split; [split; [|done]|split; [done|]].
  - intros b n Hb. rewrite Hc; [done|]. by eapply lookup_lt_Some.
  - intros s ?. apply Hs. congruence.
Qed.

Lemma insert_untouched this v st : untouched this st (exec (insert this v) st).
Proof. apply stable_untouched, safe_insert. lia. Qed.

Lemma erase_untouched this it st : untouched this st (exec (erase this it) st).
Proof. apply stable_untouched, safe_erase. lia. Qed.

Lemma set_ok_untouched this other st st' t :
  other ≠ this → set_ok st other t → untouched this st st' →
  set_ok st' other t.
Proof.
  intros Hne Hok (He & _ & Hs). eapply set_ok_extends; [done..|]. by apply Hs.
Qed.

(** *** Roll-back: what the [catch] block restores *)

Lemma restore_run this s st :
  (this < length (sets st))%nat →
  (let* _ := set_m_root this (m_root s) in set_m_size this (m_size s)) st
  = (Ret tt, mk_state (nodes st) (vals st) (<[this := s]> (sets st)) (tmp st)
                      (budget st)).
Proof.
  intros Hlt. destruct (lookup_lt_is_Some_2 _ _ Hlt) as [s0 Hs0].
  erewrite bind_Ret; [|by apply set_m_root_run].
  erewrite set_m_size_run; [|cbn [sets]; by apply list_lookup_insert_eq].
  cbn [nodes vals sets tmp budget m_root m_size].
  rewrite list_insert_insert_eq. by destruct s.
Qed.

Lemma rollback_throw {A} n0 this (body : M A) Q st :
  safe n0 (Some this) body Q → (n0 ≤ length (nodes st))%nat →
  let m := (let* s := get_set this in
            try_catch body
              (let* _ := set_m_root this (m_root s) in
               set_m_size this (m_size s))) in
  run m st = Throw → sets (exec m st) = sets st.
Proof.
  intros Hbody Hn m. subst m. unfold run, exec.
  destruct (sets st !! this) as [s|] eqn:Hs.
  2:{ rewrite (bind_Undef _ _ st st); [done|]. unfold get_set. by rewrite Hs. }
  rewrite (bind_Ret _ _ _ _ _ (get_set_run _ _ _ Hs)).
  specialize (Hbody st Hn). unfold run, exec, try_catch in *.
  destruct (body st) as [[a| |] st1]; cbn [fst snd] in *; try done.
  destruct Hbody as [(_ & _ & _ & Hlen & Hsets) _].
  rewrite restore_run by (rewrite Hlen; by eapply lookup_lt_Some).
  cbn [fst snd sets]. intros _. apply list_eq. intros i.
  destruct (decide (i = this)) as [->|Hne].
  - rewrite list_lookup_insert_eq; [done|].
    rewrite Hlen. by eapply lookup_lt_Some.
  - rewrite list_lookup_insert_ne by done. apply Hsets. congruence.
Qed.

Lemma safe_sets {A} (m : M A) Q st : safe 0 None m Q → sets (exec m st) = sets st.
Proof.
  intros Hm. destruct (Hm st ltac:(lia)) as [Hst _].
  by eapply stable_None_sets.
Qed.

(** When [insert] throws, every set object is as it was. *)
Lemma insert_throw_sets this v st :
  run (insert this v) st = Throw → sets (exec (insert this v) st) = sets st.
Proof.
  rewrite insert_unfold. unfold run, exec.
  pose proof (safe_sets (find this v) _ st (safe_find 0 None this v)) as Hf.
  unfold exec in Hf.
  destruct (find this v st) as [[it| |] st1] eqn:Hfind; cbn [snd] in Hf.
  - rewrite (bind_Ret _ _ _ _ _ Hfind).
    destruct (negb (iterator_eq it (end_ this))).
    + pose proof (safe_sets (find this v) _ st1 (safe_find 0 None this v)) as Hf'.
      unfold exec in Hf'.
      destruct (find this v st1) as [[it'| |] st2] eqn:Hfind'; cbn [snd] in Hf'.
      * by rewrite (bind_Ret _ _ _ _ _ Hfind').
      * rewrite (bind_Throw _ _ _ _ Hfind'). cbn [fst snd]. congruence.
      * by rewrite (bind_Undef _ _ _ _ Hfind').
    + intros Hthrow. rewrite <-Hf.
      eapply (rollback_throw 0); [apply safe_insert_try|lia|done].
  - rewrite (bind_Throw _ _ _ _ Hfind). cbn [fst snd]. congruence.
  - by rewrite (bind_Undef _ _ _ _ Hfind).
Qed.

(** When [erase] throws, every set object is as it was. *)
Lemma erase_throw_sets this it st :
  run (erase this it) st = Throw → sets (exec (erase this it) st) = sets st.
Proof.
  rewrite erase_unfold. intros Hthrow.
  eapply (rollback_throw 0); [apply safe_erase_try|lia|done].
Qed.

Lemma set_ok_arm b st this t : set_ok st this t → set_ok (arm b st) this t.
Proof.
  intros (s & Hs & Hroot & Hr & Hrest). exists s. split; [done|].
  split; [done|]. split; [|done]. eapply repr_extends; [done|by split].
Qed.

Lemma set_ok_unarm b st this t : set_ok (arm b st) this t → set_ok st this t.
Proof.
  intros (s & Hs & Hroot & Hr & Hrest). exists s. split; [done|].
  split; [done|]. split; [|done]. eapply repr_extends; [done|by split].
Qed.

Lemma untouched_arm this b st : untouched this st (arm b st).
Proof. split; [by split|done]. Qed.

(** ** Checking well-formedness by computation *)

Lemma reprb_sound st t : reprb st t = true → repr st t.
Proof.
  induction t as [|l IHl a x r IHr]; simpl; [done|].
  destruct (nodes st !! a) as [[[vp|] pl pr]|]; [|done..].
  rewrite !andb_true_iff, !bool_decide_eq_true.
  intros [[[[-> ->] ?] ?] ?]. exists vp. auto.
Qed.

Lemma forallb_Forall {A} (f : A → bool) (l : list A) :
  forallb f l = true → Forall (λ x, f x = true) l.
Proof.
  induction l as [|x l IH]; simpl; [constructor|].
  rewrite andb_true_iff. intros [??]. constructor; auto.
Qed.

Lemma bstb_sound t : bstb t = true → bst t.
Proof.
  induction t as [|l IHl a x r IHr]; simpl; [done|].
  rewrite !andb_true_iff.
  intros [[[Hl%forallb_Forall Hr%forallb_Forall] ?] ?]. repeat split; auto.
  - eapply Forall_impl; [exact Hl|]. simpl. lia.
  - eapply Forall_impl; [exact Hr|]. simpl. lia.
Qed.

Lemma set_okb_sound st this t : set_okb st this t = true → set_ok st this t.
Proof.
  unfold set_okb, set_ok. destruct (sets st !! this) as [s|]; [|done].
  rewrite !andb_true_iff, bool_decide_eq_true.
  intros [[[[? ?%reprb_sound] ?%bstb_sound] ?] ?]. exists s.
  repeat split; auto; lia.
Qed.

(** ** A worked example: the sets used to instantiate the theorems *)

Lemma example_set_ok : set_ok example_state 0 example_tree.
Proof. apply set_okb_sound. vm_compute. reflexivity. Qed.

Example example_iteration :
  run (to_list 0) example_state = Ret [1; 3; 4; 5; 8].
Proof. vm_compute. reflexivity. Qed.

(** ** Properties of the set *)

Lemma it_at_ne_end this a : mk_iterator (AtHeap a) this ≠ end_ this.
Proof. done. Qed.

(** C5: on a well-formed set, [lower_bound v] gives an iterator to the
    least element not less than [v], and [upper_bound v] one to the least
    element greater than [v]; each gives [end()] when there is no such
    element.  The elements are those the iteration from [begin()] to
    [end()] yields. *)
Theorem bounds_correct st this t v :
  budget st = None → set_ok st this t →
  run (to_list this) st = Ret (values t)
  ∧ (∃ it, run (lower_bound this v) st = Ret it
       ∧ ((∃ x, it ≠ end_ this ∧ run (deref it) st = Ret x ∧ x ∈ values t
                ∧ v ≤ x ∧ ∀ y, y ∈ values t → v ≤ y → x ≤ y)
          ∨ (it = end_ this ∧ ∀ y, y ∈ values t → y < v)))
  ∧ (∃ it, run (upper_bound this v) st = Ret it
       ∧ ((∃ x, it ≠ end_ this ∧ run (deref it) st = Ret x ∧ x ∈ values t
                ∧ v < x ∧ ∀ y, y ∈ values t → v < y → x ≤ y)
          ∨ (it = end_ this ∧ ∀ y, y ∈ values t → y ≤ v))).
Proof.
  intros Hb Hok. pose proof Hok as (s & Hs & Hroot & Hr & Hbst & _).
  unfold run. rewrite (to_list_run _ _ _ Hb Hok).
  rewrite (lower_bound_run _ _ _ v Hb Hok), (upper_bound_run _ _ _ v Hb Hok).
  split; [done|]. split.
  - eexists. split; [done|]. pose proof (lb_spec t v Hbst) as Hspec.
    destruct (lb t v) as [[a x]|] eqn:Hlb; simpl.
    + left. exists x. destruct Hspec as [? ?].
      split; [done|]. split; [|split; [by eapply lb_elem_of_values|done]].
      erewrite deref_run; [done..|]. by eapply lb_elem_of.
    + by right.
  - eexists. split; [done|]. pose proof (ub_spec t v Hbst) as Hspec.
    destruct (ub t v) as [[a x]|] eqn:Hub; simpl.
    + left. exists x. destruct Hspec as [? ?].
      split; [done|]. split; [|split; [by eapply ub_elem_of_values|done]].
      erewrite deref_run; [done..|]. by eapply ub_elem_of.
    + by right.
Qed.

Lemma bounds_correct_witness :
  budget example_state = None ∧ set_ok example_state 0 example_tree
  ∧ run (to_list 0) example_state = Ret (values example_tree)
  ∧ (∃ it, run (lower_bound 0 4) example_state = Ret it
       ∧ ((∃ x, it ≠ end_ 0 ∧ run (deref it) example_state = Ret x
                ∧ x ∈ values example_tree
                ∧ 4 ≤ x ∧ ∀ y, y ∈ values example_tree → 4 ≤ y → x ≤ y)
          ∨ (it = end_ 0 ∧ ∀ y, y ∈ values example_tree → y < 4)))
  ∧ (∃ it, run (upper_bound 0 4) example_state = Ret it
       ∧ ((∃ x, it ≠ end_ 0 ∧ run (deref it) example_state = Ret x
                ∧ x ∈ values example_tree
                ∧ 4 < x ∧ ∀ y, y ∈ values example_tree → 4 < y → x ≤ y)
          ∨ (it = end_ 0 ∧ ∀ y, y ∈ values example_tree → y ≤ 4))).
Proof.
  assert (budget example_state = None) as Hb by reflexivity.
  assert (set_ok example_state 0 example_tree) as Hok
    by (apply set_okb_sound; vm_compute; reflexivity).
  split; [exact Hb|]. split; [exact Hok|].
  exact (bounds_correct example_state 0%nat example_tree 4 Hb Hok).
Defined.

(** C8: on a well-formed set, [find v] is [lower_bound v] when that is not
    [end()] and points to an element equal to [v], and [end()] otherwise;
    so [find e] points to [e] for every element [e] of the set, and
    [find v] is [end()] for every [v] that is not an element. *)
Theorem find_correct st this t v :
  budget st = None → set_ok st this t →
  (∃ lbv, run (lower_bound this v) st = Ret lbv
     ∧ run (find this v) st
       = Ret (if bool_decide (lbv ≠ end_ this
                              ∧ run (deref lbv) st = Ret v)
              then lbv else end_ this))
  ∧ (v ∈ values t →
     ∃ it, run (find this v) st = Ret it ∧ it ≠ end_ this
           ∧ run (deref it) st = Ret v)
  ∧ (v ∉ values t → run (find this v) st = Ret (end_ this)).
Proof.
  intros Hb Hok. pose proof Hok as (s & Hs & Hroot & Hr & Hbst & _).
  unfold run. rewrite (find_run _ _ _ v Hb Hok).
  rewrite (lower_bound_run _ _ _ v Hb Hok). split; [|split].
  - eexists. split; [done|]. cbn [fst]. f_equal. unfold tfind.
    destruct (lb t v) as [[a x]|] eqn:Hlb; cbn [fmap option_fmap option_map fst it_at].
    + erewrite deref_run; [|done|by eapply lb_elem_of]. cbn [fst].
      destruct (Z.eqb_spec x v) as [->|Hne]; simpl.
      * by rewrite bool_decide_eq_true_2.
      * rewrite bool_decide_eq_false_2; [done|]. intros [_ [=]]. done.
    + rewrite bool_decide_eq_false_2; [done|]. by intros [? _].
  - intros Hin. destruct (tfind_present _ _ Hbst Hin) as [a Hfind].
    rewrite Hfind. eexists. split; [done|]. split; [done|]. simpl.
    erewrite deref_run; [done..|]. by apply tfind_elem_of in Hfind as [_ ?].
  - intros Hin. by rewrite (tfind_absent _ _ Hin).
Qed.

Lemma find_correct_witness :
  budget example_state = None ∧ set_ok example_state 0 example_tree
  ∧ (∃ lbv, run (lower_bound 0 4) example_state = Ret lbv
       ∧ run (find 0 4) example_state
         = Ret (if bool_decide (lbv ≠ end_ 0
                                ∧ run (deref lbv) example_state = Ret 4)
                then lbv else end_ 0))
  ∧ (4 ∈ values example_tree →
     ∃ it, run (find 0 4) example_state = Ret it ∧ it ≠ end_ 0
           ∧ run (deref it) example_state = Ret 4)
  ∧ (4 ∉ values example_tree → run (find 0 4) example_state = Ret (end_ 0)).
Proof.
  assert (budget example_state = None) as Hb by reflexivity.
  assert (set_ok example_state 0 example_tree) as Hok
    by (apply set_okb_sound; vm_compute; reflexivity).
  split; [exact Hb|]. split; [exact Hok|].
  exact (find_correct example_state 0%nat example_tree 4 Hb Hok).
Defined.

(** C7: inserting an element the set already holds returns the position of
    that element (the one [find] gives) together with [false], and changes
    nothing: the state after the call is the state before it, so the root,
    the size and the iteration sequence are as they were. *)
Theorem insert_present st this t v :
  budget st = None → set_ok st this t → v ∈ values t →
  ∃ it, insert this v st = (Ret (it, false), st)
        ∧ run (find this v) st = Ret it
        ∧ it ≠ end_ this ∧ run (deref it) st = Ret v.
Proof.
  intros Hb Hok Hin. pose proof Hok as (s & Hs & Hroot & Hr & Hbst & _).
  destruct (insert_present_run _ _ _ _ Hb Hok Hin) as (a & Hrun & Ha).
  exists (mk_iterator (AtHeap a) this). split; [done|].
  unfold run. rewrite (find_run _ _ _ v Hb Hok).
  destruct (tfind_present _ _ Hbst Hin) as [a' Hfind]. rewrite Hfind.
  pose proof (tfind_elem_of _ _ _ _ Hfind) as [_ Ha'].
  assert (a' = a) as ->.
  { eapply cells_value_inj; [|done..]. by apply bst_NoDup. }
  split; [done|]. split; [done|]. by erewrite deref_run.
Qed.

Lemma insert_present_witness :
  budget example_state = None ∧ set_ok example_state 0 example_tree
  ∧ 3 ∈ values example_tree
  ∧ ∃ it, insert 0 3 example_state = (Ret (it, false), example_state)
          ∧ run (find 0 3) example_state = Ret it
          ∧ it ≠ end_ 0 ∧ run (deref it) example_state = Ret 3.
Proof.
  assert (budget example_state = None) as Hb by reflexivity.
  assert (set_ok example_state 0 example_tree) as Hok
    by (apply set_okb_sound; vm_compute; reflexivity).
  assert (3 ∈ values example_tree) as Hin
    by (apply (bool_decide_unpack _); vm_compute; exact I).
  split; [exact Hb|]. split; [exact Hok|]. split; [exact Hin|].
  exact (insert_present example_state 0%nat example_tree 3 Hb Hok Hin).
Defined.

(** *** Sequences of insertions *)

Lemma untouched_of_absent this st st' :
  extends st st' → length (sets st') = length (sets st) →
  (∀ s, s ≠ this → sets st' !! s = sets st !! s) → untouched this st st'.
Proof. intros. by split. Qed.

Lemma insert_run st this t v :
  budget st = None → set_ok st this t →
  Z.of_nat (length (cells t)) + 1 < size_t_mod →
  ∃ st' t' a b,
    insert this v st = (Ret (mk_iterator (AtHeap a) this, b), st')
    ∧ budget st' = None ∧ set_ok st' this t' ∧ (a, v) ∈ cells t'
    ∧ (∀ x, x ∈ values t' ↔ x = v ∨ x ∈ values t)
    ∧ (length (cells t') ≤ S (length (cells t)))%nat
    ∧ b = bool_decide (v ∉ values t)
    ∧ untouched this st st'.
Proof.
  intros Hb Hok Hsz. destruct (decide (v ∈ values t)) as [Hin|Hin].
  - destruct (insert_present_run _ _ _ _ Hb Hok Hin) as (a & Hrun & Ha).
    exists st, t, a, false. split; [done|]. split; [done|]. split; [done|].
    split; [done|]. split; [naive_solver|]. split; [lia|].
    split; [|apply untouched_refl].
    symmetry. apply bool_decide_eq_false_2. auto.
  - destruct (insert_absent_run _ _ _ _ Hb Hok Hin Hsz)
      as (st' & t' & a & Hrun & Hok' & Hperm & Ha & Hext & Hb' & Hlen & Hs).
    exists st', t', a, true. split; [done|]. split; [done|]. split; [done|].
    split; [done|]. split; [|split; [|split]].
    + intros x. rewrite Hperm, elem_of_cons. done.
    + rewrite <-!length_values, Hperm. done.
    + symmetry. by apply bool_decide_eq_true_2.
    + by apply untouched_of_absent.
Qed.

Lemma insert_all_run this vs : ∀ st t,
  budget st = None → set_ok st this t →
  Z.of_nat (length (cells t) + length vs) < size_t_mod →
  ∃ st' t',
    insert_all this vs st = (Ret tt, st')
    ∧ budget st' = None ∧ set_ok st' this t'
    ∧ (∀ x, x ∈ values t' ↔ x ∈ values t ∨ x ∈ vs)
    ∧ untouched this st st'.
Proof.
  induction vs as [|v vs IH]; intros st t Hb Hok Hsz.
  { exists st, t. split; [done|]. split; [done|]. split; [done|].
    split; [|apply untouched_refl]. intros x. rewrite elem_of_nil. tauto. }
  simpl in Hsz.
  destruct (insert_run st this t v Hb Hok ltac:(lia))
    as (st1 & t1 & a & b & Hrun & Hb1 & Hok1 & _ & Hvals & Hlen & _ & Hun).
  destruct (IH st1 t1 Hb1 Hok1 ltac:(lia))
    as (st' & t' & Hrun' & Hb' & Hok' & Hvals' & Hun').
  exists st', t'. split.
  { cbn [insert_all]. by rewrite (bind_Ret _ _ _ _ _ Hrun). }
  split; [done|]. split; [done|]. split; [|by eapply untouched_trans].
  intros x. rewrite Hvals', Hvals, elem_of_cons. tauto.
Qed.

(** C4: inserting any sequence of values into an empty set gives a set
    that holds exactly the values inserted, and iterating it from [begin()]
    to [end()] yields them in strictly ascending order (so each once);
    [insert] and [erase] keep the order invariant of the tree: everything in
    a left subtree is less than the node's element, which is less than
    everything in the right subtree. *)
Theorem order_invariant :
  (∀ st this vs,
     budget st = None → set_ok st this Leaf →
     Z.of_nat (length vs) < size_t_mod →
     ∃ st' t',
       insert_all this vs st = (Ret tt, st')
       ∧ set_ok st' this t' ∧ bst t'
       ∧ run (to_list this) st' = Ret (values t')
       ∧ StronglySorted Z.lt (values t')
       ∧ ∀ x, x ∈ values t' ↔ x ∈ vs)
  ∧ (∀ st this t v,
       budget st = None → set_ok st this t →
       Z.of_nat (length (cells t)) + 1 < size_t_mod →
       ∃ st' t' r,
         insert this v st = (Ret r, st') ∧ set_ok st' this t' ∧ bst t'
         ∧ ∀ x, x ∈ values t' ↔ x = v ∨ x ∈ values t)
  ∧ (∀ st this t a x,
       budget st = None → set_ok st this t → (a, x) ∈ cells t →
       ∃ st' t' r,
         erase this (mk_iterator (AtHeap a) this) st = (Ret r, st')
         ∧ set_ok st' this t' ∧ bst t'
         ∧ ∀ y, y ∈ values t' ↔ y ∈ values t ∧ y ≠ x).
Proof.
  split; [|split].
  - intros st this vs Hb Hok Hsz.
    destruct (insert_all_run this vs st Leaf Hb Hok ltac:(simpl; lia))
      as (st' & t' & Hrun & Hb' & Hok' & Hvals & _).
    pose proof Hok' as (_ & _ & _ & _ & Hbst & _).
    exists st', t'. split; [done|]. split; [done|]. split; [done|].
    split; [unfold run; by rewrite (to_list_run _ _ _ Hb' Hok')|].
    split; [by apply bst_sorted|].
    intros x. rewrite Hvals. unfold values at 1. simpl.
    rewrite elem_of_nil. tauto.
  - intros st this t v Hb Hok Hsz.
    destruct (insert_run st this t v Hb Hok Hsz)
      as (st' & t' & a & b & Hrun & _ & Hok' & _ & Hvals & _).
    pose proof Hok' as (_ & _ & _ & _ & Hbst & _).
    by exists st', t', (mk_iterator (AtHeap a) this, b).
  - intros st this t a x Hb Hok Hin.
    pose proof Hok as (s & Hs & Hroot & Hr & Hbst & _).
    destruct (repr_lookup _ _ _ _ Hr Hin) as (n & vp & Hn & Hval & Hvp).
    destruct (erase_run st this t (mk_iterator (AtHeap a) this) n vp x)
      as (st' & t' & Hrun & Hok' & Hperm & _); try done.
    { apply elem_of_values. eauto. }
    pose proof Hok' as (_ & _ & _ & _ & Hbst' & _).
    eexists st', t', _. split; [done|]. split; [done|]. split; [done|].
    pose proof (bst_NoDup _ Hbst) as Hnd. rewrite Hperm in Hnd.
    apply NoDup_cons in Hnd as [Hx _].
    intros y. rewrite Hperm, elem_of_cons. naive_solver.
Qed.

Lemma order_invariant_witness :
  (∃ st' t',
     insert_all 0 [5; 3; 8; 1; 4] (exec new_set init) = (Ret tt, st')
     ∧ set_ok st' 0 t' ∧ bst t'
     ∧ run (to_list 0) st' = Ret (values t')
     ∧ StronglySorted Z.lt (values t')
     ∧ ∀ x, x ∈ values t' ↔ x ∈ [5; 3; 8; 1; 4])
  ∧ (∃ st' t' r,
       insert 0 7 example_state = (Ret r, st') ∧ set_ok st' 0 t' ∧ bst t'
       ∧ ∀ x, x ∈ values t' ↔ x = 7 ∨ x ∈ values example_tree)
  ∧ (∃ st' t' r,
       erase 0 (mk_iterator (AtHeap 9) 0) example_state = (Ret r, st')
       ∧ set_ok st' 0 t' ∧ bst t'
       ∧ ∀ y, y ∈ values t' ↔ y ∈ values example_tree ∧ y ≠ 3).
Proof.
  destruct order_invariant as (H1 & H2 & H3).
  assert (budget example_state = None) as Hb by reflexivity.
  assert (set_ok example_state 0 example_tree) as Hok
    by (apply set_okb_sound; vm_compute; reflexivity).
  split; [|split].
  - apply H1; [reflexivity| |reflexivity].
    apply set_okb_sound. vm_compute. reflexivity.
  - apply (H2 example_state 0%nat example_tree 7 Hb Hok). reflexivity.
  - apply (H3 example_state 0%nat example_tree 9%nat 3 Hb Hok).
    apply (bool_decide_unpack _). vm_compute. exact I.
Defined.

(** C6: erasing through an iterator to an element [x] of a well-formed set
    removes exactly [x], lowers the size by exactly one, and returns what
    [lower_bound x] gives on the set after the removal: an iterator to the
    least element greater than [x], or [end()] if [x] was the greatest.
    Afterwards [find x] is [end()]. *)
Theorem erase_correct st this t a x :
  budget st = None → set_ok st this t → (a, x) ∈ cells t →
  ∃ st' t' nxt,
    erase this (mk_iterator (AtHeap a) this) st = (Ret nxt, st')
    ∧ set_ok st' this t'
    ∧ run (to_list this) st' = Ret (values t')
    ∧ (∀ y, y ∈ values t' ↔ y ∈ values t ∧ y ≠ x)
    ∧ run (size this) st = Ret (Z.of_nat (length (cells t)))
    ∧ run (size this) st' = Ret (Z.of_nat (length (cells t)) - 1)
    ∧ run (lower_bound this x) st' = Ret nxt
    ∧ ((∃ y, nxt ≠ end_ this ∧ run (deref nxt) st' = Ret y ∧ y ∈ values t
             ∧ x < y ∧ ∀ z, z ∈ values t → x < z → y ≤ z)
       ∨ (nxt = end_ this ∧ ∀ z, z ∈ values t → z ≤ x))
    ∧ run (find this x) st' = Ret (end_ this).
Proof.
  intros Hb Hok Hin. pose proof Hok as (s & Hs & Hroot & Hr & Hbst & _).
  destruct (repr_lookup _ _ _ _ Hr Hin) as (n & vp & Hn & Hval & Hvp).
  destruct (erase_run st this t (mk_iterator (AtHeap a) this) n vp x)
    as (st' & t' & Hrun & Hok' & Hperm & _ & Hb' & _); try done.
  { apply elem_of_values. eauto. }
  pose proof Hok' as (s' & Hs' & Hroot' & Hr' & Hbst' & _).
  pose proof (bst_NoDup _ Hbst) as Hnd. rewrite Hperm in Hnd.
  apply NoDup_cons in Hnd as [Hx _].
  assert (∀ y, y ∈ values t' ↔ y ∈ values t ∧ y ≠ x) as Hvals.
  { intros y. rewrite Hperm, elem_of_cons. naive_solver. }
  assert (length (cells t) = S (length (cells t'))) as Hlen.
  { rewrite <-!length_values, Hperm. done. }
  eexists st', t', _. split; [done|]. split; [done|].
  unfold run. rewrite (to_list_run _ _ _ Hb' Hok').
  rewrite (size_run _ _ _ Hok), (size_run _ _ _ Hok').
  rewrite (lower_bound_run _ _ _ x Hb' Hok'), (find_run _ _ _ x Hb' Hok').
  rewrite (tfind_absent _ _ Hx).
  split; [done|]. split; [done|]. split; [done|].
  split; [cbn [fst]; f_equal; lia|]. split; [done|]. split; [|done].
  pose proof (lb_spec t' x Hbst') as Hspec.
  destruct (lb t' x) as [[a' y]|] eqn:Hlb; simpl.
  - left. exists y. destruct Hspec as [Hle Hmin].
    pose proof (lb_elem_of_values _ _ _ _ Hlb) as Hy.
    pose proof Hy as [Hyt Hyx]%Hvals.
    split; [done|]. split; [|split; [done|split; [lia|]]].
    + erewrite deref_run; [done..|]. by eapply lb_elem_of.
    + intros z Hz Hxz. apply Hmin; [|lia]. apply Hvals. split; [done|lia].
  - right. split; [done|]. intros z Hz.
    destruct (decide (z = x)) as [->|Hne]; [lia|].
    assert (z < x); [|lia]. apply Hspec, Hvals. done.
Qed.

Lemma erase_correct_witness :
  budget example_state = None ∧ set_ok example_state 0 example_tree
  ∧ (9%nat, 3) ∈ cells example_tree
  ∧ ∃ st' t' nxt,
      erase 0 (mk_iterator (AtHeap 9) 0) example_state = (Ret nxt, st')
      ∧ set_ok st' 0 t'
      ∧ run (to_list 0) st' = Ret (values t')
      ∧ (∀ y, y ∈ values t' ↔ y ∈ values example_tree ∧ y ≠ 3)
      ∧ run (size 0) example_state
        = Ret (Z.of_nat (length (cells example_tree)))
      ∧ run (size 0) st' = Ret (Z.of_nat (length (cells example_tree)) - 1)
      ∧ run (lower_bound 0 3) st' = Ret nxt
      ∧ ((∃ y, nxt ≠ end_ 0 ∧ run (deref nxt) st' = Ret y
               ∧ y ∈ values example_tree
               ∧ 3 < y ∧ ∀ z, z ∈ values example_tree → 3 < z → y ≤ z)
         ∨ (nxt = end_ 0 ∧ ∀ z, z ∈ values example_tree → z ≤ 3))
      ∧ run (find 0 3) st' = Ret (end_ 0).
Proof.
  assert (budget example_state = None) as Hb by reflexivity.
  assert (set_ok example_state 0 example_tree) as Hok
    by (apply set_okb_sound; vm_compute; reflexivity).
  assert ((9%nat, 3) ∈ cells example_tree) as Hin
    by (apply (bool_decide_unpack _); vm_compute; exact I).
  split; [exact Hb|]. split; [exact Hok|]. split; [exact Hin|].
  exact (erase_correct example_state 0%nat example_tree 9%nat 3 Hb Hok Hin).
Defined.

(** *** Stepping an iterator *)

Lemma last_cells_Node l a x r :
  last (cells (Node l a x r)) = Some (tmax r a, tmaxv r x).
Proof.
  revert l a x. induction r as [|rl _ b y rr IHr]; intros l a x.
  - simpl. apply last_snoc.
  - cbn [cells tmax tmaxv]. rewrite last_app_cons, last_cons.
    change (cells rl ++ (b, y) :: cells rr) with (cells (Node rl b y rr)).
    by rewrite IHr.
Qed.

Lemma sorted_last_max (l : list Z) m :
  StronglySorted Z.lt l → last l = Some m → ∀ y, y ∈ l → y ≤ m.
Proof.
  intros Hs [l' ->]%last_Some y [Hy|Hy%list_elem_of_singleton]%elem_of_app;
    [|lia].
  apply sorted_snoc_lt in Hs. eapply Forall_forall in Hs; [|done]. lia.
Qed.

Lemma decr_end_run st this l a x r :
  set_ok st this (Node l a x r) →
  decr (end_ this) st = (Ret (mk_iterator (AtHeap (tmax r a)) this), st).
Proof.
  intros (s & Hs & Hroot & Hr & Hbst & _).
  unfold decr. cbn [end_ it_node set_ptr]. msteps. rewrite Hroot.
  cbn [value rev_upper_bound]. msteps. rewrite Hroot. cbn [left ptr_of].
  msteps. erewrite bind_Ret; [done|].
  eapply rightmost_run; [done|].
  pose proof (repr_height _ _ Hr Hbst). simpl in *. lia.
Qed.

(** **** Which nodes are alive *)

Lemma reaches_addrs st t a : ∀ fuel,
  repr st t → (height t ≤ fuel)%nat → a ∈ addrs t →
  reaches fuel st (ptr_of t) a = true.
Proof.
  induction t as [|l IHl b x r IHr]; intros fuel Hr Hh Hin.
  { by apply elem_of_nil in Hin. }
  destruct Hr as (vp & Hb & _ & Hl & Hr). simpl in Hh.
  destruct fuel as [|fuel]; [lia|]. cbn [ptr_of reaches]. rewrite Hb.
  cbn [left right]. unfold addrs in *. cbn [cells] in Hin.
  rewrite fmap_app, fmap_cons in Hin.
  apply elem_of_app in Hin as [Hin|Hin]; [|apply elem_of_cons in Hin as [->|Hin]].
  - rewrite (IHl fuel); [|done|lia|done]. by rewrite orb_true_r.
  - by rewrite bool_decide_eq_true_2.
  - rewrite (IHr fuel); [|done|lia|done]. by rewrite !orb_true_r.
Qed.

(** A cell of the tree of a well-formed set is alive. *)
Lemma live_cell st s t a x :
  set_ok st s t → (a, x) ∈ cells t → live st (AtHeap a) = true.
Proof.
  intros (o & Hs & Hroot & Hr & Hbst & _) Hin. cbn [live].
  apply existsb_exists. exists o. split.
  { apply list_elem_of_In. by eapply list_elem_of_lookup_2. }
  unfold owns. rewrite Hroot. cbn [left right].
  rewrite (reaches_addrs st t a); [done|done| |].
  - pose proof (repr_height _ _ Hr Hbst). lia.
  - unfold addrs. by apply (list_elem_of_fmap_2 fst) in Hin.
Qed.

(** Stepping an iterator whose node some set object owns. *)
Lemma incr_live_owned st this owner t to a x :
  budget st = None → set_ok st this t → set_ok st owner to →
  (a, x) ∈ cells to →
  live st (AtHeap a) = true
  ∧ ∃ nxt,
      incr_live (mk_iterator (AtHeap a) this) st = (Ret nxt, st)
      ∧ upper_bound this x st = (Ret nxt, st)
      ∧ ((∃ y, nxt ≠ end_ this ∧ run (deref nxt) st = Ret y
               ∧ y ∈ values t ∧ x < y
               ∧ ∀ z, z ∈ values t → x < z → y ≤ z)
         ∨ (nxt = end_ this ∧ ∀ z, z ∈ values t → z ≤ x)).
Proof.
  intros Hb Hok Howner Hin.
  pose proof (live_cell _ _ _ _ _ Howner Hin) as Hlive. split; [done|].
  pose proof Howner as (so & _ & _ & Hro & _).
  destruct (repr_lookup _ _ _ _ Hro Hin) as (n & vp & Hn & Hval & Hvp).
  pose proof Hok as (s & Hs & Hroot & Hr & Hbst & _).
  exists (it_at this (fst <$> ub t x)).
  unfold incr_live. cbn [it_node]. rewrite Hlive. unfold incr.
  cbn [it_node set_ptr].
  rewrite (bind_Ret _ _ _ _ _ (load_heap_run _ _ _ Hn)), Hval.
  rewrite (bind_Ret _ _ _ _ _ (load_value_run _ _ _ Hvp)).
  rewrite (upper_bound_run _ _ _ x Hb Hok).
  split; [done|]. split; [done|].
  pose proof (ub_spec t x Hbst) as Hspec.
  destruct (ub t x) as [[c y]|] eqn:Hub; simpl.
  - left. exists y. destruct Hspec as [? ?].
    split; [done|]. split; [|split; [by eapply ub_elem_of_values|done]].
    unfold run. erewrite deref_run; [done..|]. by eapply ub_elem_of.
  - by right.
Qed.

Lemma reaches_sound st t a : ∀ fuel,
  repr st t → reaches fuel st (ptr_of t) a = true → a ∈ addrs t.
Proof.
  induction t as [|l IHl b x r IHr]; intros fuel Hr Hreach.
  { by destruct fuel. }
  destruct Hr as (vp & Hb & _ & Hl & Hr).
  destruct fuel as [|fuel]; [done|]. cbn [ptr_of reaches] in Hreach.
  rewrite Hb in Hreach. cbn [left right] in Hreach.
  unfold addrs in *. cbn [cells]. rewrite fmap_app, fmap_cons.
  apply elem_of_app.
  apply orb_true_iff in Hreach as [Heq|Hreach];
    [|apply orb_true_iff in Hreach as [Hreach|Hreach]].
  - apply bool_decide_eq_true in Heq as ->. right. by left.
  - left. by eapply IHl.
  - right. right. by eapply IHr.
Qed.

(** A cell that lies in the tree of no set object has been destroyed. *)
Lemma live_unowned st a :
  (∀ s, (s < length (sets st))%nat → ∃ ts, set_ok st s ts ∧ a ∉ addrs ts) →
  live st (AtHeap a) = false.
Proof.
  intros Hall. cbn [live].
  destruct (existsb _ _) eqn:Hex; [|done].
  apply existsb_exists in Hex as (o & Hin & Howns).
  apply list_elem_of_In, list_elem_of_lookup_1 in Hin as [s Hs].
  destruct (Hall s) as (ts & (o' & Hs' & Hroot & Hr & _) & Hnot);
    [by eapply lookup_lt_Some|].
  assert (o' = o) as -> by congruence.
  unfold owns in Howns. rewrite Hroot in Howns. cbn [left right] in Howns.
  rewrite orb_false_r in Howns.
  destruct Hnot. by eapply reaches_sound.
Qed.

(** C9, as stated, fails: set 0 of the example is the only owner of its
    nodes.  The iterator to 5 is valid; the insertion of 7, and likewise the
    erasure of 3, replaces the node of 5 by a copy, so the node the iterator
    points to is destroyed and stepping the iterator reads freed memory,
    where [upper_bound 5] on the changed set returns an iterator. *)
Lemma iterator_step_dangling :
  set_ok example_state 0 example_tree
  ∧ (8%nat, 5) ∈ cells example_tree
  ∧ live example_state (AtHeap 8) = true
  ∧ run (deref (mk_iterator (AtHeap 8) 0)) example_state = Ret 5
  ∧ (insert 0 7 example_state
     = (Ret (mk_iterator (AtHeap 13) 0, true), inserted_state)
     ∧ set_ok inserted_state 0 inserted_tree
     ∧ live inserted_state (AtHeap 8) = false
     ∧ run (incr_live (mk_iterator (AtHeap 8) 0)) inserted_state = Undef
     ∧ run (upper_bound 0 5) inserted_state
       = Ret (mk_iterator (AtHeap 13) 0))
  ∧ (erase 0 (mk_iterator (AtHeap 9) 0) example_state
     = (Ret (mk_iterator (AtHeap 10) 0), erased_state)
     ∧ set_ok erased_state 0 erased_tree
     ∧ live erased_state (AtHeap 8) = false
     ∧ run (incr_live (mk_iterator (AtHeap 8) 0)) erased_state = Undef
     ∧ run (upper_bound 0 5) erased_state
       = Ret (mk_iterator (AtHeap 4) 0)).
Proof.
  split; [apply set_okb_sound; vm_compute; reflexivity|].
  split; [apply (bool_decide_unpack _); vm_compute; exact I|].
  split; [vm_compute; reflexivity|]. split; [vm_compute; reflexivity|].
  split.
  - split; [vm_compute; reflexivity|].
    split; [apply set_okb_sound; vm_compute; reflexivity|].
    repeat split; vm_compute; reflexivity.
  - split; [vm_compute; reflexivity|].
    split; [apply set_okb_sound; vm_compute; reflexivity|].
    repeat split; vm_compute; reflexivity.
Qed.

(** C9, amended: stepping forward an iterator whose node is alive and holds
    [x] is the same computation as [upper_bound x] on the set the iterator
    belongs to, in the state at the time of the step.  The node is alive
    when it is a cell of the tree of some set object, the set itself or
    another one; then the step returns the successor of [x] in the current
    tree of the set, or [end()].  So an iterator made before an insertion
    or an erasure steps to the successor of [x] in the changed set as long
    as another set object owns its node.  An iterator whose node is a cell
    of no set object's tree dangles: its node has been destroyed and the
    step is undefined.  Stepping [end()] of a non-empty set backward gives
    an iterator to the greatest element, the last of the iteration
    sequence. *)
Theorem iterator_steps :
  (∀ st it n vp x,
     live st (it_node it) = true →
     cell st (it_node it) = Some n → value n = Some vp →
     vals st !! vp = Some x →
     incr_live it st = upper_bound (set_ptr it) x st)
  ∧ (∀ st this owner t to a x,
       budget st = None → set_ok st this t → set_ok st owner to →
       (a, x) ∈ cells to →
       live st (AtHeap a) = true
       ∧ ∃ nxt,
           incr_live (mk_iterator (AtHeap a) this) st = (Ret nxt, st)
           ∧ upper_bound this x st = (Ret nxt, st)
           ∧ ((∃ y, nxt ≠ end_ this ∧ run (deref nxt) st = Ret y
                    ∧ y ∈ values t ∧ x < y
                    ∧ ∀ z, z ∈ values t → x < z → y ≤ z)
              ∨ (nxt = end_ this ∧ ∀ z, z ∈ values t → z ≤ x)))
  ∧ (∀ st this other t to a x v,
       budget st = None → set_ok st this t →
       other ≠ this → set_ok st other to → (a, x) ∈ cells to →
       Z.of_nat (length (cells t)) + 1 < size_t_mod →
       ∃ st' t' r nxt,
         insert this v st = (Ret r, st') ∧ set_ok st' this t'
         ∧ set_ok st' other to
         ∧ live st' (AtHeap a) = true
         ∧ run (incr_live (mk_iterator (AtHeap a) this)) st' = Ret nxt
         ∧ run (upper_bound this x) st' = Ret nxt
         ∧ ((∃ y, nxt ≠ end_ this ∧ run (deref nxt) st' = Ret y
                  ∧ y ∈ values t' ∧ x < y
                  ∧ ∀ z, z ∈ values t' → x < z → y ≤ z)
            ∨ (nxt = end_ this ∧ ∀ z, z ∈ values t' → z ≤ x)))
  ∧ (∀ st this other t to a x b y,
       budget st = None → set_ok st this t →
       other ≠ this → set_ok st other to → (a, x) ∈ cells to →
       (b, y) ∈ cells t →
       ∃ st' t' r nxt,
         erase this (mk_iterator (AtHeap b) this) st = (Ret r, st')
         ∧ set_ok st' this t' ∧ values t ≡ₚ y :: values t'
         ∧ set_ok st' other to
         ∧ live st' (AtHeap a) = true
         ∧ run (incr_live (mk_iterator (AtHeap a) this)) st' = Ret nxt
         ∧ run (upper_bound this x) st' = Ret nxt
         ∧ ((∃ z, nxt ≠ end_ this ∧ run (deref nxt) st' = Ret z
                  ∧ z ∈ values t' ∧ x < z
                  ∧ ∀ w, w ∈ values t' → x < w → z ≤ w)
            ∨ (nxt = end_ this ∧ ∀ w, w ∈ values t' → w ≤ x)))
  ∧ (∀ st it a,
       it_node it = AtHeap a →
       (∀ s, (s < length (sets st))%nat →
             ∃ ts, set_ok st s ts ∧ a ∉ addrs ts) →
       live st (it_node it) = false ∧ incr_live it st = (Undef, st))
  ∧ (∀ st this t,
       set_ok st this t → t ≠ Leaf →
       ∃ a m,
         live st (it_node (end_ this)) = true
         ∧ decr (end_ this) st = (Ret (mk_iterator (AtHeap a) this), st)
         ∧ last (cells t) = Some (a, m)
         ∧ run (deref (mk_iterator (AtHeap a) this)) st = Ret m
         ∧ ∀ y, y ∈ values t → y ≤ m).
Proof.
  split; [|split; [|split; [|split; [|split]]]].
  - intros st it n vp x Hlive Hn Hval Hvp. unfold incr_live, incr.
    rewrite Hlive.
    rewrite (bind_Ret _ _ _ _ _ (load_cell _ _ _ Hn)), Hval.
    by rewrite (bind_Ret _ _ _ _ _ (load_value_run _ _ _ Hvp)).
  - apply incr_live_owned.
  - intros st this other t to a x v Hb Hok Hne Hother Hin Hsz.
    destruct (insert_run st this t v Hb Hok Hsz)
      as (st' & t' & a' & b & Hrun & Hb' & Hok' & _ & _ & _ & _ & Hun).
    pose proof (set_ok_untouched _ _ _ _ _ Hne Hother Hun) as Hother'.
    destruct (incr_live_owned st' this other t' to a x Hb' Hok' Hother' Hin)
      as (Hlive & nxt & Hincr & Hub & Hnxt).
    exists st', t', (mk_iterator (AtHeap a') this, b), nxt.
    unfold run. rewrite Hincr, Hub. done.
  - intros st this other t to a x b y Hb Hok Hne Hother Hin Hiny.
    pose proof Hok as (s & Hs & Hroot & Hr & Hbst & _).
    destruct (repr_lookup _ _ _ _ Hr Hiny) as (n & vp & Hn & Hval & Hvp).
    destruct (erase_run st this t (mk_iterator (AtHeap b) this) n vp y)
      as (st' & t' & Hrun & Hok' & Hperm & Hext & Hb' & _ & Hsets);
      [done..| |].
    { unfold values. by apply (list_elem_of_fmap_2 snd) in Hiny. }
    assert (set_ok st' other to) as Hother'.
    { eapply set_ok_extends; [done..|]. by apply Hsets. }
    destruct (incr_live_owned st' this other t' to a x Hb' Hok' Hother' Hin)
      as (Hlive & nxt & Hincr & Hub & Hnxt).
    eexists st', t', _, nxt. split; [done|].
    unfold run. rewrite Hincr, Hub. done.
  - intros st it a Hit Hall. unfold incr_live. rewrite Hit.
    by rewrite (live_unowned _ _ Hall).
  - intros st this t Hok Hne. destruct t as [|l a x r]; [done|].
    pose proof Hok as (s & Hs & Hroot & Hr & Hbst & _).
    pose proof (last_cells_Node l a x r) as Hlast.
    exists (tmax r a), (tmaxv r x). split.
    { cbn [end_ it_node live]. apply bool_decide_eq_true_2.
      by eapply lookup_lt_Some. }
    split; [by eapply decr_end_run|].
    split; [done|]. split.
    + unfold run. erewrite deref_run; [done..|].
      by apply last_Some_elem_of.
    + apply sorted_last_max; [by apply bst_sorted|].
      unfold values. by rewrite fmap_last, Hlast.
Qed.

Lemma iterator_steps_witness :
  incr_live (mk_iterator (AtHeap 9) 0) example_state
  = upper_bound 0 3 example_state
  ∧ (live inserted_state (AtHeap 9) = true
     ∧ ∃ nxt,
         incr_live (mk_iterator (AtHeap 9) 0) inserted_state
         = (Ret nxt, inserted_state)
         ∧ upper_bound 0 3 inserted_state = (Ret nxt, inserted_state)
         ∧ ((∃ y, nxt ≠ end_ 0 ∧ run (deref nxt) inserted_state = Ret y
                  ∧ y ∈ values inserted_tree ∧ 3 < y
                  ∧ ∀ z, z ∈ values inserted_tree → 3 < z → y ≤ z)
            ∨ (nxt = end_ 0 ∧ ∀ z, z ∈ values inserted_tree → z ≤ 3)))
  ∧ (∃ st' t' r nxt,
       insert 0 7 copied_state = (Ret r, st') ∧ set_ok st' 0 t'
       ∧ set_ok st' 1 example_tree
       ∧ live st' (AtHeap 8) = true
       ∧ run (incr_live (mk_iterator (AtHeap 8) 0)) st' = Ret nxt
       ∧ run (upper_bound 0 5) st' = Ret nxt
       ∧ ((∃ y, nxt ≠ end_ 0 ∧ run (deref nxt) st' = Ret y
                ∧ y ∈ values t' ∧ 5 < y
                ∧ ∀ z, z ∈ values t' → 5 < z → y ≤ z)
          ∨ (nxt = end_ 0 ∧ ∀ z, z ∈ values t' → z ≤ 5)))
  ∧ (∃ st' t' r nxt,
       erase 0 (mk_iterator (AtHeap 9) 0) copied_state = (Ret r, st')
       ∧ set_ok st' 0 t' ∧ values example_tree ≡ₚ 3 :: values t'
       ∧ set_ok st' 1 example_tree
       ∧ live st' (AtHeap 8) = true
       ∧ run (incr_live (mk_iterator (AtHeap 8) 0)) st' = Ret nxt
       ∧ run (upper_bound 0 5) st' = Ret nxt
       ∧ ((∃ z, nxt ≠ end_ 0 ∧ run (deref nxt) st' = Ret z
                ∧ z ∈ values t' ∧ 5 < z
                ∧ ∀ w, w ∈ values t' → 5 < w → z ≤ w)
          ∨ (nxt = end_ 0 ∧ ∀ w, w ∈ values t' → w ≤ 5)))
  ∧ (live inserted_state (AtHeap 8) = false
     ∧ incr_live (mk_iterator (AtHeap 8) 0) inserted_state
       = (Undef, inserted_state))
  ∧ (∃ a m,
       live example_state (it_node (end_ 0)) = true
       ∧ decr (end_ 0) example_state
         = (Ret (mk_iterator (AtHeap a) 0), example_state)
       ∧ last (cells example_tree) = Some (a, m)
       ∧ run (deref (mk_iterator (AtHeap a) 0)) example_state = Ret m
       ∧ ∀ y, y ∈ values example_tree → y ≤ m).
Proof.
  destruct iterator_steps as (H1 & H2 & H3 & H4 & H5 & H6).
  assert (budget example_state = None) as Hb by reflexivity.
  assert (set_ok example_state 0 example_tree) as Hok
    by (apply set_okb_sound; vm_compute; reflexivity).
  assert (set_ok inserted_state 0 inserted_tree) as Hoki
    by (apply set_okb_sound; vm_compute; reflexivity).
  assert (set_ok copied_state 0 example_tree) as Hc0
    by (apply set_okb_sound; vm_compute; reflexivity).
  assert (set_ok copied_state 1 example_tree) as Hc1
    by (apply set_okb_sound; vm_compute; reflexivity).
  split; [|split; [|split; [|split; [|split]]]].
  - apply (H1 example_state (mk_iterator (AtHeap 9) 0)
              (mk_node (Some 1%nat) (Some 7%nat) (Some 10%nat)) 1%nat 3);
      reflexivity.
  - apply (H2 inserted_state 0%nat 0%nat inserted_tree inserted_tree 9%nat 3);
      [reflexivity|exact Hoki|exact Hoki|].
    apply (bool_decide_unpack _). vm_compute. exact I.
  - apply (H3 copied_state 0%nat 1%nat example_tree example_tree 8%nat 5 7);
      [reflexivity|exact Hc0|done|exact Hc1| |reflexivity].
    apply (bool_decide_unpack _). vm_compute. exact I.
  - apply (H4 copied_state 0%nat 1%nat example_tree example_tree 8%nat 5
              9%nat 3); [reflexivity|exact Hc0|done|exact Hc1| |].
    + apply (bool_decide_unpack _). vm_compute. exact I.
    + apply (bool_decide_unpack _). vm_compute. exact I.
  - apply (H5 inserted_state (mk_iterator (AtHeap 8) 0) 8%nat eq_refl).
    intros s Hs. exists inserted_tree.
    assert (s = 0%nat) as -> by (cbn in Hs; lia).
    split; [exact Hoki|]. apply (bool_decide_unpack _). vm_compute. exact I.
  - by apply (H6 example_state 0%nat example_tree Hok).
Defined.

(** *** Equality of sets *)

Lemma node_eq_spec n m :
  node_eq n m
  = bool_decide (left n = left m ∧ right n = right m ∧ value n = value m).
Proof.
  unfold node_eq. repeat case_bool_decide; simpl; naive_solver.
Qed.

Lemma node_eq_true n m : node_eq n m = true ↔ n = m.
Proof.
  rewrite node_eq_spec, bool_decide_eq_true. destruct n, m; simpl.
  naive_solver.
Qed.

Lemma set_eq_run st A B sA sB :
  sets st !! A = Some sA → sets st !! B = Some sB →
  set_eq A B st
  = (Ret (node_eq (m_root sA) (m_root sB) && (m_size sA =? m_size sB)), st).
Proof. intros HA HB. unfold set_eq. by msteps. Qed.

(** A shared pointer owns at most one tree. *)
Lemma repr_inj st t1 : ∀ t2,
  repr st t1 → repr st t2 → ptr_of t1 = ptr_of t2 → t1 = t2.
Proof.
  induction t1 as [|l1 IHl a1 x1 r1 IHr]; intros [|l2 a2 x2 r2]; try done.
  intros (vp1 & Ha1 & Hv1 & Hl1 & Hr1) (vp2 & Ha2 & Hv2 & Hl2 & Hr2) [= ->].
  rewrite Ha1 in Ha2. injection Ha2 as -> Hl Hr.
  rewrite Hv1 in Hv2. injection Hv2 as ->.
  f_equal; auto.
Qed.

(** C3, as stated, fails: two sets holding the same single element, each
    built by its own [insert], do not compare equal. *)
Lemma set_eq_not_structural :
  set_ok twin_state 0 (Node Leaf 0 1 Leaf)
  ∧ set_ok twin_state 1 (Node Leaf 1 1 Leaf)
  ∧ run (to_list 0) twin_state = Ret [1]
  ∧ run (to_list 1) twin_state = Ret [1]
  ∧ run (set_eq 0 1) twin_state = Ret false.
Proof.
  split; [apply set_okb_sound; vm_compute; reflexivity|].
  split; [apply set_okb_sound; vm_compute; reflexivity|].
  repeat split; vm_compute; reflexivity.
Qed.

(** On well-formed sets [==] compares the roots of the two trees. *)
Lemma set_eq_ptr st A B tA tB :
  set_ok st A tA → set_ok st B tB →
  set_eq A B st = (Ret (bool_decide (ptr_of tA = ptr_of tB)), st).
Proof.
  intros (sA & HA & HrA & HreprA & _ & HszA & _)
         (sB & HB & HrB & HreprB & _ & HszB & _).
  rewrite (set_eq_run _ _ _ _ _ HA HB), HrA, HrB, HszA, HszB.
  do 2 f_equal. unfold node_eq. cbn [left right value].
  rewrite !(bool_decide_eq_true_2 (None = None)) by done.
  rewrite andb_true_r. cbn [andb].
  case_bool_decide as Hp; [|done].
  rewrite (repr_inj _ _ _ HreprA HreprB Hp). cbn [andb]. apply Z.eqb_refl.
Qed.

(** C3, amended: [A == B] holds exactly when the two sentinel roots hold
    the same three shared pointers (the same cells, not merely equal
    contents) and the two sizes are equal.  Well-formed sets that compare
    equal own the same tree, hence hold the same elements.  The converse
    fails: well-formed sets compare equal exactly when their trees have the
    same root, that is, when both are empty or both own the same root node;
    so two empty sets compare equal, and two sets whose root nodes are
    different cells compare unequal whatever they hold. *)
Theorem set_eq_shallow st A B sA sB :
  sets st !! A = Some sA → sets st !! B = Some sB →
  set_eq A B st
  = (Ret (bool_decide (left (m_root sA) = left (m_root sB)
                       ∧ right (m_root sA) = right (m_root sB)
                       ∧ value (m_root sA) = value (m_root sB)
                       ∧ m_size sA = m_size sB)), st)
  ∧ (∀ tA tB,
       set_ok st A tA → set_ok st B tB →
       run (set_eq A B) st = Ret true →
       tA = tB ∧ run (to_list A) (disarm st) = run (to_list B) (disarm st))
  ∧ (∀ tA tB,
       set_ok st A tA → set_ok st B tB →
       run (set_eq A B) st = Ret (bool_decide (ptr_of tA = ptr_of tB))
       ∧ (tA = Leaf → tB = Leaf → run (set_eq A B) st = Ret true)
       ∧ (ptr_of tA ≠ ptr_of tB → run (set_eq A B) st = Ret false)).
Proof.
  intros HA HB. rewrite (set_eq_run _ _ _ _ _ HA HB). split; [|split].
  - f_equal. f_equal. rewrite node_eq_spec.
    destruct (Z.eqb_spec (m_size sA) (m_size sB));
      repeat case_bool_decide; simpl; naive_solver.
  - intros tA tB HokA HokB. unfold run.
    rewrite (set_eq_run _ _ _ _ _ HA HB). cbn [fst].
    intros [= [Hroot _]%andb_true_iff]. apply node_eq_true in Hroot.
    pose proof HokA as (sA' & HA' & HrA & HreprA & _).
    pose proof HokB as (sB' & HB' & HrB & HreprB & _).
    assert (sA' = sA) as -> by congruence.
    assert (sB' = sB) as -> by congruence.
    assert (tA = tB) as ->.
    { eapply repr_inj; [done..|]. rewrite HrA, HrB in Hroot. congruence. }
    split; [done|].
    rewrite (to_list_run (disarm st) A tB), (to_list_run (disarm st) B tB);
      try done; by apply set_ok_arm.
  - intros tA tB HokA HokB. unfold run.
    rewrite (set_eq_ptr _ _ _ _ _ HokA HokB). cbn [fst].
    split; [done|]. split.
    + by intros -> ->.
    + intros Hne. by rewrite bool_decide_eq_false_2.
Qed.

Lemma set_eq_shallow_witness :
  set_eq 1 0 copied_state = (Ret true, copied_state)
  ∧ (∀ tA tB,
       set_ok copied_state 1 tA → set_ok copied_state 0 tB →
       run (set_eq 1 0) copied_state = Ret true →
       tA = tB
       ∧ run (to_list 1) (disarm copied_state)
         = run (to_list 0) (disarm copied_state))
  ∧ (set_ok empty_pair_state 0 Leaf ∧ set_ok empty_pair_state 1 Leaf
     ∧ run (set_eq 0 1) empty_pair_state = Ret true)
  ∧ (set_ok twin_state 0 (Node Leaf 0 1 Leaf)
     ∧ set_ok twin_state 1 (Node Leaf 1 1 Leaf)
     ∧ values (Node Leaf 0 1 Leaf) = values (Node Leaf 1 1 Leaf)
     ∧ run (set_eq 0 1) twin_state = Ret false).
Proof.
  destruct (set_eq_shallow copied_state 1%nat 0%nat
              (mk_set (mk_node None (Some 8%nat) None) 5)
              (mk_set (mk_node None (Some 8%nat) None) 5) eq_refl eq_refl)
    as (H1 & H2 & _).
  destruct (set_eq_shallow empty_pair_state 0%nat 1%nat
              (mk_set node_default 0) (mk_set node_default 0)
              eq_refl eq_refl) as (_ & _ & H3).
  destruct (set_eq_shallow twin_state 0%nat 1%nat
              (mk_set (mk_node None (Some 0%nat) None) 1)
              (mk_set (mk_node None (Some 1%nat) None) 1)
              eq_refl eq_refl) as (_ & _ & H4).
  assert (set_ok empty_pair_state 0 Leaf) as He0
    by (apply set_okb_sound; vm_compute; reflexivity).
  assert (set_ok empty_pair_state 1 Leaf) as He1
    by (apply set_okb_sound; vm_compute; reflexivity).
  assert (set_ok twin_state 0 (Node Leaf 0 1 Leaf)) as Ht0
    by (apply set_okb_sound; vm_compute; reflexivity).
  assert (set_ok twin_state 1 (Node Leaf 1 1 Leaf)) as Ht1
    by (apply set_okb_sound; vm_compute; reflexivity).
  split; [exact H1|]. split; [exact H2|]. split.
  - split; [exact He0|]. split; [exact He1|].
    destruct (H3 Leaf Leaf He0 He1) as (_ & Heq & _). by apply Heq.
  - split; [exact Ht0|]. split; [exact Ht1|]. split; [reflexivity|].
    destruct (H4 _ _ Ht0 Ht1) as (_ & _ & Hne). apply Hne. discriminate.
Defined.

(** C10: the copy of a set compares equal to the original, and every set
    compares equal to itself: the copy holds the three shared pointers of
    the original's root and its size, and these four components are what
    [==] compares. *)
Theorem copy_equal st S s :
  sets st !! S = Some s →
  let C := length (sets st) in
  let st1 := exec (copy_construct S) st in
  run (copy_construct S) st = Ret C
  ∧ sets st1 !! C = Some (mk_set (m_root s) (m_size s))
  ∧ sets st1 !! S = Some s
  ∧ run (set_eq C S) st1 = Ret true
  ∧ run (set_eq S C) st1 = Ret true
  ∧ run (set_eq S S) st = Ret true
  ∧ ∀ A B sA sB,
      sets st1 !! A = Some sA → sets st1 !! B = Some sB →
      run (set_eq A B) st1
      = Ret (bool_decide (left (m_root sA) = left (m_root sB)
                          ∧ right (m_root sA) = right (m_root sB)
                          ∧ value (m_root sA) = value (m_root sB)
                          ∧ m_size sA = m_size sB)).
Proof.
  intros HS C st1.
  assert (copy_construct S st
          = (Ret C, mk_state (nodes st) (vals st)
                      (sets st ++ [mk_set (m_root s) (m_size s)])
                      (tmp st) (budget st))) as Hcopy.
  { unfold copy_construct. by msteps. }
  subst st1. unfold run, exec. rewrite Hcopy. cbn [fst snd].
  set (st1 := mk_state _ _ _ _ _).
  assert (sets st1 !! C = Some (mk_set (m_root s) (m_size s))) as HC
    by apply lookup_app_new.
  assert (sets st1 !! S = Some s) as HS1 by (by apply lookup_app_l_Some).
  assert (node_eq (m_root s) (m_root s) = true) as Hrefl
    by (by apply node_eq_true).
  split; [done|]. split; [done|]. split; [done|].
  rewrite (set_eq_run _ _ _ _ _ HC HS1), (set_eq_run _ _ _ _ _ HS1 HC).
  rewrite (set_eq_run _ _ _ _ _ HS HS). cbn [m_root m_size fst].
  rewrite Hrefl, Z.eqb_refl. repeat (split; [done|]).
  intros A B sA sB HA HB. rewrite (set_eq_run _ _ _ _ _ HA HB). cbn [fst].
  f_equal. rewrite node_eq_spec.
  destruct (Z.eqb_spec (m_size sA) (m_size sB));
    repeat case_bool_decide; simpl; naive_solver.
Qed.

Lemma copy_equal_witness :
  run (copy_construct 0) example_state = Ret 1%nat
  ∧ run (set_eq 1 0) (exec (copy_construct 0) example_state) = Ret true
  ∧ run (set_eq 0 0) example_state = Ret true.
Proof.
  destruct (copy_equal example_state 0%nat
              (mk_set (mk_node None (Some 8%nat) None) 5) eq_refl)
    as (H1 & _ & _ & H2 & _ & H3 & _).
  split; [exact H1|]. split; [exact H2|exact H3].
Defined.

(** *** Exceptions *)

Lemma tick_throw st : budget st = Some O → tick st = (Throw, st).
Proof. unfold tick. by intros ->. Qed.

Lemma T_eq_throw x y st : budget st = Some O → T_eq x y st = (Throw, st).
Proof. intros H. unfold T_eq. by rewrite (bind_Throw _ _ _ _ (tick_throw _ H)). Qed.

Lemma make_shared_copy_throw n st :
  budget st = Some O → make_shared_copy n st = (Throw, st).
Proof.
  intros H. unfold make_shared_copy.
  by rewrite (bind_Throw _ _ _ _ (tick_throw _ H)).
Qed.

Lemma make_shared_leaf_throw x st :
  budget st = Some O → make_shared_leaf x st = (Throw, st).
Proof.
  intros H. unfold make_shared_leaf.
  by rewrite (bind_Throw _ _ _ _ (tick_throw _ H)).
Qed.

Lemma try_catch_Throw {A} (body : M A) handler st st1 st2 :
  body st = (Throw, st1) → handler st1 = (Ret tt, st2) →
  try_catch body handler st = (Throw, st2).
Proof. unfold try_catch. by intros -> ->. Qed.

(** With the countdown at zero the first fallible step of [insert] throws,
    and the exception leaves the call. *)
Lemma insert_throws_first st this t v :
  budget st = Some O → set_ok st this t → run (insert this v) st = Throw.
Proof.
  intros Hb (s & Hs & Hroot & Hr & Hbst & _). unfold run.
  destruct t as [|l a x r].
  - assert (find this v st = (Ret (end_ this), st)) as Hfind.
    { unfold find, lower_bound. msteps. rewrite Hroot. simpl.
      msteps. by rewrite iterator_eq_refl. }
    unfold insert. rewrite (bind_Ret _ _ _ _ _ Hfind).
    rewrite iterator_eq_refl. cbn [negb]. mstep.
    erewrite try_catch_Throw; [done| |].
    + mstep. rewrite Hroot. cbn [left ptr_of non_null].
      rewrite bind_bind.
      by rewrite (bind_Throw _ _ _ _ (make_shared_leaf_throw _ _ Hb)).
    + apply restore_run. by eapply lookup_lt_Some.
  - destruct Hr as (vp & Ha & Hvp & _).
    assert (find this v st = (Throw, st)) as Hfind.
    { unfold find, lower_bound. msteps. rewrite Hroot.
      cbn [left ptr_of lower_bound_at]. msteps. cbn [value].
      msteps. by rewrite (bind_Throw _ _ _ _ (T_eq_throw _ _ _ Hb)). }
    unfold insert. by rewrite (bind_Throw _ _ _ _ Hfind).
Qed.

(** With the countdown at zero the first allocation of [erase] throws, and
    the exception leaves the call. *)
Lemma erase_throws_first st this t a x :
  budget st = Some O → set_ok st this t → (a, x) ∈ cells t →
  run (erase this (mk_iterator (AtHeap a) this)) st = Throw.
Proof.
  intros Hb (s & Hs & Hroot & Hr & Hbst & _) Hin. unfold run.
  destruct (repr_lookup _ _ _ _ Hr Hin) as (n & vp & Hn & Hval & Hvp).
  destruct t as [|l b y r]; [by apply elem_of_nil in Hin|].
  destruct Hr as (vy & Hcb & _).
  unfold erase. mstep.
  erewrite try_catch_Throw; [done| |].
  - cbn [it_node]. msteps. rewrite Hval. msteps.
    unfold erase_at, copy_left. msteps. rewrite Hroot.
    cbn [left ptr_of load_shared tmp].
    erewrite bind_Ret; [|by apply load_heap_run]. rewrite bind_bind.
    erewrite bind_Throw; [done|]. apply make_shared_copy_throw. exact Hb.
  - apply restore_run. cbn [sets]. by eapply lookup_lt_Some.
Qed.

(** *** Exceptions leave the call, at whatever step they are thrown *)

Lemma arm_arm b b' st : arm b (arm b' st) = arm b st.
Proof. done. Qed.

Section metered_rules.
Context {A B : Type}.

(** A step that cannot throw and does not look at the countdown. *)
Lemma metered_pure (m : M A) :
  (∀ st b, m (arm b st) = (run m st, arm b (exec m st))) →
  (∀ st, run m st ≠ Throw) → ∀ st, metered m st.
Proof.
  intros Hm Hr st. exists O, (run m st), (exec m st).
  split; [done|]. split; [done|]. split; [|lia].
  intros b _. by rewrite Hm, Nat.sub_0_r.
Qed.

Lemma metered_ret (a : A) st : metered (ret a) st.
Proof. by apply metered_pure. Qed.

Lemma metered_undef st : metered (@undef A) st.
Proof. by apply metered_pure. Qed.

Lemma metered_bind (m : M A) (f : A → M B) st :
  metered m st →
  (∀ a st1, m (arm None st) = (Ret a, st1) → metered (f a) st1) →
  metered (bind m f) st.
Proof.
  intros (k1 & r1 & st1 & Hr1 & Hoff1 & Hge1 & Hlt1) Hf.
  destruct r1 as [a| |]; [|done|].
  - destruct (Hf a _ Hoff1) as (k2 & r2 & st2 & Hr2 & Hoff2 & Hge2 & Hlt2).
    rewrite arm_arm in Hoff2.
    exists (k1 + k2)%nat, r2, st2. split; [done|]. split; [|split].
    + by rewrite (bind_Ret _ _ _ _ _ Hoff1).
    + intros b Hb. rewrite (bind_Ret _ _ _ _ _ (Hge1 b ltac:(lia))).
      specialize (Hge2 (b - k1)%nat ltac:(lia)). rewrite arm_arm in Hge2.
      rewrite Hge2. do 3 f_equal. lia.
    + intros b Hb. unfold run. destruct (decide (b < k1)%nat) as [Hlt|Hge].
      * specialize (Hlt1 b Hlt). unfold run in Hlt1.
        destruct (m (arm (Some b) st)) as [r st'] eqn:Hm. simpl in Hlt1.
        subst r. by rewrite (bind_Throw _ _ _ _ Hm).
      * rewrite (bind_Ret _ _ _ _ _ (Hge1 b ltac:(lia))).
        specialize (Hlt2 (b - k1)%nat ltac:(lia)). by rewrite arm_arm in Hlt2.
  - exists k1, Undef, st1. split; [done|]. split; [|split].
    + by rewrite (bind_Undef _ _ _ _ Hoff1).
    + intros b Hb. by rewrite (bind_Undef _ _ _ _ (Hge1 b Hb)).
    + intros b Hb. specialize (Hlt1 b Hb). unfold run in *.
      destruct (m (arm (Some b) st)) as [r st'] eqn:Hm. simpl in Hlt1.
      subst r. by rewrite (bind_Throw _ _ _ _ Hm).
Qed.

(** A [catch] block that ends by throwing again lets the exception go on,
    as long as the block itself is defined. *)
Lemma metered_try_catch (body : M A) (handler : M unit) st :
  metered body st →
  (∀ b st2, body (arm (Some b) st) = (Throw, st2) → run handler st2 ≠ Undef) →
  metered (try_catch body handler) st.
Proof.
  intros (k & r & st1 & Hr & Hoff & Hge & Hlt) Hh.
  exists k, r, st1. split; [done|]. split; [|split].
  - unfold try_catch. rewrite Hoff. by destruct r.
  - intros b Hb. unfold try_catch. rewrite (Hge b Hb). by destruct r.
  - intros b Hb. specialize (Hlt b Hb). specialize (Hh b).
    unfold run, try_catch in *.
    destruct (body (arm (Some b) st)) as [r' st2]. simpl in Hlt. subst r'.
    specialize (Hh st2 eq_refl).
    by destruct (handler st2) as [[[]| |] st3].
Qed.

End metered_rules.

Lemma metered_tick st : metered tick st.
Proof.
  exists 1%nat, (Ret tt), st. split; [done|]. split; [done|]. split.
  - intros [|b] Hb; [lia|]. by replace (S b - 1)%nat with b by lia.
  - intros b Hb. by replace b with O by lia.
Qed.

Lemma metered_load p st : metered (load p) st.
Proof.
  revert st. apply metered_pure; intros st; [intros b|];
    unfold run, exec, load, arm; destruct p as [s| |a];
    cbn [sets nodes tmp]; try done.
  - by destruct (sets st !! s).
  - by destruct (nodes st !! a).
  - by destruct (sets st !! s).
  - by destruct (nodes st !! a).
Qed.

Lemma metered_store p n st : metered (store p n) st.
Proof.
  revert st. apply metered_pure; intros st; [intros b|];
    unfold run, exec, store, arm; destruct p as [s| |a];
    cbn [sets nodes tmp]; try done.
  - by destruct (sets st !! s).
  - by destruct (nodes st !! a).
  - by destruct (sets st !! s).
  - by destruct (nodes st !! a).
Qed.

Lemma metered_load_value vp st : metered (load_value vp) st.
Proof.
  revert st. apply metered_pure; intros st; [intros b|];
    unfold run, exec, load_value, arm; destruct vp as [a|];
    cbn [vals]; try done; by destruct (vals st !! a).
Qed.

Lemma metered_load_shared sp st : metered (load_shared sp) st.
Proof. destruct sp; [apply metered_load|apply metered_undef]. Qed.

Lemma metered_get_set this st : metered (get_set this) st.
Proof.
  revert st. apply metered_pure; intros st; [intros b|];
    unfold run, exec, get_set, arm; cbn [sets]; by destruct (sets st !! this).
Qed.

Lemma metered_put_set this s st : metered (put_set this s) st.
Proof. revert st. by apply metered_pure. Qed.

Lemma metered_alloc_node n st : metered (alloc_node n) st.
Proof. revert st. by apply metered_pure. Qed.

Lemma metered_heap_fuel st : metered heap_fuel st.
Proof. revert st. by apply metered_pure. Qed.

Create HintDb metered discriminated.
Global Hint Resolve metered_ret metered_undef metered_tick metered_load
  metered_store metered_load_value metered_load_shared metered_get_set
  metered_put_set metered_alloc_node metered_heap_fuel : metered.

(** Decompose a computation along its binds and branches. *)
Ltac metered_go :=
  repeat first
    [ solve [eauto with metered]
    | apply metered_bind; [|intros ? ? _]
    | match goal with
      | |- metered (if ?c then _ else _) _ => destruct c
      | |- metered (match ?x with _ => _ end) _ => destruct x
      end ].

Lemma metered_T_eq x y st : metered (T_eq x y) st.
Proof. unfold T_eq. metered_go. Qed.
Lemma metered_T_ne x y st : metered (T_ne x y) st.
Proof. unfold T_ne. metered_go. Qed.
Lemma metered_T_lt x y st : metered (T_lt x y) st.
Proof. unfold T_lt. metered_go. Qed.
Lemma metered_T_gt x y st : metered (T_gt x y) st.
Proof. unfold T_gt. metered_go. Qed.

Lemma metered_make_shared_T x st : metered (make_shared_T x) st.
Proof.
  unfold make_shared_T. apply metered_bind; [apply metered_tick|].
  intros _ st1 _. revert st1. by apply metered_pure.
Qed.

Global Hint Resolve metered_T_eq metered_T_ne metered_T_lt metered_T_gt
  metered_make_shared_T : metered.

Lemma metered_make_shared_copy n st : metered (make_shared_copy n) st.
Proof. unfold make_shared_copy. metered_go. Qed.

Lemma metered_make_shared_leaf x st : metered (make_shared_leaf x) st.
Proof. unfold make_shared_leaf. metered_go. Qed.

Lemma metered_set_left p q st : metered (set_left p q) st.
Proof. unfold set_left. metered_go. Qed.

Lemma metered_set_right p q st : metered (set_right p q) st.
Proof. unfold set_right. metered_go. Qed.

Lemma metered_set_m_root this n st : metered (set_m_root this n) st.
Proof. unfold set_m_root. metered_go. Qed.

Lemma metered_set_m_size this k st : metered (set_m_size this k) st.
Proof. unfold set_m_size. metered_go. Qed.

Global Hint Resolve metered_make_shared_copy metered_make_shared_leaf
  metered_set_left metered_set_right metered_set_m_root metered_set_m_size
  : metered.

Lemma metered_copy_left p st : metered (copy_left p) st.
Proof. unfold copy_left. metered_go. Qed.

Lemma metered_copy_right p st : metered (copy_right p) st.
Proof. unfold copy_right. metered_go. Qed.

Lemma metered_lower_bound_at fuel this v : ∀ ptr st,
  metered (lower_bound_at fuel this ptr v) st.
Proof.
  induction fuel as [|fuel IH]; intros [a|] st; simpl; metered_go.
Qed.

Global Hint Resolve metered_copy_left metered_copy_right
  metered_lower_bound_at : metered.

Lemma metered_lower_bound this v st : metered (lower_bound this v) st.
Proof. unfold lower_bound. metered_go. Qed.

Lemma metered_deref it st : metered (deref it) st.
Proof. unfold deref. metered_go. Qed.

Global Hint Resolve metered_lower_bound metered_deref : metered.

Lemma metered_find this v st : metered (find this v) st.
Proof. unfold find. metered_go. Qed.

Lemma metered_insert_at fuel v : ∀ next st,
  metered (insert_at fuel next v) st.
Proof.
  induction fuel as [|fuel IH]; intros next st; simpl; metered_go.
Qed.

Lemma metered_erase_impl parent son st : metered (erase_impl parent son) st.
Proof. unfold erase_impl. metered_go. Qed.

Lemma metered_swap_value p q st : metered (swap_value p q) st.
Proof. unfold swap_value. metered_go. Qed.

Lemma metered_descend_right fuel : ∀ tmp_prev next st,
  metered (descend_right fuel tmp_prev next) st.
Proof.
  induction fuel as [|fuel IH]; intros tmp_prev next st; simpl; metered_go.
Qed.

Global Hint Resolve metered_find metered_insert_at metered_erase_impl
  metered_swap_value metered_descend_right : metered.

Lemma metered_erase_loop fuel v : ∀ prev next st,
  metered (erase_loop fuel v prev next) st.
Proof.
  induction fuel as [|fuel IH]; intros prev next st; simpl; metered_go.
Qed.

Global Hint Resolve metered_erase_loop : metered.

Lemma metered_erase_at v prev st : metered (erase_at v prev) st.
Proof. unfold erase_at. metered_go. Qed.

Global Hint Resolve metered_erase_at : metered.

Lemma metered_insert_try this v st : metered (insert_try this v) st.
Proof. unfold insert_try. metered_go. Qed.

Lemma metered_erase_try this it st : metered (erase_try this it) st.
Proof. unfold erase_try. metered_go. Qed.

(** The [catch] block of [insert] and [erase] is defined whenever the set
    object exists. *)
Lemma metered_rollback {A} this (body : M A) st :
  (∀ st, metered body st) → safe 0 (Some this) body (λ _, True) →
  metered (let* s := get_set this in
           try_catch body
             (let* _ := set_m_root this (m_root s) in
              set_m_size this (m_size s))) st.
Proof.
  intros Hbody Hsafe. apply metered_bind; [apply metered_get_set|].
  intros s' st1 Hget. apply metered_try_catch; [apply Hbody|].
  intros b st2 Hthrow.
  assert (this < length (sets st1))%nat as Hlt.
  { unfold get_set in Hget. cbn [arm sets] in Hget.
    destruct (sets st !! this) eqn:Hs; [|done].
    injection Hget as _ <-. by eapply lookup_lt_Some. }
  destruct (Hsafe (arm (Some b) st1) ltac:(lia)) as [(_ & _ & _ & Hlen & _) _].
  unfold exec in Hlen. rewrite Hthrow in Hlen. cbn [snd arm sets] in Hlen.
  unfold run. rewrite restore_run by lia. done.
Qed.

Lemma metered_insert this v st : metered (insert this v) st.
Proof.
  rewrite insert_unfold. apply metered_bind; [apply metered_find|].
  intros it st1 _.
  destruct (negb (iterator_eq it (end_ this))); [metered_go|].
  apply metered_rollback; [apply metered_insert_try|apply safe_insert_try].
Qed.

Lemma metered_erase this it st : metered (erase this it) st.
Proof.
  rewrite erase_unfold.
  apply metered_rollback; [apply metered_erase_try|apply safe_erase_try].
Qed.

(** What [metered] says of a call, in terms of its runs. *)
Lemma metered_runs {A} (m : M A) st :
  metered m st →
  ∃ k : nat,
    run m (disarm st) ≠ Throw
    ∧ (∀ b, (k ≤ b)%nat →
         m (arm (Some b) st)
         = (run m (disarm st), arm (Some (b - k)%nat) (exec m (disarm st))))
    ∧ (∀ b, (b < k)%nat → run m (arm (Some b) st) = Throw).
Proof.
  intros (k & r & st1 & Hr & Hoff & Hge & Hlt). exists k.
  unfold run, exec, disarm. rewrite Hoff. cbn [fst snd]. done.
Qed.

(** C2: when a call of [insert] or [erase] ends with an exception (an
    element comparison or an allocation threw), the set objects are exactly
    as before the call: same root, same size; the set is still well formed
    with the same tree, and its size and iteration sequence are unchanged.
    The exception is not swallowed, at whatever step it is thrown: a call
    takes a number [k] of fallible steps (comparisons and allocations);
    armed with a countdown that covers them it ends exactly as without fault
    injection, with exactly [k] steps used up; armed with any countdown
    below [k], so that one of its steps throws, be it the first one or the
    last one of the final lookup after root and size have been written, the
    call ends with that exception and with the set objects as before the
    call.  In particular with the countdown at zero the first fallible step
    throws and the call ends with that exception.  Without fault injection
    the call returns: [insert] as long as the size does not wrap around,
    [erase] through an iterator to an element of the set. *)
Theorem strong_guarantee :
  (∀ st this t v,
     set_ok st this t → run (insert this v) st = Throw →
     let st' := exec (insert this v) st in
     sets st' = sets st ∧ set_ok st' this t
     ∧ run (size this) st' = run (size this) st
     ∧ run (to_list this) (disarm st) = Ret (values t)
     ∧ run (to_list this) (disarm st') = Ret (values t))
  ∧ (∀ st this t it,
       set_ok st this t → run (erase this it) st = Throw →
       let st' := exec (erase this it) st in
       sets st' = sets st ∧ set_ok st' this t
       ∧ run (size this) st' = run (size this) st
       ∧ run (to_list this) (disarm st) = Ret (values t)
       ∧ run (to_list this) (disarm st') = Ret (values t))
  ∧ (∀ st this t v,
       budget st = Some O → set_ok st this t →
       run (insert this v) st = Throw)
  ∧ (∀ st this t a x,
       budget st = Some O → set_ok st this t → (a, x) ∈ cells t →
       run (erase this (mk_iterator (AtHeap a) this)) st = Throw)
  ∧ (∀ st this t v,
       set_ok st this t →
       ∃ k : nat,
         run (insert this v) (disarm st) ≠ Throw
         ∧ (∀ b, (k ≤ b)%nat →
              insert this v (arm (Some b) st)
              = (run (insert this v) (disarm st),
                 arm (Some (b - k)%nat) (exec (insert this v) (disarm st))))
         ∧ (∀ b, (b < k)%nat →
              let st' := exec (insert this v) (arm (Some b) st) in
              run (insert this v) (arm (Some b) st) = Throw
              ∧ sets st' = sets st ∧ set_ok st' this t
              ∧ run (size this) st' = run (size this) st
              ∧ run (to_list this) (disarm st) = Ret (values t)
              ∧ run (to_list this) (disarm st') = Ret (values t))
         ∧ (Z.of_nat (length (cells t)) + 1 < size_t_mod →
            ∃ r, run (insert this v) (disarm st) = Ret r))
  ∧ (∀ st this t it,
       set_ok st this t →
       ∃ k : nat,
         run (erase this it) (disarm st) ≠ Throw
         ∧ (∀ b, (k ≤ b)%nat →
              erase this it (arm (Some b) st)
              = (run (erase this it) (disarm st),
                 arm (Some (b - k)%nat) (exec (erase this it) (disarm st))))
         ∧ (∀ b, (b < k)%nat →
              let st' := exec (erase this it) (arm (Some b) st) in
              run (erase this it) (arm (Some b) st) = Throw
              ∧ sets st' = sets st ∧ set_ok st' this t
              ∧ run (size this) st' = run (size this) st
              ∧ run (to_list this) (disarm st) = Ret (values t)
              ∧ run (to_list this) (disarm st') = Ret (values t))
         ∧ (∀ a x, it = mk_iterator (AtHeap a) this → (a, x) ∈ cells t →
            ∃ r, run (erase this it) (disarm st) = Ret r)).
Proof.
  assert (∀ this st st' t,
    set_ok st this t → untouched this st st' → sets st' = sets st →
    sets st' = sets st ∧ set_ok st' this t
    ∧ run (size this) st' = run (size this) st
    ∧ run (to_list this) (disarm st) = Ret (values t)
    ∧ run (to_list this) (disarm st') = Ret (values t)) as Hkey.
  { intros this st st' t Hok (Hext & _) Hsets.
    assert (set_ok st' this t) as Hok'.
    { eapply set_ok_extends; [done..|]. by rewrite Hsets. }
    split; [done|]. split; [done|]. unfold run.
    rewrite (size_run _ _ _ Hok), (size_run _ _ _ Hok').
    rewrite (to_list_run (disarm st) this t), (to_list_run (disarm st') this t);
      try done; by apply set_ok_arm. }
  assert (∀ {A} (m : M A) this st t,
    set_ok st this t → metered m st →
    (∀ st, untouched this st (exec m st)) →
    (∀ st, run m st = Throw → sets (exec m st) = sets st) →
    ∃ k : nat,
      run m (disarm st) ≠ Throw
      ∧ (∀ b, (k ≤ b)%nat →
           m (arm (Some b) st)
           = (run m (disarm st), arm (Some (b - k)%nat) (exec m (disarm st))))
      ∧ (∀ b, (b < k)%nat →
           let st' := exec m (arm (Some b) st) in
           run m (arm (Some b) st) = Throw
           ∧ sets st' = sets st ∧ set_ok st' this t
           ∧ run (size this) st' = run (size this) st
           ∧ run (to_list this) (disarm st) = Ret (values t)
           ∧ run (to_list this) (disarm st') = Ret (values t))) as Hall.
  { intros A m this st t Hok Hm Hun Hsets.
    destruct (metered_runs _ _ Hm) as (k & Hr & Hge & Hlt).
    exists k. split; [done|]. split; [done|]. intros b Hb st'.
    specialize (Hlt b Hb). split; [done|].
    pose proof (set_ok_arm (Some b) _ _ _ Hok) as Hokb.
    destruct (Hkey this (arm (Some b) st) st' t) as (Hs & Hok' & Hsz & Hl0 & Hl);
      [done|apply Hun|by apply Hsets|].
    split; [done|]. split; [done|]. split; [|done].
    rewrite Hsz. unfold run.
    by rewrite (size_run _ _ _ Hok), (size_run _ _ _ Hokb). }
  split; [|split; [|split; [|split; [|split]]]].
  - intros st this t v Hok Hthrow st'. apply Hkey; [done| |].
    + apply insert_untouched.
    + by apply insert_throw_sets.
  - intros st this t it Hok Hthrow st'. apply Hkey; [done| |].
    + apply erase_untouched.
    + by apply erase_throw_sets.
  - apply insert_throws_first.
  - apply erase_throws_first.
  - intros st this t v Hok.
    destruct (Hall _ (insert this v) this st t) as (k & Hr & Hge & Hlt);
      [done|apply metered_insert| | |].
    + intros st0. apply insert_untouched.
    + intros st0. apply insert_throw_sets.
    + exists k. split; [done|]. split; [done|]. split; [done|]. intros Hsz.
      destruct (insert_run (disarm st) this t v eq_refl
                  (set_ok_arm None _ _ _ Hok) Hsz)
        as (st' & t' & a & b & Hrun & _).
      unfold run. rewrite Hrun. by eexists.
  - intros st this t it Hok.
    destruct (Hall _ (erase this it) this st t) as (k & Hr & Hge & Hlt);
      [done|apply metered_erase| | |].
    + intros st0. apply erase_untouched.
    + intros st0. apply erase_throw_sets.
    + exists k. split; [done|]. split; [done|]. split; [done|].
      intros a x -> Hin.
      pose proof (set_ok_arm None _ _ _ Hok) as Hok0.
      pose proof Hok0 as (s & _ & _ & Hrepr & _).
      destruct (repr_lookup _ _ _ _ Hrepr Hin) as (n & vp & Hn & Hval & Hvp).
      destruct (erase_run (disarm st) this t (mk_iterator (AtHeap a) this)
                  n vp x) as (st' & t' & Hrun & _); [done..| |].
      { unfold values. by apply (list_elem_of_fmap_2 snd) in Hin. }
      unfold run. rewrite Hrun. by eexists.
Qed.

Lemma strong_guarantee_witness :
  (let st' := exec (insert 0 7) (arm (Some 13%nat) example_state) in
   sets st' = sets (arm (Some 13%nat) example_state)
   ∧ set_ok st' 0 example_tree
   ∧ run (size 0) st' = run (size 0) (arm (Some 13%nat) example_state)
   ∧ run (to_list 0) (disarm (arm (Some 13%nat) example_state))
     = Ret (values example_tree)
   ∧ run (to_list 0) (disarm st') = Ret (values example_tree))
  ∧ (let st' := exec (erase 0 (mk_iterator (AtHeap 9) 0))
                  (arm (Some 1%nat) example_state) in
     sets st' = sets (arm (Some 1%nat) example_state)
     ∧ set_ok st' 0 example_tree
     ∧ run (size 0) st' = run (size 0) (arm (Some 1%nat) example_state)
     ∧ run (to_list 0) (disarm (arm (Some 1%nat) example_state))
       = Ret (values example_tree)
     ∧ run (to_list 0) (disarm st') = Ret (values example_tree))
  ∧ run (insert 0 7) (arm (Some O) example_state) = Throw
  ∧ run (erase 0 (mk_iterator (AtHeap 9) 0)) (arm (Some O) example_state)
    = Throw
  ∧ (let st1 := exec (find 0 7) (arm (Some 25%nat) example_state) in
     let st' := exec (insert 0 7) (arm (Some 25%nat) example_state) in
     run (find 0 7) (arm (Some 25%nat) example_state) = Ret (end_ 0)
     ∧ run (insert_try 0 7) st1 = Throw
     ∧ sets (exec (insert_try 0 7) st1) ≠ sets example_state
     ∧ run (insert 0 7) (arm (Some 25%nat) example_state) = Throw
     ∧ sets st' = sets example_state ∧ set_ok st' 0 example_tree
     ∧ run (size 0) st' = run (size 0) example_state
     ∧ run (to_list 0) (disarm example_state) = Ret (values example_tree)
     ∧ run (to_list 0) (disarm st') = Ret (values example_tree))
  ∧ (let it := mk_iterator (AtHeap 9) 0 in
     let st' := exec (erase 0 it) (arm (Some 8%nat) example_state) in
     run (erase_try 0 it) (arm (Some 8%nat) example_state) = Throw
     ∧ sets (exec (erase_try 0 it) (arm (Some 8%nat) example_state))
       ≠ sets example_state
     ∧ run (erase 0 it) (arm (Some 8%nat) example_state) = Throw
     ∧ sets st' = sets example_state ∧ set_ok st' 0 example_tree
     ∧ run (size 0) st' = run (size 0) example_state
     ∧ run (to_list 0) (disarm example_state) = Ret (values example_tree)
     ∧ run (to_list 0) (disarm st') = Ret (values example_tree))
  ∧ (∀ b, (31 ≤ b)%nat →
       insert 0 7 (arm (Some b) example_state)
       = (run (insert 0 7) example_state,
          arm (Some (b - 31)%nat) (exec (insert 0 7) example_state)))
  ∧ (∀ b, (b < 31)%nat → run (insert 0 7) (arm (Some b) example_state) = Throw).
Proof.
  destruct strong_guarantee as (H1 & H2 & H3 & H4 & H5 & H6).
  assert (∀ b, set_ok (arm b example_state) 0 example_tree) as Hok
    by (intros b; apply set_ok_arm, set_okb_sound; vm_compute; reflexivity).
  destruct (H5 _ _ _ 7 (Hok None)) as (k & Hr & Hge & Hlt & _).
  destruct (H6 _ _ _ (mk_iterator (AtHeap 9) 0) (Hok None))
    as (k' & Hr' & Hge' & Hlt' & _).
  assert (k = 31%nat) as ->.
  { destruct (decide (k ≤ 30)%nat) as [Hle|Hgt].
    - specialize (Hge 30%nat Hle). apply (f_equal fst) in Hge.
      vm_compute in Hge. discriminate.
    - destruct (decide (31 < k)%nat) as [Hbig|?]; [|lia].
      destruct (Hlt 31%nat Hbig) as [Hthrow _].
      vm_compute in Hthrow. discriminate. }
  assert (8 < k')%nat as Hk'.
  { destruct (decide (8 < k')%nat) as [|Hle]; [done|].
    specialize (Hge' 8%nat ltac:(lia)). apply (f_equal fst) in Hge'.
    vm_compute in Hge'. discriminate. }
  split; [|split; [|split; [|split; [|split; [|split; [|split]]]]]].
  - apply H1; [apply Hok|]. vm_compute. reflexivity.
  - apply H2; [apply Hok|]. vm_compute. reflexivity.
  - apply (H3 _ _ example_tree); [reflexivity|apply Hok].
  - apply (H4 _ _ example_tree _ 3); [reflexivity|apply Hok|].
    apply (bool_decide_unpack _). vm_compute. exact I.
  - split; [vm_compute; reflexivity|]. split; [vm_compute; reflexivity|].
    split; [vm_compute; discriminate|].
    apply (Hlt 25%nat). lia.
  - split; [vm_compute; reflexivity|]. split; [vm_compute; discriminate|].
    apply (Hlt' 8%nat Hk').
  - exact Hge.
  - intros b Hb. by apply Hlt.
Defined.

(** *** Persistence *)

Lemma apply_op_untouched this o st : untouched this st (apply_op this o st).
Proof.
  unfold apply_op. eapply untouched_trans; [apply (untouched_arm _ o.1)|].
  destruct o.2; [apply insert_untouched|apply erase_untouched].
Qed.

Lemma apply_ops_untouched this ops : ∀ st,
  untouched this st (apply_ops this ops st).
Proof.
  induction ops as [|o ops IH]; intros st; [apply untouched_refl|].
  eapply untouched_trans; [apply apply_op_untouched|apply IH].
Qed.

(** C1: mutating one set object never shows through another.  Whatever
    sequence of insertions and erasures is applied to a set [A] (including
    ones that end with an exception), every other well-formed set [B],
    however much structure it shares with [A], is still well formed with
    the same tree, and its size and its iteration sequence from [begin()]
    to [end()] are what they were.  In particular, copying a set [S] gives
    a new set object [C] with the same contents, mutations of [C] leave [S]
    as it was, and mutations of [S] leave [C] as it was. *)
Theorem persistence :
  (∀ st A B t ops,
     A ≠ B → set_ok st B t →
     let st' := apply_ops A ops st in
     set_ok st' B t
     ∧ run (size B) st' = run (size B) st
     ∧ run (to_list B) (disarm st) = Ret (values t)
     ∧ run (to_list B) (disarm st') = Ret (values t))
  ∧ (∀ st S t,
       set_ok st S t →
       let C := length (sets st) in
       let st1 := exec (copy_construct S) st in
       run (copy_construct S) st = Ret C
       ∧ C ≠ S ∧ set_ok st1 S t ∧ set_ok st1 C t
       ∧ run (to_list S) (disarm st) = Ret (values t)
       ∧ run (to_list C) (disarm st1) = Ret (values t)
       ∧ (∀ ops, let st2 := apply_ops C ops st1 in
            run (size S) st2 = run (size S) st
            ∧ run (to_list S) (disarm st2) = run (to_list S) (disarm st))
       ∧ (∀ ops, let st2 := apply_ops S ops st1 in
            run (size C) st2 = run (size C) st1
            ∧ run (to_list C) (disarm st2) = run (to_list C) (disarm st1))).
Proof.
  assert (∀ st0 this t, set_ok st0 this t →
            run (to_list this) (disarm st0) = Ret (values t)) as Hlist.
  { intros st0 this t Hok0. unfold run.
    rewrite (to_list_run (disarm st0) this t); [done..|]. by apply set_ok_arm. }
  assert (∀ st0 this t, set_ok st0 this t →
            run (size this) st0 = Ret (Z.of_nat (length (cells t)))) as Hsize.
  { intros st0 this t Hok0. unfold run. by rewrite (size_run _ _ _ Hok0). }
  assert (∀ st A B t ops,
     A ≠ B → set_ok st B t →
     let st' := apply_ops A ops st in
     set_ok st' B t
     ∧ run (size B) st' = run (size B) st
     ∧ run (to_list B) (disarm st) = Ret (values t)
     ∧ run (to_list B) (disarm st') = Ret (values t)) as Hframe.
  { intros st A B t ops Hne Hok st'.
    assert (set_ok st' B t) as Hok'.
    { eapply (set_ok_untouched A); [done|exact Hok|].
      apply apply_ops_untouched. }
    split; [done|]. rewrite !(Hsize _ _ t), !(Hlist _ _ t); done. }
  split; [exact Hframe|].
  intros st S t Hok C st1.
  pose proof Hok as (s & Hs & Hroot & Hr & Hbst & Hsz).
  assert (copy_construct S st
          = (Ret C, mk_state (nodes st) (vals st)
                      (sets st ++ [mk_set (m_root s) (m_size s)])
                      (tmp st) (budget st))) as Hcopy.
  { unfold copy_construct. by msteps. }
  subst st1. unfold run at 1, exec. rewrite Hcopy. cbn [fst snd].
  set (st1 := mk_state _ _ _ _ _).
  assert (S < length (sets st))%nat as HS by by eapply lookup_lt_Some.
  assert (C ≠ S) as Hne by (subst C; lia).
  assert (set_ok st1 S t) as HokS.
  { eapply set_ok_extends; [done|by split|]. subst st1. cbn [sets].
    by apply lookup_app_l. }
  assert (set_ok st1 C t) as HokC.
  { exists (mk_set (m_root s) (m_size s)). subst st1. cbn [sets m_root m_size].
    split; [apply lookup_app_new|]. split; [done|].
    split; [eapply repr_extends; [done|by split]|done]. }
  split; [done|]. split; [done|]. split; [done|]. split; [done|].
  split; [by apply Hlist|]. split; [by apply Hlist|]. split.
  - intros ops.
    destruct (Hframe st1 C S t ops Hne HokS) as (_ & -> & _ & ->).
    by rewrite (Hsize st S t), (Hsize st1 S t), (Hlist st S t).
  - intros ops.
    destruct (Hframe st1 S C t ops ltac:(done) HokC) as (_ & -> & _ & ->).
    by rewrite (Hlist st1 C t).
Qed.

Lemma persistence_witness :
  set_ok example_state 0 example_tree
  ∧ run (to_list 1) (disarm (apply_ops 1 example_ops copied_state))
    = Ret [1; 4; 5; 7]
  ∧ run (to_list 0) (disarm (apply_ops 1 example_ops copied_state))
    = Ret [1; 3; 4; 5; 8]
  ∧ run (size 0) (apply_ops 1 example_ops copied_state)
    = run (size 0) example_state
  ∧ run (to_list 0) (disarm (apply_ops 1 example_ops copied_state))
    = run (to_list 0) (disarm example_state).
Proof.
  assert (set_ok example_state 0 example_tree) as Hok
    by (apply set_okb_sound; vm_compute; reflexivity).
  destruct persistence as [_ Hcopy].
  destruct (Hcopy example_state 0%nat example_tree Hok)
    as (_ & _ & _ & _ & _ & _ & H & _).
  destruct (H example_ops) as (Hsize & Hlist).
  split; [exact Hok|]. split; [vm_compute; reflexivity|].
  split; [vm_compute; reflexivity|]. split; [exact Hsize|exact Hlist].
Defined.

(** * Further properties

    Operations and behaviour beyond the properties above: stepping
    backward, reverse iteration, the whole-set operations, the edges of the
    interface, what the lookups leave alone, and what path copying costs. *)

(** ** Stepping backward and reverse iteration *)

Lemma rub_elem_of_values t v a x : rub t v = Some (a, x) → x ∈ values t.
Proof. intros ?%rub_elem_of. apply elem_of_values. eauto. Qed.

(** On a search tree [rub] finds the greatest element below [v]. *)
Lemma rub_spec t v :
  bst t →
  match rub t v with
  | Some (a, x) => x < v ∧ ∀ y, y ∈ values t → y < v → y ≤ x
  | None => ∀ y, y ∈ values t → v ≤ y
  end.
Proof.
  induction t as [|l IHl a x r IHr]; simpl.
  { intros _ y ?%elem_of_nil. done. }
  intros (Hl & Hr & Hbl & Hbr).
  specialize (IHl Hbl). specialize (IHr Hbr).
  rewrite Forall_forall in Hl, Hr.
  destruct (Z.gtb_spec v x) as [Hgt|Hle].
  - destruct (rub r v) as [[b z]|] eqn:Hrub.
    + destruct IHr as [? IHr]. split; [done|].
      apply rub_elem_of_values, Hr in Hrub.
      intros y [?%Hl|[->|?]]%elem_of_values_Node ?; [lia..|auto].
    + split; [lia|].
      intros y [?%Hl|[->|?%IHr]]%elem_of_values_Node; lia.
  - destruct (rub l v) as [[b z]|].
    + destruct IHl as [? IHl]. split; [done|].
      intros y [?|[->|?%Hr]]%elem_of_values_Node; [auto|lia..].
    + intros y [?|[->|?%Hr]]%elem_of_values_Node; [auto|lia..].
Qed.

(** In a search tree the reverse upper bound of an element is its
    predecessor in the in-order sequence. *)
Lemma rub_prev t l1 a x l2 :
  bst t → cells t = l1 ++ (a, x) :: l2 → rub t x = last l1.
Proof.
  intros Hb Hc. pose proof (bst_sorted _ Hb) as Hs.
  pose proof (rub_spec t x Hb) as Hrub. unfold values in *.
  rewrite Hc in *. rewrite fmap_app, fmap_cons in Hs. simpl in Hs.
  apply StronglySorted_app in Hs as (Hl1 & Hs1 & [Hx Hl2]%StronglySorted_cons).
  rewrite Forall_forall in Hx.
  assert (∀ c z, (c, z) ∈ l2 → x < z) as Hafter.
  { intros c z Hin. apply Hx, list_elem_of_fmap. by exists (c, z). }
  assert (∀ c z, (c, z) ∈ l1 → z < x) as Hbefore.
  { intros c z Hin. apply Hl1; [|left]. apply list_elem_of_fmap. by exists (c, z). }
  destruct (last l1) as [[b y]|] eqn:Hlast.
  - apply last_Some in Hlast as [l1' ->].
    assert (y < x) as Hyx.
    { apply (Hbefore b). apply elem_of_app. right. left. }
    destruct (rub t x) as [[c z]|] eqn:Heq.
    + destruct Hrub as [Hlt Hmax].
      assert (y ≤ z) as Hyz.
      { apply Hmax; [|done]. rewrite !fmap_app, !fmap_cons. simpl.
        apply elem_of_app. left. apply elem_of_app. right. left. }
      pose proof (rub_elem_of _ _ _ Heq) as Hin. rewrite Hc in Hin.
      apply elem_of_app in Hin as [Hin|Hin].
      * apply elem_of_app in Hin as [Hin|Hin%list_elem_of_singleton];
          [|by simplify_eq].
        rewrite fmap_app in Hs1. apply sorted_snoc_lt in Hs1.
        assert (z < y); [|lia]. eapply Forall_forall in Hs1; [done|].
        apply list_elem_of_fmap. by exists (c, z).
      * apply elem_of_cons in Hin as [?|Hin]; [simplify_eq; lia|].
        apply Hafter in Hin. lia.
    + assert (x ≤ y); [|lia]. apply Hrub.
      rewrite !fmap_app, !fmap_cons. simpl.
      apply elem_of_app. left. apply elem_of_app. right. left.
  - apply last_None in Hlast as ->. simpl in *.
    destruct (rub t x) as [[c z]|] eqn:Heq; [|done].
    destruct Hrub as [Hlt _].
    pose proof (rub_elem_of _ _ _ Heq) as Hin. rewrite Hc in Hin.
    apply elem_of_cons in Hin as [?|Hin]; [simplify_eq; lia|].
    apply Hafter in Hin. lia.
Qed.

Lemma decr_run st this t a x :
  budget st = None → set_ok st this t → (a, x) ∈ cells t →
  decr (mk_iterator (AtHeap a) this) st
  = (Ret (it_at this (fst <$> rub t x)), st).
Proof.
  intros Hb Hok Hin. pose proof Hok as (s & Hs & Hroot & Hr & Hbst & _).
  destruct (repr_lookup _ _ _ _ Hr Hin) as (n & vp & ? & Hv & ?).
  unfold decr. simpl. msteps. rewrite Hv. cbn [rev_upper_bound]. msteps.
  rewrite Hroot. cbn [left].
  apply rev_upper_bound_at_run; [done..|].
  pose proof (repr_height _ _ Hr Hbst). lia.
Qed.

Lemma incr_position st this t l1 a x l2 :
  budget st = None → set_ok st this t → cells t = l1 ++ (a, x) :: l2 →
  incr (mk_iterator (AtHeap a) this) st
  = (Ret (it_at this (fst <$> head l2)), st).
Proof.
  intros Hb Hok Hc. pose proof Hok as (s & Hs & Hroot & Hr & Hbst & _).
  erewrite incr_run; [|done..|].
  - by erewrite ub_next.
  - rewrite Hc. apply elem_of_app. right. left.
Qed.

(** Stepping back from the position that follows the prefix [l1] of the
    in-order sequence gives the last cell of [l1]. *)
Lemma decr_position st this t l1 l2 :
  budget st = None → set_ok st this t → cells t = l1 ++ l2 → l1 ≠ [] →
  decr (it_at this (fst <$> head l2)) st
  = (Ret (it_at this (fst <$> last l1)), st).
Proof.
  intros Hb Hok Hc Hne. pose proof Hok as (s & Hs & Hroot & Hr & Hbst & _).
  destruct l2 as [|[b y] l2]; simpl.
  - rewrite app_nil_r in Hc. destruct t as [|l a x r]; [by destruct l1|].
    rewrite (decr_end_run _ _ _ _ _ _ Hok).
    by rewrite <-Hc, last_cells_Node.
  - erewrite decr_run; [|done..|].
    + by erewrite rub_prev.
    + rewrite Hc. apply elem_of_app. right. left.
Qed.

Lemma iterator_eq_end_heap a this :
  iterator_eq (end_ this) (mk_iterator (AtHeap a) this) = false.
Proof. unfold iterator_eq. simpl. by rewrite bool_decide_eq_true_2. Qed.

Lemma iterator_eq_heap a b this :
  a ≠ b →
  iterator_eq (mk_iterator (AtHeap a) this) (mk_iterator (AtHeap b) this)
  = false.
Proof.
  intros. unfold iterator_eq. simpl.
  rewrite bool_decide_eq_true_2, bool_decide_eq_false_2; [done| |done].
  congruence.
Qed.

Lemma rend_run st this t :
  set_ok st this t →
  rend this st
  = (Ret (mk_reverse_iterator (it_at this (fst <$> head (cells t)))), st).
Proof.
  intros Hok. unfold rend. rewrite (bind_Ret _ _ _ _ _ (begin_run _ _ _ Hok)).
  unfold addrs. by destruct (cells t).
Qed.

Lemma reverse_collect_run st this t l1 : ∀ l2 fuel,
  budget st = None → set_ok st this t →
  cells t = l1 ++ l2 → (length l1 ≤ fuel)%nat →
  reverse_collect fuel this
    (mk_reverse_iterator (it_at this (fst <$> head l2))) st
  = (Ret (reverse (l1.*2)), st).
Proof.
  induction l1 as [|[b y] l1 IH] using rev_ind; intros l2 fuel Hb Hok Hc Hf.
  - simpl in Hc. subst l2.
    destruct fuel; simpl; rewrite (bind_Ret _ _ _ _ _ (rend_run _ _ _ Hok));
      unfold reverse_iterator_eq; simpl; by rewrite iterator_eq_refl.
  - pose proof Hok as (s & Hs & Hroot & Hr & Hbst & _).
    rewrite length_app in Hf. simpl in Hf.
    destruct fuel as [|fuel]; [lia|].
    cbn [reverse_collect]. rewrite (bind_Ret _ _ _ _ _ (rend_run _ _ _ Hok)).
    unfold reverse_iterator_eq. cbn [current].
    assert (∃ c z cs, l1 ++ [(b, y)] = (c, z) :: cs) as (c & z & cs & Hl1).
    { destruct l1 as [|[c z] cs]; simpl; eauto. }
    assert (iterator_eq (it_at this (fst <$> head l2))
              (it_at this (fst <$> head (cells t))) = false) as ->.
    { rewrite Hc, Hl1. simpl. destruct l2 as [|[d w] l2]; simpl.
      - apply iterator_eq_end_heap.
      - apply iterator_eq_heap. intros ->.
        pose proof (repr_addrs_NoDup _ _ Hr Hbst) as Hnd.
        unfold addrs in Hnd. rewrite Hc, fmap_app in Hnd.
        apply NoDup_app in Hnd as (_ & Hnd & _).
        apply (Hnd c).
        + rewrite Hl1. simpl. left.
        + simpl. left. }
    unfold reverse_deref, reverse_incr. cbn [current].
    assert ((b, y) ∈ cells t) as Hin.
    { rewrite Hc. apply elem_of_app. left. apply elem_of_app. right. left. }
    assert (decr (it_at this (fst <$> head l2)) st
            = (Ret (mk_iterator (AtHeap b) this), st)) as Hdecr.
    { erewrite decr_position; [|done..|by destruct l1].
      by rewrite last_snoc. }
    msteps. erewrite bind_Ret; [|by eapply deref_run].
    msteps.
    erewrite bind_Ret; [|apply (IH ((b, y) :: l2) fuel); [done..| |lia]].
    + by rewrite fmap_app, reverse_app.
    + by rewrite Hc, <-app_assoc.
Qed.

Lemma to_list_reverse_run st this t :
  budget st = None → set_ok st this t →
  to_list_reverse this st = (Ret (reverse (values t)), st).
Proof.
  intros Hb Hok. unfold to_list_reverse, rbegin. msteps.
  apply (reverse_collect_run _ _ t (cells t) []); [done..| |].
  - by rewrite app_nil_r.
  - destruct Hok as (s & Hs & Hroot & Hr & Hbst & _).
    pose proof (repr_size _ _ Hr Hbst). lia.
Qed.

Lemma head_cell_unique st t a x c :
  repr st t → bst t → (a, x) ∈ cells t → head (cells t) = Some c →
  c.1 = a → c = (a, x).
Proof.
  intros Hr Hbst Hin Hhd Ha. pose proof (repr_addrs_NoDup _ _ Hr Hbst) as Hnd.
  unfold addrs in Hnd. destruct (cells t) as [|[c1 c2] cs]; simplify_eq/=.
  apply elem_of_cons in Hin as [?|Hin]; [by simplify_eq|].
  apply NoDup_cons in Hnd as [Hnd _]. destruct Hnd.
  apply list_elem_of_fmap. by exists (c1, x).
Qed.

(** X1: on a well-formed set, stepping an iterator that points to the
    element [x] backward gives an iterator to the greatest element below
    [x], the one before [x] in the iteration; when [x] is the least element,
    where [begin()] points, the step gives [end()]. *)
Theorem decr_correct st this t a x :
  budget st = None → set_ok st this t → (a, x) ∈ cells t →
  ∃ it, decr (mk_iterator (AtHeap a) this) st = (Ret it, st)
    ∧ ((∃ y, it ≠ end_ this ∧ run (deref it) st = Ret y ∧ y ∈ values t
             ∧ y < x ∧ ∀ z, z ∈ values t → z < x → z ≤ y)
       ∨ (it = end_ this ∧ ∀ z, z ∈ values t → x ≤ z))
    ∧ (run (begin this) st = Ret (mk_iterator (AtHeap a) this) →
       it = end_ this).
Proof.
  intros Hb Hok Hin. pose proof Hok as (s & Hs & Hroot & Hr & Hbst & _).
  exists (it_at this (fst <$> rub t x)).
  split; [by apply decr_run|]. split.
  - pose proof (rub_spec t x Hbst) as Hspec.
    destruct (rub t x) as [[b y]|] eqn:Hrub; simpl.
    + left. exists y. destruct Hspec as [? ?].
      split; [done|]. split; [|split; [by eapply rub_elem_of_values|done]].
      unfold run. erewrite deref_run; [done..|]. by eapply rub_elem_of.
    + by right.
  - unfold run. rewrite (begin_run _ _ _ Hok). simpl. intros [= Hbegin].
    destruct (head (cells t)) as [c|] eqn:Hhd.
    2:{ unfold addrs in Hbegin. by destruct (cells t). }
    assert (c = (a, x)) as ->.
    { eapply head_cell_unique; [done..|].
      unfold addrs in Hbegin. destruct (cells t); simplify_eq/=.
      by destruct c; simplify_eq/=. }
    destruct (cells t) as [|c cs] eqn:Hc; simplify_eq/=.
    by rewrite (rub_prev t [] a x cs Hbst Hc).
Qed.

Lemma decr_correct_witness :
  budget example_state = None ∧ set_ok example_state 0 example_tree
  ∧ (9%nat, 3) ∈ cells example_tree
  ∧ ∃ it, decr (mk_iterator (AtHeap 9) 0) example_state
          = (Ret it, example_state)
    ∧ ((∃ y, it ≠ end_ 0 ∧ run (deref it) example_state = Ret y
             ∧ y ∈ values example_tree
             ∧ y < 3 ∧ ∀ z, z ∈ values example_tree → z < 3 → z ≤ y)
       ∨ (it = end_ 0 ∧ ∀ z, z ∈ values example_tree → 3 ≤ z))
    ∧ (run (begin 0) example_state = Ret (mk_iterator (AtHeap 9) 0) →
       it = end_ 0).
Proof.
  assert (budget example_state = None) as Hb by reflexivity.
  assert (set_ok example_state 0 example_tree) as Hok
    by (apply set_okb_sound; vm_compute; reflexivity).
  assert ((9%nat, 3) ∈ cells example_tree) as Hin
    by (apply (bool_decide_unpack _); vm_compute; exact I).
  split; [exact Hb|]. split; [exact Hok|]. split; [exact Hin|].
  exact (decr_correct example_state 0%nat example_tree 9%nat 3 Hb Hok Hin).
Defined.

(** X2: on a well-formed set the two steps undo each other: for an
    iterator [it] to an element, [--(++it)] is [it] (also when [++it] is
    [end()]); unless [it] is [begin()], [--it] points to an element and
    [++(--it)] is [it]; and [++(--end())] is [end()]. *)
Theorem incr_decr_inverse st this t a x :
  budget st = None → set_ok st this t → (a, x) ∈ cells t →
  let it := mk_iterator (AtHeap a) this in
  (∃ nxt, run (incr it) st = Ret nxt ∧ run (decr nxt) st = Ret it)
  ∧ (run (begin this) st ≠ Ret it →
     ∃ prv, run (decr it) st = Ret prv ∧ prv ≠ end_ this
            ∧ run (incr prv) st = Ret it)
  ∧ (∃ lst, run (decr (end_ this)) st = Ret lst ∧ lst ≠ end_ this
            ∧ run (incr lst) st = Ret (end_ this)).
Proof.
  intros Hb Hok Hin it. pose proof Hok as (s & Hs & Hroot & Hr & Hbst & _).
  destruct (list_elem_of_split _ _ Hin) as (l1 & l2 & Hc).
  unfold run. split; [|split].
  - exists (it_at this (fst <$> head l2)).
    unfold it. rewrite (incr_position _ _ _ _ _ _ _ Hb Hok Hc).
    split; [done|].
    rewrite (decr_position _ _ t (l1 ++ [(a, x)]) l2); [|done..| |].
    + by rewrite last_snoc.
    + by rewrite <-app_assoc.
    + by destruct l1.
  - rewrite (begin_run _ _ _ Hok). unfold addrs. rewrite Hc. intros Hne.
    destruct l1 as [|c l1 _] using rev_ind; [done|]. destruct c as [b y].
    exists (mk_iterator (AtHeap b) this).
    pose proof (decr_position _ _ t (l1 ++ [(b, y)]) ((a, x) :: l2) Hb Hok Hc)
      as Hd. simpl in Hd. unfold it. rewrite Hd; [|by destruct l1].
    rewrite last_snoc. split; [done|]. split; [done|].
    rewrite <-app_assoc in Hc.
    by rewrite (incr_position _ _ _ _ _ _ _ Hb Hok Hc).
  - destruct (cells t) as [|c cs _] eqn:Hcs using rev_ind.
    { by destruct l1. }
    destruct c as [b y]. exists (mk_iterator (AtHeap b) this).
    pose proof (decr_position _ _ t (cs ++ [(b, y)]) [] Hb Hok) as Hd.
    simpl in Hd. rewrite Hd; [|by rewrite app_nil_r|by destruct cs].
    rewrite last_snoc. split; [done|]. split; [done|].
    by rewrite (incr_position _ _ _ _ _ _ _ Hb Hok Hcs).
Qed.

Lemma incr_decr_inverse_witness :
  budget example_state = None ∧ set_ok example_state 0 example_tree
  ∧ (8%nat, 5) ∈ cells example_tree
  ∧ (∃ nxt, run (incr (mk_iterator (AtHeap 8) 0)) example_state = Ret nxt
            ∧ run (decr nxt) example_state = Ret (mk_iterator (AtHeap 8) 0))
  ∧ (run (begin 0) example_state ≠ Ret (mk_iterator (AtHeap 8) 0) →
     ∃ prv, run (decr (mk_iterator (AtHeap 8) 0)) example_state = Ret prv
            ∧ prv ≠ end_ 0
            ∧ run (incr prv) example_state = Ret (mk_iterator (AtHeap 8) 0))
  ∧ (∃ lst, run (decr (end_ 0)) example_state = Ret lst ∧ lst ≠ end_ 0
            ∧ run (incr lst) example_state = Ret (end_ 0)).
Proof.
  assert (budget example_state = None) as Hb by reflexivity.
  assert (set_ok example_state 0 example_tree) as Hok
    by (apply set_okb_sound; vm_compute; reflexivity).
  assert ((8%nat, 5) ∈ cells example_tree) as Hin
    by (apply (bool_decide_unpack _); vm_compute; exact I).
  split; [exact Hb|]. split; [exact Hok|]. split; [exact Hin|].
  exact (incr_decr_inverse example_state 0%nat example_tree 8%nat 5 Hb Hok Hin).
Defined.

(** X3: on a well-formed set the iteration from [rbegin()] to [rend()]
    through the reverse adaptor yields the elements in descending order,
    the iteration from [begin()] to [end()] read backward; neither changes
    the state. *)
Theorem reverse_iteration st this t :
  budget st = None → set_ok st this t →
  to_list this st = (Ret (values t), st)
  ∧ to_list_reverse this st = (Ret (reverse (values t)), st)
  ∧ StronglySorted (flip Z.lt) (reverse (values t)).
Proof.
  intros Hb Hok. split; [by apply to_list_run|].
  split; [by apply to_list_reverse_run|].
  destruct Hok as (s & Hs & Hroot & Hr & Hbst & _).
  pose proof (bst_sorted _ Hbst) as Hsorted.
  induction Hsorted as [|y ys Hys IH Hall]; [constructor|].
  rewrite reverse_cons. apply StronglySorted_app_2.
  - intros x1 x2 Hx1 ->%list_elem_of_singleton. unfold flip.
    rewrite elem_of_reverse in Hx1. by eapply Forall_forall in Hall.
  - done.
  - repeat constructor.
Qed.

Lemma reverse_iteration_witness :
  budget example_state = None ∧ set_ok example_state 0 example_tree
  ∧ to_list 0 example_state = (Ret (values example_tree), example_state)
  ∧ to_list_reverse 0 example_state
    = (Ret (reverse (values example_tree)), example_state)
  ∧ StronglySorted (flip Z.lt) (reverse (values example_tree)).
Proof.
  assert (budget example_state = None) as Hb by reflexivity.
  assert (set_ok example_state 0 example_tree) as Hok
    by (apply set_okb_sound; vm_compute; reflexivity).
  split; [exact Hb|]. split; [exact Hok|].
  exact (reverse_iteration example_state 0%nat example_tree Hb Hok).
Defined.

(** X4: [begin()] of a well-formed set is [end()] exactly when the set
    holds no element, which is also when [empty()] holds; otherwise it
    points to the least element, the first of the iteration.  No comparison
    is made, so the calls cannot throw. *)
Theorem begin_correct st this t :
  set_ok st this t →
  ∃ it, begin this st = (Ret it, st)
    ∧ (it = end_ this ↔ values t = [])
    ∧ empty this st = (Ret (iterator_eq it (end_ this)), st)
    ∧ (values t ≠ [] →
       ∃ m, run (deref it) st = Ret m ∧ head (values t) = Some m
            ∧ ∀ y, y ∈ values t → m ≤ y).
Proof.
  intros Hok. pose proof Hok as (s & Hs & Hroot & Hr & Hbst & Hsz & _).
  exists (it_at this (head (addrs t))). split; [by apply begin_run|].
  assert (empty this st = (Ret (m_size s =? 0), st)) as ->
    by (unfold empty, size; by msteps).
  rewrite Hsz. unfold addrs, values.
  destruct (cells t) as [|[a m] cs] eqn:Hc; simpl.
  { split; [done|]. split; [by rewrite iterator_eq_refl|]. by intros []. }
  split; [split; [by intros [=]|done]|].
  split; [by rewrite iterator_eq_heap_end|]. intros _. exists m.
  split; [|split; [done|]].
  - unfold run. erewrite deref_run; [done..|]. rewrite Hc. left.
  - pose proof (bst_sorted _ Hbst) as Hsorted. unfold values in Hsorted.
    rewrite Hc in Hsorted. simpl in Hsorted.
    apply StronglySorted_cons in Hsorted as [Hall _].
    intros y [->|Hy]%elem_of_cons; [lia|].
    eapply Forall_forall in Hall; [|done]. lia.
Qed.

Lemma begin_correct_witness :
  set_ok example_state 0 example_tree
  ∧ ∃ it, begin 0 example_state = (Ret it, example_state)
    ∧ (it = end_ 0 ↔ values example_tree = [])
    ∧ empty 0 example_state = (Ret (iterator_eq it (end_ 0)), example_state)
    ∧ (values example_tree ≠ [] →
       ∃ m, run (deref it) example_state = Ret m
            ∧ head (values example_tree) = Some m
            ∧ ∀ y, y ∈ values example_tree → m ≤ y).
Proof.
  assert (set_ok example_state 0 example_tree) as Hok
    by (apply set_okb_sound; vm_compute; reflexivity).
  split; [exact Hok|].
  exact (begin_correct example_state 0%nat example_tree Hok).
Defined.

(** ** Clearing, swapping, assigning and moving *)

Lemma set_eta (s : persistent_set) : mk_set (m_root s) (m_size s) = s.
Proof. by destruct s. Qed.

Lemma with_sets_id st : with_sets st (sets st) = st.
Proof. by destruct st. Qed.

Lemma put_set_run this s st :
  put_set this s st = (Ret tt, with_sets st (<[this := s]> (sets st))).
Proof. done. Qed.

Lemma store_root_run st this s n :
  sets st !! this = Some s →
  store (AtRoot this) n st
  = (Ret tt, with_sets st (<[this := mk_set n (m_size s)]> (sets st))).
Proof. unfold store. by intros ->. Qed.

Lemma set_m_size_with st this s k :
  sets st !! this = Some s →
  set_m_size this k st
  = (Ret tt, with_sets st (<[this := mk_set (m_root s) k]> (sets st))).
Proof. intros H. unfold set_m_size. by msteps. Qed.

Lemma node_move_root_run st this s :
  sets st !! this = Some s →
  node_move (AtRoot this) st
  = (Ret (m_root s),
     with_sets st (<[this := mk_set node_default (m_size s)]> (sets st))).
Proof.
  intros H. unfold node_move. msteps.
  rewrite (bind_Ret _ _ _ _ _ (store_root_run _ _ _ _ H)).
  by destruct (m_root s).
Qed.

(** [swap] exchanges the two set objects, whole. *)
Lemma swap_run st a b sa sb :
  sets st !! a = Some sa → sets st !! b = Some sb →
  swap a b st = (Ret tt, with_sets st (<[b := sa]> (<[a := sb]> (sets st)))).
Proof.
  intros Ha Hb. pose proof (lookup_lt_Some _ _ _ Ha) as Hla.
  pose proof (lookup_lt_Some _ _ _ Hb) as Hlb.
  unfold swap, std_swap_size, std_swap_node, node_move_assign. msteps.
  rewrite (bind_Ret _ _ _ _ _ (set_m_size_with _ _ _ _ Ha)).
  destruct (decide (a = b)) as [->|Hne].
  - assert (sa = sb) as -> by congruence.
    erewrite bind_Ret; [|apply set_m_size_with; cbn [with_sets sets];
                         by apply list_lookup_insert_eq].
    cbn [with_sets sets]. rewrite list_insert_insert_eq.
    erewrite bind_Ret; [|apply node_move_root_run; cbn [with_sets sets];
                         by apply list_lookup_insert_eq].
    cbn [with_sets sets]. rewrite list_insert_insert_eq.
    rewrite bool_decide_eq_false_2 by naive_solver. msteps.
    erewrite store_root_run; [|cbn [with_sets sets]; by apply list_lookup_insert_eq].
    unfold with_sets; cbn [sets nodes vals tmp budget m_root m_size].
    rewrite !list_insert_insert_eq.
    by rewrite set_eta.
  - erewrite bind_Ret; [|apply set_m_size_with; cbn [with_sets sets];
                         by rewrite list_lookup_insert_ne].
    cbn [with_sets sets].
    erewrite bind_Ret; [|apply node_move_root_run; cbn [with_sets sets];
      rewrite list_lookup_insert_ne by done;
      apply list_lookup_insert_eq; lia].
    cbn [with_sets sets]. rewrite bool_decide_eq_true_2 by congruence. msteps.
    erewrite bind_Ret; [|apply node_move_root_run; cbn [with_sets sets];
      rewrite list_lookup_insert_ne by done;
      apply list_lookup_insert_eq; rewrite length_insert; lia].
    cbn [with_sets sets].
    erewrite bind_Ret; [|apply store_root_run; cbn [with_sets sets];
      rewrite list_lookup_insert_ne by done;
      apply list_lookup_insert_eq; rewrite !length_insert; lia].
    cbn [with_sets sets].
    erewrite store_root_run; [|cbn [with_sets sets];
      rewrite list_lookup_insert_ne by done;
      apply list_lookup_insert_eq; rewrite !length_insert; lia].
    unfold with_sets; cbn [sets nodes vals tmp budget m_root m_size]. f_equal. f_equal.
    apply list_eq. intros i.
    destruct (decide (i = b)) as [->|Hib].
    { rewrite !list_lookup_insert_eq by (rewrite ?length_insert; lia).
      by rewrite set_eta. }
    rewrite !(list_lookup_insert_ne _ b i) by done.
    destruct (decide (i = a)) as [->|Hia].
    { rewrite !list_lookup_insert_eq by (rewrite ?length_insert; lia).
      by rewrite set_eta. }
    by rewrite !list_lookup_insert_ne by done.
Qed.

Lemma copy_construct_run st other o :
  sets st !! other = Some o →
  copy_construct other st
  = (Ret (length (sets st)), with_sets st (sets st ++ [o])).
Proof.
  intros H. unfold copy_construct. msteps. by rewrite set_eta.
Qed.

Lemma move_construct_run st other o :
  sets st !! other = Some o →
  move_construct other st
  = (Ret (length (sets st)),
     with_sets st
       (<[other := mk_set node_default (m_size o)]> (sets st) ++ [o])).
Proof.
  intros H. unfold move_construct. msteps.
  rewrite (bind_Ret _ _ _ _ _ (node_move_root_run _ _ _ H)).
  unfold with_sets. cbn [sets nodes vals tmp budget].
  by rewrite length_insert, set_eta.
Qed.

Lemma set_eq_decide st A B sA sB :
  sets st !! A = Some sA → sets st !! B = Some sB →
  set_eq A B st = (Ret (bool_decide (sA = sB)), st).
Proof.
  intros HA HB. rewrite (set_eq_run _ _ _ _ _ HA HB). do 2 f_equal.
  destruct (node_eq (m_root sA) (m_root sB)) eqn:Hn; simpl.
  - apply node_eq_true in Hn. destruct (Z.eqb_spec (m_size sA) (m_size sB)).
    + rewrite bool_decide_eq_true_2; [done|].
      destruct sA, sB; simpl in *. congruence.
    + rewrite bool_decide_eq_false_2; [done|]. congruence.
  - rewrite bool_decide_eq_false_2; [done|]. intros ->.
    assert (node_eq (m_root sB) (m_root sB) = true) by by apply node_eq_true.
    congruence.
Qed.

Lemma set_ne_run st A B sA sB :
  sets st !! A = Some sA → sets st !! B = Some sB →
  set_ne A B st = (Ret (bool_decide (sA ≠ sB)), st).
Proof.
  intros HA HB. unfold set_ne.
  rewrite (bind_Ret _ _ _ _ _ (set_eq_decide _ _ _ _ _ HA HB)).
  unfold ret. do 2 f_equal. by repeat case_bool_decide.
Qed.

(** The temporary made by an assignment takes the old content of [this]
    away with it. *)
Lemma swap_temporary_run st ss this s o :
  sets st = ss ++ [o] → ss !! this = Some s →
  (let* _ := swap (length ss) this in destroy_temporary) st
  = (Ret tt, with_sets st (<[this := o]> ss)).
Proof.
  intros Hst Hthis. pose proof (lookup_lt_Some _ _ _ Hthis) as Hlt.
  erewrite bind_Ret; [|apply (swap_run _ _ _ o s)].
  - unfold destroy_temporary, with_sets. cbn [sets nodes vals tmp budget].
    do 2 f_equal. rewrite Hst.
    replace (length ss) with (length ss + 0)%nat at 1 by lia.
    rewrite insert_app_r. simpl.
    rewrite insert_app_l by done. apply removelast_last.
  - rewrite Hst. by apply list_lookup_middle.
  - rewrite Hst. by apply lookup_app_l_Some.
Qed.

(** [this = other] makes [this] the same object as [other], whatever the
    two held; the guard skips the work when they are already the same. *)
Lemma assign_run st this other s o :
  sets st !! this = Some s → sets st !! other = Some o →
  assign this other st = (Ret tt, with_sets st (<[this := o]> (sets st))).
Proof.
  intros Hthis Hother. unfold assign.
  rewrite (bind_Ret _ _ _ _ _ (set_ne_run _ _ _ _ _ Hthis Hother)).
  case_bool_decide as Hne.
  - rewrite (bind_Ret _ _ _ _ _ (copy_construct_run _ _ _ Hother)).
    erewrite swap_temporary_run; [|done..]. done.
  - assert (s = o) as -> by (by destruct (decide (s = o))).
    by rewrite list_insert_id, with_sets_id.
Qed.

(** [this = std::move(other)] likewise, and [other] is left with null
    pointers and its old [m_size]; nothing happens when the two are
    already the same. *)
Lemma move_assign_run st this other s o :
  sets st !! this = Some s → sets st !! other = Some o →
  move_assign this other st
  = (Ret tt,
     if bool_decide (s ≠ o) then
       with_sets st
         (<[this := o]>
            (<[other := mk_set node_default (m_size o)]> (sets st)))
     else st).
Proof.
  intros Hthis Hother. unfold move_assign.
  rewrite (bind_Ret _ _ _ _ _ (set_ne_run _ _ _ _ _ Hthis Hother)).
  case_bool_decide as Hne; [|done].
  rewrite (bind_Ret _ _ _ _ _ (move_construct_run _ _ _ Hother)).
  assert (this ≠ other) by congruence.
  set (ss := <[other := mk_set node_default (m_size o)]> (sets st)).
  replace (length (sets st)) with (length ss) by apply length_insert.
  rewrite (swap_temporary_run _ ss this s o); [done..|].
  unfold ss. by rewrite list_lookup_insert_ne.
Qed.

Lemma repr_with_sets st ss t : repr st t → repr (with_sets st ss) t.
Proof. intros H. eapply repr_extends; [done|]. by split. Qed.

(** A set object placed in slot [this] of a changed store is as well
    formed as it was. *)
Lemma set_ok_with_sets st ss this that t s :
  set_ok st that t → sets st !! that = Some s → ss !! this = Some s →
  set_ok (with_sets st ss) this t.
Proof.
  intros (s' & Hs & Hroot & Hr & Hbst & Hsz & Hlt) Hthat Hthis.
  assert (s' = s) as -> by congruence.
  exists s. split; [done|]. split; [done|].
  split; [by apply repr_with_sets|done].
Qed.

Lemma begin_null st this s :
  sets st !! this = Some s → left (m_root s) = None →
  begin this st = (Ret (end_ this), st).
Proof.
  intros Hs Hl. unfold begin. msteps.
  assert (leftmost (S (length (nodes st))) (AtRoot this) st
          = (Ret (AtRoot this), st)) as Hlm.
  { cbn [leftmost]. msteps. by rewrite Hl. }
  by rewrite (bind_Ret _ _ _ _ _ Hlm).
Qed.

Lemma to_list_null st this s :
  sets st !! this = Some s → left (m_root s) = None →
  to_list this st = (Ret [], st).
Proof.
  intros Hs Hl. unfold to_list.
  rewrite (bind_Ret _ _ _ _ _ (begin_null _ _ _ Hs Hl)). msteps.
  apply collect_end.
Qed.

Lemma empty_run st this s :
  sets st !! this = Some s → empty this st = (Ret (m_size s =? 0), st).
Proof. intros Hs. unfold empty, size. by msteps. Qed.

Lemma clear_run st this s :
  sets st !! this = Some s →
  clear this st
  = (Ret tt,
     with_sets st (<[this := mk_set (with_left (m_root s) None) 0]> (sets st))).
Proof.
  intros Hs. pose proof (lookup_lt_Some _ _ _ Hs) as Hlt. unfold clear.
  rewrite (bind_Ret _ _ _ _ _ (set_m_size_with _ _ _ _ Hs)).
  assert (sets (with_sets st (<[this := mk_set (m_root s) 0]> (sets st)))
          !! this = Some (mk_set (m_root s) 0)) as Hs'.
  { cbn [with_sets sets]. by apply list_lookup_insert_eq. }
  msteps. unfold set_m_root. msteps. rewrite put_set_run.
  unfold with_sets. cbn [sets nodes vals tmp budget m_root m_size].
  by rewrite list_insert_insert_eq.
Qed.

(** X5: [clear()] on a well-formed set never throws and leaves the set
    empty: [size()] is 0, [empty()] holds, [begin()] is [end()] and the
    iteration yields nothing.  No cell of the heap is written, and every
    other set object, a copy taken before included, is as it was. *)
Theorem clear_correct st this t :
  set_ok st this t →
  ∃ st', clear this st = (Ret tt, st')
    ∧ set_ok st' this Leaf
    ∧ run (size this) st' = Ret 0 ∧ run (empty this) st' = Ret true
    ∧ run (begin this) st' = Ret (end_ this)
    ∧ run (to_list this) st' = Ret []
    ∧ nodes st' = nodes st ∧ vals st' = vals st
    ∧ ∀ other t', other ≠ this → set_ok st other t' → set_ok st' other t'.
Proof.
  intros (s & Hs & Hroot & Hr & Hbst & Hsz & Hlt).
  pose proof (lookup_lt_Some _ _ _ Hs) as Hlen.
  eexists. split; [by apply clear_run|].
  rewrite Hroot. unfold with_left. cbn [value right].
  set (st' := with_sets st _).
  assert (sets st' !! this = Some (mk_set (mk_node None None None) 0)) as Hs'.
  { unfold st'. cbn [with_sets sets]. by apply list_lookup_insert_eq. }
  assert (set_ok st' this Leaf) as Hok'.
  { eexists. split; [done|]. repeat split. }
  split; [done|]. unfold run.
  rewrite (size_run _ _ _ Hok'), (empty_run _ _ _ Hs').
  rewrite (begin_null _ _ _ Hs') by done.
  rewrite (to_list_null _ _ _ Hs') by done.
  do 6 (split; [done|]).
  intros other t' Hne (o & Ho & Hrest). exists o. split.
  - unfold st'. cbn [with_sets sets]. by rewrite list_lookup_insert_ne.
  - destruct Hrest as (? & ? & ?). split; [done|].
    split; [by apply repr_with_sets|done].
Qed.

Lemma clear_correct_witness :
  set_ok copied_state 1 example_tree
  ∧ ∃ st', clear 1 copied_state = (Ret tt, st')
    ∧ set_ok st' 1 Leaf
    ∧ run (size 1) st' = Ret 0 ∧ run (empty 1) st' = Ret true
    ∧ run (begin 1) st' = Ret (end_ 1)
    ∧ run (to_list 1) st' = Ret []
    ∧ nodes st' = nodes copied_state ∧ vals st' = vals copied_state
    ∧ ∀ other t', other ≠ 1%nat → set_ok copied_state other t' →
                  set_ok st' other t'.
Proof.
  assert (set_ok copied_state 1 example_tree) as Hok
    by (apply set_okb_sound; vm_compute; reflexivity).
  split; [exact Hok|].
  exact (clear_correct copied_state 1%nat example_tree Hok).
Defined.

(** X6: [swap] never throws and exchanges the two set objects whole: each
    ends up owning the tree and the size of the other, no cell of the heap
    is written, and the other set objects are as they were.  Swapping
    again, here through the friend function, restores the state, and
    swapping a set with itself changes nothing. *)
Theorem swap_correct st a b ta tb :
  set_ok st a ta → set_ok st b tb →
  ∃ st', swap a b st = (Ret tt, st')
    ∧ set_ok st' a tb ∧ set_ok st' b ta
    ∧ nodes st' = nodes st ∧ vals st' = vals st
    ∧ (∀ c, c ≠ a → c ≠ b → sets st' !! c = sets st !! c)
    ∧ swap_friend a b st' = (Ret tt, st)
    ∧ (a = b → st' = st).
Proof.
  intros Ha Hb. pose proof Ha as (sa & Hsa & _). pose proof Hb as (sb & Hsb & _).
  pose proof (lookup_lt_Some _ _ _ Hsa) as Hla.
  pose proof (lookup_lt_Some _ _ _ Hsb) as Hlb.
  eexists. split; [by apply swap_run|].
  set (st' := with_sets st _).
  assert (sets st' !! a = Some sb) as Hsa'.
  { unfold st'. cbn [with_sets sets]. destruct (decide (a = b)) as [->|].
    - rewrite list_lookup_insert_eq by (by rewrite length_insert). congruence.
    - rewrite list_lookup_insert_ne by done. by apply list_lookup_insert_eq. }
  assert (sets st' !! b = Some sa) as Hsb'.
  { unfold st'. cbn [with_sets sets].
    apply list_lookup_insert_eq. by rewrite length_insert. }
  assert (∀ ss : list persistent_set, with_sets st' ss = with_sets st ss) as Hws
    by done.
  split; [by eapply set_ok_with_sets|]. split; [by eapply set_ok_with_sets|].
  do 2 (split; [done|]). split; [|split].
  - intros c Hca Hcb. unfold st'. cbn [with_sets sets].
    by rewrite !list_lookup_insert_ne.
  - unfold swap_friend. rewrite (swap_run _ _ _ _ _ Hsa' Hsb'), Hws.
    rewrite <-(with_sets_id st) at 2. do 2 f_equal.
    apply list_eq. intros i. unfold st'. cbn [with_sets sets].
    destruct (decide (i = b)) as [->|Hib].
    { rewrite list_lookup_insert_eq by (by rewrite !length_insert). done. }
    rewrite (list_lookup_insert_ne _ b i) by done.
    destruct (decide (i = a)) as [->|Hia].
    { rewrite list_lookup_insert_eq by (by rewrite !length_insert). done. }
    by rewrite !list_lookup_insert_ne.
  - intros ->. assert (sa = sb) as -> by congruence. unfold st'.
    by rewrite list_insert_insert_eq, list_insert_id, with_sets_id.
Qed.

Lemma swap_correct_witness :
  set_ok pair_state 0 example_tree ∧ set_ok pair_state 1 pair_tree
  ∧ ∃ st', swap 0 1 pair_state = (Ret tt, st')
    ∧ set_ok st' 0 pair_tree ∧ set_ok st' 1 example_tree
    ∧ nodes st' = nodes pair_state ∧ vals st' = vals pair_state
    ∧ (∀ c, c ≠ 0%nat → c ≠ 1%nat → sets st' !! c = sets pair_state !! c)
    ∧ swap_friend 0 1 st' = (Ret tt, pair_state)
    ∧ (0%nat = 1%nat → st' = pair_state).
Proof.
  assert (set_ok pair_state 0 example_tree) as Ha
    by (apply set_okb_sound; vm_compute; reflexivity).
  assert (set_ok pair_state 1 pair_tree) as Hb
    by (apply set_okb_sound; vm_compute; reflexivity).
  split; [exact Ha|]. split; [exact Hb|].
  exact (swap_correct pair_state 0%nat 1%nat example_tree pair_tree Ha Hb).
Defined.

(** X7: the copy assignment [this = other] never throws and allocates
    nothing: afterwards [this] owns the very tree of [other] and its size,
    so the two compare equal and iterate alike; [other], the heap and every
    further set object are as they were, and the temporary is gone.
    Assigning a set to itself changes nothing. *)
Theorem assign_correct st this other s t :
  sets st !! this = Some s → set_ok st other t →
  ∃ st', assign this other st = (Ret tt, st')
    ∧ set_ok st' this t ∧ set_ok st' other t
    ∧ run (set_eq this other) st' = Ret true
    ∧ nodes st' = nodes st ∧ vals st' = vals st
    ∧ length (sets st') = length (sets st)
    ∧ (∀ c, c ≠ this → sets st' !! c = sets st !! c)
    ∧ assign this this st = (Ret tt, st).
Proof.
  intros Hs Hok. pose proof Hok as (o & Ho & _).
  pose proof (lookup_lt_Some _ _ _ Hs) as Hlt.
  eexists. split; [by eapply assign_run|].
  set (st' := with_sets st _).
  assert (sets st' !! this = Some o) as Hs'.
  { unfold st'. cbn [with_sets sets]. by apply list_lookup_insert_eq. }
  assert (sets st' !! other = Some o) as Ho'.
  { unfold st'. cbn [with_sets sets]. destruct (decide (this = other)) as [->|].
    - by apply list_lookup_insert_eq.
    - by rewrite list_lookup_insert_ne. }
  split; [by eapply set_ok_with_sets|]. split; [by eapply set_ok_with_sets|].
  split.
  { unfold run. rewrite (set_eq_run _ _ _ _ _ Hs' Ho'). simpl.
    assert (node_eq (m_root o) (m_root o) = true) as -> by by apply node_eq_true.
    by rewrite Z.eqb_refl. }
  do 2 (split; [done|]). split; [|split].
  - unfold st'. cbn [with_sets sets]. apply length_insert.
  - intros c Hc. unfold st'. cbn [with_sets sets].
    by rewrite list_lookup_insert_ne.
  - rewrite (assign_run _ _ _ _ _ Hs Hs).
    by rewrite list_insert_id, with_sets_id.
Qed.

Lemma assign_correct_witness :
  sets pair_state !! 1%nat = Some (mk_set (mk_node None (Some 12%nat) None) 2)
  ∧ set_ok pair_state 0 example_tree
  ∧ ∃ st', assign 1 0 pair_state = (Ret tt, st')
    ∧ set_ok st' 1 example_tree ∧ set_ok st' 0 example_tree
    ∧ run (set_eq 1 0) st' = Ret true
    ∧ nodes st' = nodes pair_state ∧ vals st' = vals pair_state
    ∧ length (sets st') = length (sets pair_state)
    ∧ (∀ c, c ≠ 1%nat → sets st' !! c = sets pair_state !! c)
    ∧ assign 1 1 pair_state = (Ret tt, pair_state).
Proof.
  assert (sets pair_state !! 1%nat
          = Some (mk_set (mk_node None (Some 12%nat) None) 2)) as Hs
    by reflexivity.
  assert (set_ok pair_state 0 example_tree) as Hok
    by (apply set_okb_sound; vm_compute; reflexivity).
  split; [exact Hs|]. split; [exact Hok|].
  exact (assign_correct pair_state 1%nat 0%nat _ example_tree Hs Hok).
Defined.

(** X8: the move constructor never throws and gives the new object the
    tree and the size of [other].  The three pointers of [other.m_root] are
    moved out, but [other.m_size] is only copied: the moved-from set
    iterates as empty ([begin()] is [end()]) while [size()] still returns
    the old count, so [empty()] is false when the set held elements. *)
Theorem move_construct_correct st other t :
  set_ok st other t →
  ∃ st', move_construct other st = (Ret (length (sets st)), st')
    ∧ set_ok st' (length (sets st)) t
    ∧ run (begin other) st' = Ret (end_ other)
    ∧ run (to_list other) st' = Ret []
    ∧ run (size other) st' = Ret (Z.of_nat (length (values t)))
    ∧ run (empty other) st' = Ret (bool_decide (values t = []))
    ∧ nodes st' = nodes st ∧ vals st' = vals st
    ∧ ∀ c, c ≠ other → (c < length (sets st))%nat →
           sets st' !! c = sets st !! c.
Proof.
  intros Hok. pose proof Hok as (o & Ho & Hroot & Hr & Hbst & Hsz & Hlt).
  pose proof (lookup_lt_Some _ _ _ Ho) as Hlen.
  eexists. split; [by apply move_construct_run|].
  set (st' := with_sets st _).
  assert (sets st' !! other = Some (mk_set node_default (m_size o))) as Ho'.
  { unfold st'. cbn [with_sets sets]. apply lookup_app_l_Some.
    by apply list_lookup_insert_eq. }
  split.
  { eapply set_ok_with_sets; [done..|].
    rewrite <-(length_insert (sets st) other (mk_set node_default (m_size o))).
    apply list_lookup_middle. done. }
  unfold run. rewrite (begin_null _ _ _ Ho') by done.
  rewrite (to_list_null _ _ _ Ho') by done.
  unfold size. rewrite (empty_run _ _ _ Ho'). msteps. cbn [m_size fst].
  rewrite length_values, Hsz. do 3 (split; [done|]). split.
  { f_equal. unfold values.
    by destruct (cells t). }
  do 2 (split; [done|]). intros c Hc Hlt'. unfold st'. cbn [with_sets sets].
  rewrite lookup_app_l by (by rewrite length_insert).
  by rewrite list_lookup_insert_ne.
Qed.

Lemma move_construct_correct_witness :
  set_ok example_state 0 example_tree
  ∧ ∃ st', move_construct 0 example_state
           = (Ret (length (sets example_state)), st')
    ∧ set_ok st' (length (sets example_state)) example_tree
    ∧ run (begin 0) st' = Ret (end_ 0)
    ∧ run (to_list 0) st' = Ret []
    ∧ run (size 0) st' = Ret (Z.of_nat (length (values example_tree)))
    ∧ run (empty 0) st' = Ret (bool_decide (values example_tree = []))
    ∧ nodes st' = nodes example_state ∧ vals st' = vals example_state
    ∧ ∀ c, c ≠ 0%nat → (c < length (sets example_state))%nat →
           sets st' !! c = sets example_state !! c.
Proof.
  assert (set_ok example_state 0 example_tree) as Hok
    by (apply set_okb_sound; vm_compute; reflexivity).
  split; [exact Hok|].
  exact (move_construct_correct example_state 0%nat example_tree Hok).
Defined.

(** X9: the move assignment [this = std::move(other)] never throws.  When
    the two sets already compare equal (the same root pointers and size, as
    for a set and itself or its copy) nothing happens at all, and [other]
    keeps its elements.  Otherwise [this] takes over the tree and the size
    of [other], and [other] is left iterating as empty with its old
    [size()].  The heap and the further set objects are as they were. *)
Theorem move_assign_correct st this other s t :
  sets st !! this = Some s → set_ok st other t →
  ∃ st', move_assign this other st = (Ret tt, st')
    ∧ set_ok st' this t
    ∧ nodes st' = nodes st ∧ vals st' = vals st
    ∧ length (sets st') = length (sets st)
    ∧ (∀ c, c ≠ this → c ≠ other → sets st' !! c = sets st !! c)
    ∧ (run (set_eq this other) st = Ret true → st' = st)
    ∧ (run (set_eq this other) st = Ret false →
       run (to_list other) st' = Ret []
       ∧ run (size other) st' = Ret (Z.of_nat (length (values t)))).
Proof.
  intros Hs Hok. pose proof Hok as (o & Ho & Hroot & Hr & Hbst & Hsz & Hlt).
  pose proof (lookup_lt_Some _ _ _ Hs) as Hlen.
  pose proof (lookup_lt_Some _ _ _ Ho) as Hlen'.
  unfold run. rewrite (set_eq_decide _ _ _ _ _ Hs Ho). simpl.
  eexists. split; [by eapply move_assign_run|].
  destruct (bool_decide (s ≠ o)) eqn:Hdec.
  - apply bool_decide_eq_true in Hdec.
    assert (this ≠ other) as Hto by congruence.
    set (st' := with_sets st _).
    assert (sets st' !! this = Some o) as Hs'.
    { unfold st'. cbn [with_sets sets].
      apply list_lookup_insert_eq. by rewrite length_insert. }
    assert (sets st' !! other = Some (mk_set node_default (m_size o))) as Ho'.
    { unfold st'. cbn [with_sets sets]. rewrite list_lookup_insert_ne by done.
      by apply list_lookup_insert_eq. }
    split; [by eapply set_ok_with_sets|]. do 2 (split; [done|]).
    split; [unfold st'; cbn [with_sets sets]; by rewrite !length_insert|].
    split; [|split].
    + intros c ??. unfold st'. cbn [with_sets sets].
      by rewrite !list_lookup_insert_ne.
    + intros [= Heq%bool_decide_eq_true]. done.
    + intros _. rewrite (to_list_null _ _ _ Ho') by done.
      unfold size. msteps. cbn [m_size fst]. by rewrite length_values, Hsz.
  - apply bool_decide_eq_false in Hdec.
    assert (s = o) as -> by (by destruct (decide (s = o))).
    split.
    { rewrite <-(with_sets_id st). eapply set_ok_with_sets; done. }
    do 4 (split; [done|]). split; [done|].
    intros [= Heq%bool_decide_eq_false]. done.
Qed.

Lemma move_assign_correct_witness :
  sets pair_state !! 1%nat = Some (mk_set (mk_node None (Some 12%nat) None) 2)
  ∧ set_ok pair_state 0 example_tree
  ∧ ∃ st', move_assign 1 0 pair_state = (Ret tt, st')
    ∧ set_ok st' 1 example_tree
    ∧ nodes st' = nodes pair_state ∧ vals st' = vals pair_state
    ∧ length (sets st') = length (sets pair_state)
    ∧ (∀ c, c ≠ 1%nat → c ≠ 0%nat → sets st' !! c = sets pair_state !! c)
    ∧ (run (set_eq 1 0) pair_state = Ret true → st' = pair_state)
    ∧ (run (set_eq 1 0) pair_state = Ret false →
       run (to_list 0) st' = Ret []
       ∧ run (size 0) st' = Ret (Z.of_nat (length (values example_tree)))).
Proof.
  assert (sets pair_state !! 1%nat
          = Some (mk_set (mk_node None (Some 12%nat) None) 2)) as Hs
    by reflexivity.
  assert (set_ok pair_state 0 example_tree) as Hok
    by (apply set_okb_sound; vm_compute; reflexivity).
  split; [exact Hs|]. split; [exact Hok|].
  exact (move_assign_correct pair_state 1%nat 0%nat _ example_tree Hs Hok).
Defined.

(** ** Empty sets, [end()], and erasing by value *)

Lemma lower_bound_null st this s v :
  sets st !! this = Some s → left (m_root s) = None →
  lower_bound this v st = (Ret (end_ this), st).
Proof. intros Hs Hl. unfold lower_bound. msteps. by rewrite Hl. Qed.

Lemma upper_bound_null st this s v :
  sets st !! this = Some s → left (m_root s) = None →
  upper_bound this v st = (Ret (end_ this), st).
Proof. intros Hs Hl. unfold upper_bound. msteps. by rewrite Hl. Qed.

Lemma find_null st this s v :
  sets st !! this = Some s → left (m_root s) = None →
  find this v st = (Ret (end_ this), st).
Proof.
  intros Hs Hl. unfold find.
  rewrite (bind_Ret _ _ _ _ _ (lower_bound_null _ _ _ v Hs Hl)).
  by rewrite iterator_eq_refl.
Qed.

Lemma try_catch_Undef {A} (body : M A) handler st st' :
  body st = (Undef, st') → try_catch body handler st = (Undef, st').
Proof. unfold try_catch. by intros ->. Qed.


Lemma run_bind_Ret {A B} (m : M A) (f : A → M B) st a st' :
  m st = (Ret a, st') → run (bind m f) st = run (f a) st'.
Proof. unfold run, bind. by intros ->. Qed.

Lemma run_try_catch_Undef {A} (body : M A) handler st :
  run body st = Undef → run (try_catch body handler) st = Undef.
Proof. unfold run, try_catch. by destruct (body st) as [[]]. Qed.



(** X10: a default-constructed set is a well-formed empty set, made without
    touching the heap or the other set objects; and on every well-formed
    empty set [size()] is 0, [empty()] holds, [begin()] is [end()], the
    iteration yields nothing, and [find], [lower_bound] and [upper_bound]
    return [end()] without comparing anything, so they cannot throw. *)
Theorem empty_set_lookups :
  (∀ st, ∃ st',
     new_set st = (Ret (length (sets st)), st')
     ∧ set_ok st' (length (sets st)) Leaf
     ∧ nodes st' = nodes st ∧ vals st' = vals st
     ∧ ∀ c s, sets st !! c = Some s → sets st' !! c = Some s)
  ∧ (∀ st this v,
       set_ok st this Leaf →
       size this st = (Ret 0, st) ∧ empty this st = (Ret true, st)
       ∧ begin this st = (Ret (end_ this), st)
       ∧ to_list this st = (Ret [], st)
       ∧ find this v st = (Ret (end_ this), st)
       ∧ lower_bound this v st = (Ret (end_ this), st)
       ∧ upper_bound this v st = (Ret (end_ this), st)).
Proof.
  split.
  - intros st. eexists. split; [done|]. split; [|split; [done|split; [done|]]].
    + exists (mk_set node_default 0). split; [by apply list_lookup_middle|].
      repeat split.
    + intros c s Hc. cbn [sets]. by apply lookup_app_l_Some.
  - intros st this v Hok. pose proof Hok as (s & Hs & Hroot & _ & _ & Hsz & _).
    assert (left (m_root s) = None) as Hl by by rewrite Hroot.
    split; [by rewrite (size_run _ _ _ Hok)|].
    split; [by rewrite (empty_run _ _ _ Hs), Hsz|].
    split; [by eapply begin_null|]. split; [by eapply to_list_null|].
    split; [by eapply find_null|].
    split; [by eapply lower_bound_null|by eapply upper_bound_null].
Qed.

Lemma empty_set_lookups_witness :
  set_ok (exec new_set init) 0 Leaf
  ∧ find 0 7 (arm (Some O) (exec new_set init))
    = (Ret (end_ 0), arm (Some O) (exec new_set init)).
Proof.
  assert (set_ok (exec new_set init) 0 Leaf) as Hok
    by (apply set_okb_sound; vm_compute; reflexivity).
  split; [exact Hok|].
  pose proof (proj2 empty_set_lookups (arm (Some O) (exec new_set init))
                0%nat 7 (set_ok_arm _ _ _ _ Hok)) as H.
  exact (proj1 (proj2 (proj2 (proj2 (proj2 H))))).
Defined.

(** X11: [end()] points to the sentinel, whose value pointer is null: on
    a well-formed set, dereferencing [end()], stepping it forward and
    erasing through it each dereference a null pointer, which is undefined
    behaviour; so is stepping [end()] backward when the set is empty, where
    the root pointer is null. *)
Theorem end_undefined st this t :
  set_ok st this t →
  run (deref (end_ this)) st = Undef
  ∧ run (incr (end_ this)) st = Undef
  ∧ run (erase this (end_ this)) st = Undef
  ∧ (values t = [] → run (decr (end_ this)) st = Undef).
Proof.
  intros (s & Hs & Hroot & Hr & Hbst & Hsz & Hlt).
  split; [|split; [|split]].
  - unfold deref, run. cbn [end_ it_node]. msteps. by rewrite Hroot.
  - unfold incr, run. cbn [end_ it_node]. msteps. by rewrite Hroot.
  - rewrite erase_unfold. erewrite run_bind_Ret; [|by apply get_set_run].
    apply run_try_catch_Undef. unfold erase_try, run. cbn [end_ it_node].
    msteps. by rewrite Hroot.
  - intros Hnil. assert (t = Leaf) as ->.
    { destruct t as [|l a x r]; [done|]. rewrite values_Node in Hnil.
      by destruct (values l). }
    unfold decr, run. cbn [end_ it_node set_ptr]. msteps. rewrite Hroot.
    cbn [value rev_upper_bound]. msteps. by rewrite Hroot.
Qed.

Lemma end_undefined_witness :
  set_ok example_state 0 example_tree
  ∧ run (deref (end_ 0)) example_state = Undef
  ∧ run (incr (end_ 0)) example_state = Undef
  ∧ run (erase 0 (end_ 0)) example_state = Undef
  ∧ set_ok (exec new_set init) 0 Leaf
  ∧ run (decr (end_ 0)) (exec new_set init) = Undef.
Proof.
  assert (set_ok example_state 0 example_tree) as Hok
    by (apply set_okb_sound; vm_compute; reflexivity).
  assert (set_ok (exec new_set init) 0 Leaf) as Hok0
    by (apply set_okb_sound; vm_compute; reflexivity).
  pose proof (end_undefined example_state 0%nat example_tree Hok)
    as (H1 & H2 & H3 & _).
  pose proof (end_undefined (exec new_set init) 0%nat Leaf Hok0)
    as (_ & _ & _ & H4).
  split; [exact Hok|]. split; [exact H1|]. split; [exact H2|].
  split; [exact H3|]. split; [exact Hok0|]. exact (H4 eq_refl).
Defined.



(** ** Lookups write nothing *)

Section read_only_rules.
Context {A B : Type}.

Lemma arm_budget st : arm (budget st) st = st.
Proof. by destruct st. Qed.

Lemma read_only_keep (m : M A) :
  (∀ st, exec m st = st) → read_only m.
Proof. intros H st. exists (budget st). by rewrite H, arm_budget. Qed.

Lemma read_only_ret (a : A) : read_only (ret a).
Proof. by apply read_only_keep. Qed.

Lemma read_only_undef : read_only (@undef A).
Proof. by apply read_only_keep. Qed.

Lemma read_only_bind (m : M A) (f : A → M B) :
  read_only m → (∀ a, read_only (f a)) → read_only (bind m f).
Proof.
  intros Hm Hf st. destruct (Hm st) as (b & Hex & Hb).
  unfold exec, bind in *. destruct (m st) as [[a| |] st1]; simpl in *; eauto.
  subst st1. destruct (Hf a (arm b st)) as (b' & Hex' & Hb').
  exists b'. unfold exec in Hex'. split; [by rewrite Hex'|].
  intros Hnone. apply Hb'. simpl. auto.
Qed.

Lemma read_only_if (c : bool) (m1 m2 : M A) :
  read_only m1 → read_only m2 → read_only (if c then m1 else m2).
Proof. by destruct c. Qed.

End read_only_rules.

Lemma read_only_tick : read_only tick.
Proof.
  intros st. unfold exec, tick. destruct (budget st) as [[|k]|] eqn:Hb.
  - exists (Some O). by rewrite <-Hb, arm_budget.
  - by exists (Some k).
  - exists None. by rewrite <-Hb, arm_budget.
Qed.

Lemma read_only_load p : read_only (load p).
Proof.
  apply read_only_keep. intros st. unfold exec, load.
  destruct p as [s| |a]; [by destruct (sets st !! s)|done|].
  by destruct (nodes st !! a).
Qed.

Lemma read_only_load_value vp : read_only (load_value vp).
Proof.
  apply read_only_keep. intros st. unfold exec, load_value.
  destruct vp as [a|]; [|done]. by destruct (vals st !! a).
Qed.

Lemma read_only_get_set this : read_only (get_set this).
Proof.
  apply read_only_keep. intros st. unfold exec, get_set.
  by destruct (sets st !! this).
Qed.

Lemma read_only_heap_fuel : read_only heap_fuel.
Proof. by apply read_only_keep. Qed.

Lemma read_only_T_eq x y : read_only (T_eq x y).
Proof. apply read_only_bind; [apply read_only_tick|]. intros. apply read_only_ret. Qed.
Lemma read_only_T_ne x y : read_only (T_ne x y).
Proof. apply read_only_bind; [apply read_only_tick|]. intros. apply read_only_ret. Qed.
Lemma read_only_T_lt x y : read_only (T_lt x y).
Proof. apply read_only_bind; [apply read_only_tick|]. intros. apply read_only_ret. Qed.
Lemma read_only_T_gt x y : read_only (T_gt x y).
Proof. apply read_only_bind; [apply read_only_tick|]. intros. apply read_only_ret. Qed.

Create HintDb read_only discriminated.
Global Hint Resolve read_only_ret read_only_undef read_only_tick read_only_load
  read_only_load_value read_only_get_set read_only_heap_fuel read_only_T_eq
  read_only_T_ne read_only_T_lt read_only_T_gt : read_only.

(** Decompose a computation along its binds and branches. *)
Ltac read_only_go :=
  repeat first
    [ apply read_only_bind; [|intros ?]
    | apply read_only_if
    | match goal with
      | |- read_only (match ?x with _ => _ end) => destruct x
      end
    | solve [eauto with read_only] ].

Lemma read_only_lower_bound_at fuel this v : ∀ ptr,
  read_only (lower_bound_at fuel this ptr v).
Proof.
  induction fuel as [|fuel IH]; intros [a|]; simpl; read_only_go.
Qed.

Lemma read_only_upper_bound_at fuel this v : ∀ ptr,
  read_only (upper_bound_at fuel this ptr v).
Proof.
  induction fuel as [|fuel IH]; intros [a|]; simpl; read_only_go.
Qed.

Lemma read_only_rev_upper_bound_at fuel this vp : ∀ ptr,
  read_only (rev_upper_bound_at fuel this ptr vp).
Proof.
  induction fuel as [|fuel IH]; intros [a|]; simpl; read_only_go.
Qed.

Lemma read_only_leftmost fuel : ∀ ptr, read_only (leftmost fuel ptr).
Proof.
  induction fuel as [|fuel IH]; intros ptr; simpl; read_only_go.
Qed.

Lemma read_only_rightmost fuel : ∀ ptr, read_only (rightmost fuel ptr).
Proof.
  induction fuel as [|fuel IH]; intros ptr; simpl; read_only_go.
Qed.

Global Hint Resolve read_only_lower_bound_at read_only_upper_bound_at
  read_only_rev_upper_bound_at read_only_leftmost read_only_rightmost
  : read_only.

Lemma read_only_lower_bound this v : read_only (lower_bound this v).
Proof. unfold lower_bound. read_only_go. Qed.

Lemma read_only_upper_bound this v : read_only (upper_bound this v).
Proof. unfold upper_bound. read_only_go. Qed.

Lemma read_only_rev_upper_bound this vp : read_only (rev_upper_bound this vp).
Proof. unfold rev_upper_bound. read_only_go. Qed.

Lemma read_only_begin this : read_only (begin this).
Proof. unfold begin. read_only_go. Qed.

Lemma read_only_deref it : read_only (deref it).
Proof. unfold deref. read_only_go. Qed.

Global Hint Resolve read_only_lower_bound read_only_upper_bound
  read_only_rev_upper_bound read_only_begin read_only_deref : read_only.

Lemma read_only_find this v : read_only (find this v).
Proof. unfold find. read_only_go. Qed.

Lemma read_only_incr it : read_only (incr it).
Proof. unfold incr. read_only_go. Qed.

Lemma read_only_decr it : read_only (decr it).
Proof. unfold decr. read_only_go. Qed.

Global Hint Resolve read_only_find read_only_incr read_only_decr : read_only.

Lemma read_only_collect fuel this : ∀ it, read_only (collect fuel this it).
Proof.
  induction fuel as [|fuel IH]; intros it; simpl; read_only_go.
Qed.

Lemma read_only_reverse_collect fuel this : ∀ r,
  read_only (reverse_collect fuel this r).
Proof.
  induction fuel as [|fuel IH]; intros r; simpl;
    unfold rend, reverse_deref, reverse_incr; read_only_go.
Qed.

(** X13: the lookups and the iterator operations write nothing.  For every
    state, and whatever the outcome (a result, an exception thrown by a
    comparison, undefined behaviour), [find], [lower_bound], [upper_bound],
    [begin], [size], [empty], [==] on sets, [*it], [++it], [--it] and the
    two iterations leave the heap, the set objects and the local of [erase]
    exactly as they were. *)
Theorem lookups_read_only this other v it :
  read_only (find this v) ∧ read_only (lower_bound this v)
  ∧ read_only (upper_bound this v) ∧ read_only (begin this)
  ∧ read_only (size this) ∧ read_only (empty this)
  ∧ read_only (set_eq this other)
  ∧ read_only (deref it) ∧ read_only (incr it) ∧ read_only (decr it)
  ∧ read_only (to_list this) ∧ read_only (to_list_reverse this).
Proof.
  pose proof read_only_collect. pose proof read_only_reverse_collect.
  repeat split;
    unfold size, empty, set_eq, to_list, to_list_reverse, rbegin, size;
    read_only_go.
Qed.

(** ** How the operations compose *)

Lemma it_at_inj this o1 o2 : it_at this o1 = it_at this o2 → o1 = o2.
Proof. destruct o1, o2; simpl; unfold end_; congruence. Qed.

Lemma sorted_perm_eq (l1 l2 : list Z) :
  StronglySorted Z.lt l1 → StronglySorted Z.lt l2 → l1 ≡ₚ l2 → l1 = l2.
Proof. apply StronglySorted_unique_strong. intros. lia. Qed.

Lemma sorted_ext_eq (l1 l2 : list Z) :
  StronglySorted Z.lt l1 → StronglySorted Z.lt l2 →
  (∀ x, x ∈ l1 ↔ x ∈ l2) → l1 = l2.
Proof.
  intros H1 H2 Hext. apply sorted_perm_eq; [done..|].
  apply NoDup_Permutation; [by apply sorted_lt_NoDup..|done].
Qed.

(** In a search tree the lower and the upper bound of [v] are the same
    position exactly when [v] is not an element. *)
Lemma lb_ub_member st t v :
  repr st t → bst t → (v ∈ values t ↔ fst <$> lb t v ≠ fst <$> ub t v).
Proof.
  intros Hr Hbst. pose proof (lb_spec t v Hbst) as Hlb.
  pose proof (ub_spec t v Hbst) as Hub.
  pose proof (bst_NoDup _ Hbst) as Hnd.
  destruct (lb t v) as [[a x]|] eqn:Hl, (ub t v) as [[b y]|] eqn:Hu; simpl.
  - pose proof (lb_elem_of _ _ _ Hl) as Hinl.
    pose proof (ub_elem_of _ _ _ Hu) as Hinu.
    pose proof (lb_elem_of_values _ _ _ _ Hl) as Hxl.
    pose proof (ub_elem_of_values _ _ _ _ Hu) as Hyu.
    destruct Hlb as [Hvx Hminx], Hub as [Hvy Hminy]. split.
    + intros Hv [= ->]. assert (x = v) as -> by (apply Hminx in Hv; lia).
      pose proof (repr_cell_value _ _ _ _ Hr Hinl).
      pose proof (repr_cell_value _ _ _ _ Hr Hinu). simplify_eq. lia.
    + intros Hne. destruct (decide (x = v)) as [->|Hxv]; [done|].
      destruct Hne. f_equal. assert (x = y) as ->.
      { assert (y ≤ x) by (apply Hminy; [done|lia]).
        assert (x ≤ y) by (apply Hminx; [done|lia]). lia. }
      by eapply cells_value_inj.
  - split; [done|]. intros _. destruct Hlb as [Hvx _].
    pose proof (lb_elem_of_values _ _ _ _ Hl) as Hxl.
    apply Hub in Hxl as ?. by assert (x = v) as -> by lia.
  - split; [done|]. intros _. destruct Hub as [Hvy _].
    pose proof (ub_elem_of_values _ _ _ _ Hu) as Hyu.
    apply Hlb in Hyu. lia.
  - split; [|done]. intros Hv%Hlb. lia.
Qed.

Lemma sorted_filter (P : Z → Prop) `{!∀ x, Decision (P x)} (l : list Z) :
  StronglySorted Z.lt l → StronglySorted Z.lt (filter P l).
Proof.
  induction 1 as [|x l _ IH Hx]; [constructor|].
  rewrite filter_cons. case_decide; [|done].
  constructor; [done|]. apply Forall_forall.
  intros y [_ Hy]%list_elem_of_filter. by eapply Forall_forall in Hx.
Qed.

(** The sorted list with [v] put in its place. *)
Lemma sorted_insert_eq (l l' : list Z) v :
  StronglySorted Z.lt l → StronglySorted Z.lt l' → l' ≡ₚ v :: l →
  l' = filter (λ y, y < v) l ++ v :: filter (λ y, v < y) l.
Proof.
  intros Hl Hl' Hperm. apply sorted_perm_eq; [done| |].
  - apply StronglySorted_app_2.
    + intros x1 x2 [Hx1 _]%list_elem_of_filter
        [->|[Hx2 _]%list_elem_of_filter]%elem_of_cons; lia.
    + by apply sorted_filter.
    + apply StronglySorted_cons. split.
      * apply Forall_forall. by intros x [? _]%list_elem_of_filter.
      * by apply sorted_filter.
  - rewrite Hperm, <-Permutation_middle. f_equiv.
    assert (v ∉ l) as Hv.
    { pose proof (sorted_lt_NoDup _ Hl') as Hnd. rewrite Hperm in Hnd.
      by apply NoDup_cons in Hnd as [? _]. }
    clear Hl Hl' Hperm. induction l as [|y l IH]; [done|].
    apply not_elem_of_cons in Hv as [Hne Hv]. specialize (IH Hv).
    rewrite !filter_cons. destruct (decide (y < v)), (decide (v < y));
      try lia; simpl.
    + by f_equiv.
    + by rewrite <-Permutation_middle, <-IH.
Qed.

(** X14: on a well-formed set [lower_bound v] and [upper_bound v] return
    different iterators exactly when [v] is an element; then [find v] is
    [lower_bound v], and [upper_bound v] is one step after it. *)
Theorem bounds_differ_iff_member st this t v :
  budget st = None → set_ok st this t →
  (v ∈ values t
   ↔ run (lower_bound this v) st ≠ run (upper_bound this v) st)
  ∧ (v ∈ values t →
     ∃ it, run (find this v) st = Ret it
           ∧ run (lower_bound this v) st = Ret it
           ∧ run (incr it) st = run (upper_bound this v) st).
Proof.
  intros Hb Hok. pose proof Hok as (s & Hs & Hroot & Hr & Hbst & _).
  unfold run. rewrite (lower_bound_run _ _ _ v Hb Hok).
  rewrite (upper_bound_run _ _ _ v Hb Hok), (find_run _ _ _ v Hb Hok).
  cbn [fst]. split.
  - rewrite (lb_ub_member _ _ v Hr Hbst). split.
    + intros Hne [= ?%it_at_inj]. done.
    + intros Hne Heq. destruct Hne. by rewrite Heq.
  - intros Hv. destruct (tfind_present _ _ Hbst Hv) as [a Hfind].
    exists (mk_iterator (AtHeap a) this). rewrite Hfind.
    pose proof (tfind_elem_of _ _ _ _ Hfind) as [_ Hin].
    unfold tfind in Hfind. destruct (lb t v) as [[a' x]|]; [|done].
    destruct (negb (x =? v)); simplify_eq/=.
    split; [done|]. split; [done|].
    by rewrite (incr_run _ _ _ _ _ Hb Hok Hin).
Qed.

Lemma bounds_differ_iff_member_witness :
  budget example_state = None ∧ set_ok example_state 0 example_tree
  ∧ (4 ∈ values example_tree
     ↔ run (lower_bound 0 4) example_state
       ≠ run (upper_bound 0 4) example_state)
  ∧ (∃ it, run (find 0 4) example_state = Ret it
           ∧ run (lower_bound 0 4) example_state = Ret it
           ∧ run (incr it) example_state
             = run (upper_bound 0 4) example_state).
Proof.
  assert (budget example_state = None) as Hb by reflexivity.
  assert (set_ok example_state 0 example_tree) as Hok
    by (apply set_okb_sound; vm_compute; reflexivity).
  assert (4 ∈ values example_tree) as Hin
    by (apply (bool_decide_unpack _); vm_compute; exact I).
  pose proof (bounds_differ_iff_member example_state 0%nat example_tree 4
                Hb Hok) as [H1 H2].
  split; [exact Hb|]. split; [exact Hok|]. split; [exact H1|exact (H2 Hin)].
Defined.

(** X15: inserting a value the set does not hold returns an iterator to the
    new element and [true]; [find] of the value then gives that iterator,
    [size()] has grown by one, and the iteration is the one from before
    with the value put in its place in the order. *)
Theorem insert_absent st this t v :
  budget st = None → set_ok st this t → v ∉ values t →
  Z.of_nat (length (values t)) + 1 < size_t_mod →
  ∃ st' it,
    insert this v st = (Ret (it, true), st')
    ∧ it ≠ end_ this ∧ run (deref it) st' = Ret v
    ∧ run (find this v) st' = Ret it
    ∧ run (size this) st' = Ret (Z.of_nat (length (values t)) + 1)
    ∧ run (to_list this) st
      = Ret (values t)
    ∧ run (to_list this) st'
      = Ret (filter (λ y, y < v) (values t)
             ++ v :: filter (λ y, v < y) (values t)).
Proof.
  intros Hb Hok Hv Hsz. rewrite length_values in Hsz.
  destruct (insert_absent_run _ _ _ _ Hb Hok Hv Hsz)
    as (st' & t' & a & Hrun & Hok' & Hperm & Hin & _ & Hb' & _).
  pose proof Hok as (_ & _ & _ & _ & Hbst & _).
  pose proof Hok' as (_ & _ & _ & Hr' & Hbst' & _).
  exists st', (mk_iterator (AtHeap a) this).
  split; [done|]. split; [done|]. unfold run.
  rewrite (deref_run _ _ _ _ _ Hr' Hin). split; [done|].
  rewrite (find_run _ _ _ v Hb' Hok'). split.
  { assert (v ∈ values t') as Hv' by (rewrite Hperm; left).
    destruct (tfind_present _ _ Hbst' Hv') as [a' Hfind]. rewrite Hfind.
    pose proof (tfind_elem_of _ _ _ _ Hfind) as [_ Hin']. simpl. do 3 f_equal.
    eapply cells_value_inj; [|done..]. by apply bst_NoDup. }
  rewrite (size_run _ _ _ Hok'). split.
  { simpl. f_equal. rewrite <-!length_values, Hperm. simpl. lia. }
  rewrite (to_list_run _ _ _ Hb Hok), (to_list_run _ _ _ Hb' Hok').
  split; [done|]. simpl. f_equal.
  apply sorted_insert_eq; [by apply bst_sorted..|done].
Qed.

Lemma insert_absent_witness :
  budget example_state = None ∧ set_ok example_state 0 example_tree
  ∧ (7 ∉ values example_tree)
  ∧ ∃ st' it,
    insert 0 7 example_state = (Ret (it, true), st')
    ∧ it ≠ end_ 0 ∧ run (deref it) st' = Ret 7
    ∧ run (find 0 7) st' = Ret it
    ∧ run (size 0) st' = Ret (Z.of_nat (length (values example_tree)) + 1)
    ∧ run (to_list 0) example_state = Ret (values example_tree)
    ∧ run (to_list 0) st'
      = Ret (filter (λ y, y < 7) (values example_tree)
             ++ 7 :: filter (λ y, 7 < y) (values example_tree)).
Proof.
  assert (budget example_state = None) as Hb by reflexivity.
  assert (set_ok example_state 0 example_tree) as Hok
    by (apply set_okb_sound; vm_compute; reflexivity).
  assert (7 ∉ values example_tree) as Hout
    by (apply (bool_decide_unpack _); vm_compute; exact I).
  split; [exact Hb|]. split; [exact Hok|]. split; [exact Hout|].
  apply (insert_absent example_state 0%nat example_tree 7 Hb Hok Hout).
  vm_compute. reflexivity.
Defined.

(** X16: insertion and erasure undo each other as far as a client can
    observe.  Erasing through the iterator that [insert] returned for a new
    value gives back the iteration and the size from before the insertion;
    and inserting again the value just erased through an iterator gives
    back the iteration and the size from before the erasure. *)
Theorem insert_erase_round_trip st this t :
  budget st = None → set_ok st this t →
  (∀ v, v ∉ values t →
     Z.of_nat (length (values t)) + 1 < size_t_mod →
     ∃ st1 it st2 nxt,
       insert this v st = (Ret (it, true), st1)
       ∧ erase this it st1 = (Ret nxt, st2)
       ∧ run (to_list this) st2 = run (to_list this) st
       ∧ run (size this) st2 = run (size this) st)
  ∧ (∀ a x, (a, x) ∈ cells t →
       ∃ st1 nxt st2 it,
         erase this (mk_iterator (AtHeap a) this) st = (Ret nxt, st1)
         ∧ insert this x st1 = (Ret (it, true), st2)
         ∧ run (deref it) st2 = Ret x
         ∧ run (to_list this) st2 = run (to_list this) st
         ∧ run (size this) st2 = run (size this) st).
Proof.
  intros Hb Hok. pose proof Hok as (s & Hs & Hroot & Hr & Hbst & Hsize & Hlim).
  split.
  - intros v Hv Hsz. rewrite length_values in Hsz.
    destruct (insert_absent_run _ _ _ _ Hb Hok Hv Hsz)
      as (st1 & t1 & a & Hrun1 & Hok1 & Hperm1 & Hin1 & _ & Hb1 & _).
    pose proof Hok1 as (_ & _ & _ & Hr1 & Hbst1 & _).
    destruct (repr_lookup _ _ _ _ Hr1 Hin1) as (n & vp & Hn & Hval & Hvp).
    assert (v ∈ values t1) as Hv1 by (rewrite Hperm1; left).
    destruct (erase_run _ _ _ (mk_iterator (AtHeap a) this) _ _ _
                Hb1 Hok1 Hn Hval Hvp Hv1)
      as (st2 & t2 & Hrun2 & Hok2 & Hperm2 & _ & Hb2 & _).
    pose proof Hok2 as (_ & _ & _ & Hr2 & Hbst2 & _).
    assert (values t2 = values t) as Heq.
    { apply sorted_perm_eq; [by apply bst_sorted..|].
      apply (inj (cons v)). by rewrite <-Hperm2, Hperm1. }
    eexists _, _, _, _. split; [done|]. split; [done|]. unfold run.
    rewrite (to_list_run _ _ _ Hb Hok), (to_list_run _ _ _ Hb2 Hok2).
    rewrite (size_run _ _ _ Hok), (size_run _ _ _ Hok2).
    by rewrite <-!length_values, Heq.
  - intros a x Hin.
    destruct (repr_lookup _ _ _ _ Hr Hin) as (n & vp & Hn & Hval & Hvp).
    assert (x ∈ values t) as Hx by (apply elem_of_values; eauto).
    destruct (erase_run _ _ _ (mk_iterator (AtHeap a) this) _ _ _
                Hb Hok Hn Hval Hvp Hx)
      as (st1 & t1 & Hrun1 & Hok1 & Hperm1 & _ & Hb1 & _).
    pose proof Hok1 as (_ & _ & _ & Hr1 & Hbst1 & _).
    assert (x ∉ values t1) as Hx1.
    { pose proof (bst_NoDup _ Hbst) as Hnd. rewrite Hperm1 in Hnd.
      by apply NoDup_cons in Hnd as [? _]. }
    assert (length (cells t) = S (length (cells t1))) as Hlen.
    { by rewrite <-!length_values, Hperm1. }
    destruct (insert_absent_run _ _ _ x Hb1 Hok1 Hx1)
      as (st2 & t2 & b & Hrun2 & Hok2 & Hperm2 & Hin2 & _ & Hb2 & _); [lia|].
    pose proof Hok2 as (_ & _ & _ & Hr2 & Hbst2 & _).
    assert (values t2 = values t) as Heq.
    { apply sorted_perm_eq; [by apply bst_sorted..|].
      by rewrite Hperm2, Hperm1. }
    eexists _, _, _, _. split; [done|]. split; [done|]. unfold run.
    rewrite (deref_run _ _ _ _ _ Hr2 Hin2).
    rewrite (to_list_run _ _ _ Hb Hok), (to_list_run _ _ _ Hb2 Hok2).
    rewrite (size_run _ _ _ Hok), (size_run _ _ _ Hok2).
    by rewrite <-!length_values, Heq.
Qed.

Lemma insert_erase_round_trip_witness :
  budget example_state = None ∧ set_ok example_state 0 example_tree
  ∧ (∃ st1 it st2 nxt,
       insert 0 7 example_state = (Ret (it, true), st1)
       ∧ erase 0 it st1 = (Ret nxt, st2)
       ∧ run (to_list 0) st2 = run (to_list 0) example_state
       ∧ run (size 0) st2 = run (size 0) example_state)
  ∧ (∃ st1 nxt st2 it,
       erase 0 (mk_iterator (AtHeap 9) 0) example_state = (Ret nxt, st1)
       ∧ insert 0 3 st1 = (Ret (it, true), st2)
       ∧ run (deref it) st2 = Ret 3
       ∧ run (to_list 0) st2 = run (to_list 0) example_state
       ∧ run (size 0) st2 = run (size 0) example_state).
Proof.
  assert (budget example_state = None) as Hb by reflexivity.
  assert (set_ok example_state 0 example_tree) as Hok
    by (apply set_okb_sound; vm_compute; reflexivity).
  assert (7 ∉ values example_tree) as Hout
    by (apply (bool_decide_unpack _); vm_compute; exact I).
  assert ((9%nat, 3) ∈ cells example_tree) as Hin
    by (apply (bool_decide_unpack _); vm_compute; exact I).
  assert (Z.of_nat (length (values example_tree)) + 1 < size_t_mod) as Hsz
    by (vm_compute; reflexivity).
  pose proof (insert_erase_round_trip example_state 0%nat example_tree Hb Hok)
    as [H1 H2].
  split; [exact Hb|]. split; [exact Hok|].
  split; [exact (H1 7 Hout Hsz)|exact (H2 9%nat 3 Hin)].
Defined.

Lemma sorted_le_NoDup_lt (l : list Z) :
  StronglySorted Z.le l → NoDup l → StronglySorted Z.lt l.
Proof.
  induction 1 as [|x l _ IH Hx]; [constructor|].
  intros [Hnx Hnd]%NoDup_cons. constructor; [auto|].
  apply Forall_forall. intros y Hy.
  eapply Forall_forall in Hx; [|done].
  assert (x ≠ y) by (by intros ->). lia.
Qed.

(** The distinct values of a list, in ascending order. *)
Lemma sorted_distinct_eq (l vs : list Z) :
  StronglySorted Z.lt l → (∀ x, x ∈ l ↔ x ∈ vs) →
  l = merge_sort Z.le (remove_dups vs).
Proof.
  intros Hl Hext. apply sorted_ext_eq; [done| |].
  - apply sorted_le_NoDup_lt; [apply (StronglySorted_merge_sort _)|].
    rewrite merge_sort_Permutation. apply NoDup_remove_dups.
  - intros x. by rewrite Hext, merge_sort_Permutation, elem_of_remove_dups.
Qed.

(** X17: after a sequence of values has been inserted into a well-formed
    set, the iteration is the ascending list of the distinct values among
    the old elements and the inserted ones, whatever the order and the
    repetitions in the sequence; [size()] is their number, and [empty()]
    holds only when there is none. *)
Theorem insert_all_sorted_distinct st this t vs :
  budget st = None → set_ok st this t →
  Z.of_nat (length (values t) + length vs) < size_t_mod →
  ∃ st',
    insert_all this vs st = (Ret tt, st')
    ∧ to_list this st'
      = (Ret (merge_sort Z.le (remove_dups (values t ++ vs))), st')
    ∧ size this st'
      = (Ret (Z.of_nat (length (remove_dups (values t ++ vs)))), st')
    ∧ empty this st' = (Ret (bool_decide (values t ++ vs = [])), st').
Proof.
  intros Hb Hok Hsz. rewrite length_values in Hsz.
  destruct (insert_all_run this vs st t Hb Hok Hsz)
    as (st' & t' & Hrun & Hb' & Hok' & Hmem & _).
  pose proof Hok' as (s' & Hs' & _ & _ & Hbst' & Hsize' & _).
  assert (values t' = merge_sort Z.le (remove_dups (values t ++ vs))) as Heq.
  { apply sorted_distinct_eq; [by apply bst_sorted|].
    intros x. by rewrite Hmem, elem_of_app. }
  exists st'. split; [done|].
  rewrite (to_list_run _ _ _ Hb' Hok'), (size_run _ _ _ Hok').
  rewrite (empty_run _ _ _ Hs'), Hsize', <-length_values, Heq.
  assert (length (merge_sort Z.le (remove_dups (values t ++ vs)))
          = length (remove_dups (values t ++ vs))) as ->
    by (by rewrite merge_sort_Permutation).
  do 2 (split; [done|]). do 2 f_equal.
  destruct (values t ++ vs) as [|y ys] eqn:Hl; [done|].
  rewrite bool_decide_eq_false_2 by done.
  assert (y ∈ remove_dups (y :: ys)) as Hy
    by (apply elem_of_remove_dups; left).
  destruct (remove_dups (y :: ys)); [by apply elem_of_nil in Hy|done].
Qed.

Lemma insert_all_sorted_distinct_witness :
  budget example_state = None ∧ set_ok example_state 0 example_tree
  ∧ ∃ st',
    insert_all 0 [7; 3; 7; 0] example_state = (Ret tt, st')
    ∧ to_list 0 st'
      = (Ret (merge_sort Z.le
                (remove_dups (values example_tree ++ [7; 3; 7; 0]))), st')
    ∧ size 0 st'
      = (Ret (Z.of_nat
                (length (remove_dups (values example_tree ++ [7; 3; 7; 0])))),
         st')
    ∧ empty 0 st'
      = (Ret (bool_decide (values example_tree ++ [7; 3; 7; 0] = [])), st').
Proof.
  assert (budget example_state = None) as Hb by reflexivity.
  assert (set_ok example_state 0 example_tree) as Hok
    by (apply set_okb_sound; vm_compute; reflexivity).
  split; [exact Hb|]. split; [exact Hok|].
  apply (insert_all_sorted_distinct example_state 0%nat example_tree
           [7; 3; 7; 0] Hb Hok).
  vm_compute. reflexivity.
Defined.

(** ** The cost of path copying *)

Lemma allocates_weaken {A} k j k' j' (m : M A) :
  allocates k j m → (k ≤ k')%nat → (j ≤ j')%nat → allocates k' j' m.
Proof. intros H ?? st. destruct (H st). lia. Qed.

Section allocates_rules.
Context {A B : Type}.

Lemma allocates_keep (m : M A) :
  (∀ st, length (nodes (exec m st)) = length (nodes st)
         ∧ length (vals (exec m st)) = length (vals st)) →
  allocates 0 0 m.
Proof. intros H st. destruct (H st). lia. Qed.

Lemma allocates_read_only (m : M A) : read_only m → allocates 0 0 m.
Proof.
  intros H. apply allocates_keep. intros st.
  destruct (H st) as (b & -> & _). done.
Qed.

Lemma allocates_bind k1 j1 k2 j2 (m : M A) (f : A → M B) :
  allocates k1 j1 m → (∀ a, allocates k2 j2 (f a)) →
  allocates (k1 + k2) (j1 + j2) (bind m f).
Proof.
  intros Hm Hf st. destruct (Hm st) as [Hn Hv].
  unfold exec, bind in *. destruct (m st) as [[a| |] st1]; simpl in *;
    [|lia..].
  destruct (Hf a st1). unfold exec in *. lia.
Qed.

Lemma allocates_bind_le k1 j1 k2 j2 k j (m : M A) (f : A → M B) :
  allocates k1 j1 m → (∀ a, allocates k2 j2 (f a)) →
  (k1 + k2 ≤ k)%nat → (j1 + j2 ≤ j)%nat →
  allocates k j (bind m f).
Proof.
  intros. eapply allocates_weaken; [by apply allocates_bind|done..].
Qed.

Lemma allocates_if k j (c : bool) (m1 m2 : M A) :
  allocates k j m1 → allocates k j m2 → allocates k j (if c then m1 else m2).
Proof. by destruct c. Qed.

End allocates_rules.

Lemma allocates_store p n : allocates 0 0 (store p n).
Proof.
  apply allocates_keep. intros st. unfold exec, store.
  destruct p as [s| |a]; simpl.
  - by destruct (sets st !! s).
  - done.
  - destruct (nodes st !! a); simpl; [|done]. by rewrite length_insert.
Qed.

Lemma allocates_put_set this s : allocates 0 0 (put_set this s).
Proof. by apply allocates_keep. Qed.

Lemma allocates_alloc_node n : allocates 1 0 (alloc_node n).
Proof.
  intros st. unfold exec, alloc_node. simpl. rewrite length_app. simpl. lia.
Qed.

Create HintDb allocates discriminated.
Global Hint Resolve allocates_store allocates_put_set : allocates.
Global Hint Extern 1 (allocates 0 0 _) =>
  apply allocates_read_only; solve [eauto with read_only] : allocates.

(** Cut a computation at its first bind: bounds for the first part, then
    for the rest. *)
Ltac allocates_cut k1 j1 k2 j2 :=
  apply (allocates_bind_le k1 j1 k2 j2); [|intros ?|lia|lia].

Ltac allocates_zero :=
  repeat first
    [ solve [eauto with allocates]
    | apply (allocates_bind 0 0 0 0); [|intros ?]
    | apply allocates_if
    | match goal with
      | |- allocates _ _ (match ?x with _ => _ end) => destruct x
      end ].

Lemma allocates_make_shared_T x : allocates 0 1 (make_shared_T x).
Proof.
  unfold make_shared_T. apply (allocates_bind 0 0 0 1); [allocates_zero|].
  intros _ st. unfold exec. simpl. rewrite length_app. simpl. lia.
Qed.

Lemma allocates_make_shared_copy n : allocates 1 0 (make_shared_copy n).
Proof.
  unfold make_shared_copy. apply (allocates_bind 0 0 1 0); [allocates_zero|].
  intros _. apply allocates_alloc_node.
Qed.

Lemma allocates_make_shared_leaf x : allocates 1 1 (make_shared_leaf x).
Proof.
  unfold make_shared_leaf. apply (allocates_bind 0 0 1 1); [allocates_zero|].
  intros _. apply (allocates_bind 0 1 1 0); [apply allocates_make_shared_T|].
  intros ?. apply allocates_alloc_node.
Qed.

Lemma allocates_set_left p q : allocates 0 0 (set_left p q).
Proof. unfold set_left. allocates_zero. Qed.

Lemma allocates_set_right p q : allocates 0 0 (set_right p q).
Proof. unfold set_right. allocates_zero. Qed.

Global Hint Resolve allocates_set_left allocates_set_right : allocates.

Lemma allocates_load_shared sp : allocates 0 0 (load_shared sp).
Proof. destruct sp; simpl; allocates_zero. Qed.

Global Hint Resolve allocates_load_shared : allocates.

Lemma allocates_copy_left p : allocates 1 0 (copy_left p).
Proof.
  unfold copy_left. allocates_cut 0%nat 0%nat 1%nat 0%nat; [allocates_zero|].
  allocates_cut 0%nat 0%nat 1%nat 0%nat; [allocates_zero|].
  allocates_cut 1%nat 0%nat 0%nat 0%nat; [apply allocates_make_shared_copy|].
  allocates_zero.
Qed.

Lemma allocates_copy_right p : allocates 1 0 (copy_right p).
Proof.
  unfold copy_right. allocates_cut 0%nat 0%nat 1%nat 0%nat; [allocates_zero|].
  allocates_cut 0%nat 0%nat 1%nat 0%nat; [allocates_zero|].
  allocates_cut 1%nat 0%nat 0%nat 0%nat; [apply allocates_make_shared_copy|].
  allocates_zero.
Qed.

Lemma allocates_undef {A} k j : allocates k j (@undef A).
Proof. intros st. unfold exec. simpl. lia. Qed.

Lemma allocates_zero_le {A} k j (m : M A) : allocates 0 0 m → allocates k j m.
Proof. intros. eapply allocates_weaken; [done|lia..]. Qed.

(** Each level of the descent copies one node; the last makes the leaf and
    its element. *)
Lemma allocates_insert_at fuel : ∀ next v,
  allocates fuel 1 (insert_at fuel next v).
Proof.
  induction fuel as [|fuel IH]; intros next v; [apply allocates_undef|].
  cbn [insert_at].
  allocates_cut 0%nat 0%nat (S fuel) 1%nat; [allocates_zero|].
  allocates_cut 0%nat 0%nat (S fuel) 1%nat; [allocates_zero|].
  allocates_cut 0%nat 0%nat (S fuel) 1%nat; [allocates_zero|].
  repeat apply allocates_if.
  - allocates_cut 1%nat 0%nat fuel 1%nat; [apply allocates_copy_left|].
    apply IH.
  - allocates_cut 1%nat 1%nat 0%nat 0%nat; [apply allocates_make_shared_leaf|].
    allocates_zero.
  - allocates_cut 1%nat 0%nat fuel 1%nat; [apply allocates_copy_right|].
    apply IH.
  - allocates_cut 1%nat 1%nat 0%nat 0%nat; [apply allocates_make_shared_leaf|].
    allocates_zero.
Qed.

Lemma allocates_swap_value p q : allocates 0 0 (swap_value p q).
Proof. unfold swap_value. allocates_zero. Qed.

Lemma allocates_erase_impl p q : allocates 0 0 (erase_impl p q).
Proof. unfold erase_impl. allocates_zero. Qed.

Global Hint Resolve allocates_swap_value allocates_erase_impl : allocates.

Lemma allocates_descend_right fuel : ∀ tmp_prev next,
  allocates fuel 0 (descend_right fuel tmp_prev next).
Proof.
  induction fuel as [|fuel IH]; intros tmp_prev next; cbn [descend_right].
  - allocates_cut 0%nat 0%nat 0%nat 0%nat; [allocates_zero|].
    apply allocates_if; [apply allocates_undef|allocates_zero].
  - allocates_cut 0%nat 0%nat (S fuel) 0%nat; [allocates_zero|].
    apply allocates_if; [|apply allocates_zero_le; allocates_zero].
    allocates_cut 1%nat 0%nat fuel 0%nat; [apply allocates_copy_right|].
    apply IH.
Qed.

Lemma allocates_erase_loop fuel : ∀ v prev next,
  allocates fuel 0 (erase_loop fuel v prev next).
Proof.
  induction fuel as [|fuel IH]; intros v prev next; [apply allocates_undef|].
  cbn [erase_loop].
  allocates_cut 0%nat 0%nat (S fuel) 0%nat; [allocates_zero|].
  allocates_cut 0%nat 0%nat (S fuel) 0%nat; [allocates_zero|].
  allocates_cut 0%nat 0%nat (S fuel) 0%nat; [allocates_zero|].
  apply allocates_if; [apply allocates_if|].
  - allocates_cut 1%nat 0%nat fuel 0%nat; [apply allocates_copy_left|].
    allocates_cut fuel 0%nat 0%nat 0%nat; [apply allocates_descend_right|].
    allocates_zero.
  - apply allocates_zero_le. allocates_zero.
  - allocates_cut 0%nat 0%nat (S fuel) 0%nat; [allocates_zero|].
    apply allocates_if.
    + allocates_cut 1%nat 0%nat fuel 0%nat; [apply allocates_copy_left|].
      apply IH.
    + allocates_cut 1%nat 0%nat fuel 0%nat; [apply allocates_copy_right|].
      apply IH.
Qed.

Lemma allocates_set_m_root this n : allocates 0 0 (set_m_root this n).
Proof. unfold set_m_root. allocates_zero. Qed.

Lemma allocates_set_m_size this k : allocates 0 0 (set_m_size this k).
Proof. unfold set_m_size. allocates_zero. Qed.

Global Hint Resolve allocates_set_m_root allocates_set_m_size : allocates.

Lemma bind_Ret_inv {A B} (m : M A) (f : A → M B) st b st' :
  bind m f st = (Ret b, st') →
  ∃ a st1, m st = (Ret a, st1) ∧ f a st1 = (Ret b, st').
Proof. unfold bind. destruct (m st) as [[a| |] st1]; [eauto|done..]. Qed.

Lemma try_catch_Ret_inv {A} (body : M A) handler st a st' :
  try_catch body handler st = (Ret a, st') → body st = (Ret a, st').
Proof.
  unfold try_catch. destruct (body st) as [[| |] st1]; [done| |done].
  by destruct (handler st1) as [[]].
Qed.

(** Split a run that returned at its first bind. *)
Ltac bind_inv H x st Hx :=
  apply bind_Ret_inv in H as (x & st & Hx & H).

(** *** More fuel does not change a run that returned *)

Lemma insert_at_fuel_S fuel : ∀ next v st st',
  insert_at fuel next v st = (Ret tt, st') →
  insert_at (S fuel) next v st = (Ret tt, st').
Proof.
  induction fuel as [|fuel IH]; intros next v st st' H; [done|].
  remember (S fuel) as f eqn:Hf. rewrite Hf in H.
  cbn [insert_at] in *.
  bind_inv H n st1 Hn. rewrite (bind_Ret _ _ _ _ _ Hn).
  bind_inv H x st2 Hx. rewrite (bind_Ret _ _ _ _ _ Hx).
  bind_inv H l st3 Hl. rewrite (bind_Ret _ _ _ _ _ Hl).
  destruct l, (non_null (left n)), (non_null (right n)); try done;
    bind_inv H c st4 Hc; rewrite (bind_Ret _ _ _ _ _ Hc); subst f;
    by apply IH.
Qed.

Lemma insert_at_fuel_le fuel fuel' next v st st' :
  (fuel ≤ fuel')%nat →
  insert_at fuel next v st = (Ret tt, st') →
  insert_at fuel' next v st = (Ret tt, st').
Proof. induction 1; [done|]. intros. by apply insert_at_fuel_S; auto. Qed.

Lemma descend_right_fuel_S fuel : ∀ tmp_prev next st r st',
  descend_right fuel tmp_prev next st = (Ret r, st') →
  descend_right (S fuel) tmp_prev next st = (Ret r, st').
Proof.
  induction fuel as [|fuel IH]; intros tmp_prev next st r st' H.
  - cbn [descend_right] in *.
    bind_inv H n st1 Hn. rewrite (bind_Ret _ _ _ _ _ Hn).
    by destruct (non_null (right n)).
  - remember (S fuel) as f eqn:Hf. rewrite Hf in H.
    cbn [descend_right] in *.
    bind_inv H n st1 Hn. rewrite (bind_Ret _ _ _ _ _ Hn).
    destruct (non_null (right n)); [|done].
    bind_inv H c st2 Hc. rewrite (bind_Ret _ _ _ _ _ Hc). subst f.
    by apply IH.
Qed.

Lemma erase_loop_fuel_S fuel : ∀ v prev next st st',
  erase_loop fuel v prev next st = (Ret tt, st') →
  erase_loop (S fuel) v prev next st = (Ret tt, st').
Proof.
  induction fuel as [|fuel IH]; intros v prev next st st' H; [done|].
  remember (S fuel) as f eqn:Hf. rewrite Hf in H.
  cbn [erase_loop] in *.
  bind_inv H n st1 Hn. rewrite (bind_Ret _ _ _ _ _ Hn).
  bind_inv H x st2 Hx. rewrite (bind_Ret _ _ _ _ _ Hx).
  bind_inv H e st3 He. rewrite (bind_Ret _ _ _ _ _ He).
  destruct e.
  - destruct (non_null (left n) && non_null (right n)); [|done].
    bind_inv H c st4 Hc. rewrite (bind_Ret _ _ _ _ _ Hc).
    bind_inv H tn st5 Htn. subst f.
    by rewrite (bind_Ret _ _ _ _ _ (descend_right_fuel_S _ _ _ _ _ _ Htn)).
  - bind_inv H l st4 Hl. rewrite (bind_Ret _ _ _ _ _ Hl).
    destruct l; bind_inv H c st5 Hc; rewrite (bind_Ret _ _ _ _ _ Hc);
      subst f; by apply IH.
Qed.

Lemma erase_loop_fuel_le fuel fuel' v prev next st st' :
  (fuel ≤ fuel')%nat →
  erase_loop fuel v prev next st = (Ret tt, st') →
  erase_loop fuel' v prev next st = (Ret tt, st').
Proof. induction 1; [done|]. intros. by apply erase_loop_fuel_S; auto. Qed.

Lemma exec_eq {A} (m : M A) st r st' : m st = (r, st') → exec m st = st'.
Proof. unfold exec. by intros ->. Qed.

(** The cells an insertion of a new value allocates: a copy of each node on
    the search path, and the leaf with its element. *)
Lemma insert_absent_cost st this t v r st' :
  budget st = None → set_ok st this t → v ∉ values t →
  insert this v st = (Ret r, st') →
  (length (nodes st') ≤ length (nodes st) + height t + 1)%nat
  ∧ (length (vals st') ≤ length (vals st) + 1)%nat.
Proof.
  intros Hb Hok Hv Hrun.
  pose proof Hok as (s & Hs & Hroot & Hr & Hbst & Hsize & _).
  rewrite insert_unfold in Hrun.
  rewrite (bind_Ret _ _ _ _ _ (find_run _ _ _ v Hb Hok)) in Hrun.
  rewrite (tfind_absent _ _ Hv) in Hrun.
  cbn [fmap option_fmap option_map it_at] in Hrun.
  rewrite iterator_eq_refl in Hrun. cbn [negb] in Hrun.
  rewrite (bind_Ret _ _ _ _ _ (get_set_run _ _ _ Hs)) in Hrun.
  apply try_catch_Ret_inv in Hrun. unfold insert_try in Hrun.
  rewrite (bind_Ret _ _ _ _ _ (get_set_run _ _ _ Hs)) in Hrun.
  bind_inv Hrun tmp' stA Hhead.
  assert ((length (nodes st') ≤ length (nodes stA))%nat
          ∧ (length (vals st') ≤ length (vals stA))%nat) as [Hn' Hv'].
  { match type of Hrun with
    | ?m stA = _ =>
        assert (allocates 0 0 m) as Hal by allocates_zero;
        specialize (Hal stA); rewrite (exec_eq _ _ _ _ Hrun) in Hal
    end. lia. }
  clear Hrun.
  rewrite Hroot in Hhead. cbn [left] in Hhead.
  destruct t as [|l b y r']; cbn [ptr_of non_null] in Hhead.
  - pose proof (allocates_make_shared_leaf v st) as Hal.
    bind_inv Hhead c st1 Hc. injection Hhead as _ <-.
    rewrite (exec_eq _ _ _ _ Hc) in Hal. simpl. lia.
  - pose proof (repr_Node_inv _ _ _ _ _ Hr) as (vy & Hcb & Hvy & Hl & Hrr).
    cbn [load_shared] in Hhead.
    rewrite (bind_Ret _ _ _ _ _ (load_heap_run _ _ _ Hcb)) in Hhead.
    rewrite (bind_Ret _ _ _ _ _ (make_shared_copy_run _ _ Hb)) in Hhead.
    rewrite (bind_Ret _ _ _ _ _ (heap_fuel_run _)) in Hhead.
    set (st0 := mk_state _ _ _ _ _) in Hhead.
    bind_inv Hhead u stB Hins. injection Hhead as _ <-.
    pose proof (repr_below _ _ Hr) as (Hbl & _ & Hbr)%below_Node.
    assert (extends st st0) as Hext0.
    { split; cbn [nodes vals]; [|done].
      intros ???; by apply lookup_app_l_Some. }
    destruct (insert_at_run (height (Node l b y r')) l y r' st0
                (length (nodes st)) vy (length (nodes st)) v)
      as (st1 & t' & Hrun1 & _); try done.
    + apply lookup_app_new.
    + by eapply repr_extends.
    + by eapply repr_extends.
    + intros Hv0. apply Hv. by rewrite values_Node in *.
    + pose proof (allocates_insert_at (height (Node l b y r'))
                    (length (nodes st)) v st0) as Hal.
      rewrite (exec_eq _ _ _ _ Hrun1) in Hal.
      apply (insert_at_fuel_le _ (S (length (nodes st0)))) in Hrun1.
      * destruct u. cbn [nodes] in Hins. rewrite Hins in Hrun1.
        injection Hrun1 as <-. subst st0. cbn [nodes vals] in Hal.
        rewrite length_app in Hal. simpl in *. lia.
      * pose proof (repr_height _ _ Hr Hbst). subst st0. cbn [nodes].
        rewrite length_app. simpl in *. lia.
Qed.

(** The cells an erasure allocates: a copy of each node on the search
    path, and of the path to the predecessor when the node erased has two
    children; no element is copied. *)
Lemma erase_cost st this t it n vp x r st' :
  budget st = None → set_ok st this t →
  cell st (it_node it) = Some n → value n = Some vp →
  vals st !! vp = Some x → x ∈ values t →
  erase this it st = (Ret r, st') →
  (length (nodes st') ≤ length (nodes st) + height t + 1)%nat
  ∧ (length (vals st') ≤ length (vals st))%nat.
Proof.
  intros Hb Hok Hit Hval Hvp Hx Hrun.
  pose proof Hok as (s & Hs & Hroot & Hr & Hbst & Hsize & Hsz).
  destruct t as [|l b y r']; [by apply elem_of_nil in Hx|].
  pose proof Hr as (vy & Hcb & Hvy & Hl & Hrr).
  pose proof (repr_below _ _ Hr) as (Hbl & Hbb & Hbr)%below_Node.
  set (n0 := length (nodes st)) in *.
  set (root := mk_node None (Some b) None).
  set (nb := mk_node (Some vy) (ptr_of l) (ptr_of r')).
  set (st1 := st_store AtTmp root st).
  set (st2 := st_store AtTmp (with_left root (Some n0)) (st_alloc nb st1)).
  rewrite erase_unfold in Hrun.
  rewrite (bind_Ret _ _ _ _ _ (get_set_run _ _ _ Hs)) in Hrun.
  apply try_catch_Ret_inv in Hrun. unfold erase_try in Hrun.
  rewrite (bind_Ret _ _ _ _ _ (load_cell _ _ _ Hit)) in Hrun.
  rewrite (bind_Ret _ _ _ _ _ (get_set_run _ _ _ Hs)) in Hrun.
  rewrite Hroot, Hval in Hrun. cbn [ptr_of] in Hrun. fold root in Hrun.
  erewrite bind_Ret in Hrun; [|by eapply store_cell].
  fold st1 in Hrun.
  erewrite bind_Ret in Hrun; [|by apply load_value_run].
  bind_inv Hrun u stA Hhead.
  assert ((length (nodes st') ≤ length (nodes stA))%nat
          ∧ (length (vals st') ≤ length (vals stA))%nat) as [Hn' Hv'].
  { match type of Hrun with
    | ?m stA = _ =>
        assert (allocates 0 0 m) as Hal by allocates_zero;
        specialize (Hal stA); rewrite (exec_eq _ _ _ _ Hrun) in Hal
    end. lia. }
  clear Hrun. unfold erase_at in Hhead.
  erewrite bind_Ret in Hhead; [|by eapply (copy_left_cell _ AtTmp _ b nb)].
  rewrite (bind_Ret _ _ _ _ _ (heap_fuel_run _)) in Hhead.
  change (erase_loop (S (length (nodes st2))) x AtTmp (AtHeap n0) st2
          = (Ret u, stA)) in Hhead.
  assert (changes_only [AtTmp] st st2) as Hch2.
  { subst st2 st1. repeat apply changes_only_then_store; try done;
      first [apply changes_only_then_alloc
            |apply changes_only_refl|left; in_list].
    apply changes_only_then_store; [apply changes_only_refl|done|left; in_list]. }
  assert (Forall (fresh n0) [AtTmp]) as Hfr by (by repeat constructor).
  destruct (erase_loop_run (height (Node l b y r')) l y r' st2 AtTmp n0
              (with_left root (Some n0)) vy n0 x)
    as (st3 & t' & Hrun3 & _); try done.
  { cbn [with_left root left].
    by rewrite points_at_Some, bool_decide_eq_true_2. }
  { change (cell st2 (AtHeap n0) = Some nb). subst st2.
    rewrite cell_store_ne by done. apply cell_alloc_new. }
  { by eapply (repr_changes n0). }
  { by eapply (repr_changes n0). }
  { by rewrite values_Node in *. }
  pose proof (allocates_erase_loop (height (Node l b y r')) x AtTmp
                (AtHeap n0) st2) as Hal.
  rewrite (exec_eq _ _ _ _ Hrun3) in Hal.
  apply (erase_loop_fuel_le _ (S (length (nodes st2)))) in Hrun3.
  - destruct u. rewrite Hhead in Hrun3. injection Hrun3 as <-.
    assert (length (nodes st2) = S n0 ∧ vals st2 = vals st) as [Hn2 Hv2].
    { subst st2 st1. cbn [st_store st_alloc nodes vals].
      rewrite length_app. simpl. split; [lia|done]. }
    rewrite Hn2, Hv2 in Hal. lia.
  - pose proof (repr_height _ _ Hr Hbst).
    assert (length (nodes st) ≤ length (nodes st2))%nat; [|simpl in *; lia].
    subst st2 st1. cbn [st_store st_alloc nodes]. rewrite length_app. lia.
Qed.

Lemma extends_vals_eq st st' :
  extends st st' → (length (vals st') ≤ length (vals st))%nat →
  vals st' = vals st.
Proof.
  intros [_ Hv] Hlen. apply list_eq. intros i.
  destruct (vals st !! i) as [y|] eqn:Hy; [by apply Hv|].
  apply lookup_ge_None in Hy. apply lookup_ge_None. lia.
Qed.

(** X18: on a well-formed set of height [h], an insertion allocates at
    most [h + 1] node cells (a copy of each node on the search path, and
    the leaf) and at most one element; an erasure allocates at most
    [h + 1] node cells and no element at all: the elements are shared, never
    copied.  An insertion of a value already present allocates nothing. *)
Theorem path_copying_cost st this t :
  budget st = None → set_ok st this t →
  (∀ v, Z.of_nat (length (values t)) + 1 < size_t_mod →
     ∃ r st',
       insert this v st = (Ret r, st')
       ∧ (length (nodes st') ≤ length (nodes st) + height t + 1)%nat
       ∧ (length (vals st') ≤ length (vals st) + 1)%nat
       ∧ (v ∈ values t → st' = st))
  ∧ (∀ a x, (a, x) ∈ cells t →
       ∃ r st',
         erase this (mk_iterator (AtHeap a) this) st = (Ret r, st')
         ∧ (length (nodes st') ≤ length (nodes st) + height t + 1)%nat
         ∧ vals st' = vals st).
Proof.
  intros Hb Hok. pose proof Hok as (s & Hs & Hroot & Hr & Hbst & Hsize & _).
  split.
  - intros v Hsz. rewrite length_values in Hsz.
    destruct (decide (v ∈ values t)) as [Hv|Hv].
    + destruct (insert_present_run _ _ _ _ Hb Hok Hv) as (a & Hrun & _).
      eexists _, st. split; [done|]. split; [lia|]. split; [lia|done].
    + destruct (insert_absent_run _ _ _ _ Hb Hok Hv Hsz)
        as (st' & t' & a & Hrun & _).
      eexists _, st'. split; [done|].
      destruct (insert_absent_cost _ _ _ _ _ _ Hb Hok Hv Hrun).
      done.
  - intros a x Hin.
    destruct (repr_lookup _ _ _ _ Hr Hin) as (n & vp & Hn & Hval & Hvp).
    assert (x ∈ values t) as Hx by (apply elem_of_values; eauto).
    destruct (erase_run _ _ _ (mk_iterator (AtHeap a) this) _ _ _
                Hb Hok Hn Hval Hvp Hx)
      as (st' & t' & Hrun & _ & _ & Hext & _).
    eexists _, st'. split; [done|].
    destruct (erase_cost _ _ _ (mk_iterator (AtHeap a) this) _ _ _ _ _
                Hb Hok Hn Hval Hvp Hx Hrun).
    split; [done|]. by apply extends_vals_eq.
Qed.

Lemma path_copying_cost_witness :
  budget example_state = None ∧ set_ok example_state 0 example_tree
  ∧ (∃ r st',
       insert 0 7 example_state = (Ret r, st')
       ∧ (length (nodes st')
          ≤ length (nodes example_state) + height example_tree + 1)%nat
       ∧ (length (vals st') ≤ length (vals example_state) + 1)%nat
       ∧ (7 ∈ values example_tree → st' = example_state))
  ∧ (∃ r st',
       erase 0 (mk_iterator (AtHeap 9) 0) example_state = (Ret r, st')
       ∧ (length (nodes st')
          ≤ length (nodes example_state) + height example_tree + 1)%nat
       ∧ vals st' = vals example_state).
Proof.
  assert (budget example_state = None) as Hb by reflexivity.
  assert (set_ok example_state 0 example_tree) as Hok
    by (apply set_okb_sound; vm_compute; reflexivity).
  assert ((9%nat, 3) ∈ cells example_tree) as Hin
    by (apply (bool_decide_unpack _); vm_compute; exact I).
  assert (Z.of_nat (length (values example_tree)) + 1 < size_t_mod) as Hsz
    by (vm_compute; reflexivity).
  pose proof (path_copying_cost example_state 0%nat example_tree Hb Hok)
    as [H1 H2].
  split; [exact Hb|]. split; [exact Hok|].
  split; [exact (H1 7 Hsz)|exact (H2 9%nat 3 Hin)].
Defined.

(** ** Exceptions in lookups; assignment gives an independent set *)

Lemma T_lt_throw x y st : budget st = Some O → T_lt x y st = (Throw, st).
Proof. intros H. unfold T_lt. by rewrite (bind_Throw _ _ _ _ (tick_throw _ H)). Qed.

Lemma T_gt_throw x y st : budget st = Some O → T_gt x y st = (Throw, st).
Proof. intros H. unfold T_gt. by rewrite (bind_Throw _ _ _ _ (tick_throw _ H)). Qed.

Lemma lower_bound_throw st this l b y r v :
  budget st = Some O → set_ok st this (Node l b y r) →
  lower_bound this v st = (Throw, st).
Proof.
  intros Hb (s & Hs & Hroot & (vy & Hcb & Hvy & _) & _).
  unfold lower_bound. msteps. rewrite Hroot. cbn [left ptr_of lower_bound_at].
  msteps. by apply bind_Throw, T_eq_throw.
Qed.

Lemma upper_bound_throw st this l b y r v :
  budget st = Some O → set_ok st this (Node l b y r) →
  upper_bound this v st = (Throw, st).
Proof.
  intros Hb (s & Hs & Hroot & (vy & Hcb & Hvy & _) & _).
  unfold upper_bound. msteps. rewrite Hroot. cbn [left ptr_of upper_bound_at].
  msteps. by apply bind_Throw, T_lt_throw.
Qed.

(** X19: the lookups have no handler of their own.  On a well-formed set
    that holds an element, when the next comparison throws, [find],
    [lower_bound], [upper_bound], [++it] and [--it] end with that exception
    and leave the state as it was; [begin()], [*it], [size()] and [empty()]
    compare nothing and return as usual. *)
Theorem lookups_propagate_exceptions st this t v a x :
  budget st = Some O → set_ok st this t → (a, x) ∈ cells t →
  let it := mk_iterator (AtHeap a) this in
  find this v st = (Throw, st)
  ∧ lower_bound this v st = (Throw, st)
  ∧ upper_bound this v st = (Throw, st)
  ∧ incr it st = (Throw, st) ∧ decr it st = (Throw, st)
  ∧ deref it st = (Ret x, st)
  ∧ (∃ b, begin this st = (Ret b, st))
  ∧ size this st = (Ret (Z.of_nat (length (values t))), st)
  ∧ empty this st = (Ret false, st).
Proof.
  intros Hb Hok Hin it.
  pose proof Hok as (s & Hs & Hroot & Hr & Hbst & Hsize & _).
  destruct (repr_lookup _ _ _ _ Hr Hin) as (n & vp & Hn & Hval & Hvp).
  destruct t as [|l b y r]; [by apply elem_of_nil in Hin|].
  pose proof Hr as (vy & Hcb & Hvy & _).
  split; [|split; [|split; [|split; [|split; [|split; [|split; [|split]]]]]]].
  - unfold find. by apply bind_Throw, (lower_bound_throw _ _ l b y r).
  - by apply (lower_bound_throw _ _ l b y r).
  - by apply (upper_bound_throw _ _ l b y r).
  - unfold incr, it. cbn [it_node set_ptr]. msteps. rewrite Hval. msteps.
    by apply (upper_bound_throw _ _ l b y r).
  - unfold decr, it. cbn [it_node set_ptr]. msteps. rewrite Hval.
    cbn [rev_upper_bound]. msteps. rewrite Hroot.
    cbn [left ptr_of rev_upper_bound_at]. msteps.
    by apply bind_Throw, T_gt_throw.
  - by eapply deref_run.
  - eexists. by apply begin_run.
  - rewrite length_values. by apply size_run.
  - rewrite (empty_run _ _ _ Hs), Hsize. do 2 f_equal.
    apply Z.eqb_neq. simpl. rewrite length_app. simpl. lia.
Qed.

Lemma lookups_propagate_exceptions_witness :
  budget (arm (Some O) example_state) = Some O
  ∧ set_ok (arm (Some O) example_state) 0 example_tree
  ∧ (9%nat, 3) ∈ cells example_tree
  ∧ find 0 4 (arm (Some O) example_state)
    = (Throw, arm (Some O) example_state)
  ∧ lower_bound 0 4 (arm (Some O) example_state)
    = (Throw, arm (Some O) example_state)
  ∧ upper_bound 0 4 (arm (Some O) example_state)
    = (Throw, arm (Some O) example_state)
  ∧ incr (mk_iterator (AtHeap 9) 0) (arm (Some O) example_state)
    = (Throw, arm (Some O) example_state)
  ∧ decr (mk_iterator (AtHeap 9) 0) (arm (Some O) example_state)
    = (Throw, arm (Some O) example_state)
  ∧ deref (mk_iterator (AtHeap 9) 0) (arm (Some O) example_state)
    = (Ret 3, arm (Some O) example_state)
  ∧ (∃ b, begin 0 (arm (Some O) example_state)
          = (Ret b, arm (Some O) example_state))
  ∧ size 0 (arm (Some O) example_state)
    = (Ret (Z.of_nat (length (values example_tree))),
       arm (Some O) example_state)
  ∧ empty 0 (arm (Some O) example_state)
    = (Ret false, arm (Some O) example_state).
Proof.
  assert (budget (arm (Some O) example_state) = Some O) as Hb by reflexivity.
  assert (set_ok (arm (Some O) example_state) 0 example_tree) as Hok
    by (apply set_okb_sound; vm_compute; reflexivity).
  assert ((9%nat, 3) ∈ cells example_tree) as Hin
    by (apply (bool_decide_unpack _); vm_compute; exact I).
  split; [exact Hb|]. split; [exact Hok|]. split; [exact Hin|].
  exact (lookups_propagate_exceptions (arm (Some O) example_state) 0%nat
           example_tree 4 9%nat 3 Hb Hok Hin).
Defined.

(** X20: a set that was assigned from another is as independent of it as a
    copy is.  After [this = other], whatever insertions and erasures are
    then applied to [this] (those cut short by an exception too), [other]
    holds the elements it held, in the same tree; and whatever is applied
    to [other], [this] holds the elements [other] held at the assignment. *)
Theorem assign_independent st this other s t ops :
  sets st !! this = Some s → set_ok st other t → this ≠ other →
  let st1 := exec (assign this other) st in
  run (assign this other) st = Ret tt
  ∧ run (to_list this) (disarm st1) = Ret (values t)
  ∧ (let st2 := apply_ops this ops st1 in
     set_ok st2 other t
     ∧ run (to_list other) (disarm st2) = Ret (values t)
     ∧ run (size other) st2 = Ret (Z.of_nat (length (values t))))
  ∧ (let st2 := apply_ops other ops st1 in
     set_ok st2 this t
     ∧ run (to_list this) (disarm st2) = Ret (values t)
     ∧ run (size this) st2 = Ret (Z.of_nat (length (values t)))).
Proof.
  intros Hs Hok Hne st1. pose proof Hok as (o & Ho & _).
  pose proof (lookup_lt_Some _ _ _ Hs) as Hlt.
  pose proof (assign_run _ _ _ _ _ Hs Ho) as Hrun.
  subst st1. unfold run at 1, exec. rewrite Hrun. cbn [fst snd].
  set (st1 := with_sets st _).
  assert (set_ok st1 this t) as Hthis.
  { eapply set_ok_with_sets; [done..|]. by apply list_lookup_insert_eq. }
  assert (set_ok st1 other t) as Hother.
  { eapply set_ok_with_sets; [done..|]. by rewrite list_lookup_insert_ne. }
  assert (∀ st0 c, set_ok st0 c t →
            run (to_list c) (disarm st0) = Ret (values t)
            ∧ run (size c) st0 = Ret (Z.of_nat (length (values t)))) as Hobs.
  { intros st0 c Hok0. unfold run.
    rewrite (to_list_run (disarm st0) c t); [|done|by apply set_ok_arm].
    by rewrite (size_run _ _ _ Hok0), length_values. }
  split; [done|]. split; [by apply Hobs|]. split.
  - assert (set_ok (apply_ops this ops st1) other t) as Hok2.
    { eapply (set_ok_untouched this); [done|exact Hother|].
      apply apply_ops_untouched. }
    split; [done|]. by apply Hobs.
  - assert (set_ok (apply_ops other ops st1) this t) as Hok2.
    { eapply (set_ok_untouched other); [done|exact Hthis|].
      apply apply_ops_untouched. }
    split; [done|]. by apply Hobs.
Qed.

Lemma assign_independent_witness :
  sets pair_state !! 1%nat = Some (mk_set (mk_node None (Some 12%nat) None) 2)
  ∧ set_ok pair_state 0 example_tree ∧ 1%nat ≠ 0%nat
  ∧ run (assign 1 0) pair_state = Ret tt
  ∧ run (to_list 1) (disarm (exec (assign 1 0) pair_state))
    = Ret (values example_tree)
  ∧ (set_ok (apply_ops 1 example_ops (exec (assign 1 0) pair_state)) 0
       example_tree
     ∧ run (to_list 0)
         (disarm (apply_ops 1 example_ops (exec (assign 1 0) pair_state)))
       = Ret (values example_tree)
     ∧ run (size 0) (apply_ops 1 example_ops (exec (assign 1 0) pair_state))
       = Ret (Z.of_nat (length (values example_tree))))
  ∧ (set_ok (apply_ops 0 example_ops (exec (assign 1 0) pair_state)) 1
       example_tree
     ∧ run (to_list 1)
         (disarm (apply_ops 0 example_ops (exec (assign 1 0) pair_state)))
       = Ret (values example_tree)
     ∧ run (size 1) (apply_ops 0 example_ops (exec (assign 1 0) pair_state))
       = Ret (Z.of_nat (length (values example_tree)))).
Proof.
  assert (sets pair_state !! 1%nat
          = Some (mk_set (mk_node None (Some 12%nat) None) 2)) as Hs
    by reflexivity.
  assert (set_ok pair_state 0 example_tree) as Hok
    by (apply set_okb_sound; vm_compute; reflexivity).
  assert (1%nat ≠ 0%nat) as Hne by done.
  split; [exact Hs|]. split; [exact Hok|]. split; [exact Hne|].
  exact (assign_independent pair_state 1%nat 0%nat _ example_tree example_ops
           Hs Hok Hne).
Defined.

(** ** Erasing in a loop *)

(** Below every element, the lower bound is the first cell. *)
Lemma lb_below_min st t x :
  repr st t → bst t → (∀ y, y ∈ values t → x ≤ y) →
  fst <$> lb t x = head (addrs t).
Proof.
  intros Hr Hbst Hmin. pose proof (lb_spec t x Hbst) as Hlb.
  pose proof (bst_sorted _ Hbst) as Hsorted.
  pose proof (bst_NoDup _ Hbst) as Hnd.
  unfold addrs, values in *.
  destruct (lb t x) as [[a y]|] eqn:Heq; simpl.
  - pose proof (lb_elem_of _ _ _ Heq) as Hin. destruct Hlb as [Hxy Hleast].
    destruct (cells t) as [|[b z] cs] eqn:Hc; [by apply elem_of_nil in Hin|].
    simpl in *. f_equal.
    apply StronglySorted_cons in Hsorted as [Hall _].
    rewrite Forall_forall in Hall.
    assert (y = z) as ->.
    { apply elem_of_cons in Hin as [?|Hin]; [by simplify_eq|].
      assert (z < y) by (apply Hall, list_elem_of_fmap; by exists (a, y)).
      assert (y ≤ z) by (apply Hleast; [left|apply Hmin; left]). lia. }
    eapply (cells_value_inj ((b, z) :: cs)); [done|done|left].
  - destruct (cells t) as [|[b z] cs]; [done|].
    assert (z < x) by (apply Hlb; left).
    assert (x ≤ z) by (apply Hmin; left). lia.
Qed.

Lemma erase_from_run this n : ∀ t st fuel,
  length (cells t) = n → (n ≤ fuel)%nat →
  budget st = None → set_ok st this t →
  ∃ st', erase_from fuel this (it_at this (head (addrs t))) st = (Ret tt, st')
         ∧ budget st' = None ∧ set_ok st' this Leaf ∧ untouched this st st'.
Proof.
  induction n as [|n IH]; intros t st fuel Hlen Hfuel Hb Hok.
  - destruct t as [|l a x r]; [|simpl in Hlen; rewrite length_app in Hlen;
                                 simpl in Hlen; lia].
    exists st. split; [|split; [done|split; [done|apply untouched_refl]]].
    destruct fuel; simpl; by rewrite iterator_eq_refl.
  - pose proof Hok as (s & Hs & Hroot & Hr & Hbst & _).
    destruct fuel as [|fuel]; [lia|].
    unfold addrs. destruct (cells t) as [|[a x] cs] eqn:Hc; [done|].
    cbn [fmap list_fmap head it_at erase_from].
    rewrite iterator_eq_heap_end.
    assert ((a, x) ∈ cells t) as Hin by (rewrite Hc; left).
    destruct (repr_lookup _ _ _ _ Hr Hin) as (nd & vp & Hn & Hval & Hvp).
    assert (x ∈ values t) as Hx by (apply elem_of_values; eauto).
    destruct (erase_run _ _ _ (mk_iterator (AtHeap a) this) _ _ _
                Hb Hok Hn Hval Hvp Hx)
      as (st1 & t1 & Hrun & Hok1 & Hperm & Hext & Hb1 & Hlen1 & Hoth).
    pose proof Hok1 as (_ & _ & _ & Hr1 & Hbst1 & _).
    rewrite (bind_Ret _ _ _ _ _ Hrun).
    assert (∀ y, y ∈ values t1 → x ≤ y) as Hmin.
    { intros y Hy. pose proof (bst_sorted _ Hbst) as Hsorted.
      unfold values in Hsorted. rewrite Hc in Hsorted. simpl in Hsorted.
      apply StronglySorted_cons in Hsorted as [Hall _].
      assert (y ∈ values t) as Hyt by (rewrite Hperm; by right).
      unfold values in Hyt. rewrite Hc in Hyt. simpl in Hyt.
      apply elem_of_cons in Hyt as [->|Hyt]; [lia|].
      eapply Forall_forall in Hall; [|done]. lia. }
    rewrite (lb_below_min _ _ _ Hr1 Hbst1 Hmin).
    destruct (IH t1 st1 fuel) as (st' & Hrun' & Hb' & Hok' & Hunt); try done.
    + apply (f_equal length) in Hc. simpl in Hc, Hlen.
      assert (length (values t) = S (length (values t1))) as Hl
        by (by rewrite Hperm).
      rewrite !length_values in Hl. lia.
    + lia.
    + exists st'. split; [done|]. split; [done|]. split; [done|].
      eapply untouched_trans; [|done]. by apply untouched_of_absent.
Qed.

(** X21: the iterator that [erase] returns carries an erasing loop
    through the whole set.  On a well-formed set, starting at [begin()] and
    erasing through the iterator that the previous [erase] returned until
    it is [end()] comes to an end and leaves a well-formed empty set, whose
    [size()] is 0 and whose iteration yields nothing; every other set
    object, a copy included, still holds its elements. *)
Theorem erase_all_empties st this t :
  budget st = None → set_ok st this t →
  ∃ st', erase_all this st = (Ret tt, st')
    ∧ set_ok st' this Leaf
    ∧ run (to_list this) st' = Ret []
    ∧ run (size this) st' = Ret 0
    ∧ ∀ other to, other ≠ this → set_ok st other to → set_ok st' other to.
Proof.
  intros Hb Hok. pose proof Hok as (s & Hs & Hroot & Hr & Hbst & _).
  destruct (erase_from_run this (length (cells t)) t st
              (S (length (nodes st)))) as (st' & Hrun & Hb' & Hok' & Hunt);
    [done| |done..|].
  { pose proof (repr_size _ _ Hr Hbst). lia. }
  exists st'. split.
  { unfold erase_all. rewrite (bind_Ret _ _ _ _ _ (begin_run _ _ _ Hok)).
    by msteps. }
  split; [done|]. unfold run.
  rewrite (to_list_run _ _ _ Hb' Hok'), (size_run _ _ _ Hok').
  do 2 (split; [done|]).
  intros other to Hne Hto. by eapply set_ok_untouched.
Qed.

Lemma erase_all_empties_witness :
  budget copied_state = None ∧ set_ok copied_state 1 example_tree
  ∧ ∃ st', erase_all 1 copied_state = (Ret tt, st')
    ∧ set_ok st' 1 Leaf
    ∧ run (to_list 1) st' = Ret []
    ∧ run (size 1) st' = Ret 0
    ∧ ∀ other to, other ≠ 1%nat → set_ok copied_state other to →
                  set_ok st' other to.
Proof.
  assert (budget copied_state = None) as Hb by reflexivity.
  assert (set_ok copied_state 1 example_tree) as Hok
    by (apply set_okb_sound; vm_compute; reflexivity).
  split; [exact Hb|]. split; [exact Hok|].
  exact (erase_all_empties copied_state 1%nat example_tree Hb Hok).
Defined.

(** ** The shape of the tree after insertions *)

(** [insert_at] builds the tree that [sinsert] describes. *)
Lemma insert_at_shape_run fuel : ∀ l x r st a vp n0 v,
  budget st = None → (n0 ≤ a)%nat →
  nodes st !! a = Some (mk_node (Some vp) (ptr_of l) (ptr_of r)) →
  vals st !! vp = Some x →
  repr st l → repr st r → below n0 l → below n0 r →
  bst (Node l a x r) → v ∉ values (Node l a x r) →
  (height (Node l a x r) ≤ fuel)%nat →
  ∃ st' t', insert_at fuel a v st = (Ret tt, st')
            ∧ ptr_of t' = Some a ∧ repr st' t' ∧ bst t'
            ∧ values t' ≡ₚ v :: values (Node l a x r)
            ∧ changes_at a st st'
            ∧ shape_of t' = sinsert (shape_of (Node l a x r)) v.
Proof.
  induction fuel as [|fuel IH];
    intros l x r st a vp n0 v Hb Hn0 Ha Hvp Hl Hr Hbl Hbr Hbst Hv Hf;
    [simpl in Hf; lia|].
  pose proof (lookup_lt_Some _ _ _ Ha) as Halloc.
  apply bst_Node_inv in Hbst as (Hlx & Hrx & Hbstl & Hbstr).
  rewrite elem_of_values_Node in Hv.
  cbn [insert_at]. mstep. cbn [value left right]. msteps.
  destruct (Z.ltb_spec v x) as [Hlt|Hge].
  - destruct l as [|ll b y lr]; cbn [ptr_of non_null].
    + rewrite (bind_Ret _ _ _ _ _ (make_shared_leaf_run _ v Hb)).
      erewrite set_left_heap_run
        by (cbn [nodes]; by apply lookup_app_l_Some).
      eexists _, (Node (Node Leaf (length (nodes st)) v Leaf) a x r).
      split; [done|]. split; [done|].
      assert (∀ b, (b < n0)%nat →
        <[a:=with_left (mk_node (Some vp) None (ptr_of r))
               (Some (length (nodes st)))]>
          (nodes st ++ [mk_node (Some (length (vals st))) None None]) !! b
        = nodes st !! b) as Hold.
      { intros b ?. apply lookup_insert_app_old; lia. }
      split; [|split; [|split; [|split]]].
      * exists vp. cbn [nodes vals ptr_of]. split; [|split; [|split]].
        -- by apply lookup_insert_app_eq.
        -- by apply lookup_app_l_Some.
        -- exists (length (vals st)). cbn [nodes vals ptr_of repr].
           split; [by apply lookup_insert_app_new|].
           split; [apply lookup_app_new|done].
        -- eapply repr_preserved; [done..|].
           intros ???. by apply lookup_app_l_Some.
      * cbn [bst]. rewrite values_Node. repeat split; try done.
        repeat constructor. done.
      * rewrite !values_Node. done.
      * unfold changes_at. cbn [nodes vals sets tmp budget].
        rewrite length_insert, length_app. simpl.
        repeat split; try done; [lia|..].
        -- intros. by apply lookup_insert_app_old.
        -- intros ???. by apply lookup_app_l_Some.
      * cbn [shape_of sinsert]. by rewrite (proj2 (Z.ltb_lt v x)).
    + apply repr_Node_inv in Hl as (vy & Hcb & Hvy & Hll & Hlr).
      apply below_Node in Hbl as (Hbll & Hbn0 & Hblr).
      erewrite (bind_Ret _ _ _ _ _
                  (copy_left_heap_run _ _ _ _ _ Hb Ha eq_refl Hcb)).
      set (st1 := mk_state _ _ _ _ _).
      assert (∀ c, (c < n0)%nat → nodes st1 !! c = nodes st !! c) as Hold.
      { intros c ?. apply lookup_insert_app_old; lia. }
      destruct (IH ll y lr st1 (length (nodes st)) vy n0 v)
        as (st' & tl' & Hrun & Hptr & Hrepr & Hbst' & Hperm & Hch & Hshape);
        try done.
      * lia.
      * by apply lookup_insert_app_new.
      * by eapply repr_preserved.
      * by eapply repr_preserved.
      * intros Hin. apply Hv. left. by rewrite values_Node in *.
      * simpl in *. lia.
      * destruct Hch as (Hb' & Hs' & Ht' & Hlen & Hcells & Hvals).
        assert (length (nodes st1) = S (length (nodes st))) as Hlen1.
        { subst st1. cbn [nodes]. rewrite length_insert, length_app.
          simpl. lia. }
        exists st', (Node tl' a x r). split; [done|]. split; [done|].
        split; [|split; [|split; [|split]]].
        -- exists vp. rewrite Hptr. split; [|split; [|split]].
           ++ rewrite Hcells by lia. by apply lookup_insert_app_eq.
           ++ auto.
           ++ done.
           ++ eapply (repr_preserved n0); [exact Hr|done| |done].
              intros c ?. rewrite Hcells by lia. auto.
        -- cbn [bst]. repeat split; try done.
           rewrite Hperm. constructor; [done|]. by rewrite values_Node in *.
        -- rewrite values_Node, Hperm, !values_Node. done.
        -- unfold changes_at. rewrite Hb', Hs', Ht'.
           repeat split; try done; [lia|].
           intros c ??. rewrite Hcells by lia.
           by apply lookup_insert_app_old.
        -- cbn [shape_of sinsert]. rewrite (proj2 (Z.ltb_lt v x)) by done.
           by rewrite Hshape.
  - assert (x < v) as Hgt by (assert (v ≠ x) by naive_solver; lia).
    destruct r as [|rl b y rr]; cbn [ptr_of non_null].
    + rewrite (bind_Ret _ _ _ _ _ (make_shared_leaf_run _ v Hb)).
      erewrite set_right_heap_run
        by (cbn [nodes]; by apply lookup_app_l_Some).
      eexists _, (Node l a x (Node Leaf (length (nodes st)) v Leaf)).
      split; [done|]. split; [done|].
      assert (∀ b, (b < n0)%nat →
        <[a:=with_right (mk_node (Some vp) (ptr_of l) None)
               (Some (length (nodes st)))]>
          (nodes st ++ [mk_node (Some (length (vals st))) None None]) !! b
        = nodes st !! b) as Hold.
      { intros b ?. apply lookup_insert_app_old; lia. }
      split; [|split; [|split; [|split]]].
      * exists vp. cbn [nodes vals ptr_of]. split; [|split; [|split]].
        -- by apply lookup_insert_app_eq.
        -- by apply lookup_app_l_Some.
        -- eapply repr_preserved; [done..|].
           intros ???. by apply lookup_app_l_Some.
        -- exists (length (vals st)). cbn [nodes vals ptr_of repr].
           split; [by apply lookup_insert_app_new|].
           split; [apply lookup_app_new|done].
      * cbn [bst]. rewrite values_Node. repeat split; try done.
        repeat constructor. done.
      * rewrite !values_Node. simpl.
        rewrite (Permutation_swap v x). by rewrite <-Permutation_middle.
      * unfold changes_at. cbn [nodes vals sets tmp budget].
        rewrite length_insert, length_app. simpl.
        repeat split; try done; [lia|..].
        -- intros. by apply lookup_insert_app_old.
        -- intros ???. by apply lookup_app_l_Some.
      * cbn [shape_of sinsert]. by rewrite (proj2 (Z.ltb_ge v x)) by lia.
    + apply repr_Node_inv in Hr as (vy & Hcb & Hvy & Hrl & Hrr).
      apply below_Node in Hbr as (Hbrl & Hbn0 & Hbrr).
      erewrite (bind_Ret _ _ _ _ _
                  (copy_right_heap_run _ _ _ _ _ Hb Ha eq_refl Hcb)).
      set (st1 := mk_state _ _ _ _ _).
      assert (∀ c, (c < n0)%nat → nodes st1 !! c = nodes st !! c) as Hold.
      { intros c ?. apply lookup_insert_app_old; lia. }
      destruct (IH rl y rr st1 (length (nodes st)) vy n0 v)
        as (st' & tr' & Hrun & Hptr & Hrepr & Hbst' & Hperm & Hch & Hshape);
        try done.
      * lia.
      * by apply lookup_insert_app_new.
      * by eapply repr_preserved.
      * by eapply repr_preserved.
      * intros Hin. apply Hv. right; right. by rewrite values_Node in *.
      * simpl in *. lia.
      * destruct Hch as (Hb' & Hs' & Ht' & Hlen & Hcells & Hvals).
        assert (length (nodes st1) = S (length (nodes st))) as Hlen1.
        { subst st1. cbn [nodes]. rewrite length_insert, length_app.
          simpl. lia. }
        exists st', (Node l a x tr'). split; [done|]. split; [done|].
        split; [|split; [|split; [|split]]].
        -- exists vp. rewrite Hptr. split; [|split; [|split]].
           ++ rewrite Hcells by lia. by apply lookup_insert_app_eq.
           ++ auto.
           ++ eapply (repr_preserved n0); [exact Hl|done| |done].
              intros c ?. rewrite Hcells by lia. auto.
           ++ done.
        -- cbn [bst]. repeat split; try done.
           rewrite Hperm. constructor; [done|]. by rewrite values_Node in *.
        -- rewrite values_Node, Hperm, !values_Node.
           rewrite (Permutation_swap v x). by rewrite <-Permutation_middle.
        -- unfold changes_at. rewrite Hb', Hs', Ht'.
           repeat split; try done; [lia|].
           intros c ??. rewrite Hcells by lia.
           by apply lookup_insert_app_old.
        -- cbn [shape_of sinsert]. rewrite (proj2 (Z.ltb_ge v x)) by lia.
           by rewrite Hshape.
Qed.

Lemma insert_absent_shape st this t v :
  budget st = None → set_ok st this t → v ∉ values t →
  Z.of_nat (length (cells t)) + 1 < size_t_mod →
  ∃ st' t' a,
    insert this v st = (Ret (mk_iterator (AtHeap a) this, true), st')
    ∧ set_ok st' this t' ∧ budget st' = None
    ∧ values t' ≡ₚ v :: values t
    ∧ shape_of t' = sinsert (shape_of t) v.
Proof.
  intros Hb Hok Hin Hsz. pose proof Hok as (s & Hs & Hroot & Hr & Hbst & Hsize & _).
  (* the state once the new path has been built, and the new tree *)
  assert (∃ st1 t',
    (let* s := get_set this in
     if non_null (left (m_root s)) then
       let* child := load_shared (left (m_root s)) in
       let* c := make_shared_copy child in
       let* fuel := heap_fuel in
       let* _ := insert_at fuel c v in
       ret (with_left (m_root s) (Some c))
     else
       let* c := make_shared_leaf v in
       ret (with_left (m_root s) (Some c))) st
    = (Ret (mk_node None (ptr_of t') None), st1)
    ∧ repr st1 t' ∧ bst t' ∧ values t' ≡ₚ v :: values t
    ∧ extends st st1 ∧ budget st1 = None ∧ sets st1 = sets st
    ∧ shape_of t' = sinsert (shape_of t) v)
    as (st1 & t' & Hrun & Hr' & Hbst' & Hperm & Hext & Hb1 & Hs1 & Hshape).
  { mstep. rewrite Hroot. cbn [left].
    destruct t as [|l b y r]; cbn [ptr_of non_null].
    - rewrite (bind_Ret _ _ _ _ _ (make_shared_leaf_run _ v Hb)).
      eexists _, (Node Leaf (length (nodes st)) v Leaf).
      split; [done|]. split; [|split; [|split; [|split; [|split]]]]; try done.
      + exists (length (vals st)). cbn [nodes vals ptr_of repr].
        split; [apply lookup_app_new|]. split; [apply lookup_app_new|done].
      + split; simpl; intros ???; by apply lookup_app_l_Some.
    - pose proof (repr_Node_inv _ _ _ _ _ Hr) as (vy & Hcb & Hvy & Hl & Hrr).
      cbn [load_shared]. mstep.
      rewrite (bind_Ret _ _ _ _ _ (make_shared_copy_run _ _ Hb)). mstep.
      set (st0 := mk_state _ _ _ _ _).
      pose proof (repr_below _ _ Hr) as (Hbl & _ & Hbr)%below_Node.
      assert (extends st st0) as Hext0.
      { split; cbn [nodes vals]; [|done].
        intros ???; by apply lookup_app_l_Some. }
      destruct (insert_at_shape_run (S (length (nodes st0))) l y r st0
                  (length (nodes st)) vy (length (nodes st)) v)
        as (st1 & t' & Hrun & Hptr & Hr' & Hbst' & Hperm & Hch & Hshape);
        try done.
      + apply lookup_app_new.
      + by eapply repr_extends.
      + by eapply repr_extends.
      + intros Hv. apply Hin. by rewrite values_Node in *.
      + pose proof (repr_height _ _ Hr Hbst). subst st0. cbn [nodes].
        rewrite length_app. simpl in *. lia.
      + destruct Hch as (Hb' & Hs' & Ht' & Hlen & Hcells & Hvals).
        cbn [nodes] in Hrun. rewrite (bind_Ret _ _ _ _ _ Hrun).
        exists st1, t'. rewrite Hptr. split; [done|]. split; [done|].
        split; [done|]. split; [by rewrite Hperm, !values_Node|].
        split; [|split; [by rewrite Hb'|split; [by rewrite Hs'|done]]].
        split; [|done].
        intros c n Hc. pose proof (lookup_lt_Some _ _ _ Hc) as Hlt.
        rewrite Hcells; [by apply Hext0| |lia].
        subst st0. cbn [nodes]. rewrite length_app. lia. }
  assert (this < length (sets st))%nat as Hthis by by eapply lookup_lt_Some.
  assert (length (cells t') = S (length (cells t))) as Hlen'.
  { rewrite <-!length_values, Hperm. done. }
  set (s' := mk_set (mk_node None (ptr_of t') None)
                    (Z.of_nat (length (cells t')))).
  set (st' := mk_state (nodes st1) (vals st1) (<[this := s']> (sets st))
                       (tmp st1) None).
  assert (set_ok st' this t') as Hok'.
  { exists s'. subst st' s'. cbn [sets m_root m_size].
    split; [by apply list_lookup_insert_eq|]. split; [done|].
    split; [eapply repr_extends; [exact Hr'|by split]|].
    split; [done|]. split; [done|]. lia. }
  assert (∃ a, tfind t' v = Some (a, v)) as [a Hfind].
  { apply tfind_present; [done|]. rewrite Hperm. left. }
  exists st', t', a. split.
  - unfold insert.
    rewrite (bind_Ret _ _ _ _ _ (find_run _ _ _ v Hb Hok)).
    rewrite (tfind_absent _ _ Hin). cbn [fmap option_fmap option_map it_at].
    rewrite iterator_eq_refl. cbn [negb]. mstep.
    apply try_catch_Ret.
    rewrite <-bind_bind. rewrite (bind_Ret _ _ _ _ _ Hrun).
    erewrite bind_Ret; [|apply set_m_root_run; by rewrite Hs1].
    erewrite bind_Ret; [|apply get_set_run; cbn [sets];
                         rewrite Hs1; by apply list_lookup_insert_eq].
    erewrite bind_Ret; [|apply set_m_size_run; cbn [sets];
                         rewrite Hs1; by apply list_lookup_insert_eq].
    cbn [m_root m_size nodes vals sets tmp budget].
    rewrite list_insert_insert_eq, Hs1, Hb1, Hsize.
    rewrite Z.mod_small by lia.
    replace (Z.of_nat (length (cells t)) + 1)
      with (Z.of_nat (length (cells t'))) by lia.
    fold s'. fold st'.
    erewrite bind_Ret; [|by apply find_run].
    by rewrite Hfind.
  - done.
Qed.

Lemma svalues_shape_of t : svalues (shape_of t) = values t.
Proof.
  induction t as [|l IHl a x r IHr]; [done|].
  simpl. by rewrite values_Node, IHl, IHr.
Qed.

Lemma sheight_shape_of t : sheight (shape_of t) = height t.
Proof. induction t as [|l IHl a x r IHr]; simpl; congruence. Qed.

Lemma svalues_spine xs : svalues (spine xs) = xs.
Proof. induction xs as [|x xs IH]; simpl; congruence. Qed.

Lemma sheight_spine xs : sheight (spine xs) = length xs.
Proof. induction xs as [|x xs IH]; simpl; [done|]. by rewrite IH. Qed.

Lemma sinsert_spine xs v :
  Forall (λ y, y < v) xs → sinsert (spine xs) v = spine (xs ++ [v]).
Proof.
  induction 1 as [|x xs Hx _ IH]; simpl; [done|].
  rewrite (proj2 (Z.ltb_ge v x)) by lia. by rewrite IH.
Qed.

(** Values that arrive in ascending order are hung one below the other. *)
Lemma foldl_sadd_spine suf : ∀ pre,
  StronglySorted Z.lt (pre ++ suf) →
  foldl sadd (spine pre) suf = spine (pre ++ suf).
Proof.
  induction suf as [|v suf IH]; intros pre Hs; simpl.
  { by rewrite app_nil_r. }
  replace (pre ++ v :: suf) with ((pre ++ [v]) ++ suf) in *
    by (by rewrite <-app_assoc).
  rewrite <-IH by done. f_equal.
  apply StronglySorted_app in Hs as (_ & Hpre & _).
  pose proof (sorted_snoc_lt _ _ Hpre) as Hlt.
  unfold sadd. rewrite svalues_spine, bool_decide_eq_false_2.
  - by apply sinsert_spine.
  - intros Hin. eapply Forall_forall in Hlt; [|done]. lia.
Qed.

Lemma insert_all_shape this vs : ∀ st t,
  budget st = None → set_ok st this t →
  Z.of_nat (length (cells t) + length vs) < size_t_mod →
  ∃ st' t',
    insert_all this vs st = (Ret tt, st')
    ∧ set_ok st' this t' ∧ shape_of t' = foldl sadd (shape_of t) vs.
Proof.
  induction vs as [|v vs IH]; intros st t Hb Hok Hsz; simpl.
  { by exists st, t. }
  simpl in Hsz. unfold sadd at 2. rewrite svalues_shape_of.
  case_bool_decide as Hv.
  - destruct (insert_present_run _ _ _ _ Hb Hok Hv) as (a & Hrun & _).
    rewrite (bind_Ret _ _ _ _ _ Hrun). apply IH; [done..|lia].
  - destruct (insert_absent_shape _ _ _ _ Hb Hok Hv)
      as (st1 & t1 & a & Hrun & Hok1 & Hb1 & Hperm & Hshape); [lia|].
    rewrite (bind_Ret _ _ _ _ _ Hrun). rewrite <-Hshape.
    apply IH; [done..|].
    assert (length (values t1) = S (length (values t))) as Hl
      by (by rewrite Hperm).
    rewrite !length_values in Hl. lia.
Qed.

(** X22: [insert] never rebalances.  After a sequence of insertions the
    tree of the set has exactly the shape that plain insertion into an
    unbalanced search tree gives: each new value becomes a leaf at the end
    of its search path, and a value that is there changes nothing.  So
    values inserted in ascending order into an empty set make a tree in
    which no node has a left child, as high as the set has elements. *)
Theorem insert_shape :
  (∀ st this t vs,
     budget st = None → set_ok st this t →
     Z.of_nat (length (values t) + length vs) < size_t_mod →
     ∃ st' t',
       insert_all this vs st = (Ret tt, st')
       ∧ set_ok st' this t'
       ∧ shape_of t' = foldl sadd (shape_of t) vs)
  ∧ (∀ st this vs,
       budget st = None → set_ok st this Leaf →
       StronglySorted Z.lt vs → Z.of_nat (length vs) < size_t_mod →
       ∃ st' t',
         insert_all this vs st = (Ret tt, st')
         ∧ set_ok st' this t'
         ∧ shape_of t' = spine vs ∧ height t' = length vs).
Proof.
  split.
  - intros st this t vs Hb Hok Hsz. rewrite length_values in Hsz.
    by apply insert_all_shape.
  - intros st this vs Hb Hok Hsorted Hsz.
    destruct (insert_all_shape this vs st Leaf Hb Hok)
      as (st' & t' & Hrun & Hok' & Hshape); [done|].
    exists st', t'. split; [done|]. split; [done|].
    change (shape_of Leaf) with (spine []) in Hshape.
    rewrite (foldl_sadd_spine vs []) in Hshape by done.
    split; [done|]. by rewrite <-sheight_shape_of, Hshape, sheight_spine.
Qed.

Lemma insert_shape_witness :
  budget example_state = None ∧ set_ok example_state 0 example_tree
  ∧ (∃ st' t',
       insert_all 0 [7; 3; 0] example_state = (Ret tt, st')
       ∧ set_ok st' 0 t'
       ∧ shape_of t' = foldl sadd (shape_of example_tree) [7; 3; 0])
  ∧ set_ok (exec new_set init) 0 Leaf
  ∧ (∃ st' t',
       insert_all 0 [1; 2; 3; 4] (exec new_set init) = (Ret tt, st')
       ∧ set_ok st' 0 t'
       ∧ shape_of t' = spine [1; 2; 3; 4]
       ∧ height t' = length [1; 2; 3; 4]).
Proof.
  assert (budget example_state = None) as Hb by reflexivity.
  assert (set_ok example_state 0 example_tree) as Hok
    by (apply set_okb_sound; vm_compute; reflexivity).
  assert (set_ok (exec new_set init) 0 Leaf) as Hok0
    by (apply set_okb_sound; vm_compute; reflexivity).
  assert (StronglySorted Z.lt [1; 2; 3; 4]) as Hsorted
    by (repeat constructor; lia).
  destruct insert_shape as [H1 H2].
  split; [exact Hb|]. split; [exact Hok|]. split.
  { apply (H1 example_state 0%nat example_tree [7; 3; 0] Hb Hok).
    vm_compute. reflexivity. }
  split; [exact Hok0|].
  apply (H2 (exec new_set init) 0%nat [1; 2; 3; 4] eq_refl Hok0 Hsorted).
  vm_compute. reflexivity.
Defined.
